(** * Spotify playlist automation: descriptions, reconciliation, consolidation

    A shallow embedding of the playlist-automation core
    ([description_helpers.py], [_sync_impl/descriptions.py],
    [playlist_update.py], [playlist_consolidation.py]) together with the
    properties its specification states about it. *)

From Stdlib Require Import ZArith List Bool Lia Ascii String.
From Stdlib Require Import Sorting.Permutation Sorting.Sorted DecimalString.
From stdpp Require Import base option list gmap strings sets sorting.

Import ListNotations.


(* ===================================================================== *)
(** * Python strings as code-point sequences *)
(* ===================================================================== *)

(** A Python [str] is a sequence of code points; [list Z] with every
    element in [0, 0x10FFFF].  Lone surrogates are legal in a [str]. *)

Module PyStr.
Local Open Scope Z_scope.

Definition valid_cp (c : Z) : Prop := 0 <= c <= 1114111.
Definition valid_str (s : list Z) : Prop := Forall valid_cp s.

Definition is_surrogate (c : Z) : bool := (55296 <=? c) && (c <=? 57343).

(** [len(s)] *)
Definition len (s : list Z) : Z := Z.of_nat (length s).

(** [s[:k]]: a negative bound counts from the end and clips at zero. *)
Definition slice_to (k : Z) (s : list Z) : list Z :=
  if 0 <=? k then take (Z.to_nat k) s
  else take (Z.to_nat (len s + k)) s.

(** [s.split(sep)] for a one-character separator: never the empty list. *)
Fixpoint split_on (sep : Z) (s : list Z) : list (list Z) :=
  match s with
  | [] => [[]]
  | c :: s' =>
      if c =? sep then [] :: split_on sep s'
      else match split_on sep s' with
           | l :: ls => (c :: l) :: ls
           | [] => [[c]]
           end
  end.

(** [sep.join(parts)] for a one-character separator. *)
Fixpoint join (sep : Z) (parts : list (list Z)) : list Z :=
  match parts with
  | [] => []
  | [l] => l
  | l :: ls => l ++ sep :: join sep ls
  end.

(** ** UTF-8 *)

(** The bytes of one code point; the shifts and masks of the encoder are
    written as quotients and remainders by powers of 64. *)
Definition utf8_encode_cp (c : Z) : list Z :=
  if c <? 128 then [c]
  else if c <? 2048 then [192 + c / 64; 128 + c mod 64]
  else if c <? 65536 then
    [224 + c / 4096; 128 + (c / 64) mod 64; 128 + c mod 64]
  else
    [240 + c / 262144; 128 + (c / 4096) mod 64;
     128 + (c / 64) mod 64; 128 + c mod 64].

(** [s.encode("utf-8", errors="replace")]: a lone surrogate cannot be
    encoded and is replaced by ['?']. *)
Definition encode_utf8_replace (s : list Z) : list Z :=
  flat_map (fun c => if is_surrogate c then [63] else utf8_encode_cp c) s.

(** [s.encode("utf-8")]: raises [UnicodeEncodeError] on a lone surrogate. *)
Definition encode_utf8 (s : list Z) : option (list Z) :=
  if existsb is_surrogate s then None else Some (flat_map utf8_encode_cp s).

Definition is_cont (b : Z) : bool := (128 <=? b) && (b <=? 191).

(** [bs.decode("utf-8")]: strict; [None] stands for [UnicodeDecodeError]
    (stray continuation byte, truncated or overlong sequence, encoded
    surrogate, value above U+10FFFF). *)
Fixpoint decode_utf8 (bs : list Z) : option (list Z) :=
  match bs with
  | [] => Some []
  | b0 :: r0 =>
      if (0 <=? b0) && (b0 <? 128) then cons b0 <$> decode_utf8 r0
      else if (194 <=? b0) && (b0 <=? 223) then
        match r0 with
        | b1 :: r1 =>
            if is_cont b1
            then cons ((b0 - 192) * 64 + (b1 - 128)) <$> decode_utf8 r1
            else None
        | _ => None
        end
      else if (224 <=? b0) && (b0 <=? 239) then
        match r0 with
        | b1 :: b2 :: r2 =>
            let c := (b0 - 224) * 4096 + (b1 - 128) * 64 + (b2 - 128) in
            if is_cont b1 && is_cont b2 && (2048 <=? c) && negb (is_surrogate c)
            then cons c <$> decode_utf8 r2
            else None
        | _ => None
        end
      else if (240 <=? b0) && (b0 <=? 244) then
        match r0 with
        | b1 :: b2 :: b3 :: r3 =>
            let c := (b0 - 240) * 262144 + (b1 - 128) * 4096
                     + (b2 - 128) * 64 + (b3 - 128) in
            if is_cont b1 && is_cont b2 && is_cont b3
               && (65536 <=? c) && (c <=? 1114111)
            then cons c <$> decode_utf8 r3
            else None
        | _ => None
        end
      else None
  end.

(** ** Facts *)

Lemma len_nonneg s : 0 <= len s.
Proof. unfold len; lia. Qed.

Lemma len_app s t : len (s ++ t) = len s + len t.
Proof. unfold len. rewrite length_app. lia. Qed.

Lemma slice_to_len k s : 0 <= k -> len (slice_to k s) <= k.
Proof.
  intros Hk. unfold slice_to, len.
  destruct (Z.leb_spec 0 k); [|lia].
  rewrite length_take. lia.
Qed.

Lemma slice_to_len_le k s : len (slice_to k s) <= len s.
Proof.
  unfold slice_to, len. destruct (0 <=? k); rewrite length_take; lia.
Qed.

Lemma slice_to_ge k s : len s <= k -> slice_to k s = s.
Proof.
  intros Hk. unfold slice_to, len in *.
  destruct (Z.leb_spec 0 k); [|lia].
  apply take_ge. lia.
Qed.

Lemma slice_to_sub k s c : c ∈ slice_to k s -> c ∈ s.
Proof.
  unfold slice_to. destruct (0 <=? k); intros H;
    (eapply elem_of_sublist; [exact H | apply sublist_take]).
Qed.

Lemma split_on_nonempty sep s : split_on sep s <> [].
Proof.
  destruct s as [|c s]; simpl; [done|].
  destruct (c =? sep); [done|]. by destruct (split_on sep s).
Qed.

Lemma join_split_on sep s : join sep (split_on sep s) = s.
Proof.
  induction s as [|c s IH]; simpl; [done|].
  destruct (Z.eqb_spec c sep) as [->|Hne].
  - pose proof (split_on_nonempty sep s) as Hn.
    destruct (split_on sep s) as [|l ls] eqn:E; [done|].
    simpl in *. by rewrite IH.
  - pose proof (split_on_nonempty sep s) as Hn.
    destruct (split_on sep s) as [|l ls] eqn:E; [done|].
    destruct ls as [|l' ls']; simpl in *; by rewrite <- IH.
Qed.

(** Without the separator there is exactly one part. *)
Lemma split_on_none sep s : sep ∉ s -> split_on sep s = [s].
Proof.
  induction s as [|c s IH]; simpl; [done|].
  intros Hn. apply not_elem_of_cons in Hn as [Hc Hs].
  destruct (Z.eqb_spec c sep); [congruence|]. by rewrite (IH Hs).
Qed.

Lemma split_on_elem sep s l c : l ∈ split_on sep s -> c ∈ l -> c ∈ s.
Proof.
  revert l. induction s as [|a s IH]; simpl; intros l Hl Hc.
  - apply list_elem_of_singleton in Hl. subst. by apply elem_of_nil in Hc.
  - destruct (a =? sep).
    + apply elem_of_cons in Hl as [->|Hl]; [by apply elem_of_nil in Hc|].
      right. eauto.
    + pose proof (split_on_nonempty sep s) as Hn.
      destruct (split_on sep s) as [|l0 ls]; [done|].
      apply elem_of_cons in Hl as [->|Hl].
      * apply elem_of_cons in Hc as [->|Hc]; [left|right; apply (IH l0)];
          try done. left.
      * right. apply (IH l); [by right|done].
Qed.

Lemma join_elem sep ls c :
  c ∈ join sep ls -> c = sep \/ exists l, l ∈ ls /\ c ∈ l.
Proof.
  induction ls as [|l ls IH]; simpl; intros H; [by apply elem_of_nil in H|].
  destruct ls as [|l' ls'].
  - right. exists l. split; [left|done].
  - apply elem_of_app in H as [H|H].
    + right. exists l. split; [left|done].
    + apply elem_of_cons in H as [->|H]; [by left|].
      destruct (IH H) as [->|(l0 & Hl0 & Hc)]; [by left|].
      right. exists l0. split; [by right|done].
Qed.

(** *** The UTF-8 round trip *)

Ltac bool_lia :=
  rewrite ?andb_true_iff, ?andb_false_iff, ?negb_true_iff, ?negb_false_iff,
    ?Z.leb_le, ?Z.ltb_lt, ?Z.leb_gt, ?Z.ltb_ge, ?Z.eqb_eq, ?Z.eqb_neq;
  lia.

Lemma decode_utf8_cons b0 r0 :
  decode_utf8 (b0 :: r0) =
    if (0 <=? b0) && (b0 <? 128) then cons b0 <$> decode_utf8 r0
    else if (194 <=? b0) && (b0 <=? 223) then
      match r0 with
      | b1 :: r1 =>
          if is_cont b1
          then cons ((b0 - 192) * 64 + (b1 - 128)) <$> decode_utf8 r1
          else None
      | _ => None
      end
    else if (224 <=? b0) && (b0 <=? 239) then
      match r0 with
      | b1 :: b2 :: r2 =>
          let c := (b0 - 224) * 4096 + (b1 - 128) * 64 + (b2 - 128) in
          if is_cont b1 && is_cont b2 && (2048 <=? c) && negb (is_surrogate c)
          then cons c <$> decode_utf8 r2
          else None
      | _ => None
      end
    else if (240 <=? b0) && (b0 <=? 244) then
      match r0 with
      | b1 :: b2 :: b3 :: r3 =>
          let c := (b0 - 240) * 262144 + (b1 - 128) * 4096
                   + (b2 - 128) * 64 + (b3 - 128) in
          if is_cont b1 && is_cont b2 && is_cont b3
             && (65536 <=? c) && (c <=? 1114111)
          then cons c <$> decode_utf8 r3
          else None
      | _ => None
      end
    else None.
Proof. destruct r0; reflexivity. Qed.

Lemma decode_utf8_1 b r :
  0 <= b < 128 -> decode_utf8 (b :: r) = cons b <$> decode_utf8 r.
Proof.
  intros Hb. rewrite decode_utf8_cons.
  assert ((0 <=? b) && (b <? 128) = true) as -> by bool_lia. done.
Qed.

Lemma decode_utf8_2 b0 b1 r :
  194 <= b0 <= 223 -> 128 <= b1 <= 191 ->
  decode_utf8 (b0 :: b1 :: r)
  = cons ((b0 - 192) * 64 + (b1 - 128)) <$> decode_utf8 r.
Proof.
  intros H0 H1. rewrite decode_utf8_cons.
  assert ((0 <=? b0) && (b0 <? 128) = false) as -> by bool_lia.
  assert ((194 <=? b0) && (b0 <=? 223) = true) as -> by bool_lia.
  assert (is_cont b1 = true) as -> by (unfold is_cont; bool_lia). done.
Qed.

Lemma decode_utf8_3 b0 b1 b2 r :
  let c := (b0 - 224) * 4096 + (b1 - 128) * 64 + (b2 - 128) in
  224 <= b0 <= 239 -> 128 <= b1 <= 191 -> 128 <= b2 <= 191 ->
  2048 <= c -> is_surrogate c = false ->
  decode_utf8 (b0 :: b1 :: b2 :: r) = cons c <$> decode_utf8 r.
Proof.
  intros c H0 H1 H2 Hc Hs. rewrite decode_utf8_cons. fold c.
  assert ((0 <=? b0) && (b0 <? 128) = false) as -> by bool_lia.
  assert ((194 <=? b0) && (b0 <=? 223) = false) as -> by bool_lia.
  assert ((224 <=? b0) && (b0 <=? 239) = true) as -> by bool_lia.
  assert (is_cont b1 = true) as -> by (unfold is_cont; bool_lia).
  assert (is_cont b2 = true) as -> by (unfold is_cont; bool_lia).
  cbv zeta. fold c.
  assert ((2048 <=? c) = true) as -> by bool_lia.
  rewrite Hs. done.
Qed.

Lemma decode_utf8_4 b0 b1 b2 b3 r :
  let c := (b0 - 240) * 262144 + (b1 - 128) * 4096
           + (b2 - 128) * 64 + (b3 - 128) in
  240 <= b0 <= 244 -> 128 <= b1 <= 191 -> 128 <= b2 <= 191 ->
  128 <= b3 <= 191 -> 65536 <= c <= 1114111 ->
  decode_utf8 (b0 :: b1 :: b2 :: b3 :: r) = cons c <$> decode_utf8 r.
Proof.
  intros c H0 H1 H2 H3 Hc. rewrite decode_utf8_cons.
  assert ((0 <=? b0) && (b0 <? 128) = false) as -> by bool_lia.
  assert ((194 <=? b0) && (b0 <=? 223) = false) as -> by bool_lia.
  assert ((224 <=? b0) && (b0 <=? 239) = false) as -> by bool_lia.
  assert ((240 <=? b0) && (b0 <=? 244) = true) as -> by bool_lia.
  assert (is_cont b1 = true) as -> by (unfold is_cont; bool_lia).
  assert (is_cont b2 = true) as -> by (unfold is_cont; bool_lia).
  assert (is_cont b3 = true) as -> by (unfold is_cont; bool_lia).
  cbv zeta. fold c.
  assert ((65536 <=? c) = true) as -> by bool_lia.
  assert ((c <=? 1114111) = true) as -> by bool_lia. done.
Qed.

Lemma decode_encode_cp c bs :
  valid_cp c -> is_surrogate c = false ->
  decode_utf8 (utf8_encode_cp c ++ bs) = cons c <$> decode_utf8 bs.
Proof.
  intros [Hlo Hhi] Hs. unfold utf8_encode_cp.
  pose proof (Z.div_mod c 64 ltac:(lia)).
  pose proof (Z.mod_pos_bound c 64 ltac:(lia)).
  pose proof (Z.div_mod (c / 64) 64 ltac:(lia)).
  pose proof (Z.mod_pos_bound (c / 64) 64 ltac:(lia)).
  pose proof (Z.div_mod (c / 64 / 64) 64 ltac:(lia)).
  pose proof (Z.mod_pos_bound (c / 64 / 64) 64 ltac:(lia)).
  assert (c / 4096 = c / 64 / 64) as Hq
    by (rewrite Z.div_div by lia; reflexivity).
  assert (c / 262144 = c / 64 / 64 / 64) as Hq3
    by (rewrite !Z.div_div by lia; reflexivity).
  rewrite Hq, Hq3.
  set (q := c / 64) in *. set (r := c mod 64) in *.
  set (q2 := q / 64) in *. set (r2 := q mod 64) in *.
  set (q3 := q2 / 64) in *. set (r3 := q2 mod 64) in *.
  destruct (Z.ltb_spec c 128).
  { cbn [app]. apply decode_utf8_1. lia. }
  destruct (Z.ltb_spec c 2048).
  { cbn [app]. rewrite decode_utf8_2 by lia.
    replace ((192 + q - 192) * 64 + (128 + r - 128)) with c by lia. done. }
  destruct (Z.ltb_spec c 65536).
  { cbn [app].
    assert (c = (224 + q2 - 224) * 4096 + (128 + r2 - 128) * 64
                + (128 + r - 128)) as Hc by lia.
    rewrite decode_utf8_3; rewrite <- ?Hc; try lia; done. }
  cbn [app].
  assert (c = (240 + q3 - 240) * 262144 + (128 + r3 - 128) * 4096
              + (128 + r2 - 128) * 64 + (128 + r - 128)) as Hc by lia.
  rewrite decode_utf8_4; rewrite <- ?Hc; try lia; done.
Qed.

(** What the round trip leaves of a string: surrogates become ['?']. *)
Definition replace_surrogates (s : list Z) : list Z :=
  map (fun c => if is_surrogate c then 63 else c) s.

Lemma decode_encode_replace s :
  valid_str s ->
  decode_utf8 (encode_utf8_replace s) = Some (replace_surrogates s).
Proof.
  induction 1 as [|c s Hc Hs IH]; [done|].
  unfold encode_utf8_replace, replace_surrogates in *. cbn [flat_map map].
  destruct (is_surrogate c) eqn:E.
  - change ([63] ++ ?l) with (63 :: l). cbn [decode_utf8].
    change ((0 <=? 63) && (63 <? 128)) with true. cbn iota. by rewrite IH.
  - rewrite decode_encode_cp by done. by rewrite IH.
Qed.

Lemma replace_surrogates_id s :
  Forall (fun c => is_surrogate c = false) s -> replace_surrogates s = s.
Proof.
  unfold replace_surrogates.
  induction 1 as [|c s Hc Hs IH]; [done|]. cbn. by rewrite Hc, IH.
Qed.

Lemma encode_utf8_some s :
  Forall (fun c => is_surrogate c = false) s ->
  encode_utf8 s = Some (encode_utf8_replace s).
Proof.
  intros H. unfold encode_utf8, encode_utf8_replace.
  assert (existsb is_surrogate s = false) as ->.
  { induction H as [|c s Hc Hs IH]; [done|]. cbn. by rewrite Hc, IH. }
  f_equal. induction H as [|c s Hc Hs IH]; [done|]. cbn. by rewrite Hc, IH.
Qed.

Lemma filter_all_id {A} (f : A -> bool) l :
  Forall (fun x => f x = true) l -> List.filter f l = l.
Proof. induction 1 as [|x l Hx Hl IH]; [done|]. cbn. by rewrite Hx, IH. Qed.

Lemma filter_Forall {A} (f : A -> bool) l :
  Forall (fun x => f x = true) (List.filter f l).
Proof.
  induction l as [|x l IH]; cbn; [constructor|].
  destruct (f x) eqn:E; [by constructor|done].
Qed.

Lemma split_on_two sep s l0 l1 ls :
  split_on sep s = l0 :: l1 :: ls -> sep ∈ s.
Proof.
  intros E. destruct (decide (sep ∈ s)) as [|Hn]; [done|].
  rewrite (split_on_none _ _ Hn) in E. congruence.
Qed.

End PyStr.

(* ===================================================================== *)
(** * Description sanitisation ([description_helpers.py]) *)
(* ===================================================================== *)

Module Sanitize.
Import PyStr.
Local Open Scope Z_scope.

(** The thirty values of [unicodedata.category]. *)
Inductive general_category :=
| Lu | Ll | Lt | Lm | Lo | Mn | Mc | Me | Nd | Nl | No
| Pc | Pd | Ps | Pe | Pi | Pf | Po | Sm | Sc | Sk | So
| Zs | Zl | Zp | Cc | Cf | Cs | Co | Cn.

(** [cat.startswith("C")] *)
Definition starts_with_C (g : general_category) : bool :=
  match g with Cc | Cf | Cs | Co | Cn => true | _ => false end.

Definition is_So (g : general_category) : bool :=
  match g with So => true | _ => false end.

Definition is_Sk (g : general_category) : bool :=
  match g with Sk => true | _ => false end.

(** The class [[\x00-\x08\x0B-\x0C\x0E-\x1F\x7F]] of the [re.sub] call. *)
Definition in_control_class (c : Z) : bool :=
  ((0 <=? c) && (c <=? 8)) || ((11 <=? c) && (c <=? 12))
  || ((14 <=? c) && (c <=? 31)) || (c =? 127).

(** The code points of general category Cc: U+0000..U+001F and
    U+007F..U+009F. *)
Definition is_control (c : Z) : bool :=
  ((0 <=? c) && (c <=? 31)) || ((127 <=? c) && (c <=? 159)).

Definition SPOTIFY_MAX_DESCRIPTION_LENGTH : Z := 300.

Definition NL : Z := 10.
Definition CR : Z := 13.
Definition ELLIPSIS : list Z := [46; 46; 46].

Section WithUnicodeData.

(** [unicodedata.category] and [unicodedata.normalize("NFC", _)] are the
    interpreter's Unicode tables; the sanitiser is embedded over them. *)
Variable category : Z -> general_category.
Variable normalize_NFC : list Z -> list Z.

(** The per-character test of [_strip_emoji_and_problematic]: [true] when
    the character is appended to [out]. *)
Definition keeps (c : Z) : bool :=
  let cat := category c in
  if starts_with_C cat then false
  else if (65024 <=? c) && (c <=? 65039) then false
  else if is_So cat && (127744 <=? c) then false
  else if is_Sk cat && (127995 <=? c) && (c <=? 127999) then false
  else true.

Definition _strip_emoji_and_problematic (s : list Z) : list Z :=
  List.filter keeps s.

(** The truncation block of [sanitize_description_for_api]
    ([if len(s) > max_length: ...]). *)
Definition truncate (s : list Z) (max_length : Z) : list Z :=
  if max_length <? len s then
    match split_on NL s with
    | line0 :: lines_tl =>
        if len line0 <=? max_length - 10 then
          let rest := join NL lines_tl in
          let keep := max_length - len line0 - 5 in
          if (0 <? keep) && (keep <? len rest)
          then line0 ++ [NL] ++ slice_to keep rest ++ ELLIPSIS
          else slice_to (max_length - 3) line0 ++ ELLIPSIS
        else slice_to (max_length - 3) s ++ ELLIPSIS
    | [] => slice_to (max_length - 3) s ++ ELLIPSIS
    end
  else s.

(** The second guard, [if len(s) > max_length: s = s[:max_length]]. *)
Definition hard_cap (s : list Z) (max_length : Z) : list Z :=
  if max_length <? len s then slice_to max_length s else s.

(** The text steps before the final UTF-8 round trip. *)
Definition sanitize_text (s : list Z) (max_length : Z) : list Z :=
  let s := normalize_NFC s in
  let s := _strip_emoji_and_problematic s in
  let s := List.filter (fun c => negb (in_control_class c)) s in
  let s := List.filter (fun c => negb (c =? CR)) s in
  let s := truncate s max_length in
  hard_cap s max_length.

(** [sanitize_description_for_api(description, max_length)].  The
    argument is [None] for Python's [None]; the result is [None] when the
    call raises (only [decode] could). *)
Definition sanitize_description_for_api
    (description : option (list Z)) (max_length : Z) : option (list Z) :=
  match description with
  | None => Some []
  | Some s => decode_utf8 (encode_utf8_replace (sanitize_text s max_length))
  end.

(** ** Properties *)

(** What is assumed of the Unicode tables: normalisation yields code
    points; U+0000..U+001F and U+007F..U+009F are the controls (Cc); the
    surrogate block is Cs; the full stop is not in a C category. *)
Hypothesis normalize_NFC_valid :
  forall s, valid_str s -> valid_str (normalize_NFC s).
Hypothesis category_control :
  forall c, is_control c = true -> category c = Cc.
Hypothesis category_surrogate :
  forall c, is_surrogate c = true -> category c = Cs.
Hypothesis category_full_stop : category 46 = Po.

Lemma keeps_not_control c : keeps c = true -> is_control c = false.
Proof.
  intros Hk. destruct (is_control c) eqn:E; [|done].
  unfold keeps in Hk. by rewrite (category_control c E) in Hk.
Qed.

Lemma keeps_not_surrogate c : keeps c = true -> is_surrogate c = false.
Proof.
  intros Hk. destruct (is_surrogate c) eqn:E; [|done].
  unfold keeps in Hk. by rewrite (category_surrogate c E) in Hk.
Qed.

Lemma keeps_full_stop : keeps 46 = true.
Proof. unfold keeps. by rewrite category_full_stop. Qed.

Lemma control_class_is_control c :
  in_control_class c = true -> is_control c = true.
Proof.
  unfold in_control_class, is_control.
  rewrite !orb_true_iff, !andb_true_iff, !Z.leb_le, Z.eqb_eq. lia.
Qed.

Lemma truncate_elem s m c : c ∈ truncate s m -> c ∈ s \/ c = 46.
Proof.
  unfold truncate. destruct (m <? len s); [|by left].
  assert (forall k t, c ∈ slice_to k t ++ ELLIPSIS -> c ∈ t \/ c = 46) as Hsl.
  { intros k t H. apply elem_of_app in H as [H|H].
    - left. eapply slice_to_sub, H.
    - right. unfold ELLIPSIS in H.
      repeat (apply elem_of_cons in H as [H|H]; [done|]).
      by apply elem_of_nil in H. }
  destruct (split_on NL s) as [|line0 tl] eqn:E; [apply Hsl|].
  assert (forall x, x ∈ line0 -> x ∈ s) as Hl0.
  { intros x Hx. eapply (split_on_elem NL s line0); [|done].
    rewrite E. left. }
  destruct (len line0 <=? m - 10).
  - destruct ((0 <? m - len line0 - 5) && (m - len line0 - 5 <? len (join NL tl)))
      eqn:Ek.
    + intros H. apply elem_of_app in H as [H|H]; [left; auto|].
      assert (NL ∈ s) as Hnl.
      { destruct tl as [|l1 ls]; [|by eapply split_on_two].
        apply andb_true_iff in Ek as [Ek1 Ek2].
        apply Z.ltb_lt in Ek1, Ek2. unfold len in Ek1, Ek2. simpl in Ek2.
        lia. }
      apply elem_of_app in H as [H|H].
      { apply list_elem_of_singleton in H. subst. by left. }
      destruct (Hsl _ _ H) as [H'|H']; [|by right].
      destruct (join_elem _ _ _ H') as [->|(l & Hl & Hc)]; [by left|].
      left. eapply (split_on_elem NL s l); [|done]. rewrite E. by right.
    + intros H. destruct (Hsl _ _ H) as [H'|H']; [left; auto|by right].
  - apply Hsl.
Qed.

Lemma hard_cap_elem s m c : c ∈ hard_cap s m -> c ∈ s.
Proof.
  unfold hard_cap. destruct (m <? len s); [apply slice_to_sub|done].
Qed.

Lemma hard_cap_len s m : 0 <= m -> len (hard_cap s m) <= m.
Proof.
  intros Hm. unfold hard_cap. destruct (Z.ltb_spec m (len s)); [|done].
  by apply slice_to_len.
Qed.

Lemma truncate_short s m : len s <= m -> truncate s m = s.
Proof.
  intros H. unfold truncate. by destruct (Z.ltb_spec m (len s)); [lia|].
Qed.

Lemma hard_cap_short s m : len s <= m -> hard_cap s m = s.
Proof.
  intros H. unfold hard_cap. by destruct (Z.ltb_spec m (len s)); [lia|].
Qed.

(** Every character of the text before the round trip was kept by the
    emoji filter and is a code point. *)
Lemma sanitize_text_kept s m :
  valid_str s ->
  Forall (fun c => keeps c = true /\ valid_cp c) (sanitize_text s m).
Proof.
  intros Hv. apply Forall_forall. intros c Hc.
  unfold sanitize_text in Hc.
  apply hard_cap_elem, truncate_elem in Hc as [Hc| ->].
  - apply list_elem_of_In, filter_In in Hc as [Hc _].
    apply filter_In in Hc as [Hc _].
    unfold _strip_emoji_and_problematic in Hc.
    apply filter_In in Hc as [Hc Hk]. split; [done|].
    apply normalize_NFC_valid in Hv.
    unfold valid_str in Hv. rewrite Forall_forall in Hv.
    by apply Hv, list_elem_of_In.
  - split; [apply keeps_full_stop | unfold valid_cp; lia].
Qed.

Lemma sanitize_text_fixpoint t m :
  Forall (fun c => keeps c = true /\ valid_cp c) t ->
  len t <= m -> normalize_NFC t = t -> sanitize_text t m = t.
Proof.
  intros Hk Hlen Hn. unfold sanitize_text. rewrite Hn.
  unfold _strip_emoji_and_problematic.
  assert (List.filter keeps t = t) as ->.
  { apply filter_all_id. eapply Forall_impl; [exact Hk|]. by intros c [? _]. }
  assert (List.filter (fun c => negb (in_control_class c)) t = t) as ->.
  { apply filter_all_id. eapply Forall_impl; [exact Hk|]. intros c [Hc _].
    cbn. apply keeps_not_control in Hc.
    destruct (in_control_class c) eqn:E; [|done].
    apply control_class_is_control in E. congruence. }
  assert (List.filter (fun c => negb (c =? CR)) t = t) as ->.
  { apply filter_all_id. eapply Forall_impl; [exact Hk|]. intros c [Hc _].
    cbn. apply keeps_not_control in Hc.
    destruct (Z.eqb_spec c CR) as [->|]; [|done]. by cbv in Hc. }
  rewrite truncate_short by done. by apply hard_cap_short.
Qed.

Lemma sanitize_text_len s m : 0 <= m -> len (sanitize_text s m) <= m.
Proof. intros Hm. unfold sanitize_text. by apply hard_cap_len. Qed.

Lemma sanitize_description_for_api_eq s m :
  valid_str s ->
  sanitize_description_for_api (Some s) m = Some (sanitize_text s m).
Proof.
  intros Hv. unfold sanitize_description_for_api.
  pose proof (sanitize_text_kept s m Hv) as Hk.
  rewrite decode_encode_replace.
  2:{ eapply Forall_impl; [exact Hk|]. by intros c [_ ?]. }
  f_equal. apply replace_surrogates_id.
  eapply Forall_impl; [exact Hk|]. intros c [Hc _].
  by apply keeps_not_surrogate.
Qed.

(** C5 (as amended).  On every string of code points and every bound
    [max_length >= 0] the sanitiser returns a string that is at most
    [max_length] long, contains no control character (none of
    U+0000..U+001F, U+007F..U+009F) and encodes to UTF-8 that decodes back
    to it; sanitising the result again returns it unchanged whenever NFC
    normalisation leaves the result as it is. *)
Theorem sanitize_description_for_api_sound (s : list Z) (max_length : Z) :
  valid_str s -> 0 <= max_length ->
  exists out,
    sanitize_description_for_api (Some s) max_length = Some out
    /\ len out <= max_length
    /\ Forall (fun c => is_control c = false) out
    /\ (exists bs, encode_utf8 out = Some bs /\ decode_utf8 bs = Some out)
    /\ (normalize_NFC out = out ->
        sanitize_description_for_api (Some out) max_length = Some out).
Proof.
  intros Hv Hm. exists (sanitize_text s max_length).
  pose proof (sanitize_text_kept s max_length Hv) as Hk.
  pose proof (sanitize_text_len s max_length Hm) as Hlen.
  assert (valid_str (sanitize_text s max_length)) as Hv'.
  { eapply Forall_impl; [exact Hk|]. by intros c [_ ?]. }
  assert (Forall (fun c => is_surrogate c = false) (sanitize_text s max_length))
    as Hns.
  { eapply Forall_impl; [exact Hk|]. intros c [Hc _].
    by apply keeps_not_surrogate. }
  split; [by apply sanitize_description_for_api_eq|].
  split; [done|]. split.
  { eapply Forall_impl; [exact Hk|]. intros c [Hc _].
    by apply keeps_not_control. }
  split.
  { eexists. split; [by apply encode_utf8_some|].
    rewrite decode_encode_replace by done.
    by rewrite replace_surrogates_id. }
  intros Hn. rewrite sanitize_description_for_api_eq by done.
  f_equal. by apply sanitize_text_fixpoint.
Qed.

End WithUnicodeData.

(** ** A finite excerpt of the Unicode tables

    Enough of [unicodedata] to run the sanitiser on concrete text: the
    categories of ASCII, of the C1 controls, of the combining diacritics
    U+0300..U+036F, of the format characters U+200B..U+200F, of surrogates
    and private use, and of the pictographs U+1F300..U+1F64F; every other code
    point is reported as a letter. *)
Definition category_excerpt (c : Z) : general_category :=
  if is_control c then Cc
  else if c =? 32 then Zs
  else if (48 <=? c) && (c <=? 57) then Nd
  else if (65 <=? c) && (c <=? 90) then Lu
  else if (97 <=? c) && (c <=? 122) then Ll
  else if (c =? 36) then Sc
  else if (c =? 43) || ((60 <=? c) && (c <=? 62)) || (c =? 124) || (c =? 126)
       then Sm
  else if (c =? 94) || (c =? 96) then Sk
  else if (c =? 40) || (c =? 91) || (c =? 123) then Ps
  else if (c =? 41) || (c =? 93) || (c =? 125) then Pe
  else if c =? 45 then Pd
  else if c =? 95 then Pc
  else if c <? 127 then Po
  else if c =? 173 then Cf
  else if (768 <=? c) && (c <=? 879) then Mn
  else if (8203 <=? c) && (c <=? 8207) then Cf
  else if is_surrogate c then Cs
  else if (57344 <=? c) && (c <=? 63743) then Co
  else if (127995 <=? c) && (c <=? 127999) then Sk
  else if (127744 <=? c) && (c <=? 128591) then So
  else Lo.

(** Canonical composition restricted to a Latin vowel followed directly
    by U+0301 COMBINING ACUTE ACCENT; on text made of ASCII, format
    characters and U+0301 this is what NFC does. *)
Definition compose_acute (b : Z) : option Z :=
  if b =? 97 then Some 225        (* a *)
  else if b =? 101 then Some 233  (* e *)
  else if b =? 105 then Some 237  (* i *)
  else if b =? 111 then Some 243  (* o *)
  else if b =? 117 then Some 250  (* u *)
  else None.

Fixpoint nfc_excerpt (s : list Z) : list Z :=
  match s with
  | [] => []
  | b :: s' =>
      match s' with
      | m :: s'' =>
          if m =? 769 then
            match compose_acute b with
            | Some p => p :: nfc_excerpt s''
            | None => b :: nfc_excerpt s'
            end
          else b :: nfc_excerpt s'
      | [] => [b]
      end
  end.


(** ** The excerpt satisfies what is assumed of the tables *)

Lemma nfc_excerpt_valid s : valid_str s -> valid_str (nfc_excerpt s).
Proof.
  remember (length s) as n eqn:Hn. revert s Hn.
  induction n as [n IH] using lt_wf_ind. intros s -> Hv.
  destruct s as [|b [|m s'']]; [done|done|].
  cbn [nfc_excerpt].
  apply Forall_cons in Hv as [Hb Hv].
  pose proof Hv as Hv'. apply Forall_cons in Hv' as [Hm' Hv''].
  assert (valid_str (nfc_excerpt (m :: s''))) as IH1
    by (eapply (IH (length (m :: s''))); [simpl; lia|done|done]).
  assert (valid_str (nfc_excerpt s'')) as IH2
    by (eapply (IH (length s'')); [simpl; lia|done|done]).
  destruct (m =? 769); [|by apply Forall_cons].
  destruct (compose_acute b) as [p|] eqn:Ep; [|by apply Forall_cons].
  apply Forall_cons. split; [|done].
  unfold compose_acute in Ep.
  repeat match type of Ep with
         | (if ?c then _ else _) = _ => destruct c
         end; inversion Ep; unfold valid_cp; lia.
Qed.

Lemma category_excerpt_control c :
  is_control c = true -> category_excerpt c = Cc.
Proof. intros H. unfold category_excerpt. by rewrite H. Qed.

Lemma category_excerpt_surrogate c :
  is_surrogate c = true -> category_excerpt c = Cs.
Proof.
  intros H. unfold category_excerpt. rewrite H.
  unfold is_surrogate in H. apply andb_true_iff in H as [H1 H2].
  apply Z.leb_le in H1, H2.
  assert (is_control c = false) as -> by (unfold is_control; bool_lia).
  repeat match goal with
    | |- (if ?b then _ else _) = _ =>
        let E := fresh in
        assert (b = false) as E
          by (rewrite ?orb_false_iff; repeat split; bool_lia);
        rewrite E; clear E
    end.
  reflexivity.
Qed.

Definition sanitize_excerpt (d : option (list Z)) : option (list Z) :=
  sanitize_description_for_api category_excerpt nfc_excerpt d
    SPOTIFY_MAX_DESCRIPTION_LENGTH.

(** "Hi\n" + U+1F600 + "!\x07" loses the line feed, the pictograph and
    the bell. *)
Example sanitize_hi :
  sanitize_excerpt (Some [72; 105; 10; 128512; 33; 7]) = Some [72; 105; 33].
Proof. vm_compute. reflexivity. Qed.

(** 400 letters are cut to 297 letters and three full stops. *)
Example sanitize_long :
  sanitize_excerpt (Some (repeat 97 400))
  = Some (repeat 97 297 ++ [46; 46; 46]).
Proof. vm_compute. reflexivity. Qed.

Lemma sanitize_description_for_api_sound_witness :
  let s := [72; 105; 10; 128512; 33; 7] in
  valid_str s /\ 0 <= 300 /\
  exists out,
    sanitize_excerpt (Some s) = Some out
    /\ len out <= 300
    /\ Forall (fun c => is_control c = false) out
    /\ (exists bs, encode_utf8 out = Some bs /\ decode_utf8 bs = Some out)
    /\ (nfc_excerpt out = out -> sanitize_excerpt (Some out) = Some out).
Proof.
  intros s.
  assert (valid_str s) as Hv
    by (repeat (apply Forall_cons; split; [unfold valid_cp; lia|]);
        apply Forall_nil_2).
  split; [exact Hv|]. split; [lia|].
  exact (sanitize_description_for_api_sound category_excerpt nfc_excerpt
           nfc_excerpt_valid category_excerpt_control
           category_excerpt_surrogate eq_refl s 300 Hv ltac:(lia)).
Defined.

(** C5 (counterexample to idempotence).  "e", U+200D ZERO WIDTH JOINER,
    U+0301 COMBINING ACUTE ACCENT is in NFC; the joiner (category Cf) is
    stripped, which leaves "e" + U+0301; a second pass composes that to
    U+00E9. *)
Lemma sanitize_description_for_api_not_idempotent :
  sanitize_excerpt (Some [101; 8205; 769]) = Some [101; 769]
  /\ sanitize_excerpt (Some [101; 769]) = Some [233]
  /\ sanitize_excerpt (sanitize_excerpt (Some [101; 8205; 769]))
     <> sanitize_excerpt (Some [101; 8205; 769]).
Proof. vm_compute. repeat split; congruence. Qed.

End Sanitize.

(* ===================================================================== *)
(** * Python containers and text helpers used by the automation scripts *)
(* ===================================================================== *)

Module Py.

(** ** Dictionaries: association lists in insertion order, unique keys *)
Section Dict.
Context {K V : Type} `{EqDecision K}.

Fixpoint dict_get (k : K) (d : list (K * V)) : option V :=
  match d with
  | [] => None
  | (k', v) :: d' => if decide (k = k') then Some v else dict_get k d'
  end.

(** [d[k] = v]: overwrite in place or append. *)
Fixpoint dict_set (k : K) (v : V) (d : list (K * V)) : list (K * V) :=
  match d with
  | [] => [(k, v)]
  | (k', v') :: d' =>
      if decide (k = k') then (k, v) :: d' else (k', v') :: dict_set k v d'
  end.

(** [k in d] *)
Definition dict_in (k : K) (d : list (K * V)) : bool :=
  match dict_get k d with Some _ => true | None => false end.

(** [del d[k]] guarded by [k in d]. *)
Fixpoint dict_del (k : K) (d : list (K * V)) : list (K * V) :=
  match d with
  | [] => []
  | (k', v') :: d' =>
      if decide (k = k') then d' else (k', v') :: dict_del k d'
  end.

Lemma dict_get_elem k v d : dict_get k d = Some v -> (k, v) ∈ d.
Proof.
  induction d as [|[k' v'] d IH]; cbn; [done|].
  destruct (decide (k = k')) as [->|]; intros H.
  - inversion H; subst. left.
  - right. auto.
Qed.

Lemma dict_get_set_eq k v d : dict_get k (dict_set k v d) = Some v.
Proof.
  induction d as [|[k' v'] d IH]; cbn.
  - by rewrite decide_True.
  - destruct (decide (k = k')) as [->|Hne]; cbn.
    + by rewrite decide_True.
    + by rewrite decide_False.
Qed.

Lemma dict_get_set_ne k k' v d :
  k <> k' -> dict_get k' (dict_set k v d) = dict_get k' d.
Proof.
  intros Hne. induction d as [|[k0 v0] d IH]; cbn.
  - by rewrite decide_False.
  - destruct (decide (k = k0)) as [->|Hne0]; cbn.
    + by rewrite !decide_False.
    + destruct (decide (k' = k0)); [done|apply IH].
Qed.

Lemma dict_set_keys k v d k' :
  k' ∈ (dict_set k v d).*1 <-> k' = k \/ k' ∈ d.*1.
Proof.
  induction d as [|[k0 v0] d IH]; cbn.
  - rewrite list_elem_of_singleton, elem_of_nil. tauto.
  - destruct (decide (k = k0)) as [->|Hne]; cbn.
    + rewrite !elem_of_cons. tauto.
    + rewrite !elem_of_cons, IH. tauto.
Qed.

Lemma dict_get_None k d : dict_get k d = None <-> k ∉ d.*1.
Proof.
  induction d as [|[k0 v0] d IH]; cbn.
  - rewrite elem_of_nil. tauto.
  - rewrite not_elem_of_cons. destruct (decide (k = k0)) as [->|Hne].
    + split; [done|]. intros [H _]. done.
    + rewrite IH. tauto.
Qed.

End Dict.

(** ** [_chunked(lst, n)]: consecutive slices of [n] items *)
Fixpoint chunked_fuel {A} (fuel n : nat) (l : list A) : list (list A) :=
  match fuel with
  | O => []
  | S fuel' =>
      match l with
      | [] => []
      | _ => take n l :: chunked_fuel fuel' n (drop n l)
      end
  end.

Definition _chunked {A} (l : list A) (n : nat) : list (list A) :=
  chunked_fuel (length l) n l.

Lemma chunked_fuel_concat {A} fuel n (l : list A) :
  0 < n -> length l <= fuel -> concat (chunked_fuel fuel n l) = l.
Proof.
  intros Hn. revert l. induction fuel as [|fuel IH]; intros l Hl.
  - destruct l; [done|simpl in Hl; lia].
  - destruct l as [|x l]; [done|].
    cbn [chunked_fuel concat]. rewrite IH.
    + apply take_drop.
    + rewrite length_drop. simpl in *. lia.
Qed.

Lemma _chunked_concat {A} (l : list A) n :
  0 < n -> concat (_chunked l n) = l.
Proof. intros Hn. by apply chunked_fuel_concat. Qed.

Lemma chunked_fuel_bounds {A} fuel n (l : list A) :
  0 < n ->
  Forall (fun c => c <> [] /\ length c <= n) (chunked_fuel fuel n l).
Proof.
  intros Hn. revert l. induction fuel as [|fuel IH]; intros l; [constructor|].
  destruct l as [|x l]; [constructor|].
  cbn [chunked_fuel]. constructor; [|apply IH]. split.
  - destruct n; [lia|done].
  - rewrite length_take. lia.
Qed.

Lemma _chunked_bounds {A} (l : list A) n :
  0 < n -> Forall (fun c => c <> [] /\ length c <= n) (_chunked l n).
Proof. apply chunked_fuel_bounds. Qed.

(** ** Order-preserving de-duplication, the
    [[u for u in uris if not (u in seen or seen.add(u))]] idiom. *)
Fixpoint dedup_seen (seen : gset string) (l : list string) : list string :=
  match l with
  | [] => []
  | u :: l' =>
      if decide (u ∈ seen) then dedup_seen seen l'
      else u :: dedup_seen ({[u]} ∪ seen) l'
  end.

Definition dedup_order (l : list string) : list string := dedup_seen ∅ l.

Lemma dedup_seen_elem seen l u :
  u ∈ dedup_seen seen l <-> u ∈ l /\ u ∉ seen.
Proof.
  revert seen. induction l as [|x l IH]; intros seen; cbn.
  - rewrite elem_of_nil. tauto.
  - destruct (decide (x ∈ seen)) as [Hx|Hx].
    + rewrite IH, elem_of_cons. split; [tauto|].
      intros [[->|H] Hn]; [done|tauto].
    + rewrite !elem_of_cons, IH, elem_of_union, elem_of_singleton.
      split.
      * intros [->|[H Hn]]; [tauto|]. split; [tauto|]. tauto.
      * intros [[->|H] Hn]; [tauto|].
        destruct (decide (u = x)) as [->|]; tauto.
Qed.

Lemma dedup_seen_NoDup seen l : NoDup (dedup_seen seen l).
Proof.
  revert seen. induction l as [|x l IH]; intros seen; cbn; [constructor|].
  destruct (decide (x ∈ seen)); [apply IH|].
  constructor; [|apply IH]. rewrite dedup_seen_elem.
  intros [_ H]. apply H, elem_of_union. left. by apply elem_of_singleton.
Qed.

Lemma dedup_order_elem l u : u ∈ dedup_order l <-> u ∈ l.
Proof.
  unfold dedup_order. rewrite dedup_seen_elem.
  split; [tauto|]. intros H. split; [done|]. apply not_elem_of_empty.
Qed.

(** ** Sorting

    [sorted] and [list.sort] are stable; any stable sort returns the same
    list, insertion from the right is the one written here.  [before x y]
    says that [x], met first, may stay in front of [y]: [key x <= key y]
    for an ascending sort, [key x >= key y] with [reverse=True]. *)
Section Sort.
Context {A : Type} (before : A -> A -> bool).

Fixpoint insert_by (x : A) (l : list A) : list A :=
  match l with
  | [] => [x]
  | y :: l' => if before x y then x :: l else y :: insert_by x l'
  end.

Definition sort_by (l : list A) : list A := foldr insert_by [] l.

Lemma insert_by_perm x l : Permutation (insert_by x l) (x :: l).
Proof.
  induction l as [|y l IH]; cbn; [done|].
  destruct (before x y); [done|].
  rewrite IH. apply perm_swap.
Qed.

Lemma sort_by_perm l : Permutation (sort_by l) l.
Proof.
  induction l as [|x l IH]; cbn; [done|].
  rewrite insert_by_perm. by constructor.
Qed.

Lemma sort_by_elem l x : x ∈ sort_by l <-> x ∈ l.
Proof. by rewrite (sort_by_perm l). Qed.

Lemma sort_by_length l : length (sort_by l) = length l.
Proof. by rewrite (sort_by_perm l). Qed.

(** Stability: elements that [before] cannot tell apart keep their
    order. *)
Lemma insert_by_filter (p : A -> bool) x l :
  (forall y, p x = true -> p y = true -> before x y = true) ->
  List.filter p (insert_by x l) = List.filter p (x :: l).
Proof.
  intros Hp. induction l as [|y l IH]; [done|].
  cbn [insert_by]. destruct (before x y) eqn:E; [done|].
  cbn [List.filter] in *. rewrite IH.
  destruct (p x) eqn:Ex; [|done].
  destruct (p y) eqn:Ey; [|done].
  rewrite Hp in E; done.
Qed.

Lemma sort_by_stable (p : A -> bool) l :
  (forall x y, p x = true -> p y = true -> before x y = true) ->
  List.filter p (sort_by l) = List.filter p l.
Proof.
  intros Hp. induction l as [|x l IH]; [done|].
  cbn [sort_by foldr]. rewrite insert_by_filter by (intros; by apply Hp).
  cbn [List.filter]. fold (sort_by l). by rewrite IH.
Qed.

Hypothesis before_total : forall x y, before x y = true \/ before y x = true.
Hypothesis before_trans :
  forall x y z, before x y = true -> before y z = true -> before x z = true.

Lemma insert_by_sorted x l :
  StronglySorted (fun a b => before a b = true) l ->
  StronglySorted (fun a b => before a b = true) (insert_by x l).
Proof.
  induction 1 as [|y l Hs IH Hy]; cbn; [repeat constructor|].
  destruct (before x y) eqn:E.
  - constructor; [by constructor|]. constructor; [done|].
    eapply Forall_impl; [exact Hy|]. intros z Hz. by eapply before_trans.
  - constructor; [done|].
    rewrite (insert_by_perm x l). constructor; [|done].
    destruct (before_total x y); congruence.
Qed.

Lemma sort_by_sorted l :
  StronglySorted (fun a b => before a b = true) (sort_by l).
Proof.
  induction l as [|x l IH]; cbn; [constructor|]. by apply insert_by_sorted.
Qed.

End Sort.

(** A sorted list stays as it is. *)
Lemma sort_by_id {A} (before : A -> A -> bool) l :
  StronglySorted (fun a b => before a b = true) l -> sort_by before l = l.
Proof.
  induction 1 as [|x l Hs IH Hx]; [done|].
  cbn [sort_by foldr]. fold (sort_by before l). rewrite IH.
  destruct l as [|y l]; [done|]. cbn.
  apply Forall_cons in Hx as [-> _]. done.
Qed.

(** ** Text *)

Local Open Scope string_scope.

(** [s.startswith(p)] *)
Definition startswith (s p : string) : bool := String.prefix p s.

(** [s[n:]] *)
Fixpoint str_drop (n : nat) (s : string) : string :=
  match n, s with
  | O, _ => s
  | S n', String _ s' => str_drop n' s'
  | S _, EmptyString => EmptyString
  end.

(** [sub in s] *)
Definition str_contains (s sub : string) : bool :=
  match String.index 0 sub s with Some _ => true | None => false end.

(** The characters of a [string] stand for the code points U+0000 to
    U+00FF.  Of these the decimal digits (category Nd), which [int] and
    the pattern [\d] accept, are [0] to [9]. *)
Definition is_decimal_char (a : ascii) : bool :=
  (48 <=? N_of_ascii a)%N && (N_of_ascii a <=? 57)%N.

(** [c.isdigit()]: the decimal digits and the superscripts two, three
    and one (U+00B2, U+00B3, U+00B9). *)
Definition is_digit_char (a : ascii) : bool :=
  is_decimal_char a
  || (N_of_ascii a =? 178)%N || (N_of_ascii a =? 179)%N
  || (N_of_ascii a =? 185)%N.

(** [s.isdigit()]: non-empty and digits only. *)
Definition isdigit (s : string) : bool :=
  match s with
  | EmptyString => false
  | _ => forallb is_digit_char (list_ascii_of_string s)
  end.

(** [s.isdecimal()], and a full match of [\d+]: non-empty and decimal
    digits only. *)
Definition isdecimal (s : string) : bool :=
  match s with
  | EmptyString => false
  | _ => forallb is_decimal_char (list_ascii_of_string s)
  end.

(** The number a string of decimal digits writes. *)
Definition int_of_digits (s : string) : Z :=
  fold_left (fun acc a => acc * 10 + (Z.of_N (N_of_ascii a) - 48))%Z
            (list_ascii_of_string s) 0%Z.

(** [int(s)] for a string with [s.isdigit()]; [None] when it raises
    [ValueError], which it does on a digit that is not decimal. *)
Definition int_of_isdigit (s : string) : option Z :=
  if isdecimal s then Some (int_of_digits s) else None.

Definition digit_char (d : Z) : ascii := ascii_of_N (Z.to_N (48 + d)).

(** Two- and four-digit zero-padded decimals ([%m], [%Y]). *)
Definition pad2 (n : Z) : string :=
  String (digit_char (n / 10 mod 10)) (String (digit_char (n mod 10)) "").

Definition pad4 (n : Z) : string :=
  String (digit_char (n / 1000 mod 10))
    (String (digit_char (n / 100 mod 10)) (pad2 n)).

(** [s.split(sep)] for a one-character separator. *)
Fixpoint str_split (sep : ascii) (s : string) : list string :=
  match s with
  | EmptyString => [EmptyString]
  | String c s' =>
      if Ascii.eqb c sep then EmptyString :: str_split sep s'
      else match str_split sep s' with
           | l :: ls => String c l :: ls
           | [] => [String c EmptyString]
           end
  end.

(** [s.replace(old, new)]: all non-overlapping occurrences, left to
    right; an empty [old] matches before every character and at the end. *)
Fixpoint str_replace_fuel (fuel : nat) (s old new : string) : string :=
  match fuel with
  | O => s
  | S fuel' =>
      match s with
      | EmptyString => EmptyString
      | String c s' =>
          if String.prefix old s
          then new +:+ str_replace_fuel fuel' (str_drop (String.length old) s)
                         old new
          else String c (str_replace_fuel fuel' s' old new)
      end
  end.

Fixpoint str_intersperse (new s : string) : string :=
  match s with
  | EmptyString => new
  | String c s' => new +:+ String c (str_intersperse new s')
  end.

Definition str_replace (s old new : string) : string :=
  match old with
  | EmptyString => str_intersperse new s
  | _ => str_replace_fuel (String.length s) s old new
  end.

Definition is_upper_char (a : ascii) : bool :=
  (65 <=? N_of_ascii a)%N && (N_of_ascii a <=? 90)%N.
Definition is_lower_char (a : ascii) : bool :=
  (97 <=? N_of_ascii a)%N && (N_of_ascii a <=? 122)%N.
Definition upper_char (a : ascii) : ascii :=
  if is_lower_char a then ascii_of_N (N_of_ascii a - 32) else a.
Definition lower_char (a : ascii) : ascii :=
  if is_upper_char a then ascii_of_N (N_of_ascii a + 32) else a.

Fixpoint str_map (f : ascii -> ascii) (s : string) : string :=
  match s with
  | EmptyString => EmptyString
  | String c s' => String (f c) (str_map f s')
  end.

(** [s.upper()], [s.lower()] and [s.title()] on ASCII text. *)
Definition str_upper : string -> string := str_map upper_char.
Definition str_lower : string -> string := str_map lower_char.

Fixpoint str_title_from (prev_cased : bool) (s : string) : string :=
  match s with
  | EmptyString => EmptyString
  | String c s' =>
      let cased := is_upper_char c || is_lower_char c in
      String (if prev_cased then lower_char c else upper_char c)
             (str_title_from cased s')
  end.

Definition str_title : string -> string := str_title_from false.

(** Truthiness of a string. *)
Definition nonempty (s : string) : bool :=
  match s with EmptyString => false | _ => true end.

(** ** [str.format]

    [template.format(name=value, ...)] for keyword arguments that are
    strings, on templates whose replacement fields are bare names:
    literal text,
    the escapes [{{] and [}}], and fields [{name}].  A field whose name
    is no keyword (the empty and the numbered ones included, there being
    no positional argument) raises [KeyError] or [IndexError]; a brace
    that opens no field or closes none raises [ValueError].  A field
    with a conversion, a format specification, an attribute or an index
    ([!], [:], [.], [[]) is left to the interpreter. *)
Inductive formatted :=
| Formatted (s : string)
| FormatError
| NotPlain.

Definition formatted_prepend (p : string) (r : formatted) : formatted :=
  match r with
  | Formatted s => Formatted (p +:+ s)
  | r => r
  end.

Definition is_field_syntax (c : ascii) : bool :=
  Ascii.eqb c "!" || Ascii.eqb c ":" || Ascii.eqb c "." || Ascii.eqb c "[".

(** [field] is [None] in literal text and holds the name read so far
    inside a replacement field. *)
Fixpoint format_from (kwargs : list (string * string))
    (field : option string) (s : string) : formatted :=
  match field with
  | None =>
      match s with
      | EmptyString => Formatted ""
      | String c s' =>
          if Ascii.eqb c "{" then
            match s' with
            | EmptyString => FormatError
            | String c' s'' =>
                if Ascii.eqb c' "{"
                then formatted_prepend "{" (format_from kwargs None s'')
                else format_from kwargs (Some "") s'
            end
          else if Ascii.eqb c "}" then
            match s' with
            | String c' s'' =>
                if Ascii.eqb c' "}"
                then formatted_prepend "}" (format_from kwargs None s'')
                else FormatError
            | EmptyString => FormatError
            end
          else formatted_prepend (String c "") (format_from kwargs None s')
      end
  | Some name =>
      match s with
      | EmptyString => FormatError
      | String c s' =>
          if Ascii.eqb c "}" then
            match dict_get name kwargs with
            | Some v => formatted_prepend v (format_from kwargs None s')
            | None => FormatError
            end
          else if Ascii.eqb c "{" then FormatError
          else if is_field_syntax c then NotPlain
          else format_from kwargs (Some (name +:+ String c "")) s'
      end
  end.

Definition str_format_plain (template : string)
    (kwargs : list (string * string)) : formatted :=
  format_from kwargs None template.

End Py.

(* ===================================================================== *)
(** * Calendar months and their ["YYYY-MM"] strings *)
(* ===================================================================== *)

Module Calendar.
Import Py.
Local Open Scope Z_scope.

(** The fields of [datetime.now()] that the scripts read. *)
Record datetime := { dt_year : Z; dt_month : Z; dt_day : Z }.

Definition is_leap (y : Z) : bool :=
  ((y mod 4 =? 0) && negb (y mod 100 =? 0)) || (y mod 400 =? 0).

(** [calendar.monthrange(y, m)[1]] *)
Definition days_in_month (y m : Z) : Z :=
  if m =? 2 then (if is_leap y then 29 else 28)
  else if (m =? 4) || (m =? 6) || (m =? 9) || (m =? 11) then 30
  else 31.

(** [now - relativedelta(months=n)]: the month moves back by [n], the
    year follows, the day is clipped to the length of the new month. *)
Definition minus_months (now : datetime) (n : Z) : datetime :=
  let t := dt_year now * 12 + (dt_month now - 1) - n in
  let y := t / 12 in
  let m := t mod 12 + 1 in
  {| dt_year := y; dt_month := m;
     dt_day := Z.min (dt_day now) (days_in_month y m) |}.

(** [d.strftime("%Y-%m")] *)
Definition strftime_Ym (d : datetime) : string :=
  pad4 (dt_year d) +:+ "-" +:+ pad2 (dt_month d).

(** [str(n)] for a Python [int]. *)
Definition str_int (n : Z) : string :=
  DecimalString.NilZero.string_of_int (Z.to_int n).

(** Months counted from year 0, for stating results. *)
Definition month_index (y m : Z) : Z := y * 12 + (m - 1).

(** [MONTH_NAMES] ([config.py]): month number to abbreviation, in the
    order of the dictionary literal. *)
Definition MONTH_NAMES : list (string * string) :=
  [("01", "Jan"); ("02", "Feb"); ("03", "Mar"); ("04", "Apr");
   ("05", "May"); ("06", "Jun"); ("07", "Jul"); ("08", "Aug");
   ("09", "Sep"); ("10", "Oct"); ("11", "Nov"); ("12", "Dec")]%string.

(** ** Facts *)

Lemma minus_months_index now n :
  1 <= dt_month now <= 12 ->
  let d := minus_months now n in
  1 <= dt_month d <= 12 /\
  month_index (dt_year d) (dt_month d)
  = month_index (dt_year now) (dt_month now) - n.
Proof.
  intros Hm. unfold minus_months, month_index. cbn.
  pose proof (Z.div_mod (dt_year now * 12 + (dt_month now - 1) - n) 12
                ltac:(lia)).
  pose proof (Z.mod_pos_bound (dt_year now * 12 + (dt_month now - 1) - n) 12
                ltac:(lia)).
  lia.
Qed.

Lemma ascii_compare_digit a b :
  0 <= a < 10 -> 0 <= b < 10 ->
  Ascii.compare (digit_char a) (digit_char b) = (a ?= b).
Proof.
  intros Ha Hb. unfold Ascii.compare, digit_char.
  rewrite !N_ascii_embedding by lia.
  rewrite Z2N.inj_compare by lia. apply Z.add_compare_mono_l.
Qed.

Lemma string_compare_cons a b s t :
  String.compare (String a s) (String b t)
  = match Ascii.compare a b with
    | Eq => String.compare s t
    | r => r
    end.
Proof. reflexivity. Qed.

Lemma str_int_pad4 y : 1000 <= y <= 9999 -> str_int y = pad4 y.
Proof.
  intros Hy.
  assert (forallb (fun y => String.eqb (str_int y) (pad4 y)) (seqZ 1000 9000)
          = true) as Hall by (vm_compute; reflexivity).
  rewrite forallb_forall in Hall.
  apply String.eqb_eq, Hall, list_elem_of_In, elem_of_seqZ. lia.
Qed.

(** Four-digit years and two-digit months compare as strings the way
    they compare as months. *)
Lemma pad_leb y1 m1 y2 m2 :
  0 <= y1 <= 9999 -> 0 <= y2 <= 9999 -> 0 <= m1 <= 99 -> 0 <= m2 <= 99 ->
  String.leb (pad4 y1 +:+ "-" +:+ pad2 m1) (pad4 y2 +:+ "-" +:+ pad2 m2)
  = true
  <-> y1 < y2 \/ (y1 = y2 /\ m1 <= m2).
Proof.
  intros Hy1 Hy2 Hm1 Hm2. unfold String.leb, pad4, pad2.
  set (a3 := y1 / 1000 mod 10). set (a2 := y1 / 100 mod 10).
  set (a1 := y1 / 10 mod 10). set (a0 := y1 mod 10).
  set (b3 := y2 / 1000 mod 10). set (b2 := y2 / 100 mod 10).
  set (b1 := y2 / 10 mod 10). set (b0 := y2 mod 10).
  set (c1 := m1 / 10 mod 10). set (c0 := m1 mod 10).
  set (d1 := m2 / 10 mod 10). set (d0 := m2 mod 10).
  assert (y1 = 1000 * a3 + 100 * a2 + 10 * a1 + a0
          /\ 0 <= a3 < 10 /\ 0 <= a2 < 10 /\ 0 <= a1 < 10 /\ 0 <= a0 < 10)
    as (Ey1 & ? & ? & ? & ?)
    by (subst a3 a2 a1 a0; Z.div_mod_to_equations; lia).
  assert (y2 = 1000 * b3 + 100 * b2 + 10 * b1 + b0
          /\ 0 <= b3 < 10 /\ 0 <= b2 < 10 /\ 0 <= b1 < 10 /\ 0 <= b0 < 10)
    as (Ey2 & ? & ? & ? & ?)
    by (subst b3 b2 b1 b0; Z.div_mod_to_equations; lia).
  assert (m1 = 10 * c1 + c0 /\ 0 <= c1 < 10 /\ 0 <= c0 < 10)
    as (Em1 & ? & ?) by (subst c1 c0; Z.div_mod_to_equations; lia).
  assert (m2 = 10 * d1 + d0 /\ 0 <= d1 < 10 /\ 0 <= d0 < 10)
    as (Em2 & ? & ?) by (subst d1 d0; Z.div_mod_to_equations; lia).
  clearbody a3 a2 a1 a0 b3 b2 b1 b0 c1 c0 d1 d0.
  cbv [String.append].
  rewrite !string_compare_cons, !ascii_compare_digit by lia.
  change (Ascii.compare "-" "-") with Eq. cbn [String.compare].
  repeat match goal with
         | |- context [?a ?= ?b] => destruct (Z.compare_spec a b)
         end; split; intros; try done; lia.
Qed.

Lemma strftime_Ym_leb d1 d2 :
  1000 <= dt_year d1 <= 9999 -> 1000 <= dt_year d2 <= 9999 ->
  1 <= dt_month d1 <= 12 -> 1 <= dt_month d2 <= 12 ->
  String.leb (strftime_Ym d1) (strftime_Ym d2) = true
  <-> month_index (dt_year d1) (dt_month d1)
      <= month_index (dt_year d2) (dt_month d2).
Proof.
  intros. unfold strftime_Ym. rewrite pad_leb by lia.
  unfold month_index. lia.
Qed.

End Calendar.

(* ===================================================================== *)
(** * The remote service, the local caches and the effect monad *)
(* ===================================================================== *)

Module Spotify.
Import Py.

Record playlist := {
  pl_name : string;
  pl_description : list Z;
  pl_snapshot_id : string;
  pl_tracks : list string;
}.

(** The calls that reach the remote API. *)
Inductive api_request :=
| GetPlaylist (pid : string)
| GetPlaylistItems (pid : string)
| ListPlaylists
| GetUser
| CreatePlaylist (name : string) (description : list Z)
| AddItems (pid : string) (uris : list string)
| ChangeDetails (pid : string) (description : list Z)
| DeletePlaylist (pid : string).

Definition is_mutation (r : api_request) : bool :=
  match r with
  | CreatePlaylist _ _ | AddItems _ _ | ChangeDetails _ _ | DeletePlaylist _ =>
      true
  | _ => false
  end.

Record backup := {
  bk_id : string;
  bk_name : string;
  bk_tracks : gset string;
}.

(** Everything a run can read or change.  [calls] is the history of
    remote calls, oldest first, each with the remote state it met. *)
Record world := {
  remote : gmap string playlist;
  calls : list (api_request * gmap string playlist);
  _playlist_tracks_cache : gmap string (gset string);
  _playlist_cache : option (list (string * string));
  description_cache_file : option string;
  backups : list backup;
}.

(** The client handle [sp]: the account it is logged into and the
    service's choice of identifiers and change markers. *)
Record client := {
  sp_user_id : string;
  sp_new_id : gmap string playlist -> string;
  sp_new_snapshot : playlist -> string;
}.

Definition set_remote (f : gmap string playlist -> gmap string playlist)
    (w : world) : world :=
  {| remote := f (remote w); calls := calls w;
     _playlist_tracks_cache := _playlist_tracks_cache w;
     _playlist_cache := _playlist_cache w;
     description_cache_file := description_cache_file w;
     backups := backups w |}.

Definition log_call (r : api_request) (w : world) : world :=
  {| remote := remote w; calls := calls w ++ [(r, remote w)];
     _playlist_tracks_cache := _playlist_tracks_cache w;
     _playlist_cache := _playlist_cache w;
     description_cache_file := description_cache_file w;
     backups := backups w |}.

Definition set_tracks_cache
    (f : gmap string (gset string) -> gmap string (gset string))
    (w : world) : world :=
  {| remote := remote w; calls := calls w;
     _playlist_tracks_cache := f (_playlist_tracks_cache w);
     _playlist_cache := _playlist_cache w;
     description_cache_file := description_cache_file w;
     backups := backups w |}.

Definition set_playlist_cache (c : option (list (string * string)))
    (w : world) : world :=
  {| remote := remote w; calls := calls w;
     _playlist_tracks_cache := _playlist_tracks_cache w;
     _playlist_cache := c;
     description_cache_file := description_cache_file w;
     backups := backups w |}.

Definition set_cache_file (c : option string) (w : world) : world :=
  {| remote := remote w; calls := calls w;
     _playlist_tracks_cache := _playlist_tracks_cache w;
     _playlist_cache := _playlist_cache w;
     description_cache_file := c;
     backups := backups w |}.

Definition add_backup (b : backup) (w : world) : world :=
  {| remote := remote w; calls := calls w;
     _playlist_tracks_cache := _playlist_tracks_cache w;
     _playlist_cache := _playlist_cache w;
     description_cache_file := description_cache_file w;
     backups := backups w ++ [b] |}.

(** ** Computations that may raise *)

(** The exceptions the scripts tell apart. *)
Inductive exn := UnicodeEncodeError | Exception.

Inductive outcome (A : Type) :=
| Ok (a : A)
| Raised (e : exn).
Arguments Ok {A} a.
Arguments Raised {A} e.

Definition M (A : Type) : Type := world -> outcome A * world.

Definition ret {A} (a : A) : M A := fun w => (Ok a, w).

Definition bind {A B} (m : M A) (k : A -> M B) : M B :=
  fun w =>
    match m w with
    | (Ok a, w') => k a w'
    | (Raised e, w') => (Raised e, w')
    end.

Definition raise {A} (e : exn) : M A := fun w => (Raised e, w).

(** [try: m  except ... as e: h e] *)
Definition try_except {A} (m : M A) (h : exn -> M A) : M A :=
  fun w =>
    match m w with
    | (Ok a, w') => (Ok a, w')
    | (Raised e, w') => h e w'
    end.

Definition get_world : M world := fun w => (Ok w, w).
Definition modify (f : world -> world) : M unit := fun w => (Ok tt, f w).

Global Instance M_ret : MRet M := @ret.
Global Instance M_bind : MBind M := fun A B k m => bind m k.

Fixpoint for_each {A} (l : list A) (body : A -> M unit) : M unit :=
  match l with
  | [] => ret tt
  | x :: l' => body x ;; for_each l' body
  end.

(** A loop that threads a local variable. *)
Fixpoint fold_each {A S} (l : list A) (s : S) (body : S -> A -> M S) : M S :=
  match l with
  | [] => ret s
  | x :: l' => s' ← body s x; fold_each l' s' body
  end.

(** [@handle_errors(reraise=False, default_return=d)] *)
Definition handle_errors {A} (d : A) (m : M A) : M A :=
  try_except m (fun _ => ret d).

(** ** The remote operations ([api_call(sp.<method>, ...)]) *)

Definition sp_playlist (pid : string) : M playlist :=
  modify (log_call (GetPlaylist pid)) ;;
  w ← get_world;
  match remote w !! pid with
  | Some pl => ret pl
  | None => raise Exception
  end.

Definition sp_user_playlist_create (sp : client) (name : string)
    (description : list Z) : M string :=
  modify (log_call (CreatePlaylist name description)) ;;
  w ← get_world;
  let pid := sp_new_id sp (remote w) in
  let pl := {| pl_name := name; pl_description := description;
               pl_snapshot_id := ""; pl_tracks := [] |} in
  modify (set_remote
            <[pid := {| pl_name := name; pl_description := description;
                        pl_snapshot_id := sp_new_snapshot sp pl;
                        pl_tracks := [] |}]>) ;;
  ret pid.

Definition sp_playlist_add_items (sp : client) (pid : string)
    (uris : list string) : M unit :=
  modify (log_call (AddItems pid uris)) ;;
  w ← get_world;
  match remote w !! pid with
  | Some pl =>
      modify (set_remote
                <[pid := {| pl_name := pl_name pl;
                            pl_description := pl_description pl;
                            pl_snapshot_id := sp_new_snapshot sp pl;
                            pl_tracks := pl_tracks pl ++ uris |}]>)
  | None => raise Exception
  end.

Definition sp_user_playlist_change_details (sp : client) (pid : string)
    (description : list Z) : M unit :=
  modify (log_call (ChangeDetails pid description)) ;;
  w ← get_world;
  match remote w !! pid with
  | Some pl =>
      modify (set_remote
                <[pid := {| pl_name := pl_name pl;
                            pl_description := description;
                            pl_snapshot_id := sp_new_snapshot sp pl;
                            pl_tracks := pl_tracks pl |}]>)
  | None => raise Exception
  end.

Definition sp_current_user_unfollow_playlist (pid : string) : M unit :=
  modify (log_call (DeletePlaylist pid)) ;;
  w ← get_world;
  match remote w !! pid with
  | Some _ => modify (set_remote (delete pid))
  | None => raise Exception
  end.

(** ** The catalog helpers *)

(** Modelled from the spec: [get_user_info] of the missing catalog module;
    the gateway's fetch-user-profile, of which the scripts read the id. *)
Definition get_user_info (sp : client) : M string :=
  modify (log_call GetUser) ;; ret (sp_user_id sp).

(** Modelled from the spec: [get_existing_playlists] of the missing catalog
    module; the name-to-id dictionary of the playlists the gateway
    enumerates, kept in a module-level cache until invalidated. *)
Definition get_existing_playlists (sp : client) (force_refresh : bool)
    : M (list (string * string)) :=
  w ← get_world;
  match (if force_refresh then None else _playlist_cache w) with
  | Some d => ret d
  | None =>
      modify (log_call ListPlaylists) ;;
      let d := fold_left (fun d kv => dict_set (pl_name kv.2) kv.1 d)
                         (map_to_list (remote w)) [] in
      modify (set_playlist_cache (Some d)) ;;
      ret d
  end.

(** Modelled from the spec: [_invalidate_playlist_cache] of the missing
    catalog module; drops the cached playlist dictionary. *)
Definition _invalidate_playlist_cache : M unit :=
  modify (set_playlist_cache None).

(** Modelled from the spec: [get_playlist_tracks] of the missing catalog
    module; the set of track URIs of a playlist, from the module-level
    cache unless [force_refresh]; a playlist that is gone remotely has no
    tracks. *)
Definition get_playlist_tracks (sp : client) (pid : string)
    (force_refresh : bool) : M (gset string) :=
  w ← get_world;
  match (if force_refresh then None else _playlist_tracks_cache w !! pid) with
  | Some s => ret s
  | None =>
      modify (log_call (GetPlaylistItems pid)) ;;
      let s : gset string :=
        match remote w !! pid with
        | Some pl => list_to_set (pl_tracks pl)
        | None => ∅
        end in
      modify (set_tracks_cache <[pid := s]>) ;;
      ret s
  end.

(** The live track set of a playlist. *)
Definition live_tracks (r : gmap string playlist) (pid : string)
    : gset string :=
  match r !! pid with
  | Some pl => list_to_set (pl_tracks pl)
  | None => ∅
  end.

(** ** Safe deletion *)

(** Modelled from the spec: [safe_delete_playlist] of the missing
    [data_protection] module, section 4.3: fetch the target's tracks; write
    the backup if asked; if a successor is given, re-fetch it bypassing the
    cache and give up, without deleting, when a target track is missing
    from it; issue the remote delete; report success and the backup. *)
Definition safe_delete_playlist (sp : client) (playlist_id name : string)
    (create_backup : bool) (verify_tracks_preserved_in : option string)
    : M (bool * option nat) :=
  tracks ← get_playlist_tracks sp playlist_id true;
  backup_file ←
    (if create_backup then
       w ← get_world;
       modify (add_backup {| bk_id := playlist_id; bk_name := name;
                             bk_tracks := tracks |}) ;;
       ret (Some (length (backups w)))
     else ret None);
  preserved ←
    (match verify_tracks_preserved_in with
     | Some successor =>
         kept ← get_playlist_tracks sp successor true;
         ret (bool_decide (tracks ⊆ kept))
     | None => ret true
     end : M bool);
  if (preserved : bool) then
    try_except
      (sp_current_user_unfollow_playlist playlist_id ;;
       ret (true, backup_file))
      (fun _ => ret (false, backup_file))
  else ret (false, backup_file).

(** ** Reasoning about runs *)

Lemma bind_run {A B} (m : M A) (k : A -> M B) w :
  (m ≫= k) w = match m w with
               | (Ok a, w') => k a w'
               | (Raised e, w') => (Raised e, w')
               end.
Proof. reflexivity. Qed.

Arguments ret {A} a w /.
Arguments raise {A} e w /.
Arguments modify f w /.
Arguments get_world w /.

Ltac mrun :=
  repeat first [ rewrite bind_run
               | progress cbn [modify get_world ret raise] ].

(** [steps R m]: every run of [m] takes the world to an [R]-related one. *)
Definition steps {A} (R : relation world) (m : M A) : Prop :=
  forall w, R w (m w).2.

Section Steps.
Context (R : relation world) `{!Reflexive R, !Transitive R}.

Lemma steps_ret {A} (a : A) : steps R (ret a).
Proof. intros w. reflexivity. Qed.

Lemma steps_raise {A} e : steps R (@raise A e).
Proof. intros w. reflexivity. Qed.

Lemma steps_get_world : steps R get_world.
Proof. intros w. reflexivity. Qed.

Lemma steps_modify f : (forall w, R w (f w)) -> steps R (modify f).
Proof. intros H w. apply H. Qed.

Lemma steps_bind {A B} (m : M A) (k : A -> M B) :
  steps R m -> (forall a, steps R (k a)) -> steps R (m ≫= k).
Proof.
  intros Hm Hk w. rewrite bind_run. specialize (Hm w).
  destruct (m w) as [[a|e] w']; cbn in *; [|done].
  etransitivity; [exact Hm|apply Hk].
Qed.

Lemma steps_try_except {A} (m : M A) h :
  steps R m -> (forall e, steps R (h e)) -> steps R (try_except m h).
Proof.
  intros Hm Hh w. unfold try_except. specialize (Hm w).
  destruct (m w) as [[a|e] w']; cbn in *; [done|].
  etransitivity; [exact Hm|apply Hh].
Qed.

Lemma steps_handle_errors {A} (d : A) m :
  steps R m -> steps R (handle_errors d m).
Proof. intros Hm. apply steps_try_except; [done|]. intros _. apply steps_ret. Qed.

Lemma steps_for_each {A} (l : list A) body :
  (forall x, x ∈ l -> steps R (body x)) -> steps R (for_each l body).
Proof.
  induction l as [|x l IH]; intros Hb; cbn; [apply steps_ret|].
  apply steps_bind; [apply Hb; left|].
  intros _. apply IH. intros y Hy. apply Hb. by right.
Qed.

Lemma steps_fold_each {A S} (l : list A) (s : S) body :
  (forall s x, x ∈ l -> steps R (body s x)) -> steps R (fold_each l s body).
Proof.
  revert s. induction l as [|x l IH]; intros s Hb; cbn; [apply steps_ret|].
  apply steps_bind; [apply Hb; left|].
  intros s'. apply IH. intros s0 y Hy. apply Hb. by right.
Qed.

End Steps.

Lemma steps_mono {A} (R R' : relation world) (m : M A) :
  (forall w w', R w w' -> R' w w') -> steps R m -> steps R' m.
Proof. intros H Hm w. apply H, Hm. Qed.

(** [m] never raises. *)
Definition total {A} (m : M A) : Prop := forall w, exists a, (m w).1 = Ok a.

Lemma total_ret {A} (a : A) : total (ret a).
Proof. intros w. by exists a. Qed.

Lemma total_modify f : total (modify f).
Proof. intros w. by exists tt. Qed.

Lemma total_get_world : total get_world.
Proof. intros w. by exists w. Qed.

Lemma total_bind {A B} (m : M A) (k : A -> M B) :
  total m -> (forall a, total (k a)) -> total (m ≫= k).
Proof.
  intros Hm Hk w. rewrite bind_run. destruct (Hm w) as [a Ha].
  destruct (m w) as [[a'|e] w']; cbn in *; [|done]. apply Hk.
Qed.

Lemma total_try_except {A} (m : M A) h :
  (forall e, total (h e)) -> total (try_except m h).
Proof.
  intros Hh w. unfold try_except.
  destruct (m w) as [[a|e] w']; cbn; [by exists a|apply Hh].
Qed.

Lemma total_handle_errors {A} (d : A) m : total (handle_errors d m).
Proof. apply total_try_except. intros _. apply total_ret. Qed.

Lemma total_for_each {A} (l : list A) body :
  (forall x, total (body x)) -> total (for_each l body).
Proof.
  intros Hb. induction l as [|x l IH]; cbn; [apply total_ret|].
  apply total_bind; [apply Hb|done].
Qed.

(** The remote calls a run adds all satisfy [P]. *)
Definition only_calls (P : api_request * gmap string playlist -> Prop)
    : relation world :=
  fun w w' => exists new, calls w' = calls w ++ new /\ Forall P new.

Global Instance only_calls_refl P : Reflexive (only_calls P).
Proof. intros w. exists []. by rewrite app_nil_r. Qed.

Global Instance only_calls_trans P : Transitive (only_calls P).
Proof.
  intros w1 w2 w3 (n1 & E1 & F1) (n2 & E2 & F2). exists (n1 ++ n2).
  split; [by rewrite E2, E1, app_assoc|by apply Forall_app].
Qed.

Lemma only_calls_log P r w : P (r, remote w) -> only_calls P w (log_call r w).
Proof. intros H. exists [(r, remote w)]. split; [done|by constructor]. Qed.

Lemma only_calls_same P w w' : calls w' = calls w -> only_calls P w w'.
Proof. intros H. exists []. by rewrite app_nil_r. Qed.

Lemma only_calls_mono (P Q : _ -> Prop) w w' :
  (forall c, P c -> Q c) -> only_calls P w w' -> only_calls Q w w'.
Proof.
  intros H (new & E & F). exists new. split; [done|].
  eapply Forall_impl; eauto.
Qed.

(** The remote state is untouched. *)
Definition same_remote : relation world := fun w w' => remote w' = remote w.

Global Instance same_remote_refl : Reflexive same_remote.
Proof. by intros w. Qed.

Global Instance same_remote_trans : Transitive same_remote.
Proof. intros w1 w2 w3 H1 H2. unfold same_remote in *. congruence. Qed.

(** Playlists are neither removed nor renamed and lose no track. *)
Definition playlists_grow : relation world :=
  fun w w' =>
    forall pid pl, remote w !! pid = Some pl ->
      exists pl', remote w' !! pid = Some pl'
                  /\ pl_name pl' = pl_name pl
                  /\ forall u, u ∈ pl_tracks pl -> u ∈ pl_tracks pl'.

Global Instance playlists_grow_refl : Reflexive playlists_grow.
Proof. intros w pid pl H. by exists pl. Qed.

Global Instance playlists_grow_trans : Transitive playlists_grow.
Proof.
  intros w1 w2 w3 H1 H2 pid pl H.
  destruct (H1 _ _ H) as (pl' & H' & Hn' & Ht').
  destruct (H2 _ _ H') as (pl'' & H'' & Hn'' & Ht'').
  exists pl''. split; [done|]. split; [congruence|auto].
Qed.

Lemma same_remote_grow w w' : same_remote w w' -> playlists_grow w w'.
Proof. intros H pid pl Hp. exists pl. by rewrite H. Qed.

(** Names and track lists are as they were; nothing is created or
    deleted. *)
Definition content_of (pl : playlist) : string * list string :=
  (pl_name pl, pl_tracks pl).

Definition same_content : relation world :=
  fun w w' =>
    forall pid, content_of <$> remote w' !! pid = content_of <$> remote w !! pid.

Global Instance same_content_refl : Reflexive same_content.
Proof. by intros w pid. Qed.

Global Instance same_content_trans : Transitive same_content.
Proof. intros w1 w2 w3 H1 H2 pid. by rewrite H2, H1. Qed.

Lemma same_remote_content w w' : same_remote w w' -> same_content w w'.
Proof. intros H pid. by rewrite H. Qed.

Lemma same_content_grow w w' : same_content w w' -> playlists_grow w w'.
Proof.
  intros H pid pl Hp. specialize (H pid). rewrite Hp in H.
  destruct (remote w' !! pid) as [pl'|]; [|done].
  cbn in H. injection H as Hn Ht. exists pl'. split; [done|].
  split; [done|]. by rewrite Ht.
Qed.

(** The local files and backups are untouched. *)
Definition same_files : relation world :=
  fun w w' =>
    description_cache_file w' = description_cache_file w
    /\ backups w' = backups w.

Global Instance same_files_refl : Reflexive same_files.
Proof. by intros w. Qed.

Global Instance same_files_trans : Transitive same_files.
Proof. intros w1 w2 w3 [? ?] [? ?]. split; congruence. Qed.

(** Decompose a [steps] goal along the structure of the program. *)
Ltac steps_go :=
  repeat match goal with
    | |- steps _ (ret _) => apply steps_ret; try tc_solve
    | |- steps _ (raise _) => apply steps_raise; try tc_solve
    | |- steps _ get_world => apply steps_get_world; try tc_solve
    | |- steps _ (_ ≫= _) => apply steps_bind; try tc_solve; [|intros ?]
    | |- steps _ (try_except _ _) =>
        apply steps_try_except; try tc_solve; [|intros ?]
    | |- steps _ (handle_errors _ _) =>
        apply steps_handle_errors; try tc_solve
    | |- steps _ (modify _) => apply steps_modify; intros ?
    | |- steps _ (match ?x with _ => _ end) => destruct x
    end.

Section Primitives.
Context (R : relation world) `{!Reflexive R, !Transitive R}.
Context (sp : client).

Lemma steps_sp_playlist pid :
  (forall w, R w (log_call (GetPlaylist pid) w)) -> steps R (sp_playlist pid).
Proof. intros H. unfold sp_playlist. steps_go. apply H. Qed.

Lemma steps_get_playlist_tracks pid force :
  (forall w, R w (log_call (GetPlaylistItems pid) w)) ->
  (forall w f, R w (set_tracks_cache f w)) ->
  steps R (get_playlist_tracks sp pid force).
Proof.
  intros H1 H2. unfold get_playlist_tracks. steps_go; [apply H1|apply H2].
Qed.

Lemma steps_get_existing_playlists force :
  (forall w, R w (log_call ListPlaylists w)) ->
  (forall w c, R w (set_playlist_cache c w)) ->
  steps R (get_existing_playlists sp force).
Proof.
  intros H1 H2. unfold get_existing_playlists. steps_go; [apply H1|apply H2].
Qed.

Lemma steps_get_user_info :
  (forall w, R w (log_call GetUser w)) -> steps R (get_user_info sp).
Proof. intros H. unfold get_user_info. steps_go. apply H. Qed.

Lemma steps_invalidate :
  (forall w c, R w (set_playlist_cache c w)) ->
  steps R _invalidate_playlist_cache.
Proof. intros H. unfold _invalidate_playlist_cache. steps_go. apply H. Qed.

Lemma steps_change_details pid d :
  (forall w, R w (log_call (ChangeDetails pid d) w)) ->
  (forall w pl, remote w !! pid = Some pl ->
     R w (set_remote
            <[pid := {| pl_name := pl_name pl; pl_description := d;
                        pl_snapshot_id := sp_new_snapshot sp pl;
                        pl_tracks := pl_tracks pl |}]> w)) ->
  steps R (sp_user_playlist_change_details sp pid d).
Proof.
  intros H1 H2 w. unfold sp_user_playlist_change_details. mrun.
  cbn [remote log_call].
  destruct (remote w !! pid) as [pl|] eqn:E; mrun; cbn [snd]; [|apply H1].
  etransitivity; [apply H1|]. by apply H2.
Qed.

Lemma steps_add_items pid uris :
  (forall w, R w (log_call (AddItems pid uris) w)) ->
  (forall w pl, remote w !! pid = Some pl ->
     R w (set_remote
            <[pid := {| pl_name := pl_name pl;
                        pl_description := pl_description pl;
                        pl_snapshot_id := sp_new_snapshot sp pl;
                        pl_tracks := pl_tracks pl ++ uris |}]> w)) ->
  steps R (sp_playlist_add_items sp pid uris).
Proof.
  intros H1 H2 w. unfold sp_playlist_add_items. mrun.
  cbn [remote log_call].
  destruct (remote w !! pid) as [pl|] eqn:E; mrun; cbn [snd]; [|apply H1].
  etransitivity; [apply H1|]. by apply H2.
Qed.

Lemma steps_create name d :
  (forall w, R w (log_call (CreatePlaylist name d) w)) ->
  (forall w snap,
     R w (set_remote
            <[sp_new_id sp (remote w) :=
                {| pl_name := name; pl_description := d;
                   pl_snapshot_id := snap; pl_tracks := [] |}]> w)) ->
  steps R (sp_user_playlist_create sp name d).
Proof.
  intros H1 H2 w. unfold sp_user_playlist_create. mrun. cbn [snd].
  etransitivity; [apply H1|]. apply H2.
Qed.

Lemma steps_unfollow pid :
  (forall w, R w (log_call (DeletePlaylist pid) w)) ->
  (forall w, R w (set_remote (delete pid) w)) ->
  steps R (sp_current_user_unfollow_playlist pid).
Proof.
  intros H1 H2 w. unfold sp_current_user_unfollow_playlist. mrun.
  cbn [remote log_call].
  destruct (remote w !! pid) as [pl|] eqn:E; mrun; cbn [snd]; [|apply H1].
  etransitivity; [apply H1|]. by apply H2.
Qed.

End Primitives.

(** Decompose a [steps] goal down to the changes of the world. *)
Ltac steps_all :=
  repeat match goal with
    | |- steps _ (ret _) => apply steps_ret; try tc_solve
    | |- steps _ (raise _) => apply steps_raise; try tc_solve
    | |- steps _ get_world => apply steps_get_world; try tc_solve
    | |- steps _ (_ ≫= _) => apply steps_bind; try tc_solve; [|intros ?]
    | |- steps _ (try_except _ _) =>
        apply steps_try_except; try tc_solve; [|intros ?]
    | |- steps _ (handle_errors _ _) =>
        apply steps_handle_errors; try tc_solve
    | |- steps _ (modify _) => apply steps_modify; intros ?
    | |- steps _ (for_each _ _) =>
        apply steps_for_each; try tc_solve; intros ? ?
    | |- steps _ (fold_each _ _ _) =>
        apply steps_fold_each; try tc_solve; intros ? ? ?
    | |- steps _ (sp_playlist _) => apply steps_sp_playlist; try tc_solve
    | |- steps _ (get_playlist_tracks _ _ _) =>
        apply steps_get_playlist_tracks; try tc_solve
    | |- steps _ (get_existing_playlists _ _) =>
        apply steps_get_existing_playlists; try tc_solve
    | |- steps _ (get_user_info _) => apply steps_get_user_info; try tc_solve
    | |- steps _ _invalidate_playlist_cache =>
        apply steps_invalidate; try tc_solve
    | |- steps _ (sp_user_playlist_change_details _ _ _) =>
        apply steps_change_details; try tc_solve
    | |- steps _ (sp_playlist_add_items _ _ _) =>
        apply steps_add_items; try tc_solve
    | |- steps _ (sp_user_playlist_create _ _ _) =>
        apply steps_create; try tc_solve
    | |- steps _ (sp_current_user_unfollow_playlist _) =>
        apply steps_unfollow; try tc_solve
    | |- steps _ (match ?x with _ => _ end) => destruct x
    end.

(** Any call at all. *)
Definition any_call (c : api_request * gmap string playlist) : Prop := True.

Ltac any_calls :=
  steps_all; intros;
  first [ by apply only_calls_log | by apply only_calls_same ].

(** No playlist disappears. *)
Definition playlists_stay : relation world :=
  fun w w' => forall pid, is_Some (remote w !! pid) -> is_Some (remote w' !! pid).

Global Instance playlists_stay_refl : Reflexive playlists_stay.
Proof. by intros w pid. Qed.

Global Instance playlists_stay_trans : Transitive playlists_stay.
Proof. intros w1 w2 w3 H1 H2 pid H. by apply H2, H1. Qed.

Lemma same_remote_stay w w' : remote w' = remote w -> playlists_stay w w'.
Proof. intros H pid. by rewrite H. Qed.

Lemma insert_stay pid pl w : playlists_stay w (set_remote <[pid := pl]> w).
Proof.
  intros q Hq. cbn. destruct (decide (pid = q)) as [->|Hne].
  - by rewrite lookup_insert_eq.
  - by rewrite lookup_insert_ne.
Qed.

Lemma same_content_stay w w' : same_content w w' -> playlists_stay w w'.
Proof.
  intros H pid [pl Hp]. specialize (H pid). rewrite Hp in H.
  destruct (remote w' !! pid); [by eexists|done].
Qed.

(** The request [r] is among the calls made from [w] to [w']. *)
Definition issued (r : api_request) (w w' : world) : Prop :=
  exists new, calls w' = calls w ++ new /\ r ∈ new.*1.

Lemma issued_then r w w1 w2 :
  issued r w w1 -> only_calls any_call w1 w2 -> issued r w w2.
Proof.
  intros (n1 & E1 & H1) (n2 & E2 & _). exists (n1 ++ n2).
  split; [by rewrite E2, E1, app_assoc|].
  rewrite fmap_app, elem_of_app. by left.
Qed.

Lemma then_issued r w w1 w2 :
  only_calls any_call w w1 -> issued r w1 w2 -> issued r w w2.
Proof.
  intros (n1 & E1 & _) (n2 & E2 & H2). exists (n1 ++ n2).
  split; [by rewrite E2, E1, app_assoc|].
  rewrite fmap_app, elem_of_app. by right.
Qed.

Lemma issued_log r w : issued r w (log_call r w).
Proof. exists [(r, remote w)]. split; [done|]. cbn. left. Qed.

(** The dictionary [get_existing_playlists(sp)] answers with. *)
Definition listed_playlists (w : world) : list (string * string) :=
  match _playlist_cache w with
  | Some d => d
  | None =>
      fold_left (fun d kv => dict_set (pl_name kv.2) kv.1 d)
                (map_to_list (remote w)) []
  end.

Lemma get_existing_playlists_run sp w :
  get_existing_playlists sp false w
  = (Ok (listed_playlists w),
     match _playlist_cache w with
     | Some _ => w
     | None => set_playlist_cache (Some (listed_playlists w))
                 (log_call ListPlaylists w)
     end).
Proof.
  unfold get_existing_playlists, listed_playlists. mrun.
  destruct (_playlist_cache w); by mrun.
Qed.

Lemma create_run sp name d w :
  sp_user_playlist_create sp name d w
  = (Ok (sp_new_id sp (remote w)),
     set_remote
       <[sp_new_id sp (remote w) :=
           {| pl_name := name; pl_description := d;
              pl_snapshot_id :=
                sp_new_snapshot sp
                  {| pl_name := name; pl_description := d;
                     pl_snapshot_id := ""; pl_tracks := [] |};
              pl_tracks := [] |}]>
       (log_call (CreatePlaylist name d) w)).
Proof. unfold sp_user_playlist_create. by mrun. Qed.

Lemma get_playlist_tracks_run sp pid force w :
  get_playlist_tracks sp pid force w
  = match (if force then None else _playlist_tracks_cache w !! pid) with
    | Some s => (Ok s, w)
    | None =>
        (Ok (live_tracks (remote w) pid),
         set_tracks_cache <[pid := live_tracks (remote w) pid]>
           (log_call (GetPlaylistItems pid) w))
    end.
Proof.
  unfold get_playlist_tracks. mrun.
  destruct (if force then None else _playlist_tracks_cache w !! pid);
    [done|]. by mrun.
Qed.

(** ** A service to run the scripts against

    Identifiers are the first unused ones; a change marker is the old
    one with a tick appended. *)
Definition demo_client : client := {|
  sp_user_id := "me";
  sp_new_id := fun r => fresh (dom r);
  sp_new_snapshot := fun pl => pl_snapshot_id pl +:+ "'";
|}.

Definition empty_world : world := {|
  remote := ∅; calls := []; _playlist_tracks_cache := ∅;
  _playlist_cache := None; description_cache_file := None; backups := [];
|}.

(** A world that holds exactly the listed playlists. *)
Definition world_of (pls : list (string * playlist)) : world :=
  set_remote (fun _ => list_to_map pls) empty_world.

End Spotify.

(* ===================================================================== *)
(** * Configuration and playlist names ([config.py], [formatting.py]) *)
(* ===================================================================== *)

Module Config.
Import Py.
Local Open Scope string_scope.

(** The module-level settings of [config.py] that the scripts read. *)
Record config := {
  OWNER_NAME : string;
  BASE_PREFIX : string;
  ENABLE_MONTHLY : bool;
  ENABLE_MOST_PLAYED : bool;
  ENABLE_DISCOVERY : bool;
  PREFIX_MONTHLY : string;
  PREFIX_YEARLY : string;
  PREFIX_MOST_PLAYED : string;
  PREFIX_DISCOVERY : string;
  MONTHLY_NAME_TEMPLATE : string;
  YEARLY_NAME_TEMPLATE : string;
  DATE_FORMAT : string;
  SEPARATOR_MONTH : string;
  SEPARATOR_PREFIX : string;
  CAPITALIZATION : string;
  DESCRIPTION_TEMPLATE : string;
}.

(** The values [config.py] falls back to when the environment is empty. *)
Definition default_config : config := {|
  OWNER_NAME := "AJ";
  BASE_PREFIX := "Finds";
  ENABLE_MONTHLY := true;
  ENABLE_MOST_PLAYED := true;
  ENABLE_DISCOVERY := true;
  PREFIX_MONTHLY := "Finds";
  PREFIX_YEARLY := "Finds";
  PREFIX_MOST_PLAYED := "Top";
  PREFIX_DISCOVERY := "Discovery";
  MONTHLY_NAME_TEMPLATE := "{owner}{prefix}{mon}{year}";
  YEARLY_NAME_TEMPLATE := "{owner}{prefix}{year}";
  DATE_FORMAT := "short";
  SEPARATOR_MONTH := "none";
  SEPARATOR_PREFIX := "none";
  CAPITALIZATION := "preserve";
  DESCRIPTION_TEMPLATE := "{description} from {period}";
|}.

Definition MONTH_NAMES_SHORT : list (string * string) := Calendar.MONTH_NAMES.

Definition MONTH_NAMES_MEDIUM : list (string * string) :=
  [("01", "January"); ("02", "February"); ("03", "March"); ("04", "April");
   ("05", "May"); ("06", "June"); ("07", "July"); ("08", "August");
   ("09", "September"); ("10", "October"); ("11", "November");
   ("12", "December")].

(** The playlist types the scripts name. *)
Inductive playlist_type := monthly | yearly | most_played | discovery.

Global Instance playlist_type_eq_dec : EqDecision playlist_type.
Proof. solve_decision. Defined.

Section Formatting.
Variable cfg : config.

Definition _get_separator (sep_type : string) : string :=
  let t := str_lower sep_type in
  if String.eqb t "none" then ""
  else if String.eqb t "space" then " "
  else if String.eqb t "dash" then "-"
  else if String.eqb t "underscore" then "_"
  else "".

(** [y[2:] if len(y) == 4 else y] *)
Definition short_year (y : string) : string :=
  if Nat.eqb (String.length y) 4 then str_drop 2 y else y.

Definition is_medium_or_long : bool :=
  String.eqb (DATE_FORMAT cfg) "medium" || String.eqb (DATE_FORMAT cfg) "long".

Definition _format_date (month_str year : option string) : string * string :=
  let '(mon, year_str) :=
    match month_str with
    | Some ms =>
        if nonempty ms then
          let parts := str_split "-" ms in
          let full_year := nth 0 parts "" in
          let month_num := nth 1 parts "" in
          if String.eqb (DATE_FORMAT cfg) "numeric" then (month_num, full_year)
          else if is_medium_or_long then
            (default month_num (dict_get month_num MONTH_NAMES_MEDIUM),
             full_year)
          else
            (default month_num (dict_get month_num MONTH_NAMES_SHORT),
             short_year full_year)
        else
          match year with
          | Some y =>
              if nonempty y then
                if String.eqb (DATE_FORMAT cfg) "numeric" then ("", y)
                else ("", short_year y)
              else ("", "")
          | None => ("", "")
          end
    | None =>
        match year with
        | Some y =>
            if nonempty y then
              if String.eqb (DATE_FORMAT cfg) "numeric" then ("", y)
              else ("", short_year y)
            else ("", "")
        | None => ("", "")
        end
    end in
  if nonempty mon && nonempty year_str
     && negb (String.eqb (SEPARATOR_MONTH cfg) "none")
  then
    if is_medium_or_long
    then (mon +:+ _get_separator (SEPARATOR_MONTH cfg) +:+ year_str, "")
    else (mon, year_str)
  else (mon, year_str).

Definition _apply_capitalization (text : string) : string :=
  if String.eqb (CAPITALIZATION cfg) "upper" then str_upper text
  else if String.eqb (CAPITALIZATION cfg) "lower" then str_lower text
  else if String.eqb (CAPITALIZATION cfg) "title" then str_title text
  else text.

Definition prefix_of_type (t : playlist_type) : string :=
  match t with
  | monthly => PREFIX_MONTHLY cfg
  | yearly => PREFIX_YEARLY cfg
  | most_played => PREFIX_MOST_PLAYED cfg
  | discovery => PREFIX_DISCOVERY cfg
  end.

(** [format_playlist_name(template, month_str, playlist_type=..., year=...)];
    the callers never pass [genre] or [prefix]. *)
Definition format_playlist_name (template : string)
    (month_str : option string) (t : playlist_type) (year : option string)
    : string :=
  let prefix := prefix_of_type t in
  let '(mon, year_str) := _format_date month_str year in
  let month_includes_year :=
    is_medium_or_long && nonempty mon && negb (nonempty year_str) in
  let owner := _apply_capitalization (OWNER_NAME cfg) in
  let prefix_str := _apply_capitalization prefix in
  let genre_str := _apply_capitalization "" in
  let mon := _apply_capitalization mon in
  let year_str := _apply_capitalization year_str in
  let prefix_sep := _get_separator (SEPARATOR_PREFIX cfg) in
  let month_sep :=
    if nonempty mon && nonempty year_str && negb month_includes_year
    then _get_separator (SEPARATOR_MONTH cfg) else "" in
  let owner_prefix :=
    if negb (String.eqb (SEPARATOR_PREFIX cfg) "none") && nonempty prefix_str
    then (if nonempty owner then owner +:+ prefix_sep +:+ prefix_str
          else prefix_str)
    else (if nonempty owner then owner +:+ prefix_str else prefix_str) in
  let '(date_part, date_includes_year) :=
    if month_includes_year then (mon, true)
    else if nonempty mon && nonempty year_str
    then (mon +:+ month_sep +:+ year_str, true)
    else if nonempty mon then (mon, false)
    else ("", false) in
  let formatted := template in
  let formatted := str_replace formatted "{owner}" owner in
  let formatted := str_replace formatted "{prefix}" prefix_str in
  let formatted := str_replace formatted "{genre}" genre_str in
  let formatted :=
    str_replace formatted "{mon}"
      (if nonempty mon || month_includes_year then date_part else "") in
  let formatted :=
    if date_includes_year then str_replace formatted "{year}" ""
    else str_replace formatted "{year}" year_str in
  if str_contains template "{owner}{prefix}"
     || (nonempty owner && nonempty prefix_str
         && negb (String.eqb owner_prefix (owner +:+ prefix_str)))
  then str_replace formatted (owner +:+ prefix_str) owner_prefix
  else formatted.

(** [format_yearly_playlist_name(year)] *)
Definition format_yearly_playlist_name (year : string) : string :=
  format_playlist_name (YEARLY_NAME_TEMPLATE cfg) None yearly
    (Some (short_year year)).

End Formatting.

Example monthly_name_Jan24 :
  format_playlist_name default_config
    (MONTHLY_NAME_TEMPLATE default_config) (Some "2024-01") monthly None
  = "AJFindsJan24".
Proof. vm_compute. reflexivity. Qed.

Example yearly_name_2024 :
  format_yearly_playlist_name default_config "2024" = "AJFinds24".
Proof. vm_compute. reflexivity. Qed.

Example yearly_top_name_2024 :
  format_playlist_name default_config
    (YEARLY_NAME_TEMPLATE default_config) None most_played (Some "24")
  = "AJTop24".
Proof. vm_compute. reflexivity. Qed.

End Config.

(* ===================================================================== *)
(** * Description text of managed playlists ([description_helpers.py]) *)
(* ===================================================================== *)

Module DescriptionText.
Import Py Config.
Local Open Scope string_scope.

(** A name or identifier (ASCII text) as a Python string. *)
Definition py_of_string (s : string) : list Z :=
  map (fun a => Z.of_N (N_of_ascii a)) (list_ascii_of_string s).

(** [c.isspace()]: what [str.strip], [str.split] and [\s] treat as blank. *)
Definition py_isspace (c : Z) : bool :=
  (((9 <=? c) && (c <=? 13)) || ((28 <=? c) && (c <=? 32))
   || (c =? 133) || (c =? 160) || (c =? 5760)
   || ((8192 <=? c) && (c <=? 8202)) || (c =? 8232) || (c =? 8233)
   || (c =? 8239) || (c =? 8287) || (c =? 12288))%Z.

Fixpoint lstrip (s : list Z) : list Z :=
  match s with
  | c :: s' => if py_isspace c then lstrip s' else s
  | [] => []
  end.

(** [s.strip()] *)
Definition py_strip (s : list Z) : list Z :=
  rev (lstrip (rev (lstrip s))).

(** [s.split()]: the maximal runs of non-blank characters. *)
Fixpoint py_split_ws_from (cur : list Z) (s : list Z) : list (list Z) :=
  match s with
  | [] => match cur with [] => [] | _ => [rev cur] end
  | c :: s' =>
      if py_isspace c
      then match cur with
           | [] => py_split_ws_from [] s'
           | _ => rev cur :: py_split_ws_from [] s'
           end
      else py_split_ws_from (c :: cur) s'
  end.

Definition py_split_ws (s : list Z) : list (list Z) := py_split_ws_from [] s.

(** What follows the first [close] in [s], if there is one. *)
Fixpoint after_first (close : Z) (s : list Z) : option (list Z) :=
  match s with
  | [] => None
  | c :: s' => if (c =? close)%Z then Some s' else after_first close s'
  end.

(** One match of [\s*<open>[^<close>]*<close>\s*] at the head of [s]:
    what is left after it. *)
Definition match_bracketed (open close : Z) (s : list Z) : option (list Z) :=
  match lstrip s with
  | c :: s1 =>
      if (c =? open)%Z
      then lstrip <$> after_first close s1
      else None
  | [] => None
  end.

(** [re.sub(r"\s*<open>[^<close>]*<close>\s*", " ", s)] *)
Fixpoint sub_bracketed_fuel (fuel : nat) (open close : Z) (s : list Z)
    : list Z :=
  match fuel with
  | O => s
  | S fuel' =>
      match s with
      | [] => []
      | c :: s' =>
          match match_bracketed open close s with
          | Some rest => 32%Z :: sub_bracketed_fuel fuel' open close rest
          | None => c :: sub_bracketed_fuel fuel' open close s'
          end
      end
  end.

Definition sub_bracketed (open close : Z) (s : list Z) : list Z :=
  sub_bracketed_fuel (length s) open close s.

(** [_strip_parentheses(text)] *)
Definition _strip_parentheses (text : list Z) : list Z :=
  match text with
  | [] => text
  | _ =>
      let text := sub_bracketed 40 41 text in
      let text := sub_bracketed 91 93 text in
      py_strip (PyStr.join 32 (py_split_ws text))
  end.

(** [build_simple_description(base_line, track_uris, max_mood_tags=0)] *)
Definition build_simple_description (base_line : list Z)
    (track_uris : list string) : list Z :=
  match base_line with
  | [] => []
  | _ => _strip_parentheses (py_strip base_line)
  end.

(** ** Names of the automated playlists *)

Definition is_ascii_space (a : ascii) : bool :=
  py_isspace (Z.of_N (N_of_ascii a)).

Fixpoint str_lstrip (s : string) : string :=
  match s with
  | String c s' => if is_ascii_space c then str_lstrip s' else s
  | EmptyString => EmptyString
  end.

Definition str_rev (s : string) : string :=
  string_of_list_ascii (rev (list_ascii_of_string s)).

Definition str_strip (s : string) : string :=
  str_rev (str_lstrip (str_rev (str_lstrip s))).

(** [re.match("^" + re.escape(p), s, re.IGNORECASE)] on ASCII text: what
    follows the matched prefix. *)
Definition match_prefix_ci (p s : string) : option string :=
  if String.prefix (str_lower p) (str_lower s)
  then Some (str_drop (String.length p) s)
  else None.

Definition str_take (n : nat) (s : string) : string := String.substring 0 n s.

(** The tail [(Jan|...|Dec)(\d{2})$] of the monthly patterns; [\d] is a
    decimal digit. *)
Definition match_month_part (rest : string) : option (string * string) :=
  let mon := str_take 3 rest in
  let yy := str_drop 3 rest in
  if existsb (fun kv => String.eqb (str_lower kv.2) (str_lower mon))
             Calendar.MONTH_NAMES
     && Nat.eqb (String.length mon) 3
     && Nat.eqb (String.length yy) 2 && isdecimal yy
  then Some (mon, yy)
  else None.

(** [(\d{n})$] *)
Definition match_digits (n : nat) (rest : string) : option string :=
  if Nat.eqb (String.length rest) n && isdecimal rest then Some rest
  else None.

Section WithConfig.
Variable cfg : config.

Definition monthly_line (prefix label : string) (name owner : string)
    : option string :=
  let prefix := str_strip prefix in
  if nonempty prefix then
    rest ← match_prefix_ci (owner +:+ prefix) name;
    '(mon, yy) ← match_month_part rest;
    Some (label +:+ " from " +:+ mon +:+ " " +:+ yy)
  else None.

Definition yearly_line (name owner : string) : option string :=
  let prefix := str_strip (PREFIX_YEARLY cfg) in
  if nonempty prefix then
    match match_prefix_ci (owner +:+ prefix) name with
    | Some rest =>
        match match_digits 4 rest with
        | Some y => Some ("Liked songs from " +:+ y)
        | None =>
            match match_digits 2 rest with
            | Some y => Some ("Liked songs from " +:+ "20" +:+ y)
            | None => None
            end
        end
    | None => None
    end
  else None.

(** [get_base_description_line_for_playlist(playlist_name)] *)
Definition get_base_description_line_for_playlist (playlist_name : string)
    : option string :=
  if negb (nonempty playlist_name) || negb (nonempty (str_strip playlist_name))
  then None
  else
    let name := str_strip playlist_name in
    let owner := str_strip (OWNER_NAME cfg) in
    if negb (nonempty owner) then None
    else
      match monthly_line (PREFIX_MONTHLY cfg) "Liked songs" name owner with
      | Some l => Some l
      | None =>
      match monthly_line (PREFIX_MOST_PLAYED cfg) "Most played" name owner with
      | Some l => Some l
      | None =>
      match monthly_line (PREFIX_DISCOVERY cfg) "Discovery" name owner with
      | Some l => Some l
      | None => yearly_line name owner
      end end end.

End WithConfig.

Example base_line_monthly :
  get_base_description_line_for_playlist default_config "AJFindsJan26"
  = Some "Liked songs from Jan 26".
Proof. vm_compute. reflexivity. Qed.

Example base_line_yearly :
  get_base_description_line_for_playlist default_config "AJFinds24"
  = Some "Liked songs from 2024".
Proof. vm_compute. reflexivity. Qed.

Example strip_parentheses_example :
  _strip_parentheses (py_of_string "Liked songs  (auto) from [x] Jan 26 ")
  = py_of_string "Liked songs from Jan 26".
Proof. vm_compute. reflexivity. Qed.

End DescriptionText.

(* ===================================================================== *)
(** * The description synchroniser ([_sync_impl/descriptions.py]) *)
(* ===================================================================== *)

Module Descriptions.
Import Py Config Spotify DescriptionText.
Local Open Scope string_scope.

(** What [json.load] returns. *)
#[local] Unset Elimination Schemes.
Inductive json :=
| JNull
| JBool (b : bool)
| JNumber (z : Z)
| JString (s : string)
| JArray (l : list json)
| JObject (d : list (string * json)).
#[local] Set Elimination Schemes.

(** The libraries the scripts call: [unicodedata], [json] ([json_load]
    is [None] when [json.load] raises; [json_iterencode] lists the
    chunks [json.dump(_, f, indent=0)] writes), [str.format] on keyword
    arguments that are strings ([None] when it raises), and pandas'
    reading of a column of timestamps ([None] is a null) as months,
    [pd.to_datetime(column, errors="coerce", utc=True)] followed by
    [.dt.to_period("M").astype(str)]. *)
Record runtime := {
  category : Z -> Sanitize.general_category;
  normalize_NFC : list Z -> list Z;
  json_load : string -> option json;
  json_iterencode : json -> list string;
  str_format : string -> list (string * string) -> option string;
  to_period_M : list (option string) -> list string;
}.

(** [format_playlist_description(description, period=...,
    playlist_type=...)] ([formatting.py]):
    [DESCRIPTION_TEMPLATE.format(description=..., period=..., date="",
    type=..., genre="")]; [None] when [format] raises.  [str_format] is
    the interpreter's [str.format], asked for the templates that
    [str_format_plain] leaves to it. *)
Definition format_playlist_description (rt : runtime) (cfg : config)
    (description period : string) (t : playlist_type) : option string :=
  let type_name :=
    match t with
    | monthly => "monthly" | yearly => "yearly"
    | most_played => "most_played" | discovery => "discovery"
    end in
  let kwargs :=
    [("description", description); ("period", period); ("date", "");
     ("type", type_name); ("genre", "")] in
  match str_format_plain (DESCRIPTION_TEMPLATE cfg) kwargs with
  | Formatted s => Some s
  | FormatError => None
  | NotPlain => str_format rt (DESCRIPTION_TEMPLATE cfg) kwargs
  end.

(** The description handed to [user_playlist_create]: the argument is
    evaluated before the call, and a template that does not format
    raises there. *)
Definition formatted_description (rt : runtime) (cfg : config)
    (description period : string) (t : playlist_type) : M (list Z) :=
  match format_playlist_description rt cfg description period t with
  | Some d => ret (py_of_string d)
  | None => raise Exception
  end.

(** ** The cache file *)

(** What [with open(path, "w") as f: json.dump(cache, f, indent=0)] does
    to the file, one operation at a time. *)
Inductive file_op :=
| OpenTruncate
| WriteChunk (chunk : string)
| CloseFile.

Definition file_after (content : option string) (op : file_op)
    : option string :=
  match op with
  | OpenTruncate => Some ""
  | WriteChunk c => Some (default "" content +:+ c)
  | CloseFile => content
  end.

Definition save_ops (rt : runtime) (cache : json) : list file_op :=
  OpenTruncate :: map WriteChunk (json_iterencode rt cache) ++ [CloseFile].

(** The file when the process dies after [k] operations of the write. *)
Definition interrupted_save (rt : runtime) (cache : json) (k : nat)
    (content : option string) : option string :=
  fold_left file_after (take k (save_ops rt cache)) content.

(** [_save_snapshot_cache(cache)] *)
Definition _save_snapshot_cache (rt : runtime) (cache : json) : M unit :=
  modify (fun w =>
    set_cache_file
      (fold_left file_after (save_ops rt cache) (description_cache_file w)) w).

(** [_load_snapshot_cache()]: a missing or unreadable file is an empty
    cache. *)
Definition _load_snapshot_cache (rt : runtime) : M json :=
  w ← get_world;
  ret (match description_cache_file w with
       | None => JObject []
       | Some content => default (JObject []) (json_load rt content)
       end).

(** [cache.get(key)]; anything but a dictionary has no [get]. *)
Definition json_get (cache : json) (key : string) : M (option json) :=
  match cache with
  | JObject d => ret (dict_get key d)
  | _ => raise Exception
  end.

(** [cache[key] = value] *)
Definition json_setitem (cache : json) (key : string) (v : json) : M json :=
  match cache with
  | JObject d => ret (JObject (dict_set key v d))
  | _ => raise Exception
  end.

(** [v == s] for a string [s]. *)
Definition json_eq_str (v : option json) (s : string) : bool :=
  match v with
  | Some (JString s') => String.eqb s' s
  | _ => false
  end.

(** The block [if snapshot_id: cache = _load_snapshot_cache();
    cache[playlist_id] = snapshot_id; _save_snapshot_cache(cache)]. *)
Definition remember_snapshot (rt : runtime) (playlist_id snapshot_id : string)
    : M unit :=
  if nonempty snapshot_id then
    cache ← _load_snapshot_cache rt;
    cache ← json_setitem cache playlist_id (JString snapshot_id);
    _save_snapshot_cache rt cache
  else ret tt.

Definition MAX_LEN : Z := Sanitize.SPOTIFY_MAX_DESCRIPTION_LENGTH.

(** The text the synchroniser wants on the playlist (lines 72-94);
    [None] when sanitising raises. *)
Definition derive_description (rt : runtime) (cfg : config)
    (current_description : list Z) (name : string)
    (track_uris : list string) : option (list Z) :=
  let playlist_name := py_of_string name in
  let lines := PyStr.split_on 10 (py_strip current_description) in
  let first_line := py_strip (hd [] lines) in
  let base_line :=
    match first_line with [] => playlist_name | _ => first_line end in
  let base_line :=
    if bool_decide (base_line = [])
       || bool_decide (py_strip base_line = py_strip playlist_name)
    then match get_base_description_line_for_playlist cfg name with
         | Some derived =>
             if nonempty derived then py_of_string derived else base_line
         | None => base_line
         end
    else base_line in
  let new_description := build_simple_description base_line track_uris in
  let new_description := _strip_parentheses new_description in
  new_description ←
    Sanitize.sanitize_description_for_api (category rt) (normalize_NFC rt)
      (Some new_description) MAX_LEN;
  Some (if (MAX_LEN <? PyStr.len new_description)%Z
        then PyStr.slice_to MAX_LEN new_description
        else new_description).

(** The [try] block that pushes the description (lines 101-134). *)
Definition push_description (rt : runtime) (sp : client)
    (user_id playlist_id snapshot_id : string) (new_description : list Z)
    : M bool :=
  try_except
    (match PyStr.encode_utf8 new_description with
     | Some _ => ret tt
     | None => raise UnicodeEncodeError
     end;;
     sp_user_playlist_change_details sp playlist_id new_description;;
     remember_snapshot rt playlist_id snapshot_id;;
     ret true)
    (fun e =>
       match e with
       | UnicodeEncodeError =>
           match PyStr.decode_utf8 (PyStr.encode_utf8_replace new_description)
           with
           | Some repaired =>
               try_except
                 (sp_user_playlist_change_details sp playlist_id
                    (PyStr.slice_to MAX_LEN repaired);;
                  ret true)
                 (fun _ => ret false)
           | None => raise Exception
           end
       | Exception => ret false
       end).

(** The incremental test (lines 58-61): load the cache and compare its
    marker for the playlist with the live one. *)
Definition marker_unchanged (rt : runtime) (playlist_id snapshot_id : string)
    : M bool :=
  cache ← _load_snapshot_cache rt;
  if nonempty snapshot_id
  then v ← json_get cache playlist_id; ret (json_eq_str v snapshot_id)
  else ret false.

(** Lines 63-64: the caller's track list, or the playlist's tracks. *)
Definition resolve_track_uris (sp : client) (playlist_id : string)
    (track_uris : option (list string)) : M (list string) :=
  match track_uris with
  | Some l => ret l
  | None => s ← get_playlist_tracks sp playlist_id false; ret (elements s)
  end.

(** Lines 65-139: nothing for an empty track list; otherwise derive the
    text, and push it when it is not blank and differs from the current
    one. *)
Definition refresh_description (rt : runtime) (cfg : config) (sp : client)
    (user_id playlist_id : string) (pl : playlist)
    (track_uris : list string) : M bool :=
  match track_uris with
  | [] => ret false
  | _ =>
      match derive_description rt cfg (pl_description pl) (pl_name pl)
              track_uris with
      | None => raise Exception
      | Some new_description =>
          match py_strip new_description with
          | [] => ret false
          | _ =>
              if bool_decide (new_description <> pl_description pl)
              then push_description rt sp user_id playlist_id
                     (pl_snapshot_id pl) new_description
              else remember_snapshot rt playlist_id (pl_snapshot_id pl);;
                   ret false
          end
      end
  end.

(** [_update_playlist_description_with_genres(sp, user_id, playlist_id,
    track_uris)] *)
Definition _update_playlist_description_with_genres (rt : runtime)
    (cfg : config) (sp : client) (user_id playlist_id : string)
    (track_uris : option (list string)) : M bool :=
  try_except
    (pl ← sp_playlist playlist_id;
     unchanged ← marker_unchanged rt playlist_id (pl_snapshot_id pl);
     if (unchanged : bool) then ret false
     else
       track_uris ← resolve_track_uris sp playlist_id track_uris;
       refresh_description rt cfg sp user_id playlist_id pl track_uris)
    (fun _ => ret false).

(** ** A codec for the files the synchroniser writes

    [json.dump(cache, f, indent=0)] and [json.load] on a dictionary from
    identifiers to markers whose characters need no escaping; other
    values are not handled (no chunks, no parse). *)

Definition dquote : ascii := "034".
Definition newline : ascii := "010".

Definition quoted (s : string) : string :=
  String dquote s +:+ String dquote "".

Fixpoint flat_items (first : bool) (d : list (string * json)) : list string :=
  match d with
  | [] => []
  | (k, JString v) :: d' =>
      (if first then [] else [String "," (String newline "")])
      ++ [quoted k; ": "; quoted v]
      ++ flat_items false d'
  | _ :: d' => flat_items first d'
  end.

Definition json_iterencode_flat (j : json) : list string :=
  match j with
  | JObject [] => ["{}"]
  | JObject d =>
      ["{"; String newline ""] ++ flat_items true d
      ++ [String newline ""; "}"]
  | _ => []
  end.

(** A quoted identifier at the head of [s]: the identifier and the rest. *)
Fixpoint read_until_quote (s : string) : option (string * string) :=
  match s with
  | EmptyString => None
  | String c s' =>
      if Ascii.eqb c dquote then Some (EmptyString, s')
      else '(k, r) ← read_until_quote s'; Some (String c k, r)
  end.

Definition read_quoted (s : string) : option (string * string) :=
  match str_lstrip s with
  | String c s' => if Ascii.eqb c dquote then read_until_quote s' else None
  | EmptyString => None
  end.

Fixpoint load_items (fuel : nat) (s : string) (acc : list (string * json))
    : option (list (string * json)) :=
  match fuel with
  | O => None
  | S fuel' =>
      '(k, r) ← read_quoted s;
      match str_lstrip r with
      | String ":" r1 =>
          '(v, r2) ← read_quoted r1;
          let acc := dict_set k (JString v) acc in
          match str_lstrip r2 with
          | String "," r3 => load_items fuel' r3 acc
          | String "}" r3 =>
              match str_lstrip r3 with
              | EmptyString => Some acc
              | _ => None
              end
          | _ => None
          end
      | _ => None
      end
  end.

Definition json_load_flat (s : string) : option json :=
  match str_lstrip s with
  | String "{" r =>
      match str_lstrip r with
      | String "}" r' =>
          match str_lstrip r' with
          | EmptyString => Some (JObject [])
          | _ => None
          end
      | _ => JObject <$> load_items (String.length s) r []
      end
  | _ => None
  end.

(** The month of a timestamp written [YYYY-MM-DDTHH:MM:SSZ]; a null
    has none. *)
Definition to_period_M_iso (column : list (option string)) : list string :=
  map (fun c => match c with
                | Some s => String.substring 0 7 s
                | None => "NaT"
                end) column.

(** The excerpt of the libraries the runs below are evaluated with.
    Their templates have bare field names, which [str_format_plain]
    formats, so [str_format] is not asked. *)
Definition runtime_excerpt : runtime := {|
  category := Sanitize.category_excerpt;
  normalize_NFC := Sanitize.nfc_excerpt;
  json_load := json_load_flat;
  json_iterencode := json_iterencode_flat;
  str_format := fun _ _ => None;
  to_period_M := to_period_M_iso;
|}.


(** ** Properties *)

Lemma sp_playlist_run pid w :
  sp_playlist pid w
  = match remote w !! pid with
    | Some pl => (Ok pl, log_call (GetPlaylist pid) w)
    | None => (Raised Exception, log_call (GetPlaylist pid) w)
    end.
Proof.
  unfold sp_playlist. mrun. cbn [remote log_call].
  by destruct (remote w !! pid).
Qed.

Lemma _load_snapshot_cache_run rt w :
  _load_snapshot_cache rt w
  = (Ok (match description_cache_file w with
         | None => JObject []
         | Some content => default (JObject []) (json_load rt content)
         end), w).
Proof. reflexivity. Qed.

Lemma marker_unchanged_run rt pid snap w :
  marker_unchanged rt pid snap w
  = match (match description_cache_file w with
           | None => JObject []
           | Some content => default (JObject []) (json_load rt content)
           end) with
    | JObject d =>
        (Ok (nonempty snap && json_eq_str (dict_get pid d) snap), w)
    | _ => if nonempty snap then (Raised Exception, w) else (Ok false, w)
    end.
Proof.
  unfold marker_unchanged. rewrite bind_run, _load_snapshot_cache_run.
  destruct (match description_cache_file w with
            | Some content => default (JObject []) (json_load rt content)
            | None => JObject []
            end); destruct (nonempty snap); by mrun.
Qed.

Lemma resolve_track_uris_run sp pid track_uris w :
  exists w',
    resolve_track_uris sp pid track_uris w
    = (Ok (match track_uris with
           | Some l => l
           | None =>
               elements (match _playlist_tracks_cache w !! pid with
                         | Some s => s
                         | None => live_tracks (remote w) pid
                         end)
           end), w')
    /\ (w' = w
        \/ w' = set_tracks_cache <[pid := live_tracks (remote w) pid]>
                  (log_call (GetPlaylistItems pid) w)).
Proof.
  unfold resolve_track_uris. destruct track_uris as [l|].
  - exists w. split; [done|by left].
  - rewrite bind_run, get_playlist_tracks_run.
    destruct (_playlist_tracks_cache w !! pid) as [s|].
    + exists w. split; [done|by left].
    + eexists. split; [done|by right].
Qed.

(** The marker the cache file holds for a playlist. *)
Definition cached_marker (rt : runtime) (w : world) (pid : string)
    : option json :=
  match (_load_snapshot_cache rt w).1 with
  | Ok (JObject d) => dict_get pid d
  | _ => None
  end.

Lemma json_eq_str_true v s : json_eq_str v s = true <-> v = Some (JString s).
Proof.
  destruct v as [[]|]; cbn; try (split; congruence).
  rewrite String.eqb_eq. split; congruence.
Qed.

(** C4 (as amended).  When the cache file holds, for the playlist, a
    non-empty marker equal to the live one, the description update
    returns False and changes nothing: its only remote call is the read
    of the playlist's metadata, from which the live marker comes. *)
Theorem description_update_skips_unchanged (rt : runtime) (cfg : config)
    (sp : client) (user_id pid : string) (track_uris : option (list string))
    (w : world) (pl : playlist) :
  remote w !! pid = Some pl ->
  pl_snapshot_id pl <> "" ->
  cached_marker rt w pid = Some (JString (pl_snapshot_id pl)) ->
  _update_playlist_description_with_genres rt cfg sp user_id pid track_uris w
  = (Ok false, log_call (GetPlaylist pid) w).
Proof.
  intros Hpl Hne Hc.
  unfold _update_playlist_description_with_genres, try_except.
  rewrite bind_run, sp_playlist_run, Hpl.
  rewrite bind_run, (marker_unchanged_run rt pid (pl_snapshot_id pl)).
  unfold cached_marker in Hc. rewrite _load_snapshot_cache_run in Hc.
  cbn [fst description_cache_file log_call] in *.
  destruct (match description_cache_file w with
            | Some content => default (JObject []) (json_load rt content)
            | None => JObject []
            end) as [| | | | |d] eqn:E; try done.
  assert (nonempty (pl_snapshot_id pl) = true) as ->
    by (by destruct (pl_snapshot_id pl)).
  rewrite Hc. cbn [json_eq_str]. by rewrite String.eqb_refl.
Qed.

(** *** What a description update can touch *)

Section Frame.
Context (R : relation world) `{!Reflexive R, !Transitive R}.
Context (rt : runtime) (cfg : config) (sp : client).

Hypothesis R_read : forall pid w, R w (log_call (GetPlaylist pid) w).
Hypothesis R_items : forall pid w, R w (log_call (GetPlaylistItems pid) w).
Hypothesis R_tracks_cache : forall f w, R w (set_tracks_cache f w).
Hypothesis R_file : forall c w, R w (set_cache_file c w).
Hypothesis R_details : forall pid d w, R w (log_call (ChangeDetails pid d) w).
Hypothesis R_describe :
  forall pid d w pl, remote w !! pid = Some pl ->
    R w (set_remote
           <[pid := {| pl_name := pl_name pl; pl_description := d;
                       pl_snapshot_id := sp_new_snapshot sp pl;
                       pl_tracks := pl_tracks pl |}]> w).

Lemma steps_remember_snapshot pid snap :
  steps R (remember_snapshot rt pid snap).
Proof.
  unfold remember_snapshot, _load_snapshot_cache, json_setitem,
    _save_snapshot_cache.
  steps_go. apply R_file.
Qed.

Lemma steps_push_description user_id pid snap d :
  steps R (push_description rt sp user_id pid snap d).
Proof.
  unfold push_description. steps_go;
    try (apply steps_change_details; try tc_solve; auto);
    apply steps_remember_snapshot.
Qed.

Lemma steps_update_description user_id pid track_uris :
  steps R (_update_playlist_description_with_genres rt cfg sp user_id pid
             track_uris).
Proof.
  unfold _update_playlist_description_with_genres, marker_unchanged,
    resolve_track_uris, refresh_description, _load_snapshot_cache, json_get.
  steps_go;
    try (apply steps_sp_playlist; try tc_solve; auto);
    try (apply steps_get_playlist_tracks; try tc_solve; auto);
    try apply steps_push_description;
    try apply steps_remember_snapshot.
Qed.

End Frame.

Definition description_call (c : api_request * gmap string playlist) : Prop :=
  match c.1 with
  | GetPlaylist _ | GetPlaylistItems _ | ChangeDetails _ _ => True
  | _ => False
  end.

Lemma update_description_calls rt cfg sp user_id pid track_uris :
  steps (only_calls description_call)
    (_update_playlist_description_with_genres rt cfg sp user_id pid
       track_uris).
Proof.
  apply steps_update_description; try tc_solve; intros;
    try (by apply only_calls_log); by apply only_calls_same.
Qed.

Lemma insert_same_content pid pl pl' w :
  remote w !! pid = Some pl -> content_of pl' = content_of pl ->
  same_content w (set_remote <[pid := pl']> w).
Proof.
  intros Hp Hc q. cbn [remote set_remote].
  destruct (decide (pid = q)) as [->|Hne].
  - rewrite lookup_insert_eq, Hp. cbn. by rewrite Hc.
  - by rewrite lookup_insert_ne.
Qed.

Lemma update_description_content rt cfg sp user_id pid track_uris :
  steps same_content
    (_update_playlist_description_with_genres rt cfg sp user_id pid
       track_uris).
Proof.
  apply steps_update_description; try tc_solve; intros;
    try (by apply same_remote_content).
  by eapply insert_same_content.
Qed.

Lemma update_description_any_calls rt cfg sp user_id pid track_uris :
  steps (only_calls any_call)
    (_update_playlist_description_with_genres rt cfg sp user_id pid
       track_uris).
Proof.
  eapply steps_mono; [|apply update_description_calls].
  intros w w'. by apply only_calls_mono.
Qed.

Lemma update_description_stay rt cfg sp user_id pid track_uris :
  steps playlists_stay
    (_update_playlist_description_with_genres rt cfg sp user_id pid
       track_uris).
Proof.
  eapply steps_mono; [|apply update_description_content].
  apply same_content_stay.
Qed.

Lemma update_description_total rt cfg sp user_id pid track_uris :
  total (_update_playlist_description_with_genres rt cfg sp user_id pid
           track_uris).
Proof. apply total_try_except. intros _. apply total_ret. Qed.

(** *** An unchanged playlist still costs one read *)

Definition finds24 : playlist := {|
  pl_name := "AJFinds24";
  pl_description := py_of_string "Liked songs from 2024";
  pl_snapshot_id := "snapA";
  pl_tracks := ["spotify:track:a"];
|}.

Definition cache_written (cache : json) : option string :=
  fold_left file_after (save_ops runtime_excerpt cache) None.

Definition world_unchanged : world :=
  set_cache_file (cache_written (JObject [("p1", JString "snapA")]))
    (world_of [("p1", finds24)]).

Example cache_file_text :
  description_cache_file world_unchanged
  = Some ("{" +:+ String newline (quoted "p1" +:+ ": " +:+ quoted "snapA"
          +:+ String newline "}")).
Proof. vm_compute. reflexivity. Qed.

(** C4 (counterexample).  The cache holds the live marker of the
    playlist, and the update still makes a remote call: the read of the
    playlist. *)
Lemma description_update_makes_one_call :
  let run := _update_playlist_description_with_genres runtime_excerpt
               default_config demo_client "me" "p1" None world_unchanged in
  cached_marker runtime_excerpt world_unchanged "p1" = Some (JString "snapA")
  /\ pl_snapshot_id <$> remote world_unchanged !! "p1" = Some "snapA"
  /\ run.1 = Ok false
  /\ calls world_unchanged = []
  /\ fst <$> calls run.2 = [GetPlaylist "p1"].
Proof. vm_compute. repeat split; reflexivity. Qed.

Lemma description_update_skips_unchanged_witness :
  let run := _update_playlist_description_with_genres runtime_excerpt
               default_config demo_client "me" "p1" None world_unchanged in
  remote world_unchanged !! "p1" = Some finds24
  /\ pl_snapshot_id finds24 <> ""
  /\ cached_marker runtime_excerpt world_unchanged "p1"
     = Some (JString (pl_snapshot_id finds24))
  /\ run = (Ok false, log_call (GetPlaylist "p1") world_unchanged).
Proof.
  intros run.
  assert (remote world_unchanged !! "p1" = Some finds24) as H1
    by (vm_compute; reflexivity).
  assert (pl_snapshot_id finds24 <> "") as H2 by (cbn; congruence).
  assert (cached_marker runtime_excerpt world_unchanged "p1"
          = Some (JString (pl_snapshot_id finds24))) as H3
    by (vm_compute; reflexivity).
  split; [exact H1|]. split; [exact H2|]. split; [exact H3|].
  exact (description_update_skips_unchanged runtime_excerpt default_config
           demo_client "me" "p1" None world_unchanged finds24 H1 H2 H3).
Defined.

(** *** Empty playlists *)

(** The track list the update works with: the one passed in, else the
    cached set of the playlist, else its live tracks. *)
Definition resolved_tracks (w : world) (pid : string)
    (track_uris : option (list string)) : list string :=
  match track_uris with
  | Some l => l
  | None =>
      elements (match _playlist_tracks_cache w !! pid with
                | Some s => s
                | None => live_tracks (remote w) pid
                end)
  end.

Definition read_only (c : api_request * gmap string playlist) : Prop :=
  is_mutation c.1 = false.

(** C9.  When the resolved track list is empty the description update
    returns False, leaves every remote playlist and the cache file as
    they were, and makes no mutating call; whatever the markers are. *)
Theorem description_update_skips_empty (rt : runtime) (cfg : config)
    (sp : client) (user_id pid : string) (track_uris : option (list string))
    (w : world) :
  resolved_tracks w pid track_uris = [] ->
  let run := _update_playlist_description_with_genres rt cfg sp user_id pid
               track_uris w in
  run.1 = Ok false
  /\ remote run.2 = remote w
  /\ description_cache_file run.2 = description_cache_file w
  /\ only_calls read_only w run.2.
Proof.
  intros Hres.
  assert (only_calls read_only w (log_call (GetPlaylist pid) w)) as Hlog
    by (by apply only_calls_log).
  set (body := pl ← sp_playlist pid;
               unchanged ← marker_unchanged rt pid (pl_snapshot_id pl);
               if (unchanged : bool) then ret false
               else
                 track_uris0 ← resolve_track_uris sp pid track_uris;
                 refresh_description rt cfg sp user_id pid pl track_uris0).
  assert ((exists e, (body w).1 = Raised e \/ (body w).1 = Ok false)
          /\ remote (body w).2 = remote w
          /\ description_cache_file (body w).2 = description_cache_file w
          /\ only_calls read_only w (body w).2) as Hbody.
  { unfold body. rewrite bind_run, sp_playlist_run.
    destruct (remote w !! pid) as [pl|] eqn:Hpl;
      [|by split; [exists Exception; left|]].
    rewrite bind_run, marker_unchanged_run.
    set (w1 := log_call (GetPlaylist pid) w) in *.
    assert (let r := (track_uris0 ← resolve_track_uris sp pid track_uris;
                      refresh_description rt cfg sp user_id pid pl track_uris0)
                       w1 in
            (exists e : exn, r.1 = Raised e \/ r.1 = Ok false)
            /\ remote r.2 = remote w
            /\ description_cache_file r.2 = description_cache_file w
            /\ only_calls read_only w r.2) as Htail.
    { cbn zeta. rewrite bind_run.
      destruct (resolve_track_uris_run sp pid track_uris w1)
        as (w2 & -> & Hw2).
      change (_playlist_tracks_cache w1) with (_playlist_tracks_cache w).
      change (remote w1) with (remote w).
      fold (resolved_tracks w pid track_uris). rewrite Hres.
      cbn [refresh_description ret fst snd].
      split; [exists Exception; by right|].
      destruct Hw2 as [->| ->]; repeat split; try done.
      etransitivity; [exact Hlog|].
      etransitivity;
        [by apply (only_calls_log read_only (GetPlaylistItems pid))|].
      by apply only_calls_same. }
    cbn zeta in Htail.
    assert ((exists e : exn, (@Raised bool Exception, w1).1 = Raised e
                             \/ (@Raised bool Exception, w1).1 = Ok false)
            /\ remote w1 = remote w
            /\ description_cache_file w1 = description_cache_file w
            /\ only_calls read_only w w1) as Hraise
      by (split; [exists Exception; by left|done]).
    assert ((exists e : exn, (Ok false, w1).1 = Raised e
                             \/ (Ok false, w1).1 = Ok false)
            /\ remote w1 = remote w
            /\ description_cache_file w1 = description_cache_file w
            /\ only_calls read_only w w1) as Hskip
      by (split; [exists Exception; by right|done]).
    destruct (match description_cache_file w1 with
              | Some content => default (JObject []) (json_load rt content)
              | None => JObject []
              end) as [| | | | |d];
      try (destruct (nonempty (pl_snapshot_id pl));
           [exact Hraise|exact Htail]).
    destruct (nonempty (pl_snapshot_id pl)
              && json_eq_str (dict_get pid d) (pl_snapshot_id pl));
      [exact Hskip|exact Htail]. }
  cbn zeta. unfold _update_playlist_description_with_genres, try_except.
  fold body. destruct Hbody as ((e & He) & Hr & Hf & Hc).
  destruct (body w) as [[b|e'] w'] eqn:Eb; cbn in *.
  - destruct He as [He|He]; [done|]. by inversion He.
  - done.
Qed.

(** A month's placeholder, just created and empty, with a marker the
    cache has never seen. *)
Definition placeholder : playlist := {|
  pl_name := "AJFindsNov24";
  pl_description := py_of_string "Liked songs from 2024-11";
  pl_snapshot_id := "snapB";
  pl_tracks := [];
|}.

Lemma description_update_skips_empty_witness :
  let w := world_of [("p2", placeholder)] in
  let run := _update_playlist_description_with_genres runtime_excerpt
               default_config demo_client "me" "p2" None w in
  resolved_tracks w "p2" None = []
  /\ run.1 = Ok false
  /\ remote run.2 = remote w
  /\ description_cache_file run.2 = description_cache_file w
  /\ only_calls read_only w run.2.
Proof.
  intros w run.
  assert (resolved_tracks w "p2" None = []) as H by (vm_compute; reflexivity).
  split; [exact H|].
  exact (description_update_skips_empty runtime_excerpt default_config
           demo_client "me" "p2" None w H).
Defined.

(** *** Writing the cache file *)

Lemma string_app_assoc (a b c : string) : (a +:+ b) +:+ c = a +:+ (b +:+ c).
Proof.
  induction a as [|x a IH]; [done|].
  change (String x ((a +:+ b) +:+ c) = String x (a +:+ (b +:+ c))).
  by rewrite IH.
Qed.

Lemma string_app_nil_r (a : string) : a +:+ "" = a.
Proof.
  induction a as [|x a IH]; [done|].
  change (String x (a +:+ "") = String x a). by rewrite IH.
Qed.

Lemma string_prefix_app (a b : string) : String.prefix a (a +:+ b) = true.
Proof.
  induction a as [|x a IH]; [by destruct b|].
  change (String.prefix (String x a) (String x (a +:+ b)) = true).
  cbn [String.prefix]. destruct (ascii_dec x x); [done|congruence].
Qed.

Lemma write_chunks_after (cs : list string) (s : string) :
  fold_left file_after (map WriteChunk cs) (Some s)
  = Some (s +:+ String.concat "" cs).
Proof.
  revert s. induction cs as [|c cs IH]; intros s; cbn [map fold_left].
  - by rewrite string_app_nil_r.
  - cbn [file_after default]. rewrite IH. f_equal.
    rewrite string_app_assoc. f_equal.
    destruct cs as [|c' cs']; [by rewrite string_app_nil_r|done].
Qed.

Lemma concat_take_prefix (cs : list string) (n : nat) :
  String.prefix (String.concat "" (take n cs)) (String.concat "" cs) = true.
Proof.
  revert n. induction cs as [|c cs IH]; intros [|n]; try done.
  - by destruct (String.concat "" (c :: cs)).
  - cbn [take]. specialize (IH n).
    assert (forall l, String.concat "" (c :: l) = c +:+ String.concat "" l)
      as Hc.
    { intros [|c' l]; [by rewrite string_app_nil_r|done]. }
    rewrite !Hc. clear Hc.
    induction c as [|x c IHc]; [done|].
    change (String.prefix (String x (c +:+ String.concat "" (take n cs)))
              (String x (c +:+ String.concat "" cs)) = true).
    cbn [String.prefix]. destruct (ascii_dec x x); [done|congruence].
Qed.

(** C8 (as amended).  The cache is written in place: the file is opened
    for writing, which empties it, the chunks of the new cache are
    appended, and the file is closed; there is no temporary file.
    Before the open the previous file is intact; from the open on, an
    interrupted write leaves a prefix of the new text, whatever the file
    held before; the completed write leaves the whole new text. *)
Theorem interrupted_save_leaves_prefix (rt : runtime) (cache : json)
    (k : nat) (old : option string) (w : world) :
  let new_text := String.concat "" (json_iterencode rt cache) in
  match k with
  | O => interrupted_save rt cache k old = old
  | S _ =>
      exists written,
        interrupted_save rt cache k old = Some written
        /\ String.prefix written new_text = true
  end
  /\ description_cache_file (_save_snapshot_cache rt cache w).2
     = Some new_text.
Proof.
  cbn zeta. split.
  - destruct k as [|k]; [done|].
    unfold interrupted_save, save_ops. cbn [take fold_left file_after].
    set (cs := json_iterencode rt cache).
    destruct (decide (k <= length cs)) as [Hk|Hk].
    + rewrite take_app_le by (by rewrite length_map).
      rewrite firstn_map, write_chunks_after.
      eexists. split; [done|]. apply concat_take_prefix.
    + rewrite take_ge by (rewrite length_app, length_map; simpl; lia).
      rewrite fold_left_app, write_chunks_after. cbn.
      eexists. split; [done|].
      rewrite <- (string_app_nil_r (String.concat "" cs)) at 2.
      apply string_prefix_app.
  - cbn. unfold save_ops. cbn [fold_left file_after].
    by rewrite fold_left_app, write_chunks_after.
Qed.

(** C8 (counterexample).  The cache file holds a valid cache; a write
    of a larger cache that dies right after the open leaves an empty
    file, and one that dies three chunks later leaves text that does not
    parse. *)
Lemma interrupted_save_loses_cache :
  let old := cache_written (JObject [("p1", JString "snapA")]) in
  let new := JObject [("p1", JString "snapA"); ("p2", JString "snapB")] in
  (json_load_flat <$> old) = Some (Some (JObject [("p1", JString "snapA")]))
  /\ interrupted_save runtime_excerpt new 1 old = Some ""
  /\ interrupted_save runtime_excerpt new 1 old <> old
  /\ interrupted_save runtime_excerpt new 4 old
     = Some ("{" +:+ String newline (quoted "p1"))
  /\ (json_load_flat <$> interrupted_save runtime_excerpt new 4 old)
     = Some None.
Proof. vm_compute. repeat split; congruence. Qed.

End Descriptions.

(* ===================================================================== *)
(** * Add-only reconciliation of an existing playlist *)
(* ===================================================================== *)

Module Reconcile.
Import Py Spotify.

(** [playlist_update.py], lines 217-225: add to the playlist the desired
    tracks it does not have yet, fifty at a time; the result is
    [to_add]. *)
Definition add_missing_tracks (sp : client) (pid : string)
    (track_uris : list string) : M (list string) :=
  already ← get_playlist_tracks sp pid false;
  let to_add := List.filter (fun u => bool_decide (u ∉ already)) track_uris in
  match to_add with
  | [] => ret tt
  | _ =>
      for_each (_chunked to_add 50) (sp_playlist_add_items sp pid);;
      modify (set_tracks_cache (delete pid))
  end;;
  ret to_add.

(** [playlist_consolidation.py], lines 401-408: the same for a yearly
    playlist; the comprehension also drops values that are empty or not
    strings, in the list and again in each chunk. *)
Definition add_missing_valid_tracks (sp : client) (pid : string)
    (filtered_tracks : list string) : M (list string) :=
  already ← get_playlist_tracks sp pid false;
  let to_add :=
    List.filter (fun u => nonempty u && bool_decide (u ∉ already))
                filtered_tracks in
  match to_add with
  | [] => ret tt
  | _ =>
      for_each (_chunked to_add 50)
        (fun chunk =>
           let valid := List.filter nonempty chunk in
           match valid with
           | [] => ret tt
           | _ => sp_playlist_add_items sp pid valid
           end)
  end;;
  ret to_add.

(** The track set [get_playlist_tracks(sp, pid)] answers with: the
    cached one, else the live one. *)
Definition seen_tracks (w : world) (pid : string) : gset string :=
  match _playlist_tracks_cache w !! pid with
  | Some s => s
  | None => live_tracks (remote w) pid
  end.

(** The set difference [D - R], in the order of [D]. *)
Definition difference (D : list string) (R : gset string) : list string :=
  List.filter (fun u => bool_decide (u ∉ R)) D.

(** The mutating requests among the calls made since [w]. *)
Definition mutations_since (w w' : world) : list api_request :=
  List.filter is_mutation (fst <$> drop (length (calls w)) (calls w')).

(** ** Facts *)

Lemma add_items_run sp pid uris w pl :
  remote w !! pid = Some pl ->
  sp_playlist_add_items sp pid uris w
  = (Ok tt,
     set_remote
       <[pid := {| pl_name := pl_name pl; pl_description := pl_description pl;
                   pl_snapshot_id := sp_new_snapshot sp pl;
                   pl_tracks := pl_tracks pl ++ uris |}]>
       (log_call (AddItems pid uris) w)).
Proof.
  intros H. unfold sp_playlist_add_items. mrun. cbn [remote log_call].
  rewrite H. by mrun.
Qed.

(** What a run of additions to one playlist leads to. *)
Definition added (pid : string) (reqs : list (list string)) (w w' : world)
    : Prop :=
  exists pl pl',
    remote w !! pid = Some pl
    /\ remote w' = <[pid := pl']> (remote w)
    /\ pl_name pl' = pl_name pl
    /\ pl_description pl' = pl_description pl
    /\ pl_tracks pl' = pl_tracks pl ++ concat reqs
    /\ fst <$> calls w' = (fst <$> calls w) ++ map (AddItems pid) reqs
    /\ _playlist_tracks_cache w' = _playlist_tracks_cache w
    /\ _playlist_cache w' = _playlist_cache w
    /\ description_cache_file w' = description_cache_file w
    /\ backups w' = backups w.

Lemma added_nil pid w pl : remote w !! pid = Some pl -> added pid [] w w.
Proof.
  intros H. exists pl, pl. rewrite insert_id by done.
  by rewrite !app_nil_r.
Qed.

Lemma added_step sp pid uris reqs w w' pl :
  remote w !! pid = Some pl ->
  added pid reqs (sp_playlist_add_items sp pid uris w).2 w' ->
  added pid (uris :: reqs) w w'.
Proof.
  intros H (pl1 & pl' & H1 & Hr & Hn & Hd & Ht & Hc & Hx).
  rewrite (add_items_run sp pid uris w pl H) in *.
  cbn [snd remote set_remote log_call calls _playlist_tracks_cache
       _playlist_cache description_cache_file backups] in *.
  rewrite lookup_insert_eq in H1. injection H1 as <-.
  exists pl, pl'. cbn in *. split; [done|].
  split; [by rewrite Hr, insert_insert_eq|].
  split; [done|]. split; [done|].
  split; [by rewrite Ht, <- app_assoc|].
  split; [|done].
  rewrite Hc, fmap_app. cbn. by rewrite <- app_assoc.
Qed.

Lemma add_chunks_run sp pid chunks w pl :
  remote w !! pid = Some pl ->
  exists w', for_each chunks (sp_playlist_add_items sp pid) w = (Ok tt, w')
             /\ added pid chunks w w'.
Proof.
  revert w pl. induction chunks as [|c chunks IH]; intros w pl H.
  - exists w. split; [done|]. by eapply added_nil.
  - cbn [for_each]. rewrite bind_run.
    pose proof (add_items_run sp pid c w pl H) as Hrun.
    destruct (sp_playlist_add_items sp pid c w) as [r w1] eqn:E.
    injection Hrun as -> Hw1.
    destruct (IH w1 {| pl_name := pl_name pl;
                       pl_description := pl_description pl;
                       pl_snapshot_id := sp_new_snapshot sp pl;
                       pl_tracks := pl_tracks pl ++ c |})
      as (w' & Hw' & Hadd).
    { rewrite Hw1. cbn. by rewrite lookup_insert_eq. }
    exists w'. split; [done|].
    eapply added_step; [done|]. by rewrite E.
Qed.

Lemma for_each_ext {A} (l : list A) (f g : A -> M unit) :
  (forall x, x ∈ l -> f x = g x) -> for_each l f = for_each l g.
Proof.
  induction l as [|x l IH]; intros H; [done|].
  cbn [for_each]. rewrite (H x) by left.
  rewrite IH; [done|]. intros y Hy. apply H. by right.
Qed.

Lemma filter_mutation_adds pid (cs : list (list string)) :
  List.filter is_mutation (map (AddItems pid) cs) = map (AddItems pid) cs.
Proof. induction cs as [|c cs IH]; [done|]. cbn. by rewrite IH. Qed.

Lemma mutations_since_app w w' (new : list api_request) :
  fst <$> calls w' = (fst <$> calls w) ++ new ->
  mutations_since w w' = List.filter is_mutation new.
Proof.
  intros H. unfold mutations_since. rewrite fmap_drop, H.
  rewrite <- (length_fmap fst (calls w)). by rewrite drop_app_length.
Qed.

Lemma added_mutations pid reqs w0 w w' (pre : list api_request) :
  fst <$> calls w = (fst <$> calls w0) ++ pre ->
  List.filter is_mutation pre = [] ->
  added pid reqs w w' ->
  mutations_since w0 w' = map (AddItems pid) reqs.
Proof.
  intros Hpre Hf (pl & pl' & _ & _ & _ & _ & _ & Hc & _).
  rewrite (mutations_since_app w0 w' (pre ++ map (AddItems pid) reqs)).
  - by rewrite List.filter_app, Hf, filter_mutation_adds.
  - by rewrite Hc, Hpre, app_assoc.
Qed.

Lemma filter_nonempty_id (l : list string) :
  Forall (fun u => u <> ""%string) l -> List.filter nonempty l = l.
Proof.
  induction 1 as [|u l Hu Hl IH]; [done|]. cbn.
  rewrite IH. by destruct u.
Qed.

(** The plan of the monthly step. *)
Lemma add_missing_tracks_spec sp pid D w pl :
  remote w !! pid = Some pl ->
  let plan := difference D (seen_tracks w pid) in
  let run := add_missing_tracks sp pid D w in
  run.1 = Ok plan
  /\ mutations_since w run.2 = map (AddItems pid) (_chunked plan 50)
  /\ exists pl',
       remote run.2 = <[pid := pl']> (remote w)
       /\ pl_name pl' = pl_name pl
       /\ pl_tracks pl' = pl_tracks pl ++ plan.
Proof.
  intros Hpl. cbn zeta. unfold add_missing_tracks.
  rewrite bind_run, get_playlist_tracks_run. unfold seen_tracks. cbn iota.
  set (w1 := set_tracks_cache <[pid := live_tracks (remote w) pid]>
               (log_call (GetPlaylistItems pid) w)).
  assert (exists (w0 : world) (pre : list api_request),
    (match _playlist_tracks_cache w !! pid with
     | Some s => (Ok s, w)
     | None => (Ok (live_tracks (remote w) pid), w1)
     end) = (Ok (match _playlist_tracks_cache w !! pid with
                 | Some s => s
                 | None => live_tracks (remote w) pid
                 end), w0)
    /\ remote w0 = remote w
    /\ fst <$> calls w0 = (fst <$> calls w) ++ pre
    /\ List.filter is_mutation pre = []) as (w0 & pre & -> & Hr0 & Hc0 & Hp0).
  { destruct (_playlist_tracks_cache w !! pid).
    - exists w, []. by rewrite app_nil_r.
    - exists w1, [GetPlaylistItems pid]. repeat split; try done.
      cbn. by rewrite fmap_app. }
  set (R := match _playlist_tracks_cache w !! pid with
            | Some s => s
            | None => live_tracks (remote w) pid
            end).
  fold (difference D R). set (plan := difference D R).
  rewrite bind_run.
  destruct plan as [|u plan'] eqn:Eplan.
  - mrun. cbn [fst snd]. split; [done|]. split.
    + rewrite (mutations_since_app w w0 pre) by done. by rewrite Hp0.
    + exists pl. rewrite Hr0, insert_id by done. by rewrite app_nil_r.
  - rewrite <- Eplan. rewrite bind_run.
    destruct (add_chunks_run sp pid (_chunked plan 50) w0 pl)
      as (w2 & -> & Hadd); [by rewrite Hr0|].
    mrun. cbn [fst snd]. split; [done|]. split.
    + rewrite <- (added_mutations pid (_chunked plan 50) w w0 w2 pre)
        by done.
      done.
    + destruct Hadd as (pl0 & pl' & H0 & Hr & Hn & _ & Ht & _).
      rewrite Hr0 in H0. rewrite Hpl in H0. injection H0 as <-.
      exists pl'. cbn [remote set_tracks_cache].
      rewrite Hr, Hr0. split; [done|]. split; [done|].
      by rewrite Ht, _chunked_concat by lia.
Qed.

(** The plan of the yearly step. *)
Lemma add_missing_valid_tracks_spec sp pid D w pl :
  remote w !! pid = Some pl ->
  Forall (fun u => u <> ""%string) D ->
  let plan := difference D (seen_tracks w pid) in
  let run := add_missing_valid_tracks sp pid D w in
  run.1 = Ok plan
  /\ mutations_since w run.2 = map (AddItems pid) (_chunked plan 50)
  /\ exists pl',
       remote run.2 = <[pid := pl']> (remote w)
       /\ pl_name pl' = pl_name pl
       /\ pl_tracks pl' = pl_tracks pl ++ plan.
Proof.
  intros Hpl HD. cbn zeta. unfold add_missing_valid_tracks.
  rewrite bind_run, get_playlist_tracks_run. unfold seen_tracks. cbn iota.
  set (w1 := set_tracks_cache <[pid := live_tracks (remote w) pid]>
               (log_call (GetPlaylistItems pid) w)).
  assert (exists (w0 : world) (pre : list api_request),
    (match _playlist_tracks_cache w !! pid with
     | Some s => (Ok s, w)
     | None => (Ok (live_tracks (remote w) pid), w1)
     end) = (Ok (match _playlist_tracks_cache w !! pid with
                 | Some s => s
                 | None => live_tracks (remote w) pid
                 end), w0)
    /\ remote w0 = remote w
    /\ fst <$> calls w0 = (fst <$> calls w) ++ pre
    /\ List.filter is_mutation pre = []) as (w0 & pre & -> & Hr0 & Hc0 & Hp0).
  { destruct (_playlist_tracks_cache w !! pid).
    - exists w, []. by rewrite app_nil_r.
    - exists w1, [GetPlaylistItems pid]. repeat split; try done.
      cbn. by rewrite fmap_app. }
  set (R := match _playlist_tracks_cache w !! pid with
            | Some s => s
            | None => live_tracks (remote w) pid
            end).
  assert (List.filter (fun u => nonempty u && bool_decide (u ∉ R)) D
          = difference D R) as ->.
  { unfold difference. apply List.filter_ext_in. intros u Hu.
    rewrite Forall_forall in HD.
    apply list_elem_of_In, HD in Hu. by destruct u. }
  set (plan := difference D R).
  assert (Forall (fun u => u <> ""%string) plan) as Hplan.
  { apply Forall_forall. intros u Hu. rewrite Forall_forall in HD.
    apply HD. unfold plan, difference in Hu.
    apply list_elem_of_In, filter_In in Hu as [Hu _].
    by apply list_elem_of_In. }
  rewrite bind_run.
  destruct plan as [|u plan'] eqn:Eplan.
  - mrun. cbn [fst snd]. split; [done|]. split.
    + rewrite (mutations_since_app w w0 pre) by done. by rewrite Hp0.
    + exists pl. rewrite Hr0, insert_id by done. by rewrite app_nil_r.
  - rewrite <- Eplan in *.
    rewrite (for_each_ext _ _ (sp_playlist_add_items sp pid)).
    2:{ intros chunk Hchunk.
        assert (Forall (fun u => u <> ""%string) chunk) as Hne.
        { apply Forall_forall. intros v Hv. rewrite Forall_forall in Hplan.
          apply Hplan. rewrite <- (_chunked_concat plan 50) by lia.
          apply list_elem_of_In, in_concat. exists chunk.
          by rewrite <- !list_elem_of_In. }
        rewrite filter_nonempty_id by done.
        pose proof (_chunked_bounds plan 50 ltac:(lia)) as Hb.
        rewrite Forall_forall in Hb.
        destruct (Hb chunk Hchunk) as [Hc _]. by destruct chunk. }
    destruct (add_chunks_run sp pid (_chunked plan 50) w0 pl)
      as (w2 & -> & Hadd); [by rewrite Hr0|].
    mrun. cbn [fst snd]. split; [done|]. split.
    + by rewrite <- (added_mutations pid (_chunked plan 50) w w0 w2 pre).
    + destruct Hadd as (pl0 & pl' & H0 & Hr & Hn & _ & Ht & _).
      rewrite Hr0 in H0. rewrite Hpl in H0. injection H0 as <-.
      exists pl'. rewrite Hr, Hr0. split; [done|]. split; [done|].
      by rewrite Ht, _chunked_concat by lia.
Qed.

(** C2, as amended.  For an existing playlist, with [R] the track set
    [get_playlist_tracks] answers with (the cached set when the track
    cache has an entry for the playlist, whatever the service holds by
    then, and the current remote set otherwise) and [D] the desired
    track list, both reconciliation steps (the monthly one, and the
    yearly one on lists of non-empty URIs) return the plan [D - R] in
    the order of [D]; their mutating requests are exactly the additions
    of that plan, fifty tracks at a time; and afterwards the playlist
    holds its old tracks followed by the plan, so no track of it is
    removed. *)
Theorem reconcile_adds_difference (sp : client) (pid : string)
    (D : list string) (w : world) (pl : playlist) :
  remote w !! pid = Some pl ->
  Forall (fun u => u <> ""%string) D ->
  let plan := difference D (seen_tracks w pid) in
  concat (_chunked plan 50) = plan
  /\ Forall (fun run : outcome (list string) * world =>
       run.1 = Ok plan
       /\ mutations_since w run.2 = map (AddItems pid) (_chunked plan 50)
       /\ exists pl',
            remote run.2 = <[pid := pl']> (remote w)
            /\ pl_name pl' = pl_name pl
            /\ pl_tracks pl' = pl_tracks pl ++ plan)
     [add_missing_tracks sp pid D w; add_missing_valid_tracks sp pid D w].
Proof.
  intros Hpl HD plan. split; [apply _chunked_concat; lia|].
  constructor; [by apply add_missing_tracks_spec|].
  constructor; [by apply add_missing_valid_tracks_spec|constructor].
Qed.

Lemma reconcile_adds_difference_witness :
  let pl := {| pl_name := "AJFinds24"; pl_description := [];
               pl_snapshot_id := "s0"; pl_tracks := ["a"; "m"] |}%string in
  let w := world_of [("p1"%string, pl)] in
  let D := ["a"; "b"; "c"]%string in
  remote w !! "p1"%string = Some pl
  /\ Forall (fun u => u <> ""%string) D
  /\ difference D (seen_tracks w "p1") = ["b"; "c"]%string
  /\ Forall (fun run : outcome (list string) * world =>
       run.1 = Ok ["b"; "c"]%string
       /\ mutations_since w run.2
          = map (AddItems "p1") (_chunked ["b"; "c"]%string 50)
       /\ exists pl',
            remote run.2 = <[("p1"%string) := pl']> (remote w)
            /\ pl_name pl' = pl_name pl
            /\ pl_tracks pl' = pl_tracks pl ++ ["b"; "c"]%string)
     [add_missing_tracks demo_client "p1" D w;
      add_missing_valid_tracks demo_client "p1" D w].
Proof.
  intros pl w D.
  assert (remote w !! "p1"%string = Some pl) as H1 by (vm_compute; reflexivity).
  assert (Forall (fun u => u <> ""%string) D) as H2
    by (repeat constructor; congruence).
  assert (difference D (seen_tracks w "p1") = ["b"; "c"]%string) as H3
    by (vm_compute; reflexivity).
  split; [exact H1|]. split; [exact H2|]. split; [exact H3|].
  rewrite <- H3.
  exact (proj2 (reconcile_adds_difference demo_client "p1"%string D w pl H1 H2)).
Defined.

(** *** A track cache that is behind the service *)

(** The playlist holds [a] and [b]; the track cache was filled when it
    held [a] only. *)
Definition stale_tracks_world : world :=
  set_tracks_cache (fun _ => {[ "p1"%string := {[ "a"%string ]} ]})
    (world_of [("p1"%string,
                {| pl_name := "AJFinds24"; pl_description := [];
                   pl_snapshot_id := "s0"; pl_tracks := ["a"; "b"] |}%string)]).

(** C2 (counterexample).  With the desired list [[b]] and the current
    remote track set [{a, b}] the difference is empty, yet both steps
    plan [b], ask the service to add it, and leave the playlist with
    [b] twice: the plan is taken against the cached set [{a}]. *)
Lemma reconcile_adds_track_already_there :
  let w := stale_tracks_world in
  let D := ["b"]%string in
  let R := live_tracks (remote w) "p1" in
  R = list_to_set ["a"; "b"]%string
  /\ difference D R = []
  /\ Forall (fun run : outcome (list string) * world =>
       run.1 = Ok ["b"]%string
       /\ mutations_since w run.2 = [AddItems "p1" ["b"]]%string
       /\ pl_tracks <$> remote run.2 !! "p1"%string
          = Some ["a"; "b"; "b"]%string)
     [add_missing_tracks demo_client "p1" D w;
      add_missing_valid_tracks demo_client "p1" D w].
Proof.
  cbn zeta. split; [|split].
  - vm_compute. reflexivity.
  - vm_compute. reflexivity.
  - constructor; [|constructor; [|constructor]];
      (split; [|split]); vm_compute; reflexivity.
Qed.

End Reconcile.

(* ===================================================================== *)
(** * Monthly playlists ([playlist_update.py]) *)
(* ===================================================================== *)

Module Update.
Import Py Config Calendar Spotify DescriptionText Descriptions Reconcile.

(** ** The tables read with pandas *)

(** A table with columns of texts: its column names and, per row, the
    cells by column name; [None] is a null. *)
Record DataFrame := {
  columns : list string;
  records : list (list (string * option string));
}.

(** [df.empty]: no row or no column. *)
Definition df_empty (df : DataFrame) : bool :=
  match columns df, records df with
  | _ :: _, _ :: _ => false
  | _, _ => true
  end.

(** The cell of a row in a column. *)
Definition cell_of (col : string) (row : list (string * option string))
    : option string :=
  default None (dict_get col row).

(** [df[col]]; [None] when it raises [KeyError]. *)
Definition column (df : DataFrame) (col : string)
    : option (list (option string)) :=
  if bool_decide (col ∈ columns df) then Some (map (cell_of col) (records df))
  else None.

(** [df[mask]] *)
Definition filter_rows (df : DataFrame) (mask : list bool) : DataFrame :=
  {| columns := columns df;
     records :=
       omap (fun br : bool * list (string * option string) =>
               if br.1 then Some br.2 else None)
            (zip mask (records df)) |}.

(** [playlist_tracks.parquet]: missing, or what [pd.read_parquet]
    makes of it. *)
Inductive parquet_file :=
| NoFile
| Unreadable
| Parquet (library : DataFrame).

Definition LIKED_SONGS_PLAYLIST_ID : string := "__liked_songs__".

(** A liked-songs row once its columns [month] and [_uri] are there
    (lines 125-132): the month of its added timestamp, as
    [to_period("M").astype(str)] prints it, and its track URI, [None]
    when null. *)
Record liked_row := {
  lr_month : string;
  lr_uri : option string;
}.

(** The first of the timestamp columns the table has (lines 118-122). *)
Definition added_col (liked : DataFrame) : option string :=
  head (List.filter (fun col => bool_decide (col ∈ columns liked))
          ["added_at"; "playlist_added_at"; "track_added_at"]%string).

(** Lines 112-132: the liked-songs rows of the library table, [None]
    when a line raises: [read_parquet] on a file it cannot read,
    [library["playlist_id"]] on a table without that column, and, on a
    table without the column [track_uri], line 132, where
    [liked["track_id"]] raises [KeyError] or else [_to_uri], a name
    this function never imports, raises [NameError].
    [to_period_M] is pandas' [to_datetime(..., errors="coerce",
    utc=True)] followed by [.dt.to_period("M").astype(str)]. *)
Definition liked_rows (rt : runtime) (file : parquet_file)
    : option (list liked_row) :=
  match file with
  | NoFile => Some []
  | Unreadable => None
  | Parquet library =>
      playlist_id ← column library "playlist_id";
      let liked :=
        filter_rows library
          (map (fun c => bool_decide (c = Some LIKED_SONGS_PLAYLIST_ID))
               playlist_id) in
      if df_empty liked then Some []
      else
        match added_col liked with
        | None => Some []
        | Some col =>
            let month :=
              to_period_M rt (map (cell_of col) (records liked)) in
            if bool_decide ("track_uri"%string ∈ columns liked)
            then Some (zip_with Build_liked_row month
                         (map (cell_of "track_uri") (records liked)))
            else None
        end
  end.

(** Lines 152-154: [history_df['timestamp']] raises [KeyError] on a
    history table that has rows and no such column. *)
Definition history_months_raise (history_df : option DataFrame) : bool :=
  match history_df with
  | Some df =>
      negb (df_empty df)
      && negb (bool_decide ("timestamp"%string ∈ columns df))
  | None => false
  end.

(** [all_month_to_tracks.get(m, {}).get("monthly", [])]: the URIs of the
    rows of month [m], first occurrences only, in row order. *)
Definition month_tracks (liked : list liked_row) (month : string)
    : list string :=
  dedup_order
    (omap (fun r => if String.eqb (lr_month r) month then lr_uri r else None)
          liked).

(** [[(now - relativedelta(months=i)).strftime("%Y-%m")
      for i in range(keep_last_n_months)]] *)
Definition calendar_last_n (now : datetime) (keep_last_n_months : Z)
    : list string :=
  map (fun i => strftime_Ym (minus_months now i)) (seqZ 0 keep_last_n_months).

(** [sorted(set(calendar_last_n))] *)
Definition recent_months (now : datetime) (keep_last_n_months : Z)
    : list string :=
  sort_by String.leb (dedup_order (calendar_last_n now keep_last_n_months)).

Definition monthly_name (cfg : config) (month : string) : string :=
  format_playlist_name cfg (MONTHLY_NAME_TEMPLATE cfg) (Some month) monthly
    None.

Section WithContext.
Context (rt : runtime) (cfg : config) (sp : client).

(** The body of the loop over months for the "Finds" type (lines
    207-262); the result is the month's track list. *)
Definition update_month (existing : list (string * string))
    (user_id : string) (liked : list liked_row) (month : string)
    : M (list string) :=
  let track_uris := month_tracks liked month in
  let name := monthly_name cfg month in
  match dict_get name existing with
  | Some pid =>
      add_missing_tracks sp pid track_uris;;
      _update_playlist_description_with_genres rt cfg sp user_id pid
        (Some track_uris);;
      ret track_uris
  | None =>
      description ← formatted_description rt cfg "Liked songs" month monthly;
      pid ← sp_user_playlist_create sp name description;
      for_each (_chunked track_uris 50) (sp_playlist_add_items sp pid);;
      _update_playlist_description_with_genres rt cfg sp user_id pid
        (Some track_uris);;
      _invalidate_playlist_cache;;
      ret track_uris
  end.

(** [update_monthly_playlists(sp, keep_last_n_months)], run at [now]
    with the streaming history [history_df] ([None] when there is none)
    and the library file [playlist_tracks]; the result maps each
    processed month to its track list per type.  Log lines and the
    freshness check of lines 83-101, which catches what it raises, are
    left out. *)
Definition update_monthly_playlists (now : datetime)
    (history_df : option DataFrame) (playlist_tracks : parquet_file)
    (keep_last_n_months : Z)
    : M (list (string * list (playlist_type * list string))) :=
  handle_errors []
    (if negb (ENABLE_MONTHLY cfg || ENABLE_MOST_PLAYED cfg
              || ENABLE_DISCOVERY cfg)
     then ret []
     else
       match liked_rows rt playlist_tracks with
       | None => raise Exception
       | Some liked =>
           if history_months_raise history_df then raise Exception
           else
             let recent := recent_months now keep_last_n_months in
             match recent with
             | [] => ret []
             | _ =>
                 existing ← get_existing_playlists sp false;
                 user_id ← get_user_info sp;
                 if negb (ENABLE_MONTHLY cfg) then ret []
                 else
                   fold_each (sort_by String.leb recent) []
                     (fun month_to_tracks month =>
                        track_uris ←
                          update_month existing user_id liked month;
                        ret (dict_set month [(monthly, track_uris)]
                               month_to_tracks))
             end
       end).

(** ** Properties *)

(** Every playlist the dictionary lists is live. *)
Definition listing_live (existing : list (string * string)) (w : world)
    : Prop :=
  forall name pid, dict_get name existing = Some pid ->
    is_Some (remote w !! pid).

Lemma listing_live_stay existing w w' :
  playlists_stay w w' -> listing_live existing w -> listing_live existing w'.
Proof. intros Hs Hl name pid H. by eapply Hs, Hl. Qed.

Ltac update_steps :=
  repeat first
    [ apply update_description_any_calls
    | apply update_description_stay
    | progress unfold formatted_description
    | progress steps_all ].

Lemma add_missing_tracks_any_calls pid D :
  steps (only_calls any_call) (add_missing_tracks sp pid D).
Proof. unfold add_missing_tracks. any_calls. Qed.

Lemma playlists_stay_cases :
  (forall r w, playlists_stay w (log_call r w))
  /\ (forall f w, playlists_stay w (set_tracks_cache f w))
  /\ (forall c w, playlists_stay w (set_playlist_cache c w)).
Proof. repeat split; intros; by apply same_remote_stay. Qed.

Ltac stays :=
  update_steps; intros;
  first [ by apply same_remote_stay | by apply insert_stay ].

Lemma add_missing_tracks_stay pid D :
  steps playlists_stay (add_missing_tracks sp pid D).
Proof. unfold add_missing_tracks. stays. Qed.

Lemma update_month_any_calls existing user_id liked month :
  steps (only_calls any_call) (update_month existing user_id liked month).
Proof.
  unfold update_month, add_missing_tracks. update_steps; intros;
    first [ by apply only_calls_log | by apply only_calls_same ].
Qed.

Lemma update_month_stay existing user_id liked month :
  steps playlists_stay (update_month existing user_id liked month).
Proof. unfold update_month, add_missing_tracks. stays. Qed.

(** The description template formats for the monthly playlists. *)
Definition template_formats : Prop :=
  forall month,
    is_Some (format_playlist_description rt cfg "Liked songs" month monthly).

(** With a live listing and a template that formats the step does not
    raise; with the name not listed it goes through the create
    branch. *)
Lemma update_month_ok existing user_id liked month w :
  template_formats ->
  listing_live existing w ->
  exists w',
    update_month existing user_id liked month w
    = (Ok (month_tracks liked month), w')
    /\ (dict_get (monthly_name cfg month) existing = None ->
        exists d, issued (CreatePlaylist (monthly_name cfg month) d) w w').
Proof.
  intros Hfmt Hlive. unfold update_month.
  destruct (dict_get (monthly_name cfg month) existing) as [pid|] eqn:Hget.
  - destruct (Hlive _ _ Hget) as [pl Hpl].
    rewrite bind_run.
    destruct (add_missing_tracks_spec sp pid (month_tracks liked month) w pl
                Hpl) as (Hok & _).
    destruct (add_missing_tracks sp pid (month_tracks liked month) w)
      as [r w1]. cbn in Hok. subst r. rewrite bind_run.
    destruct (update_description_total rt cfg sp user_id pid
                (Some (month_tracks liked month)) w1) as [b Hb].
    destruct (_update_playlist_description_with_genres rt cfg sp user_id pid
                (Some (month_tracks liked month)) w1) as [r w2].
    cbn in Hb. subst r. mrun. by eexists.
  - unfold formatted_description.
    destruct (Hfmt month) as [text ->].
    set (d := py_of_string text).
    rewrite bind_run. cbn [ret]. rewrite bind_run, create_run.
    set (w1 := set_remote _ (log_call (CreatePlaylist _ d) w)).
    set (pid := sp_new_id sp (remote w)).
    assert (steps (only_calls any_call)
              (for_each (_chunked (month_tracks liked month) 50)
                 (sp_playlist_add_items sp pid);;
               _update_playlist_description_with_genres rt cfg sp user_id pid
                 (Some (month_tracks liked month));;
               _invalidate_playlist_cache;;
               ret (month_tracks liked month))) as Hcalls
      by (update_steps; intros;
          first [ by apply only_calls_log | by apply only_calls_same ]).
    specialize (Hcalls w1).
    rewrite bind_run in *.
    destruct (add_chunks_run sp pid (_chunked (month_tracks liked month) 50)
                w1 _ ltac:(apply lookup_insert_eq)) as (w2 & Hw2 & _).
    rewrite Hw2 in *. rewrite bind_run in *.
    destruct (update_description_total rt cfg sp user_id pid
                (Some (month_tracks liked month)) w2) as [b Hb].
    destruct (_update_playlist_description_with_genres rt cfg sp user_id pid
                (Some (month_tracks liked month)) w2) as [r w3].
    cbn in Hb. subst r. unfold _invalidate_playlist_cache in *.
    mrun. cbn [snd] in Hcalls. eexists. split; [done|].
    intros _. exists d. eapply issued_then; [|exact Hcalls].
    eapply then_issued; [|apply issued_log].
    apply only_calls_same. done.
Qed.

Lemma update_loop_ok existing user_id liked months acc w :
  template_formats ->
  listing_live existing w ->
  exists res w',
    fold_each months acc
      (fun month_to_tracks month =>
         track_uris ← update_month existing user_id liked month;
         ret (dict_set month [(monthly, track_uris)] month_to_tracks)) w
    = (Ok res, w')
    /\ (forall m, m ∈ res.*1 <-> m ∈ months \/ m ∈ acc.*1)
    /\ (forall m, m ∈ months ->
          dict_get (monthly_name cfg m) existing = None ->
          exists d, issued (CreatePlaylist (monthly_name cfg m) d) w w').
Proof.
  intros Hfmt.
  revert acc w. induction months as [|month months IH]; intros acc w Hlive.
  - exists acc, w. split; [done|]. split.
    + intros m. rewrite elem_of_nil. tauto.
    + intros m Hm. by apply elem_of_nil in Hm.
  - cbn [fold_each]. rewrite !bind_run.
    pose proof (update_month_any_calls existing user_id liked month w) as Hc1.
    pose proof (update_month_stay existing user_id liked month w) as Hs1.
    destruct (update_month_ok existing user_id liked month w Hfmt Hlive)
      as (w1 & Hrun & Hcreate).
    rewrite Hrun in *. cbn [snd] in *. mrun.
    destruct (IH (dict_set month [(monthly, month_tracks liked month)] acc)
                w1) as (res & w' & Hfold & Hkeys & Hissued).
    { by eapply listing_live_stay. }
    exists res, w'. split; [done|]. split.
    + intros m. rewrite Hkeys, dict_set_keys, elem_of_cons. tauto.
    + intros m Hm Hnone. apply elem_of_cons in Hm as [->|Hm].
      * destruct (Hcreate Hnone) as [d Hd]. exists d.
        eapply issued_then; [exact Hd|].
        pose proof (steps_fold_each (only_calls any_call) months
          (dict_set month [(monthly, month_tracks liked month)] acc)
          (fun month_to_tracks month0 =>
             track_uris ← update_month existing user_id liked month0;
             ret (dict_set month0 [(monthly, track_uris)] month_to_tracks)))
          as Hloop.
        assert (forall s0 x, x ∈ months ->
                  steps (only_calls any_call)
                    (track_uris ← update_month existing user_id liked x;
                     ret (dict_set x [(monthly, track_uris)] s0))) as Hbody.
        { intros s0 x _. apply steps_bind; try tc_solve.
          - apply update_month_any_calls.
          - intros ?. apply steps_ret; tc_solve. }
        specialize (Hloop Hbody w1). by rewrite Hfold in Hloop.
      * destruct (Hissued m Hm Hnone) as [d Hd]. exists d.
        eapply then_issued; [exact Hc1|exact Hd].
Qed.

Lemma fresh_listing_live w :
  _playlist_cache w = None -> listing_live (listed_playlists w) w.
Proof.
  intros Hc. unfold listed_playlists. rewrite Hc.
  assert (forall (L : list (string * playlist)) (d : list (string * string)),
    (forall kv, kv ∈ L -> remote w !! kv.1 = Some kv.2) ->
    listing_live d w ->
    listing_live (fold_left (fun d kv => dict_set (pl_name kv.2) kv.1 d) L d)
      w) as Hfold.
  { induction L as [|kv L IH]; intros d HL Hd; [done|].
    cbn [fold_left]. apply IH.
    - intros kv' Hkv'. apply HL. by right.
    - intros name pid Hget.
      destruct (decide (pl_name kv.2 = name)) as [<-|Hne].
      + rewrite dict_get_set_eq in Hget. injection Hget as <-.
        rewrite (HL kv) by left. by eexists.
      + rewrite dict_get_set_ne in Hget by done. by eapply Hd. }
  apply Hfold.
  - intros [k v] Hkv. by apply elem_of_map_to_list in Hkv.
  - intros name pid H. done.
Qed.

Lemma recent_months_elem now n m :
  m ∈ recent_months now n
  <-> exists i, (0 <= i < n)%Z /\ m = strftime_Ym (minus_months now i).
Proof.
  unfold recent_months, calendar_last_n.
  rewrite sort_by_elem, dedup_order_elem, list_elem_of_In, in_map_iff.
  split.
  - intros (i & <- & Hi). exists i. split; [|done].
    apply list_elem_of_In, elem_of_seqZ in Hi. lia.
  - intros (i & Hi & ->). exists i. split; [done|].
    apply list_elem_of_In, elem_of_seqZ. lia.
Qed.

Lemma strftime_minus_zero now :
  (1 <= dt_month now <= 12)%Z ->
  strftime_Ym (minus_months now 0) = strftime_Ym now.
Proof.
  intros Hm. unfold strftime_Ym, minus_months. cbn [dt_year dt_month].
  replace ((dt_year now * 12 + (dt_month now - 1) - 0) / 12)%Z
    with (dt_year now) by (Z.div_mod_to_equations; lia).
  replace ((dt_year now * 12 + (dt_month now - 1) - 0) mod 12 + 1)%Z
    with (dt_month now) by (Z.div_mod_to_equations; lia).
  done.
Qed.


End WithContext.

(** The template [config.py] ships with formats whatever the values
    are. *)
Lemma default_template_formats rt description period t :
  format_playlist_description rt default_config description period t
  = Some (description +:+ " from " +:+ period +:+ "")%string.
Proof. reflexivity. Qed.

(** On 1 November 2024, with nothing liked in November and no playlist
    named for it yet. *)
Definition nov_2024 : datetime := {| dt_year := 2024; dt_month := 11; dt_day := 1 |}.

Definition october : playlist := {|
  pl_name := "AJFindsOct24"; pl_description := [];
  pl_snapshot_id := "s1"; pl_tracks := ["spotify:track:a"];
|}.

Definition liked_october : list liked_row :=
  [ {| lr_month := "2024-10"; lr_uri := Some "spotify:track:a" |};
    {| lr_month := "2024-10"; lr_uri := Some "spotify:track:b" |} ].

(** The library table of such a day: two liked songs and a track of
    another playlist. *)
Definition library_october : DataFrame := {|
  columns := ["playlist_id"; "track_uri"; "added_at"];
  records :=
    [ [("playlist_id", Some "__liked_songs__");
       ("track_uri", Some "spotify:track:a");
       ("added_at", Some "2024-10-03T08:15:00Z")];
      [("playlist_id", Some "p1");
       ("track_uri", Some "spotify:track:a");
       ("added_at", Some "2024-10-04T09:00:00Z")];
      [("playlist_id", Some "__liked_songs__");
       ("track_uri", Some "spotify:track:b");
       ("added_at", Some "2024-10-20T21:30:00Z")] ];
|}%string.

Example liked_rows_october :
  liked_rows runtime_excerpt (Parquet library_october) = Some liked_october.
Proof. vm_compute. reflexivity. Qed.

(** The same library with track identifiers in place of URIs. *)
Definition library_track_ids : DataFrame := {|
  columns := ["playlist_id"; "track_id"; "added_at"];
  records :=
    [ [("playlist_id", Some "__liked_songs__");
       ("track_id", Some "a");
       ("added_at", Some "2024-10-03T08:15:00Z")];
      [("playlist_id", Some "__liked_songs__");
       ("track_id", Some "b");
       ("added_at", Some "2024-10-20T21:30:00Z")] ];
|}%string.

(** A streaming history without the column [timestamp]. *)
Definition history_without_timestamp : DataFrame := {|
  columns := ["ts"; "spotify_track_uri"];
  records :=
    [ [("ts", Some "2024-10-03T08:15:00Z");
       ("spotify_track_uri", Some "spotify:track:a")] ];
|}%string.

Example recent_months_nov_2024 :
  recent_months nov_2024 3 = ["2024-09"; "2024-10"; "2024-11"]%string.
Proof. vm_compute. reflexivity. Qed.

Example rollover_creates_placeholder :
  let run := update_monthly_playlists runtime_excerpt default_config
               demo_client nov_2024 None (Parquet library_october) 3
               (world_of [("p1"%string, october)]) in
  run.1 = Ok [("2024-09", [(monthly, [])]);
              ("2024-10", [(monthly, ["spotify:track:a"; "spotify:track:b"])]);
              ("2024-11", [(monthly, [])])]%string
  /\ List.filter is_mutation (fst <$> calls run.2)
     = [CreatePlaylist "AJFindsSep24"
          (py_of_string "Liked songs from 2024-09");
        AddItems "p1" ["spotify:track:b"];
        ChangeDetails "p1" (py_of_string "Liked songs from Oct 24");
        CreatePlaylist "AJFindsNov24"
          (py_of_string "Liked songs from 2024-11")]%string.
Proof. vm_compute. split; reflexivity. Qed.

Definition finds_disabled : config := {|
  OWNER_NAME := "AJ"; BASE_PREFIX := "Finds";
  ENABLE_MONTHLY := false; ENABLE_MOST_PLAYED := true;
  ENABLE_DISCOVERY := true;
  PREFIX_MONTHLY := "Finds"; PREFIX_YEARLY := "Finds";
  PREFIX_MOST_PLAYED := "Top"; PREFIX_DISCOVERY := "Discovery";
  MONTHLY_NAME_TEMPLATE := "{owner}{prefix}{mon}{year}";
  YEARLY_NAME_TEMPLATE := "{owner}{prefix}{year}";
  DATE_FORMAT := "short"; SEPARATOR_MONTH := "none";
  SEPARATOR_PREFIX := "none"; CAPITALIZATION := "preserve";
  DESCRIPTION_TEMPLATE := "{description} from {period}";
|}.

(** The shipped settings with a description template that names a field
    [format_playlist_description] does not pass. *)
Definition month_template : config := {|
  OWNER_NAME := "AJ"; BASE_PREFIX := "Finds";
  ENABLE_MONTHLY := true; ENABLE_MOST_PLAYED := true;
  ENABLE_DISCOVERY := true;
  PREFIX_MONTHLY := "Finds"; PREFIX_YEARLY := "Finds";
  PREFIX_MOST_PLAYED := "Top"; PREFIX_DISCOVERY := "Discovery";
  MONTHLY_NAME_TEMPLATE := "{owner}{prefix}{mon}{year}";
  YEARLY_NAME_TEMPLATE := "{owner}{prefix}{year}";
  DATE_FORMAT := "short"; SEPARATOR_MONTH := "none";
  SEPARATOR_PREFIX := "none"; CAPITALIZATION := "preserve";
  DESCRIPTION_TEMPLATE := "{description} from {month}";
|}.



End Update.

(* ===================================================================== *)
(** * Consolidation and clean-up ([playlist_consolidation.py]) *)
(* ===================================================================== *)

Module Consolidation.
Import Py Config Calendar Spotify DescriptionText Descriptions Reconcile.
Import Update.

(** ** Which monthly playlists roll off *)

(** [cutoff_year_month] (lines 64-65) *)
Definition cutoff_year_month (now : datetime) (keep_last_n_months : Z)
    : string :=
  strftime_Ym (minus_months now keep_last_n_months).

(** [playlist_types] (lines 75-86): the enabled types and their
    prefixes, in insertion order. *)
Definition playlist_types (cfg : config) : list (playlist_type * string) :=
  (if ENABLE_MONTHLY cfg then [(monthly, PREFIX_MONTHLY cfg)] else [])
  ++ (if ENABLE_MOST_PLAYED cfg then [(most_played, PREFIX_MOST_PLAYED cfg)]
      else [])
  ++ (if ENABLE_DISCOVERY cfg then [(discovery, PREFIX_DISCOVERY cfg)]
      else []).

(** The first type whose pattern [OWNER_NAME + prefix] starts the name
    (the loop at line 92 with its [break] at line 128). *)
Definition match_type (cfg : config) (types : list (playlist_type * string))
    (name : string) : option (playlist_type * string) :=
  head (omap (fun tp : playlist_type * string =>
                let pattern := OWNER_NAME cfg +:+ tp.2 in
                if startswith name pattern then Some (tp.1, pattern) else None)
             types).

(** The first month abbreviation that follows the pattern (the loop at
    line 96 with its [break] at line 127): its number, and what is left
    of the name. *)
Definition match_month (name pattern : string) : option (string * string) :=
  head (omap (fun na : string * string =>
                if startswith name (pattern +:+ na.2)
                then Some (na.1,
                           str_drop (String.length (pattern +:+ na.2)) name)
                else None)
             MONTH_NAMES).

(** Lines 98-113: type, year and month number of a monthly playlist
    name; [None] for a name the loop passes over, and for one on which
    [int(year_str)] raises (see [year_raises]). *)
Definition parse_monthly (cfg : config) (name : string)
    : option (playlist_type * Z * string) :=
  '(t, pattern) ← match_type cfg (playlist_types cfg) name;
  '(month_num, remaining) ← match_month name pattern;
  if isdigit remaining then
    n ← int_of_isdigit remaining;
    let year :=
      if Nat.eqb (String.length remaining) 2 then (2000 + n)%Z else n in
    Some (t, year, month_num)
  else None.

(** Lines 100-106: [remaining.isdigit()] holds and [int(year_str)]
    raises [ValueError], the digits not all being decimal. *)
Definition year_raises (cfg : config) (name : string) : bool :=
  match match_type cfg (playlist_types cfg) name with
  | Some (t, pattern) =>
      match match_month name pattern with
      | Some (month_num, remaining) =>
          isdigit remaining && negb (isdecimal remaining)
      | None => false
      end
  | None => false
  end.

(** [f"{year}-{month_num}"] (line 117) *)
Definition month_str (year : Z) (month_num : string) : string :=
  str_int year +:+ "-" +:+ month_num.

Record monthly_entry := {
  me_year : Z;
  me_type : playlist_type;
  me_name : string;
  me_id : string;
}.

(** [monthly_playlists] (lines 88-128), flattened: one entry per
    selected playlist, in the order of [existing]. *)
Definition select_monthly (cfg : config) (cutoff : string)
    (existing : list (string * string)) : list monthly_entry :=
  omap (fun ni : string * string =>
          '(t, year, month_num) ← parse_monthly cfg ni.1;
          if String.leb (month_str year month_num) cutoff
          then Some {| me_year := year; me_type := t;
                       me_name := ni.1; me_id := ni.2 |}
          else None)
       existing.

(** [monthly_playlists[year][playlist_type]] *)
Definition monthlies_of (ms : list monthly_entry) (year : Z)
    (t : playlist_type) : list (string * string) :=
  omap (fun e => if bool_decide (me_year e = year /\ me_type e = t)
                 then Some (me_name e, me_id e) else None) ms.

(** [year in monthly_playlists] *)
Definition year_has_monthlies (ms : list monthly_entry) (year : Z) : bool :=
  existsb (fun e => bool_decide (me_year e = year)) ms.

(** ** The play-count order of "most played" *)

(** A streaming-history row: track URI, year of the timestamp,
    milliseconds played, each [None] when null.  The table is taken to
    have the columns the code reads. *)
Record history_event := {
  ev_uri : option string;
  ev_year : option Z;
  ev_ms_played : option Z;
}.

(** [history_df[history_df['year'] == year]] *)
Definition year_data (history : list history_event) (year : Z)
    : list history_event :=
  List.filter (fun e => bool_decide (ev_year e = Some year)) history.

(** [play_count_map.get(uri, 0)]: the rows of the track with a play
    time, in the year's data. *)
Definition play_count (history : list history_event) (year : Z)
    (uri : string) : nat :=
  length (List.filter
            (fun e => bool_decide (ev_uri e = Some uri)
                      && bool_decide (is_Some (ev_ms_played e)))
            (year_data history year)).

(** [all_tracks_list.sort(key=lambda uri: (play_count_map.get(uri, 0), 0),
    reverse=True)] *)
Definition sort_by_play_count (history : list history_event) (year : Z)
    (tracks : list string) : list string :=
  sort_by (fun a b => Nat.leb (play_count history year b)
                              (play_count history year a)) tracks.

(** Lines 330-369: re-sort what came from monthly playlists.  [None] is
    a missing history table. *)
Definition resort_from_monthly (history : option (list history_event))
    (year : Z) (t : playlist_type) (tracks_from_monthly : bool)
    (all_tracks_list : list string) : list string :=
  match all_tracks_list, t, tracks_from_monthly, history with
  | _ :: _, most_played, true, Some (e :: h) =>
      match year_data (e :: h) year with
      | _ :: _ => sort_by_play_count (e :: h) year all_tracks_list
      | [] => all_tracks_list
      end
  | _, _, _, _ => all_tracks_list
  end.

(** The count a track has when history is missing altogether. *)
Definition play_count_in (history : option (list history_event)) (year : Z)
    (uri : string) : nat :=
  play_count (default [] history) year uri.

(** ** Track sources besides the monthly playlists *)

(** [int(year_month.split("-")[0])] *)
Definition year_of_month (year_month : string) : Z :=
  int_of_digits (hd ""%string (str_split "-" year_month)).

(** [year_to_tracks] (lines 131-173): per year, the liked tracks of the
    months at or before the cutoff, months in ascending order, first
    occurrences only. *)
Definition year_to_tracks (cutoff : string) (liked : list liked_row)
    : list (Z * list string) :=
  let months := sort_by String.leb (dedup_order (map lr_month liked)) in
  let by_year :=
    fold_left
      (fun d year_month =>
         if String.leb year_month cutoff then
           let year := year_of_month year_month in
           dict_set year
             (default [] (dict_get year d) ++ month_tracks liked year_month) d
         else d)
      months [] in
  map (fun yl : Z * list string => (yl.1, dedup_order yl.2)) by_year.

(** [all_tracks_list.append(track)] for each track not yet in
    [all_tracks_set]. *)
Definition extend_unique (all_tracks_list tracks : list string)
    : list string :=
  fold_left (fun acc u => if bool_decide (u ∈ acc) then acc else acc ++ [u])
            tracks all_tracks_list.

(** [sorted(all_years)] *)
Definition sorted_years (years : list Z) : list Z :=
  sort_by Z.leb (remove_dups years).

Definition type_key (t : playlist_type) : string :=
  match t with
  | monthly => "monthly" | yearly => "yearly"
  | most_played => "most_played" | discovery => "discovery"
  end.

Section WithContext.
Context (rt : runtime) (cfg : config) (sp : client).

(** The track selectors over a year of streaming history (the missing
    history module), called with [limit=100]. *)
Variable get_most_played_tracks : list history_event -> list string.
Variable get_discovery_tracks : list history_event -> list string.

(** [year_to_tracks_history] (lines 180-223) *)
Definition year_to_tracks_history (history : option (list history_event))
    : list (Z * list (playlist_type * list string)) :=
  match history with
  | Some (e :: h) =>
      map (fun year =>
             let year_data := year_data (e :: h) year in
             (year,
              match get_most_played_tracks year_data with
              | [] => []
              | top_tracks => [(most_played, top_tracks)]
              end
              ++ match get_discovery_tracks year_data with
                 | [] => []
                 | discovery_tracks => [(discovery, discovery_tracks)]
                 end))
          (remove_dups (omap ev_year (e :: h)))
  | _ => []
  end.

(** The name of the yearly playlist of a year and type (lines 375-384). *)
Definition yearly_playlist_name (year : Z) (t : playlist_type) : string :=
  match t with
  | monthly => format_yearly_playlist_name cfg (str_int year)
  | _ => format_playlist_name cfg (YEARLY_NAME_TEMPLATE cfg) None t
           (Some (short_year (str_int year)))
  end.

(** Its description line (lines 376, 384). *)
Definition yearly_description (t : playlist_type) : string :=
  match t with
  | monthly => "All tracks"
  | _ => str_title (str_replace (type_key t) "_" " ") +:+ " tracks"
  end.

Definition type_enabled (t : playlist_type) : bool :=
  match t with
  | most_played => ENABLE_MOST_PLAYED cfg
  | discovery => ENABLE_DISCOVERY cfg
  | _ => false
  end.

(** [needs_consolidation] (lines 236-261) *)
Definition needs_consolidation (existing : list (string * string))
    (ms : list monthly_entry) (ytt : list (Z * list string))
    (yth : list (Z * list (playlist_type * list string))) (year : Z) : bool :=
  year_has_monthlies ms year
  || match dict_get year yth with
     | Some by_type =>
         existsb (fun t => dict_in t by_type && type_enabled t
                           && negb (dict_in (yearly_playlist_name year t)
                                      existing))
                 [most_played; discovery]
     | None => false
     end
  || match dict_get year ytt with
     | Some (_ :: _) =>
         negb (dict_in (format_yearly_playlist_name cfg (str_int year))
                 existing)
     | _ => false
     end.

(** [sorted(years_to_consolidate)] (lines 229-264, 286) *)
Definition years_to_consolidate (existing : list (string * string))
    (ms : list monthly_entry) (ytt : list (Z * list string))
    (yth : list (Z * list (playlist_type * list string))) : list Z :=
  List.filter (needs_consolidation existing ms ytt yth)
    (sorted_years (map me_year ms ++ ytt.*1 ++ yth.*1)).

(** ** One year and type *)

(** Lines 300-309: the tracks of the year's monthly playlists of the
    type, in playlist order, first occurrences only. *)
Definition gather_monthly_tracks (monthlies : list (string * string))
    : M (list string) :=
  fold_each monthlies []
    (fun all_tracks_list m =>
       tracks ← get_playlist_tracks sp m.2 false;
       ret (extend_unique all_tracks_list (elements tracks))).

(** Lines 312-327: the data source used when the playlists gave
    nothing. *)
Definition fallback_tracks (ytt : list (Z * list string))
    (yth : list (Z * list (playlist_type * list string))) (year : Z)
    (t : playlist_type) : list string :=
  match t with
  | monthly =>
      match dict_get year ytt with
      | Some tracks => extend_unique [] tracks
      | None => []
      end
  | most_played | discovery =>
      match dict_get year yth with
      | Some by_type =>
          match dict_get t by_type with
          | Some tracks => extend_unique [] tracks
          | None => []
          end
      | None => []
      end
  | yearly => []
  end.

(** Lines 392-427: add the tracks to the yearly playlist, creating it
    when it is not listed; the result is its id, [None] when the
    iteration is cut short by [continue] (line 400). *)
Definition ensure_yearly (existing : list (string * string))
    (ms : list monthly_entry) (user_id : string) (year : Z)
    (t : playlist_type) (filtered_tracks : list string)
    : M (option string) :=
  let playlist_name := yearly_playlist_name year t in
  match dict_get playlist_name existing with
  | Some pid =>
      if negb (year_has_monthlies ms year) then ret None
      else
        add_missing_valid_tracks sp pid filtered_tracks;;
        _update_playlist_description_with_genres rt cfg sp user_id pid None;;
        ret (Some pid)
  | None =>
      description ←
        formatted_description rt cfg (yearly_description t) (str_int year) t;
      pid ← sp_user_playlist_create sp playlist_name description;
      let valid_tracks := List.filter nonempty filtered_tracks in
      for_each (_chunked valid_tracks 50)
        (fun chunk =>
           match chunk with
           | [] => ret tt
           | _ => sp_playlist_add_items sp pid chunk
           end);;
      _update_playlist_description_with_genres rt cfg sp user_id pid
        (Some valid_tracks);;
      ret (Some pid)
  end.

(** Lines 431-451: delete the year's monthly playlists of the type,
    each one only when the yearly playlist, read afresh, has all of its
    tracks. *)
Definition delete_verified_monthlies (pid : string)
    (monthlies : list (string * string)) : M unit :=
  final_yearly_tracks ← get_playlist_tracks sp pid true;
  for_each monthlies
    (fun m =>
       try_except
         (monthly_tracks ← get_playlist_tracks sp m.2 true;
          let missing_tracks := monthly_tracks ∖ final_yearly_tracks in
          if bool_decide (missing_tracks ≠ ∅) then ret tt
          else
            r ← safe_delete_playlist sp m.2 m.1 true (Some pid);
            if (r.1 : bool) then _invalidate_playlist_cache else ret tt)
         (fun _ => ret tt)).

(** Lines 295-427 of the loop over years and types: collect the
    tracks and put them into the yearly playlist; the result is its id,
    [None] when there is nothing to do. *)
Definition merge_into_yearly (existing : list (string * string))
    (ms : list monthly_entry) (ytt : list (Z * list string))
    (yth : list (Z * list (playlist_type * list string)))
    (history : option (list history_event)) (user_id : string) (year : Z)
    (t : playlist_type) : M (option string) :=
  let monthlies := monthlies_of ms year t in
  from_playlists ← gather_monthly_tracks monthlies;
  let all_tracks_list :=
    match from_playlists with
    | [] => fallback_tracks ytt yth year t
    | _ => from_playlists
    end in
  let tracks_from_monthly :=
    match monthlies with [] => false | _ => true end in
  let all_tracks_list :=
    resort_from_monthly history year t tracks_from_monthly all_tracks_list in
  match all_tracks_list with
  | [] => ret None
  | _ => ensure_yearly existing ms user_id year t all_tracks_list
  end.

(** The body of the loop over years and types (lines 290-451). *)
Definition consolidate_year_type (existing : list (string * string))
    (ms : list monthly_entry) (ytt : list (Z * list string))
    (yth : list (Z * list (playlist_type * list string)))
    (history : option (list history_event)) (user_id : string) (year : Z)
    (t : playlist_type) : M unit :=
  yearly ← merge_into_yearly existing ms ytt yth history user_id year t;
  match yearly, monthlies_of ms year t with
  | Some pid, _ :: _ =>
      delete_verified_monthlies pid (monthlies_of ms year t)
  | _, _ => ret tt
  end.

(** [consolidate_old_monthly_playlists(sp, keep_last_n_months)], run
    at [now] on the liked-songs rows [liked] (the rows the guarded lines
    132-172 get to, with their columns [year_month] and [_uri]) and the
    streaming history [history].  The loop over the listed names (lines
    90-128) raises on the first name whose year [int] rejects.  Log
    lines are left out. *)
Definition consolidate_old_monthly_playlists (now : datetime)
    (liked : list liked_row) (history : option (list history_event))
    (keep_last_n_months : Z) : M unit :=
  handle_errors tt
    (let cutoff := cutoff_year_month now keep_last_n_months in
     existing ← get_existing_playlists sp false;
     user_id ← get_user_info sp;
     if existsb (fun ni : string * string => year_raises cfg ni.1) existing
     then raise Exception
     else
       let ms := select_monthly cfg cutoff existing in
       let ytt := year_to_tracks cutoff liked in
       let yth := year_to_tracks_history history in
       for_each (years_to_consolidate existing ms ytt yth)
         (fun year =>
            for_each (playlist_types cfg)
              (fun tp =>
                 consolidate_year_type existing ms ytt yth history user_id
                   year tp.1))).

(** ** Cleanup of legacy automated playlists *)

(** [_is_automated_monthly_playlist(name, owner, prefixes, month_abbrs)] *)
Definition _is_automated_monthly_playlist (name owner : string)
    (prefixes month_abbrs : list string) : bool :=
  if negb (nonempty name) || negb (startswith name owner) then false
  else
    let suffix := str_drop (String.length owner) name in
    existsb
      (fun prefix =>
         startswith suffix prefix
         && (let rest := str_drop (String.length prefix) suffix in
             existsb
               (fun abbr =>
                  startswith rest abbr
                  && Nat.ltb (String.length abbr) (String.length rest)
                  && isdigit (str_drop (String.length abbr) rest))
               month_abbrs))
      prefixes.

(** [_is_automated_genre_playlist(name, owner)] *)
Definition _is_automated_genre_playlist (name owner : string) : bool :=
  if negb (nonempty name) || negb (startswith name owner) then false
  else
    let rest := str_drop (String.length owner) name in
    let genre_slugs := ["HipHop"; "Hip Hop"; "Dance"; "Other"; "Am"]%string in
    existsb (str_contains rest) genre_slugs.

(** [yearly_names] (lines 511-516), for the years
    [range(2015, current_year + 2)]. *)
Definition yearly_names (current_year : Z) : list string :=
  flat_map
    (fun year =>
       let year_short :=
         if (2000 <=? year)%Z then str_drop 2 (str_int year)
         else str_int year in
       [format_yearly_playlist_name cfg (str_int year);
        format_playlist_name cfg (YEARLY_NAME_TEMPLATE cfg) None most_played
          (Some year_short);
        format_playlist_name cfg (YEARLY_NAME_TEMPLATE cfg) None discovery
          (Some year_short)])
    (seqZ 2015 (current_year + 2 - 2015)).

(** [to_delete] (lines 518-526) *)
Definition legacy_to_delete (current_year : Z)
    (existing : list (string * string)) : list (string * string) :=
  let owner := OWNER_NAME cfg in
  let prefixes :=
    [PREFIX_MONTHLY cfg; PREFIX_MOST_PLAYED cfg; PREFIX_DISCOVERY cfg] in
  let month_abbrs := MONTH_NAMES.*2 in
  List.filter
    (fun ni : string * string =>
       startswith ni.1 owner
       && negb (bool_decide (ni.1 ∈ yearly_names current_year))
       && (_is_automated_monthly_playlist ni.1 owner prefixes month_abbrs
           || _is_automated_genre_playlist ni.1 owner))
    existing.

(** [delete_automated_monthly_and_genre_playlists(sp)], run at [now]. *)
Definition delete_automated_monthly_and_genre_playlists (now : datetime)
    : M unit :=
  handle_errors tt
    (existing ← get_existing_playlists sp true;
     for_each (legacy_to_delete (dt_year now) existing)
       (fun ni =>
          try_except
            (r ← safe_delete_playlist sp ni.2 ni.1 true None;
             if (r.1 : bool) then _invalidate_playlist_cache else ret tt)
            (fun _ => ret tt))).

(** ** Duplicate playlists *)

(** Lines 596-600: file the playlist under its track set. *)
Definition file_under (playlist_track_sets :
                         list (gset string * list (string * string)))
    (track_set : gset string) (ni : string * string)
    : list (gset string * list (string * string)) :=
  match dict_get track_set playlist_track_sets with
  | Some playlists => dict_set track_set (playlists ++ [ni]) playlist_track_sets
  | None => dict_set track_set [ni] playlist_track_sets
  end.

(** Lines 589-607: the playlists by track set. *)
Definition group_by_tracks (existing : list (string * string))
    : M (list (gset string * list (string * string))) :=
  fold_each existing []
    (fun playlist_track_sets ni =>
       try_except
         (tracks ← get_playlist_tracks sp ni.2 false;
          ret (file_under playlist_track_sets tracks ni))
         (fun _ => ret playlist_track_sets)).

(** Lines 611-636: of a set of playlists with the same non-empty track
    set, keep the first by name and delete the others. *)
Definition delete_group_duplicates (track_set : gset string)
    (playlists : list (string * string)) : M unit :=
  if Nat.ltb 1 (length playlists) && bool_decide (track_set ≠ ∅) then
    let playlists_sorted :=
      sort_by (fun x y : string * string => String.leb x.1 y.1) playlists in
    match playlists_sorted with
    | keep_playlist :: duplicates =>
        for_each duplicates
          (fun dup =>
             try_except
               (r ← safe_delete_playlist sp dup.2 dup.1 true
                      (Some keep_playlist.2);
                if (r.1 : bool) then _invalidate_playlist_cache else ret tt)
               (fun _ => ret tt))
    | [] => ret tt
    end
  else ret tt.

(** [delete_duplicate_playlists(sp)]; [max_playlists] is the limit read
    from the environment (1000 when unset).  The entries dropped from
    the local [existing] dictionary after a deletion are not read
    again. *)
Definition delete_duplicate_playlists (max_playlists : nat) : M unit :=
  existing ← get_existing_playlists sp true;
  user_id ← get_user_info sp;
  match existing with
  | [] => ret tt
  | _ =>
      if Nat.ltb max_playlists (length existing) then ret tt
      else
        playlist_track_sets ← group_by_tracks existing;
        for_each playlist_track_sets
          (fun g => delete_group_duplicates g.1 g.2)
  end.

End WithContext.

(** *** Properties of the play-count order *)

Lemma StronglySorted_const {A} (R : A -> A -> Prop) l :
  (forall a b, R a b) -> StronglySorted R l.
Proof.
  intros H. induction l as [|x l IH]; constructor; [done|].
  apply Forall_forall. auto.
Qed.

Lemma StronglySorted_weaken {A} (R R' : A -> A -> Prop) l :
  (forall a b, R a b -> R' a b) -> StronglySorted R l -> StronglySorted R' l.
Proof.
  intros H. induction 1 as [|x l Hs IH Hx]; constructor; [done|].
  eapply Forall_impl; eauto.
Qed.

Lemma play_count_no_data history year uri :
  year_data history year = [] -> play_count history year uri = 0.
Proof. intros H. unfold play_count. by rewrite H. Qed.

Lemma sorted_zero_last (count : string -> nat) out l1 u l2 v :
  StronglySorted (fun a b => count b <= count a) out ->
  out = l1 ++ u :: l2 -> v ∈ l2 -> count u = 0 -> count v = 0.
Proof.
  intros Hs -> Hv Hu.
  apply StronglySorted_app in Hs as (_ & _ & Hs).
  apply StronglySorted_cons in Hs as [Hf _].
  rewrite Forall_forall in Hf. specialize (Hf v Hv). lia.
Qed.

Lemma sort_by_play_count_spec history year l :
  let out := sort_by_play_count history year l in
  let count := play_count history year in
  Permutation out l
  /\ StronglySorted (fun a b => count b <= count a) out
  /\ (forall k,
        List.filter (fun u => Nat.eqb (count u) k) out
        = List.filter (fun u => Nat.eqb (count u) k) l).
Proof.
  cbn zeta. unfold sort_by_play_count.
  set (before := fun a b : string =>
         Nat.leb (play_count history year b) (play_count history year a)).
  split; [apply sort_by_perm|]. split.
  - eapply StronglySorted_weaken; [|apply sort_by_sorted].
    + intros a b H. apply Nat.leb_le in H. exact H.
    + intros a b. unfold before.
      destruct (Nat.leb_spec (play_count history year b)
                             (play_count history year a));
        [by left|right; apply Nat.leb_le; lia].
    + intros a b c H1 H2. unfold before in *.
      apply Nat.leb_le in H1, H2. apply Nat.leb_le. lia.
  - intros k. apply sort_by_stable.
    intros a b Ha Hb. unfold before.
    apply Nat.eqb_eq in Ha, Hb. apply Nat.leb_le. lia.
Qed.

(** *** The play count the ranking is stated with

    The plays of a track in a calendar year are counted on the rows of
    the streaming history: a row counts when its timestamp falls in the
    year, it names the track, and it records a play time.  Without a
    history table nothing counts. *)
Fixpoint plays_in_year (rows : list history_event) (year : Z) (uri : string)
    : nat :=
  match rows with
  | [] => 0
  | e :: rows' =>
      (if bool_decide (ev_year e = Some year /\ ev_uri e = Some uri
                       /\ is_Some (ev_ms_played e))
       then 1 else 0)
      + plays_in_year rows' year uri
  end.

Definition history_plays (history : option (list history_event)) (year : Z)
    (uri : string) : nat :=
  match history with
  | Some rows => plays_in_year rows year uri
  | None => 0
  end.

(** The count the code sorts by is the number of these rows. *)
Lemma play_count_plays_in_year rows year uri :
  play_count rows year uri = plays_in_year rows year uri.
Proof.
  unfold play_count, year_data.
  induction rows as [|e rows IH]; [done|].
  cbn [List.filter plays_in_year]. rewrite <- IH.
  destruct (bool_decide_reflect (ev_year e = Some year)) as [Hy|Hy].
  - cbn [List.filter].
    destruct (bool_decide_reflect (ev_uri e = Some uri)) as [Hu|Hu];
      cbn [andb].
    + destruct (bool_decide_reflect (is_Some (ev_ms_played e))) as [Hm|Hm].
      * by rewrite bool_decide_eq_true_2.
      * rewrite bool_decide_eq_false_2; [done|]. intros (_ & _ & ?). done.
    + rewrite bool_decide_eq_false_2; [done|]. intros (_ & ? & _). done.
  - rewrite bool_decide_eq_false_2; [done|]. intros (? & _). done.
Qed.

Lemma play_count_in_history_plays history year uri :
  play_count_in history year uri = history_plays history year uri.
Proof.
  unfold play_count_in, history_plays.
  destruct history as [rows|]; cbn [default]; [|done].
  apply play_count_plays_in_year.
Qed.

(** The re-sort, in terms of the count the code computes. *)
Lemma resort_from_monthly_by_play_count
    (history : option (list history_event)) (year : Z)
    (all_tracks_list : list string) :
  let out := resort_from_monthly history year most_played true
               all_tracks_list in
  let count := play_count_in history year in
  Permutation out all_tracks_list
  /\ StronglySorted (fun a b => count b <= count a) out
  /\ (forall k,
        List.filter (fun u => Nat.eqb (count u) k) out
        = List.filter (fun u => Nat.eqb (count u) k) all_tracks_list)
  /\ (forall l1 u l2 v,
        out = l1 ++ u :: l2 -> v ∈ l2 -> count u = 0 -> count v = 0).
Proof.
  cbn zeta.
  cut (Permutation (resort_from_monthly history year most_played true
                      all_tracks_list) all_tracks_list
       /\ StronglySorted (fun a b => play_count_in history year b
                                     <= play_count_in history year a)
            (resort_from_monthly history year most_played true
               all_tracks_list)
       /\ (forall k,
            List.filter (fun u => Nat.eqb (play_count_in history year u) k)
              (resort_from_monthly history year most_played true
                 all_tracks_list)
            = List.filter (fun u => Nat.eqb (play_count_in history year u) k)
                all_tracks_list)).
  { intros (Hp & Hs & Hk). repeat split; try done.
    intros l1 u l2 v. by apply sorted_zero_last. }
  assert ((forall u, play_count_in history year u = 0) ->
          Permutation all_tracks_list all_tracks_list
          /\ StronglySorted (fun a b => play_count_in history year b
                                        <= play_count_in history year a)
               all_tracks_list
          /\ (forall k,
               List.filter (fun u => Nat.eqb (play_count_in history year u) k)
                 all_tracks_list
               = List.filter
                   (fun u => Nat.eqb (play_count_in history year u) k)
                   all_tracks_list)) as Hid.
  { intros H0. split; [done|]. split; [|done].
    apply StronglySorted_const. intros a b. rewrite !H0. lia. }
  unfold resort_from_monthly.
  destruct all_tracks_list as [|u0 L].
  { split; [done|]. split; [constructor|done]. }
  destruct history as [[|e h]|].
  - apply Hid. intros u. by apply play_count_no_data.
  - destruct (year_data (e :: h) year) as [|x xs] eqn:E.
    + apply Hid. intros u. by apply play_count_no_data.
    + apply (sort_by_play_count_spec (e :: h) year (u0 :: L)).
  - apply Hid. intros u. by apply play_count_no_data.
Qed.

(** C6.  The "most played" tracks gathered from monthly playlists come
    out of the re-sort as a rearrangement of what went in (no track is
    dropped), in descending order of the number of plays the streaming
    history records for the track in that year, tracks of equal count
    in the order they were met, and hence every track without history
    (count 0) after every track with history. *)
Theorem resort_from_monthly_most_played
    (history : option (list history_event)) (year : Z)
    (all_tracks_list : list string) :
  let out := resort_from_monthly history year most_played true
               all_tracks_list in
  let count := history_plays history year in
  Permutation out all_tracks_list
  /\ StronglySorted (fun a b => count b <= count a) out
  /\ (forall k,
        List.filter (fun u => Nat.eqb (count u) k) out
        = List.filter (fun u => Nat.eqb (count u) k) all_tracks_list)
  /\ (forall l1 u l2 v,
        out = l1 ++ u :: l2 -> v ∈ l2 -> count u = 0 -> count v = 0).
Proof.
  cbn zeta.
  destruct (resort_from_monthly_by_play_count history year all_tracks_list)
    as (Hp & Hs & Hk & Hz).
  split; [exact Hp|]. split; [|split].
  - eapply StronglySorted_weaken; [|exact Hs].
    intros a b Hab. cbn beta in Hab.
    rewrite <- !play_count_in_history_plays. exact Hab.
  - intros k.
    transitivity
      (List.filter (fun u => Nat.eqb (play_count_in history year u) k)
         (resort_from_monthly history year most_played true all_tracks_list)).
    { apply List.filter_ext. intros u.
      by rewrite play_count_in_history_plays. }
    rewrite Hk. apply List.filter_ext. intros u.
    by rewrite play_count_in_history_plays.
  - intros l1 u l2 v H1 H2 H3.
    rewrite <- play_count_in_history_plays in *. by eapply Hz.
Qed.

(** Three tracks met in the order [a], [b], [c]: in 2024 the history
    has two plays of [c], one of [a] and, besides a row without play
    time and a play in 2023, none of [b]. *)
Definition plays_2024 : list history_event :=
  [ {| ev_uri := Some "t:c"%string; ev_year := Some 2024%Z;
       ev_ms_played := Some 30000%Z |};
    {| ev_uri := Some "t:a"%string; ev_year := Some 2024%Z;
       ev_ms_played := Some 1000%Z |};
    {| ev_uri := Some "t:b"%string; ev_year := Some 2023%Z;
       ev_ms_played := Some 90000%Z |};
    {| ev_uri := Some "t:b"%string; ev_year := Some 2024%Z;
       ev_ms_played := None |};
    {| ev_uri := Some "t:c"%string; ev_year := Some 2024%Z;
       ev_ms_played := Some 0%Z |} ].

Example resort_by_plays_2024 :
  map (history_plays (Some plays_2024) 2024) ["t:a"; "t:b"; "t:c"]%string
  = [1; 0; 2]
  /\ resort_from_monthly (Some plays_2024) 2024 most_played true
       ["t:a"; "t:b"; "t:c"]%string
     = ["t:c"; "t:a"; "t:b"]%string
  /\ resort_from_monthly None 2024 most_played true
       ["t:a"; "t:b"; "t:c"]%string
     = ["t:a"; "t:b"; "t:c"]%string.
Proof. vm_compute. repeat split; reflexivity. Qed.


Definition deletion_call (P : string -> gmap string playlist -> Prop)
    (c : api_request * gmap string playlist) : Prop :=
  forall q, c.1 = DeletePlaylist q -> P q c.2.

Definition preserved_in (verify : option string) (p : string)
    (q : string) (r : gmap string playlist) : Prop :=
  q = p /\ match verify with
           | Some k => live_tracks r p ⊆ live_tracks r k
           | None => True
           end.

(** Deletions satisfy [P]; nothing else changes the service. *)
Definition deletes_only (P : string -> gmap string playlist -> Prop)
    (c : api_request * gmap string playlist) : Prop :=
  match c.1 with
  | DeletePlaylist q => P q c.2
  | r => is_mutation r = false
  end.

Lemma deletes_only_deletion_call P c : deletes_only P c -> deletion_call P c.
Proof. intros H q Hq. unfold deletes_only in H. by rewrite Hq in H. Qed.

Lemma safe_delete_calls sp p name b verify :
  steps (only_calls (deletes_only (preserved_in verify p)))
    (safe_delete_playlist sp p name b verify).
Proof.
  intros w. unfold safe_delete_playlist.
  rewrite bind_run, get_playlist_tracks_run. cbn match.
  destruct b, verify as [k|]; mrun;
    rewrite ?bind_run, ?get_playlist_tracks_run; cbn match; mrun;
    cbn [remote set_tracks_cache log_call add_backup].
  all: try destruct (bool_decide _) eqn:E; cbn match.
  all: unfold try_except, sp_current_user_unfollow_playlist; mrun;
    cbn [remote set_tracks_cache log_call add_backup set_remote].
  all: try destruct (remote w !! p) as [pl|] eqn:Hp; mrun; cbn [snd].
  all: eexists; split;
    [cbn [calls set_tracks_cache log_call add_backup set_remote];
     rewrite <- ?app_assoc; reflexivity|].
  all: cbn [app remote set_tracks_cache log_call add_backup set_remote].
  all: repeat (apply Forall_cons; split); try (by apply Forall_nil).
  all: unfold deletes_only; cbn [fst snd is_mutation]; try done.
  all: split; try done.
  all: by apply bool_decide_eq_true in E.
Qed.

(** ** Dictionaries with distinct keys *)

Lemma dict_set_NoDup {K V} `{EqDecision K} (k : K) (v : V) d :
  NoDup d.*1 -> NoDup (dict_set k v d).*1.
Proof.
  induction d as [|[k0 v0] d IH]; cbn; intros H.
  - constructor; [apply not_elem_of_nil|constructor].
  - apply NoDup_cons in H as [H1 H2].
    destruct (decide (k = k0)) as [->|Hne]; cbn.
    + by constructor.
    + constructor; [|by apply IH].
      rewrite dict_set_keys. intros [?|?]; congruence.
Qed.

Lemma dict_elem_get {K V} `{EqDecision K} (k : K) (v : V) d :
  NoDup d.*1 -> (k, v) ∈ d -> dict_get k d = Some v.
Proof.
  induction d as [|[k0 v0] d IH]; cbn; intros H Hin.
  - by apply elem_of_nil in Hin.
  - apply NoDup_cons in H as [H1 H2].
    apply elem_of_cons in Hin as [Heq|Hin].
    + injection Heq as <- <-. by rewrite decide_True.
    + destruct (decide (k = k0)) as [->|Hne]; [|by apply IH].
      exfalso. apply H1. apply list_elem_of_fmap. by exists (k0, v).
Qed.

Lemma dict_set_values {K V} `{EqDecision K} (k : K) (v : V) d x :
  x ∈ (dict_set k v d).*2 -> x = v \/ x ∈ d.*2.
Proof.
  induction d as [|[k0 v0] d IH]; cbn.
  - intros Hx. apply list_elem_of_singleton in Hx. by left.
  - destruct (decide (k = k0)) as [->|Hne]; cbn; rewrite !elem_of_cons.
    + tauto.
    + intros [?|Hx]; [tauto|]. destruct (IH Hx); tauto.
Qed.

Lemma dict_set_values_NoDup {K V} `{EqDecision K} (k : K) (v : V) d :
  NoDup d.*2 -> v ∉ d.*2 -> NoDup (dict_set k v d).*2.
Proof.
  induction d as [|[k0 v0] d IH]; cbn; intros H Hv.
  - constructor; [apply not_elem_of_nil|constructor].
  - apply NoDup_cons in H as [H1 H2].
    apply not_elem_of_cons in Hv as [Hv1 Hv2].
    destruct (decide (k = k0)) as [->|Hne]; cbn.
    + by constructor.
    + constructor; [|by apply IH].
      intros Hin. apply dict_set_values in Hin as [->|Hin]; done.
Qed.

Lemma NoDup_snd_inj {A B} (l : list (A * B)) x y :
  NoDup l.*2 -> x ∈ l -> y ∈ l -> x.2 = y.2 -> x = y.
Proof.
  induction l as [|z l IH]; cbn; intros Hnd Hx Hy Heq.
  - by apply elem_of_nil in Hx.
  - apply NoDup_cons in Hnd as [H1 H2].
    apply elem_of_cons in Hx as [->|Hx], Hy as [->|Hy]; [done| | |by apply IH].
    + exfalso. apply H1. rewrite Heq. apply list_elem_of_fmap. by exists y.
    + exfalso. apply H1. rewrite <- Heq. apply list_elem_of_fmap.
      by exists x.
Qed.

Lemma string_leb_trans a b c :
  String.leb a b = true -> String.leb b c = true -> String.leb a c = true.
Proof.
  unfold String.leb. revert b c.
  induction a as [|x a IH]; intros [|y b] [|z c]; cbn; try done.
  unfold Ascii.compare.
  destruct (N.compare_spec (N_of_ascii x) (N_of_ascii y)) as [E1|E1|E1];
    destruct (N.compare_spec (N_of_ascii y) (N_of_ascii z)) as [E2|E2|E2];
    try done;
    destruct (N.compare_spec (N_of_ascii x) (N_of_ascii z)) as [E3|E3|E3];
    try done; try lia.
  apply IH.
Qed.

(** ** Which playlists the duplicate cleanup may delete *)

(** The dictionary [get_existing_playlists(sp, force_refresh=True)]
    answers with. *)
Definition current_listing (w : world) : list (string * string) :=
  fold_left (fun d kv => dict_set (pl_name kv.2) kv.1 d)
            (map_to_list (remote w)) [].

Lemma current_listing_NoDup w : NoDup (current_listing w).*1.
Proof.
  unfold current_listing. generalize (map_to_list (remote w)).
  assert (forall (L : list (string * playlist)) (d : list (string * string)),
            NoDup d.*1 ->
            NoDup (fold_left (fun d kv => dict_set (pl_name kv.2) kv.1 d) L d).*1)
    as H.
  { induction L as [|kv L IH]; intros d Hd; [done|].
    cbn [fold_left]. by apply IH, dict_set_NoDup. }
  intros L. apply H. constructor.
Qed.

Lemma current_listing_ids_NoDup w : NoDup (current_listing w).*2.
Proof.
  unfold current_listing.
  pose proof (NoDup_fst_map_to_list (remote w)) as Hkeys.
  revert Hkeys. generalize (map_to_list (remote w)).
  assert (forall (L : list (string * playlist)) (d : list (string * string)),
            NoDup (d.*2 ++ L.*1) ->
            NoDup (fold_left (fun d kv => dict_set (pl_name kv.2) kv.1 d) L d).*2)
    as H.
  { induction L as [|kv L IH]; intros d Hd; cbn [fold_left].
    - cbn in Hd. by rewrite app_nil_r in Hd.
    - apply IH. cbn in Hd.
      apply NoDup_app in Hd as (Hd1 & Hd2 & Hd3).
      apply NoDup_cons in Hd3 as [Hk HL].
      apply NoDup_app. split; [|split; [|done]].
      + apply dict_set_values_NoDup; [done|].
        intros Hin. apply (Hd2 _ Hin). left.
      + intros x Hx Hx'. apply dict_set_values in Hx as [->|Hx]; [done|].
        apply (Hd2 _ Hx). by right. }
  intros L HL. apply H. done.
Qed.

Lemma get_existing_playlists_forced_run sp w :
  get_existing_playlists sp true w
  = (Ok (current_listing w),
     set_playlist_cache (Some (current_listing w))
       (log_call ListPlaylists w)).
Proof. unfold get_existing_playlists, current_listing. by mrun. Qed.

(** The playlists filed under a track set, of those read so far. *)
Definition members (seen : string -> gset string)
    (existing : list (string * string)) (track_set : gset string)
    : list (string * string) :=
  List.filter (fun ni => bool_decide (seen ni.2 = track_set)) existing.

(** The outcome of the grouping loop. *)
Definition groups_of (seen : string -> gset string)
    (existing : list (string * string))
    : list (gset string * list (string * string)) :=
  fold_left (fun sets ni => file_under sets (seen ni.2) ni) existing [].

Definition filed (seen : string -> gset string)
    (read : list (string * string))
    (sets : list (gset string * list (string * string))) : Prop :=
  NoDup sets.*1
  /\ forall s, dict_get s sets = match members seen read s with
                                 | [] => None
                                 | l => Some l
                                 end.

Lemma members_snoc seen read ni s :
  members seen (read ++ [ni]) s
  = members seen read s ++ (if bool_decide (seen ni.2 = s) then [ni] else []).
Proof. unfold members. rewrite List.filter_app. done. Qed.

Lemma file_under_filed seen read sets ni :
  filed seen read sets ->
  filed seen (read ++ [ni]) (file_under sets (seen ni.2) ni).
Proof.
  intros [Hnd Hget]. unfold file_under. split.
  - destruct (dict_get (seen ni.2) sets); by apply dict_set_NoDup.
  - intros s. rewrite members_snoc.
    destruct (decide (seen ni.2 = s)) as [<-|Hne].
    + rewrite bool_decide_eq_true_2 by done.
      rewrite Hget. destruct (members seen read (seen ni.2)) as [|x l];
        by rewrite dict_get_set_eq.
    + rewrite bool_decide_eq_false_2 by done. rewrite app_nil_r.
      rewrite <- Hget.
      destruct (dict_get (seen ni.2) sets); by rewrite dict_get_set_ne.
Qed.

Lemma groups_of_filed seen existing : filed seen existing (groups_of seen existing).
Proof.
  unfold groups_of.
  assert (forall l read sets, filed seen read sets ->
            filed seen (read ++ l)
              (fold_left (fun sets ni => file_under sets (seen ni.2) ni) l sets))
    as H.
  { induction l as [|ni l IH]; intros read sets Hf; cbn [fold_left].
    - by rewrite app_nil_r.
    - replace (read ++ ni :: l) with ((read ++ [ni]) ++ l)
        by (by rewrite <- app_assoc).
      by apply IH, file_under_filed. }
  apply (H existing [] []). split; [constructor|done].
Qed.

Lemma group_loop_run sp (seen : string -> gset string) l :
  forall acc w,
    (forall p, seen_tracks w p = seen p) ->
    exists w',
      fold_each l acc
        (fun playlist_track_sets (ni : string * string) =>
           try_except
             (tracks ← get_playlist_tracks sp ni.2 false;
              ret (file_under playlist_track_sets tracks ni))
             (fun _ => ret playlist_track_sets)) w
      = (Ok (fold_left (fun sets ni => file_under sets (seen ni.2) ni) l acc),
         w')
      /\ (forall p, seen_tracks w' p = seen p).
Proof.
  induction l as [|ni l IH]; intros acc w Hseen; cbn [fold_each fold_left].
  - by exists w.
  - rewrite bind_run. unfold try_except at 1.
    rewrite bind_run, get_playlist_tracks_run.
    pose proof (Hseen ni.2) as Hni. unfold seen_tracks in Hni.
    destruct (_playlist_tracks_cache w !! ni.2) as [s|] eqn:E; mrun.
    + subst s. by apply IH.
    + rewrite Hni. apply IH. intros p. specialize (Hseen p).
      unfold seen_tracks in *.
      cbn [_playlist_tracks_cache set_tracks_cache log_call remote].
      destruct (decide (ni.2 = p)) as [<-|Hne].
      * by rewrite lookup_insert_eq.
      * by rewrite lookup_insert_ne.
Qed.

Lemma group_by_tracks_run sp existing w :
  exists w',
    group_by_tracks sp existing w
    = (Ok (groups_of (seen_tracks w) existing), w').
Proof.
  destruct (group_loop_run sp (seen_tracks w) existing [] w) as (w' & H & _);
    [done|].
  by exists w'.
Qed.

(** The kept copy of a duplicate: another playlist, listed under
    another name, which is first by name among the playlists read with
    the same tracks. *)
Definition kept_copy (existing : list (string * string))
    (seen : string -> gset string) (q successor : string) : Prop :=
  exists dup_name keep_name,
    (dup_name, q) ∈ existing /\ (keep_name, successor) ∈ existing
    /\ keep_name <> dup_name /\ successor <> q
    /\ seen successor = seen q
    /\ forall n i, (n, i) ∈ existing -> seen i = seen q ->
         String.leb keep_name n = true.

(** A deletion of a duplicate: its track set was read non-empty, and
    all its live tracks are live in the kept copy. *)
Definition duplicate_target (existing : list (string * string))
    (seen : string -> gset string) (q : string) (r : gmap string playlist)
    : Prop :=
  seen q <> ∅
  /\ exists successor,
       kept_copy existing seen q successor
       /\ live_tracks r q ⊆ live_tracks r successor.

Ltac reads_only :=
  steps_all; intros;
  first [ by apply only_calls_log | by apply only_calls_same ].

Lemma group_by_tracks_calls sp existing P :
  steps (only_calls (deletes_only P)) (group_by_tracks sp existing).
Proof. unfold group_by_tracks. reads_only. Qed.

Lemma NoDup_fst_filter {A B} (f : A * B -> bool) (l : list (A * B)) :
  NoDup l.*1 -> NoDup (List.filter f l).*1.
Proof.
  induction l as [|x l IH]; cbn; intros H; [constructor|].
  apply NoDup_cons in H as [H1 H2].
  destruct (f x); cbn; [|by apply IH].
  constructor; [|by apply IH].
  intros Hin. apply H1. apply list_elem_of_fmap in Hin as (y & -> & Hy).
  apply list_elem_of_fmap. exists y. split; [done|].
  apply list_elem_of_In. apply list_elem_of_In, filter_In in Hy. tauto.
Qed.

Lemma members_elem seen existing s ni :
  ni ∈ members seen existing s <-> ni ∈ existing /\ seen ni.2 = s.
Proof.
  unfold members. rewrite !list_elem_of_In, filter_In, bool_decide_eq_true.
  done.
Qed.

Lemma delete_group_duplicates_calls sp existing seen s :
  NoDup existing.*1 -> NoDup existing.*2 ->
  steps (only_calls (deletes_only (duplicate_target existing seen)))
    (delete_group_duplicates sp s (members seen existing s)).
Proof.
  intros Hnd Hids. unfold delete_group_duplicates.
  destruct (Nat.ltb 1 (length (members seen existing s))
            && bool_decide (s ≠ ∅)) eqn:Hc; [|reads_only].
  apply andb_true_iff in Hc as [_ Hs]. apply bool_decide_eq_true in Hs.
  set (before := fun x y : string * string => String.leb x.1 y.1).
  pose proof (sort_by_perm before (members seen existing s)) as Hperm.
  pose proof (sort_by_sorted before) as Hsorted.
  specialize (Hsorted ltac:(intros x y; apply String.leb_total)
                ltac:(intros x y z; apply string_leb_trans)
                (members seen existing s)).
  destruct (sort_by before (members seen existing s)) as [|keep dups];
    [reads_only|].
  assert (NoDup (keep :: dups).*1) as Hnames.
  { rewrite Hperm. by apply NoDup_fst_filter. }
  apply StronglySorted_cons in Hsorted as [Hmin _].
  assert (forall ni, ni ∈ keep :: dups <-> ni ∈ existing /\ seen ni.2 = s)
    as Hmem by (intros ni; by rewrite Hperm, members_elem).
  destruct (proj1 (Hmem keep) ltac:(left)) as [Hk1 Hk2].
  apply steps_for_each; [tc_solve..|]. intros dup Hdup.
  destruct (proj1 (Hmem dup) ltac:(by right)) as [Hd1 Hd2].
  steps_go; try (by apply only_calls_same).
  - eapply steps_mono; [|apply safe_delete_calls].
    intros w w'. apply only_calls_mono. intros c Hc.
    unfold deletes_only in *. destruct c.1; try done.
    destruct Hc as [-> Hsub]. split; [congruence|].
    exists keep.2. split; [|done].
    exists dup.1, keep.1. rewrite <- !surjective_pairing.
    assert (keep.1 <> dup.1) as Hname.
    { apply NoDup_cons in Hnames as [Hn _]. intros Heq. apply Hn.
      rewrite Heq. apply list_elem_of_fmap. by exists dup. }
    split; [done|]. split; [done|]. split; [done|]. split.
    + intros Heq. apply Hname. f_equal.
      by apply (NoDup_snd_inj existing).
    + split; [congruence|]. intros n i Hin Hseen.
      assert ((n, i) ∈ keep :: dups) as Hin'
        by (apply Hmem; split; [done|cbn; congruence]).
      apply elem_of_cons in Hin' as [<-|Hin'].
      * cbn. destruct (String.leb_total n n); done.
      * rewrite Forall_forall in Hmin. apply (Hmin _ Hin').
  - apply steps_invalidate; [tc_solve..|]. intros. by apply only_calls_same.
Qed.

Lemma duplicates_after_listing sp max_playlists existing seen w :
  NoDup existing.*1 -> NoDup existing.*2 ->
  (forall p, seen_tracks w p = seen p) ->
  only_calls (deletes_only (duplicate_target existing seen)) w
    (match existing with
     | [] => ret tt
     | _ =>
         if Nat.ltb max_playlists (length existing) then ret tt
         else
           playlist_track_sets ← group_by_tracks sp existing;
           for_each playlist_track_sets
             (fun g => delete_group_duplicates sp g.1 g.2)
     end w).2.
Proof.
  intros Hnames Hids Hseen.
  pose proof (group_by_tracks_calls sp existing
                (duplicate_target existing seen) w) as H3.
  destruct (group_loop_run sp seen existing [] w Hseen) as (w3 & Hrun & _).
  pose proof (groups_of_filed seen existing) as [Hnd Hget].
  unfold group_by_tracks in *. unfold groups_of in *.
  destruct existing as [|ni0 rest]; [by mrun|].
  destruct (Nat.ltb max_playlists (length (ni0 :: rest))); [by mrun|].
  rewrite bind_run. rewrite Hrun in *. cbn [snd] in H3.
  etransitivity; [exact H3|].
  apply steps_for_each; [tc_solve..|].
  intros [s l] Hg. cbn [fst snd].
  pose proof (dict_elem_get s l _ Hnd Hg) as Hl. rewrite Hget in Hl.
  replace l with (members seen (ni0 :: rest) s)
    by (destruct (members seen (ni0 :: rest) s); congruence).
  by apply delete_group_duplicates_calls.
Qed.

(** What the duplicate cleanup sends to the service: reads, and
    deletions of duplicates. *)
Lemma delete_duplicate_playlists_calls sp max_playlists w :
  only_calls
    (deletes_only (duplicate_target (current_listing w) (seen_tracks w)))
    w (delete_duplicate_playlists sp max_playlists w).2.
Proof.
  unfold delete_duplicate_playlists.
  rewrite bind_run, get_existing_playlists_forced_run.
  set (w1 := set_playlist_cache _ (log_call ListPlaylists w)).
  etransitivity; [apply (only_calls_log _ ListPlaylists w); done|].
  etransitivity; [apply (only_calls_same _ _ w1); done|].
  unfold get_user_info. mrun.
  etransitivity; [apply (only_calls_log _ GetUser w1); done|].
  apply duplicates_after_listing;
    [apply current_listing_NoDup|apply current_listing_ids_NoDup|done].
Qed.

(** ** Which playlists the consolidation may delete *)

(** Results of a run that returns, with the world it leaves, satisfy
    [Q]. *)
Definition returns {A} (Q : A -> world -> Prop) (m : M A) : Prop :=
  forall w a w', m w = (Ok a, w') -> Q a w'.

Lemma steps_bind_returns {A B} (R : relation world) `{!Transitive R}
    (Q : A -> world -> Prop) (m : M A) (k : A -> M B) :
  steps R m -> returns Q m ->
  (forall a w, Q a w -> R w (k a w).2) ->
  steps R (m ≫= k).
Proof.
  intros Hm Hq Hk w. rewrite bind_run. specialize (Hm w).
  destruct (m w) as [[a|e] w1] eqn:E; [|done].
  cbn [snd] in Hm. etransitivity; [exact Hm|].
  apply Hk. by eapply Hq.
Qed.

Lemma handle_errors_world {A} (d : A) (m : M A) w :
  (handle_errors d m w).2 = (m w).2.
Proof.
  unfold handle_errors, try_except. by destruct (m w) as [[a|e] w'].
Qed.

(** Each remote call a run adds satisfies [P], given the calls made
    before it. *)
Definition traced
    (P : list (api_request * gmap string playlist)
         -> api_request * gmap string playlist -> Prop)
    : relation world :=
  fun w w' =>
    exists new,
      calls w' = calls w ++ new
      /\ forall i c, new !! i = Some c -> P (calls w ++ take i new) c.

Global Instance traced_refl P : Reflexive (traced P).
Proof.
  intros w. exists []. split; [by rewrite app_nil_r|]. intros i c H.
  by rewrite lookup_nil in H.
Qed.

Global Instance traced_trans P : Transitive (traced P).
Proof.
  intros w1 w2 w3 (n1 & E1 & H1) (n2 & E2 & H2). exists (n1 ++ n2).
  split; [by rewrite E2, E1, app_assoc|].
  intros i c Hi. apply lookup_app_Some in Hi as [Hi|[Hlen Hi]].
  - rewrite take_app_le by (apply lookup_lt_Some in Hi; lia). by apply H1.
  - rewrite take_app_ge by done. rewrite app_assoc, <- E1. by apply H2.
Qed.

Lemma only_calls_traced Q P w w' :
  only_calls Q w w' ->
  (forall earlier c, Q c -> calls w `prefix_of` earlier -> P earlier c) ->
  traced P w w'.
Proof.
  intros (new & E & HQ) H. exists new. split; [done|].
  intros i c Hi. apply H; [|by apply prefix_app_r].
  rewrite Forall_forall in HQ. apply HQ. by eapply list_elem_of_lookup_2.
Qed.

(** The yearly playlist a monthly playlist is merged into: the one
    listed under the yearly name of its year and type or, when none is
    listed, the one the service created under that name earlier in the
    run. *)
Definition yearly_successor (cfg : config) (sp : client)
    (existing : list (string * string)) (ms : list monthly_entry)
    (earlier : list (api_request * gmap string playlist))
    (q successor : string) : Prop :=
  exists year t name,
    (name, q) ∈ monthlies_of ms year t
    /\ match dict_get (yearly_playlist_name cfg year t) existing with
       | Some p => successor = p
       | None =>
           exists d r0,
             (CreatePlaylist (yearly_playlist_name cfg year t) d, r0)
               ∈ earlier
             /\ successor = sp_new_id sp r0
       end.

(** A deletion whose successor has, at the time of the call, every
    track of the deleted playlist. *)
Definition verified_against (successor_of : string -> string -> Prop)
    (q : string) (r : gmap string playlist) : Prop :=
  exists successor,
    successor_of q successor /\ live_tracks r q ⊆ live_tracks r successor.

Ltac no_deletes :=
  steps_all; intros;
  first [ by (apply only_calls_log; intros ? ?)
        | by apply only_calls_same ].

Lemma update_description_no_delete P rt cfg sp user_id pid track_uris :
  steps (only_calls (deletion_call P))
    (_update_playlist_description_with_genres rt cfg sp user_id pid
       track_uris).
Proof.
  eapply steps_mono; [|apply update_description_calls].
  intros w w'. apply only_calls_mono. intros c Hc q Hq.
  unfold description_call in Hc. by rewrite Hq in Hc.
Qed.

Lemma add_missing_valid_tracks_no_delete P sp pid tracks :
  steps (only_calls (deletion_call P)) (add_missing_valid_tracks sp pid tracks).
Proof. unfold add_missing_valid_tracks. no_deletes. Qed.

(** What the consolidation may send: a deletion only of a monthly
    playlist whose yearly successor has all of its tracks. *)
Definition consolidation_call (cfg : config) (sp : client)
    (existing : list (string * string)) (ms : list monthly_entry)
    (earlier : list (api_request * gmap string playlist))
    (c : api_request * gmap string playlist) : Prop :=
  forall q, c.1 = DeletePlaylist q ->
    verified_against (yearly_successor cfg sp existing ms earlier) q c.2.

Section ConsolidationCalls.
Context (rt : runtime) (cfg : config) (sp : client).
Context (get_most_played_tracks get_discovery_tracks :
           list history_event -> list string).
Context (existing : list (string * string)) (ms : list monthly_entry).

Lemma no_deletes_traced {A} (m : M A) :
  steps (only_calls (deletion_call (fun _ _ => False))) m ->
  steps (traced (consolidation_call cfg sp existing ms)) m.
Proof.
  intros H w. eapply only_calls_traced; [apply H|].
  intros earlier c Hc _ q Hq. destruct (Hc q Hq).
Qed.

Lemma gather_monthly_tracks_no_delete P monthlies :
  steps (only_calls (deletion_call P)) (gather_monthly_tracks sp monthlies).
Proof. unfold gather_monthly_tracks. no_deletes. Qed.

Lemma ensure_yearly_no_delete P user_id year t tracks :
  steps (only_calls (deletion_call P))
    (ensure_yearly rt cfg sp existing ms user_id year t tracks).
Proof.
  unfold ensure_yearly, formatted_description.
  repeat first
    [ apply update_description_no_delete
    | apply add_missing_valid_tracks_no_delete
    | progress steps_all ];
  intros;
  first [ by (apply only_calls_log; intros ? ?)
        | by apply only_calls_same ].
Qed.

(** The id [ensure_yearly] answers with is the listed one or, when
    none is listed, the one of the playlist it created. *)
Definition resolved (year : Z) (t : playlist_type) (yearly : option string)
    (w : world) : Prop :=
  forall pid, yearly = Some pid ->
    match dict_get (yearly_playlist_name cfg year t) existing with
    | Some p => pid = p
    | None =>
        exists d r0,
          (CreatePlaylist (yearly_playlist_name cfg year t) d, r0) ∈ calls w
          /\ pid = sp_new_id sp r0
    end.

Lemma ensure_yearly_returns user_id year t tracks :
  returns (resolved year t)
    (ensure_yearly rt cfg sp existing ms user_id year t tracks).
Proof.
  intros w a w' Hrun pid ->. unfold resolved, ensure_yearly in *.
  destruct (dict_get (yearly_playlist_name cfg year t) existing) as [p0|].
  - destruct (negb (year_has_monthlies ms year)); [by mrun|].
    rewrite bind_run in Hrun.
    destruct (add_missing_valid_tracks sp p0 tracks w) as [[a1|e1] w1];
      [|done].
    rewrite bind_run in Hrun.
    destruct (_update_playlist_description_with_genres rt cfg sp user_id p0
                None w1) as [[a2|e2] w2]; [|done].
    by injection Hrun as <- _.
  - unfold formatted_description in Hrun. rewrite bind_run in Hrun.
    destruct (format_playlist_description rt cfg (yearly_description t)
                (str_int year) t) as [text|]; [|done].
    cbn [ret] in Hrun. rewrite bind_run, create_run in Hrun.
    set (d := py_of_string _) in Hrun.
    set (new_id := sp_new_id sp (remote w)) in Hrun.
    set (w1 := set_remote _ (log_call (CreatePlaylist _ d) w)) in Hrun.
    exists d, (remote w).
    assert (steps (only_calls any_call)
              (for_each (_chunked (List.filter nonempty tracks) 50)
                 (fun chunk => match chunk with
                               | [] => ret tt
                               | _ => sp_playlist_add_items sp new_id chunk
                               end);;
               _update_playlist_description_with_genres rt cfg sp user_id
                 new_id (Some (List.filter nonempty tracks));;
               ret (Some new_id))) as Hsteps.
    { repeat first [ apply update_description_any_calls
                   | progress steps_all ];
      intros;
      first [ by apply only_calls_log | by apply only_calls_same ]. }
    specialize (Hsteps w1). rewrite Hrun in Hsteps.
    destruct Hsteps as (new & Hcalls & _). cbn [snd] in Hcalls.
    split.
    + rewrite Hcalls. apply elem_of_app. left. unfold w1. cbn.
      apply elem_of_app. right. left.
    + rewrite bind_run in Hrun.
      destruct (for_each _ _ w1) as [[a1|e1] w2]; [|done].
      rewrite bind_run in Hrun.
      destruct (_update_playlist_description_with_genres rt cfg sp user_id
                  new_id _ w2) as [[a2|e2] w3]; [|done].
      by injection Hrun as <- _.
Qed.

Lemma delete_verified_monthlies_calls pid monthlies :
  steps
    (only_calls
       (deletion_call
          (fun q r => (exists name, (name, q) ∈ monthlies)
                      /\ live_tracks r q ⊆ live_tracks r pid)))
    (delete_verified_monthlies sp pid monthlies).
Proof.
  unfold delete_verified_monthlies.
  apply steps_bind; [tc_solve| |intros final].
  { no_deletes. }
  apply steps_for_each; [tc_solve..|]. intros [name q'] Hm.
  steps_go; try (by apply only_calls_same).
  - no_deletes.
  - eapply steps_mono; [|apply safe_delete_calls].
    intros w w'. apply only_calls_mono. intros c Hc.
    apply deletes_only_deletion_call in Hc. intros q Hq.
    destruct (Hc q Hq) as [-> Hsub]. split; [by exists name|done].
  - apply steps_invalidate; [tc_solve..|]. intros. by apply only_calls_same.
Qed.

Lemma merge_into_yearly_no_delete P ytt yth history user_id year t :
  steps (only_calls (deletion_call P))
    (merge_into_yearly rt cfg sp existing ms ytt yth history user_id year t).
Proof.
  unfold merge_into_yearly.
  apply steps_bind; [tc_solve|apply gather_monthly_tracks_no_delete|].
  intros from_playlists.
  destruct (resort_from_monthly _ _ _ _ _); [no_deletes|].
  apply ensure_yearly_no_delete.
Qed.

Lemma merge_into_yearly_returns ytt yth history user_id year t :
  returns (resolved year t)
    (merge_into_yearly rt cfg sp existing ms ytt yth history user_id year t).
Proof.
  intros w a w' Hrun. unfold merge_into_yearly in Hrun.
  rewrite bind_run in Hrun.
  destruct (gather_monthly_tracks sp (monthlies_of ms year t) w)
    as [[from_playlists|e] w1]; [|done].
  destruct (resort_from_monthly _ _ _ _ _) eqn:E.
  - injection Hrun as <- _. by intros pid.
  - by eapply ensure_yearly_returns.
Qed.

Lemma consolidate_year_type_calls ytt yth history user_id year t :
  steps (traced (consolidation_call cfg sp existing ms))
    (consolidate_year_type rt cfg sp existing ms ytt yth history user_id
       year t).
Proof.
  unfold consolidate_year_type.
  eapply steps_bind_returns;
    [tc_solve|apply no_deletes_traced, merge_into_yearly_no_delete
    |apply merge_into_yearly_returns|].
  intros [pid|] w Hres; [|reflexivity].
  destruct (monthlies_of ms year t) as [|m0 rest] eqn:Hm; [reflexivity|].
  eapply only_calls_traced; [apply delete_verified_monthlies_calls|].
  intros earlier c Hc Hpre q Hq.
  destruct (Hc q Hq) as [[name Hin] Hsub].
  exists pid. split; [|done].
  exists year, t, name. rewrite Hm. split; [done|].
  specialize (Hres pid eq_refl).
  destruct (dict_get (yearly_playlist_name cfg year t) existing); [done|].
  destruct Hres as (d & r0 & Hcall & ->). exists d, r0. split; [|done].
  destruct Hpre as [k ->]. apply elem_of_app. by left.
Qed.

End ConsolidationCalls.

(** What the consolidation sends to the service. *)
Lemma consolidate_calls rt cfg sp get_most_played_tracks get_discovery_tracks
    now liked history keep_last_n_months w :
  let existing := listed_playlists w in
  let ms :=
    select_monthly cfg (cutoff_year_month now keep_last_n_months) existing in
  traced (consolidation_call cfg sp existing ms) w
    (consolidate_old_monthly_playlists rt cfg sp get_most_played_tracks
       get_discovery_tracks now liked history keep_last_n_months w).2.
Proof.
  cbn zeta. unfold consolidate_old_monthly_playlists.
  rewrite handle_errors_world, bind_run, get_existing_playlists_run.
  set (existing := listed_playlists w).
  set (ms := select_monthly cfg _ existing).
  set (w1 := match _playlist_cache w with Some _ => w | None => _ end).
  assert (traced (consolidation_call cfg sp existing ms) w w1) as H1.
  { eapply (only_calls_traced (deletion_call (fun _ _ => False))).
    - unfold w1. destruct (_playlist_cache w); [reflexivity|].
      etransitivity;
        [apply (only_calls_log _ ListPlaylists w); by intros ? ?|].
      by apply only_calls_same.
    - intros earlier c Hc _ q Hq. destruct (Hc q Hq). }
  etransitivity; [exact H1|].
  generalize w1. change (steps (traced (consolidation_call cfg sp existing ms))
    (user_id ← get_user_info sp;
     if existsb (fun ni : string * string => year_raises cfg ni.1) existing
     then raise Exception
     else
       for_each
         (years_to_consolidate cfg existing ms
            (year_to_tracks (cutoff_year_month now keep_last_n_months) liked)
            (year_to_tracks_history get_most_played_tracks
               get_discovery_tracks history))
         (fun year =>
            for_each (playlist_types cfg)
              (fun tp =>
                 consolidate_year_type rt cfg sp existing ms
                   (year_to_tracks (cutoff_year_month now keep_last_n_months)
                      liked)
                   (year_to_tracks_history get_most_played_tracks
                      get_discovery_tracks history)
                   history user_id year tp.1)))).
  apply steps_bind; [tc_solve| |].
  { apply no_deletes_traced. no_deletes. }
  intros user_id.
  destruct (existsb _ existing); [apply steps_raise; tc_solve|].
  apply steps_for_each; [tc_solve..|]. intros year _.
  apply steps_for_each; [tc_solve..|]. intros [t prefix] _.
  apply consolidate_year_type_calls.
Qed.

(** ** Deletions, as the service sees them *)

(** The run from [w] to [w'] asked to delete [q] after the calls
    [earlier], the service then holding [r]. *)
Definition deletes_during (w w' : world)
    (earlier : list (api_request * gmap string playlist)) (q : string)
    (r : gmap string playlist) : Prop :=
  exists later,
    calls w' = earlier ++ (DeletePlaylist q, r) :: later
    /\ length (calls w) <= length earlier.

(** The calls made from [w] to [w']. *)
Definition calls_since (w w' : world)
    : list (api_request * gmap string playlist) :=
  drop (length (calls w)) (calls w').

Lemma traced_deletes P w w' earlier q r :
  traced P w w' -> deletes_during w w' earlier q r ->
  P earlier (DeletePlaylist q, r).
Proof.
  intros (new & E & H) (later & Hsplit & Hlen).
  assert (earlier = calls w ++ drop (length (calls w)) earlier) as Hpre.
  { rewrite <- (take_drop (length (calls w)) earlier) at 1. f_equal.
    assert (take (length (calls w)) (calls w') = calls w) as Ht
      by (by rewrite E, take_app_length).
    rewrite Hsplit, take_app_le in Ht by done. done. }
  set (pre := drop (length (calls w)) earlier) in *.
  assert (new = pre ++ (DeletePlaylist q, r) :: later) as ->.
  { apply (app_inv_head (calls w)). rewrite <- E, Hsplit, Hpre at 1.
    by rewrite <- app_assoc. }
  rewrite Hpre.
  replace pre with (take (length pre) (pre ++ (DeletePlaylist q, r) :: later))
    at 1 by (by rewrite take_app_length).
  apply H. by rewrite list_lookup_middle.
Qed.

Lemma only_calls_deletes P w w' earlier q r :
  only_calls P w w' -> deletes_during w w' earlier q r ->
  P (DeletePlaylist q, r).
Proof.
  intros H Hd.
  apply (traced_deletes (fun _ c => P c) w w' earlier q r); [|done].
  eapply only_calls_traced; [exact H|]. auto.
Qed.

Lemma only_calls_since P w w' :
  only_calls P w w' -> Forall P (calls_since w w').
Proof.
  intros (new & E & H). unfold calls_since. by rewrite E, drop_app_length.
Qed.

(** ** The cleanup of legacy playlists *)

(** A deletion whose target has a backup with the tracks the service
    holds for it. *)
Definition backed_up_call (bs : list backup)
    (c : api_request * gmap string playlist) : Prop :=
  forall q, c.1 = DeletePlaylist q ->
    exists b, b ∈ bs /\ bk_id b = q /\ bk_tracks b = live_tracks c.2 q.

(** Backups are kept, and every deletion the run adds has one. *)
Definition backed_up : relation world :=
  fun w w' =>
    (forall b, b ∈ backups w -> b ∈ backups w')
    /\ exists new,
         calls w' = calls w ++ new
         /\ Forall (backed_up_call (backups w')) new.

Global Instance backed_up_refl : Reflexive backed_up.
Proof.
  intros w. split; [done|]. exists []. by rewrite app_nil_r.
Qed.

Global Instance backed_up_trans : Transitive backed_up.
Proof.
  intros w1 w2 w3 (B1 & n1 & E1 & F1) (B2 & n2 & E2 & F2).
  split; [auto|]. exists (n1 ++ n2).
  split; [by rewrite E2, E1, app_assoc|]. apply Forall_app. split; [|done].
  eapply Forall_impl; [exact F1|].
  intros c Hc q Hq. destruct (Hc q Hq) as (b & Hb & H). exists b. auto.
Qed.

Lemma backed_up_read r w :
  (forall q, r <> DeletePlaylist q) -> backed_up w (log_call r w).
Proof.
  intros Hr. split; [done|]. exists [(r, remote w)]. split; [done|].
  constructor; [|constructor]. intros q Hq. by destruct (Hr q).
Qed.

Lemma backed_up_same w w' :
  calls w' = calls w -> backups w' = backups w -> backed_up w w'.
Proof.
  intros Hc Hb. split; [by rewrite Hb|]. exists []. by rewrite app_nil_r.
Qed.

Lemma safe_delete_backed_up sp p name verify :
  steps backed_up (safe_delete_playlist sp p name true verify).
Proof.
  intros w. unfold safe_delete_playlist.
  rewrite bind_run, get_playlist_tracks_run. cbn match.
  destruct verify as [k|]; mrun;
    rewrite ?bind_run, ?get_playlist_tracks_run; cbn match; mrun;
    cbn [remote set_tracks_cache log_call add_backup].
  all: try destruct (bool_decide _) eqn:E; cbn match.
  all: unfold try_except, sp_current_user_unfollow_playlist; mrun;
    cbn [remote set_tracks_cache log_call add_backup set_remote].
  all: try destruct (remote w !! p) as [pl|] eqn:Hp; mrun; cbn [snd].
  all: split;
    [intros b Hb;
     cbn [backups set_tracks_cache log_call add_backup set_remote];
     apply elem_of_app; by left|].
  all: eexists; split;
    [cbn [calls set_tracks_cache log_call add_backup set_remote];
     rewrite <- ?app_assoc; reflexivity|].
  all: cbn [app remote backups set_tracks_cache log_call add_backup
              set_remote].
  all: repeat (apply Forall_cons; split); try (by apply Forall_nil).
  all: intros q Hq; try discriminate; injection Hq as <-.
  all: eexists; (split; [apply elem_of_app; right; left|]); done.
Qed.

Section LegacyCleanup.
Context (cfg : config) (sp : client).

Lemma legacy_cleanup_backed_up now :
  steps backed_up (delete_automated_monthly_and_genre_playlists cfg sp now).
Proof.
  unfold delete_automated_monthly_and_genre_playlists.
  repeat first [ apply safe_delete_backed_up | progress steps_all ];
    intros;
    first [ by apply backed_up_read | by apply backed_up_same ].
Qed.

Lemma legacy_cleanup_calls now w :
  only_calls
    (deletion_call
       (fun q _ =>
          exists name,
            (name, q) ∈ legacy_to_delete cfg (dt_year now)
                          (current_listing w)))
    w (delete_automated_monthly_and_genre_playlists cfg sp now w).2.
Proof.
  unfold delete_automated_monthly_and_genre_playlists.
  rewrite handle_errors_world, bind_run, get_existing_playlists_forced_run.
  set (existing := current_listing w).
  set (w1 := set_playlist_cache _ (log_call ListPlaylists w)).
  etransitivity; [apply (only_calls_log _ ListPlaylists w); by intros ? ?|].
  etransitivity; [apply (only_calls_same _ _ w1); done|].
  generalize w1. apply steps_for_each; [tc_solve..|]. intros [name q'] Hin.
  steps_go; try (by apply only_calls_same).
  - eapply steps_mono; [|apply safe_delete_calls].
    intros w2 w3. apply only_calls_mono. intros c Hc.
    apply deletes_only_deletion_call in Hc. intros q Hq.
    destruct (Hc q Hq) as [-> _]. by exists name.
  - apply steps_invalidate; [tc_solve..|]. intros. by apply only_calls_same.
Qed.

End LegacyCleanup.

(** ** Safety of the deletions *)

(** C1, as amended.  A monthly playlist is deleted by the consolidation,
    and a duplicate by the duplicate cleanup, only when the service, at
    the time of the call, holds every track of the playlist in its
    successor: the yearly playlist listed (or created earlier in the
    run) for the year and type, or the kept copy of the duplicate set.
    If a track is missing from the successor, no deletion is asked
    for.  The cleanup of legacy playlists names no successor: it
    deletes listed playlists with a legacy name, each after a backup
    of its tracks. *)
Theorem deletions_verified_against_successor rt cfg sp
    get_most_played_tracks get_discovery_tracks :
  (forall now liked history keep_last_n_months w earlier q r,
     let existing := listed_playlists w in
     let ms :=
       select_monthly cfg (cutoff_year_month now keep_last_n_months)
         existing in
     deletes_during w
       (consolidate_old_monthly_playlists rt cfg sp get_most_played_tracks
          get_discovery_tracks now liked history keep_last_n_months w).2
       earlier q r ->
     verified_against (yearly_successor cfg sp existing ms earlier) q r)
  /\ (forall max_playlists w earlier q r,
        deletes_during w (delete_duplicate_playlists sp max_playlists w).2
          earlier q r ->
        verified_against (kept_copy (current_listing w) (seen_tracks w)) q r)
  /\ (forall now w earlier q r,
        let w' :=
          (delete_automated_monthly_and_genre_playlists cfg sp now w).2 in
        deletes_during w w' earlier q r ->
        (exists name,
           (name, q) ∈ legacy_to_delete cfg (dt_year now) (current_listing w))
        /\ exists b,
             b ∈ backups w' /\ bk_id b = q
             /\ bk_tracks b = live_tracks r q).
Proof.
  split; [|split].
  - intros now liked history keep_last_n_months w earlier q r existing ms Hd.
    pose proof (consolidate_calls rt cfg sp get_most_played_tracks
                  get_discovery_tracks now liked history keep_last_n_months w)
      as Hcalls.
    cbn zeta in Hcalls.
    by apply (traced_deletes _ _ _ _ _ _ Hcalls Hd q).
  - intros max_playlists w earlier q r Hd.
    pose proof (only_calls_deletes _ _ _ _ _ _
                  (delete_duplicate_playlists_calls sp max_playlists w) Hd)
      as [_ H].
    exact H.
  - intros now w earlier q r w' Hd. split.
    + by apply (only_calls_deletes _ _ _ _ _ _
                  (legacy_cleanup_calls cfg sp now w) Hd q).
    + destruct (legacy_cleanup_backed_up cfg sp now w) as [_ Hcalls].
      by apply (only_calls_deletes _ _ _ _ _ _ Hcalls Hd q).
Qed.

(** A playlist without description. *)
Definition playlist_of (name : string) (tracks : list string) : playlist :=
  {| pl_name := name; pl_description := []; pl_snapshot_id := "s";
     pl_tracks := tracks |}.

(** *** The legacy cleanup deletes without a successor *)

Definition legacy_world : world :=
  world_of [("p01"%string,
             playlist_of "AJFindsJan24" ["spotify:track:a"%string])].

(** C1, the part that fails: the cleanup of legacy playlists deletes
    the only playlist that holds a track. *)
Lemma legacy_cleanup_deletes_unverified :
  let w := legacy_world in
  let w' := (delete_automated_monthly_and_genre_playlists default_config
               demo_client nov_2024 w).2 in
  deletes_during w w'
    [(ListPlaylists, remote w); (GetPlaylistItems "p01"%string, remote w)]
    "p01"%string (remote w)
  /\ "spotify:track:a"%string ∈ live_tracks (remote w) "p01"%string
  /\ (forall successor,
        successor <> "p01"%string ->
        "spotify:track:a"%string ∉ live_tracks (remote w) successor)
  /\ remote w' = ∅.
Proof.
  cbn zeta. split; [|split; [|split]].
  - exists []. split; [vm_compute; reflexivity|cbn; lia].
  - vm_compute. reflexivity.
  - intros successor Hne. unfold live_tracks.
    change (remote legacy_world)
      with (<["p01"%string :=
                playlist_of "AJFindsJan24" ["spotify:track:a"%string]]>
              (∅ : gmap string playlist)).
    rewrite lookup_insert_ne by done. rewrite lookup_empty.
    apply not_elem_of_empty.
  - vm_compute. reflexivity.
Qed.

(** ** The duplicate cleanup *)

(** C10, as amended.  Track sets are compared as
    [get_playlist_tracks] answers with them: the cached set when the
    track cache has an entry for the playlist, the current one
    otherwise.  Every change the duplicate cleanup makes is the deletion
    of a playlist [q] that was read with a non-empty track set, while
    another listed playlist, read with the same track set and first by
    name among all playlists read with it, is kept; the deletion is
    asked for only when the service holds every track of [q] in that
    kept playlist.  So a playlist read empty is never deleted, nor is
    the first by name of a set. *)
Theorem delete_duplicate_playlists_targets sp max_playlists w request r :
  (request, r)
    ∈ calls_since w (delete_duplicate_playlists sp max_playlists w).2 ->
  is_mutation request = true ->
  exists q,
    request = DeletePlaylist q
    /\ duplicate_target (current_listing w) (seen_tracks w) q r.
Proof.
  intros Hin Hmut.
  pose proof (only_calls_since _ _ _
                (delete_duplicate_playlists_calls sp max_playlists w)) as H.
  rewrite Forall_forall in H. specialize (H _ Hin).
  unfold deletes_only in H. cbn [fst snd] in H.
  destruct request; try congruence. by eexists.
Qed.

Definition duplicates_world : world :=
  world_of
    [("p1"%string, playlist_of "Road Trip (copy)" ["t:a"; "t:b"]%string);
     ("p2"%string, playlist_of "Road Trip" ["t:b"; "t:a"]%string);
     ("p3"%string, playlist_of "Empty A" []);
     ("p4"%string, playlist_of "Empty B" [])].

Lemma delete_duplicate_playlists_targets_witness :
  let w := duplicates_world in
  (DeletePlaylist "p1"%string, remote w)
    ∈ calls_since w (delete_duplicate_playlists demo_client 1000 w).2
  /\ exists q,
       DeletePlaylist "p1"%string = DeletePlaylist q
       /\ duplicate_target (current_listing w) (seen_tracks w) q (remote w).
Proof.
  cbn zeta.
  assert ((DeletePlaylist "p1"%string, remote duplicates_world)
            ∈ calls_since duplicates_world
                (delete_duplicate_playlists demo_client 1000
                   duplicates_world).2) as Hin.
  { apply (list_elem_of_lookup_2 _ 8). vm_compute. reflexivity. }
  split; [exact Hin|].
  exact (delete_duplicate_playlists_targets demo_client 1000 duplicates_world
           (DeletePlaylist "p1"%string) (remote duplicates_world) Hin
           eq_refl).
Defined.

(** *** A track cache that is behind the service *)

(** Two playlists that once held the same track: since the track cache
    was filled, [t:z] was added to the first and the second was
    emptied. *)
Definition stale_duplicates_world : world :=
  set_tracks_cache
    (fun _ => {[ "pA"%string := {[ "t:a"%string ]};
                 "pB"%string := {[ "t:a"%string ]} ]})
    (world_of
       [("pA"%string, playlist_of "Mix A" ["t:a"; "t:z"]%string);
        ("pB"%string, playlist_of "Mix B" [])]).

(** C10 (counterexample).  The two playlists have different track sets
    and the second is empty, yet the cleanup deletes the second as a
    duplicate of the first: it groups them by the cached sets, and the
    check before the deletion passes, an empty playlist having all its
    tracks anywhere. *)
Lemma delete_duplicate_playlists_deletes_empty :
  let w := stale_duplicates_world in
  let w' := (delete_duplicate_playlists demo_client 1000 w).2 in
  live_tracks (remote w) "pA" = list_to_set ["t:a"; "t:z"]%string
  /\ live_tracks (remote w) "pB" = ∅
  /\ live_tracks (remote w) "pA" <> live_tracks (remote w) "pB"
  /\ List.filter is_mutation (calls_since w w').*1
     = [DeletePlaylist "pB"%string]
  /\ remote w' !! "pB"%string = None.
Proof.
  cbn zeta.
  assert (live_tracks (remote stale_duplicates_world) "pA"
          = list_to_set ["t:a"; "t:z"]%string) as HA
    by (vm_compute; reflexivity).
  assert (live_tracks (remote stale_duplicates_world) "pB" = ∅) as HB
    by (vm_compute; reflexivity).
  split; [exact HA|]. split; [exact HB|]. split; [|split].
  - rewrite HA, HB. intros Heq.
    assert ("t:a"%string ∈ (∅ : gset string)) as Hin.
    { rewrite <- Heq. apply elem_of_list_to_set. left. }
    by apply not_elem_of_empty in Hin.
  - vm_compute. reflexivity.
  - vm_compute. reflexivity.
Qed.

(** The run on [duplicates_world]: one deletion, the empty playlists
    stay. *)
Example duplicate_cleanup_run :
  let w' := (delete_duplicate_playlists demo_client 1000 duplicates_world).2 in
  List.filter is_mutation (calls_since duplicates_world w').*1
  = [DeletePlaylist "p1"%string]
  /\ (dom (remote w') : gset string) = {["p2"; "p3"; "p4"]}%string.
Proof. cbn zeta. split; vm_compute; reflexivity. Qed.

(** ** Selection and merging *)

Lemma head_omap_elem {A B} (f : A -> option B) l b :
  head (omap f l) = Some b -> exists a, a ∈ l /\ f a = Some b.
Proof.
  intros H. apply head_Some_elem_of in H.
  by apply list_elem_of_omap in H.
Qed.

Lemma parse_monthly_month cfg name t year month_num :
  parse_monthly cfg name = Some (t, year, month_num) ->
  month_num ∈ MONTH_NAMES.*1.
Proof.
  unfold parse_monthly. intros H.
  destruct (match_type cfg (playlist_types cfg) name) as [[t' pattern]|];
    [|done].
  cbn in H.
  destruct (match_month name pattern) as [[mn remaining]|] eqn:Hm; [|done].
  cbn in H. destruct (isdigit remaining); [|done].
  destruct (int_of_isdigit remaining); [|done]. cbn in H.
  injection H as _ _ <-.
  apply head_omap_elem in Hm as (na & Hin & Hf).
  destruct (startswith name (pattern +:+ na.2)); [|done].
  injection Hf as <- _. apply list_elem_of_fmap. by exists na.
Qed.

Lemma month_num_pad2 month_num :
  month_num ∈ MONTH_NAMES.*1 ->
  (1 <= int_of_digits month_num <= 12)%Z
  /\ month_num = pad2 (int_of_digits month_num).
Proof.
  intros H. cbn in H.
  repeat (apply elem_of_cons in H as [->|H]);
    [vm_compute; split; [split; discriminate|reflexivity]..|].
  by apply elem_of_nil in H.
Qed.

Lemma month_str_leb_cutoff now keep_last_n_months year month_num :
  (1 <= dt_month now <= 12)%Z ->
  (1000 <= dt_year (minus_months now keep_last_n_months) <= 9999)%Z ->
  (1000 <= year <= 9999)%Z ->
  month_num ∈ MONTH_NAMES.*1 ->
  String.leb (month_str year month_num)
    (cutoff_year_month now keep_last_n_months) = true
  <-> (month_index year (int_of_digits month_num)
       <= month_index (dt_year now) (dt_month now) - keep_last_n_months)%Z.
Proof.
  intros Hnow Hcut Hyear Hnum.
  destruct (month_num_pad2 _ Hnum) as [Hm Hpad].
  destruct (minus_months_index now keep_last_n_months Hnow) as [Hcm Hidx].
  rewrite <- Hidx. unfold month_str, cutoff_year_month.
  rewrite str_int_pad4 by done. rewrite Hpad at 1.
  apply (strftime_Ym_leb
           {| dt_year := year; dt_month := int_of_digits month_num;
              dt_day := 1 |}); done.
Qed.

Lemma monthlies_of_elem ms year t name pid :
  (name, pid) ∈ monthlies_of ms year t
  <-> {| me_year := year; me_type := t; me_name := name; me_id := pid |} ∈ ms.
Proof.
  unfold monthlies_of. rewrite list_elem_of_omap. split.
  - intros ([y t' n i] & Hin & H). cbn in H.
    destruct (bool_decide_reflect (y = year /\ t' = t)) as [[-> ->]|];
      [|done].
    by injection H as -> ->.
  - intros H. eexists. split; [exact H|]. cbn.
    by rewrite bool_decide_eq_true_2.
Qed.

Lemma select_monthly_elem cfg cutoff existing year t name pid :
  {| me_year := year; me_type := t; me_name := name; me_id := pid |}
    ∈ select_monthly cfg cutoff existing
  <-> (name, pid) ∈ existing
      /\ exists month_num,
           parse_monthly cfg name = Some (t, year, month_num)
           /\ String.leb (month_str year month_num) cutoff = true.
Proof.
  unfold select_monthly. rewrite list_elem_of_omap. split.
  - intros ([n i] & Hin & H). cbn in H.
    destruct (parse_monthly cfg n) as [[[t' y] mn]|] eqn:Hp; [|done].
    cbn in H. destruct (String.leb (month_str y mn) cutoff) eqn:Hle; [|done].
    injection H as -> -> -> ->. split; [done|]. by exists mn.
  - intros [Hin (mn & Hp & Hle)]. exists (name, pid). split; [done|].
    cbn. rewrite Hp. cbn. by rewrite Hle.
Qed.

Lemma extend_unique_spec l :
  forall acc,
    NoDup acc ->
    NoDup (extend_unique acc l)
    /\ forall u, u ∈ extend_unique acc l <-> u ∈ acc \/ u ∈ l.
Proof.
  unfold extend_unique.
  induction l as [|x l IH]; intros acc Hnd; cbn [fold_left].
  - split; [done|]. intros u. rewrite elem_of_nil. tauto.
  - destruct (bool_decide_reflect (x ∈ acc)) as [Hx|Hx].
    + destruct (IH acc Hnd) as [H1 H2]. split; [done|].
      intros u. rewrite H2, elem_of_cons. split; [tauto|].
      intros [?|[->|?]]; tauto.
    + assert (NoDup (acc ++ [x])) as Hnd'.
      { apply NoDup_app. split; [done|]. split.
        - intros y Hy Hy'. apply list_elem_of_singleton in Hy'. by subst.
        - apply NoDup_singleton. }
      destruct (IH _ Hnd') as [H1 H2]. split; [done|].
      intros u. rewrite H2, elem_of_app, list_elem_of_singleton, elem_of_cons.
      tauto.
Qed.

Lemma get_playlist_tracks_seen sp pid w :
  exists w',
    get_playlist_tracks sp pid false w = (Ok (seen_tracks w pid), w')
    /\ (forall p, seen_tracks w' p = seen_tracks w p)
    /\ remote w' = remote w.
Proof.
  rewrite get_playlist_tracks_run. unfold seen_tracks.
  destruct (_playlist_tracks_cache w !! pid) as [s|] eqn:E.
  - by exists w.
  - eexists. split; [done|]. split; [|done]. intros p.
    cbn [_playlist_tracks_cache set_tracks_cache log_call remote].
    destruct (decide (pid = p)) as [<-|Hne].
    + by rewrite lookup_insert_eq, E.
    + by rewrite lookup_insert_ne.
Qed.

(** The list the gathering loop builds from the track sets read. *)
Definition gathered (seen : string -> gset string)
    (monthlies : list (string * string)) : list string :=
  fold_left (fun acc m => extend_unique acc (elements (seen m.2)))
            monthlies [].

Lemma gather_loop_run sp (seen : string -> gset string) l :
  forall acc w,
    (forall p, seen_tracks w p = seen p) ->
    exists w',
      fold_each l acc
        (fun all_tracks_list (m : string * string) =>
           tracks ← get_playlist_tracks sp m.2 false;
           ret (extend_unique all_tracks_list (elements tracks))) w
      = (Ok (fold_left (fun acc m => extend_unique acc (elements (seen m.2)))
                       l acc), w')
      /\ (forall p, seen_tracks w' p = seen p)
      /\ remote w' = remote w.
Proof.
  induction l as [|m l IH]; intros acc w Hseen; cbn [fold_each fold_left].
  - by exists w.
  - rewrite !bind_run.
    destruct (get_playlist_tracks_seen sp m.2 w) as (w1 & -> & Hs & Hr).
    mrun. rewrite Hseen.
    destruct (IH (extend_unique acc (elements (seen m.2))) w1)
      as (w' & Hrun & Hs' & Hr'); [intros p; by rewrite Hs|].
    exists w'. split; [done|]. split; [done|congruence].
Qed.

Lemma gathered_spec seen monthlies :
  NoDup (gathered seen monthlies)
  /\ forall u,
       u ∈ gathered seen monthlies
       <-> exists m, m ∈ monthlies /\ u ∈ seen m.2.
Proof.
  unfold gathered.
  assert (forall l acc,
    NoDup acc ->
    NoDup (fold_left (fun acc m => extend_unique acc (elements (seen m.2)))
                     l acc)
    /\ forall u,
         u ∈ fold_left (fun acc m => extend_unique acc (elements (seen m.2)))
               l acc
         <-> u ∈ acc \/ exists m : string * string, m ∈ l /\ u ∈ seen m.2)
    as H.
  { induction l as [|m l IH]; intros acc Hnd; cbn [fold_left].
    - split; [done|]. intros u. split; [tauto|].
      intros [?|(m & Hm & _)]; [done|]. by apply elem_of_nil in Hm.
    - destruct (extend_unique_spec (elements (seen m.2)) acc Hnd) as [H1 H2].
      destruct (IH _ H1) as [H3 H4]. split; [done|].
      intros u. rewrite H4, H2, elem_of_elements. split.
      + intros [[?|?]|(m' & Hm' & Hu)]; [tauto| |].
        * right. exists m. split; [left|done].
        * right. exists m'. split; [by right|done].
      + intros [?|(m' & Hm' & Hu)]; [tauto|].
        apply elem_of_cons in Hm' as [->|Hm']; [tauto|].
        right. by exists m'. }
  destruct (H monthlies [] ltac:(constructor)) as [H1 H2].
  split; [done|]. intros u. rewrite H2, elem_of_nil. tauto.
Qed.

Lemma same_content_live w w' pid :
  same_content w w' -> live_tracks (remote w') pid = live_tracks (remote w) pid.
Proof.
  intros H. specialize (H pid). unfold live_tracks.
  destruct (remote w' !! pid) as [pl'|], (remote w !! pid) as [pl|];
    try done.
  cbn in H. injection H as _ Ht. by rewrite Ht.
Qed.

Lemma resort_from_monthly_perm history year t tracks_from_monthly l :
  Permutation (resort_from_monthly history year t tracks_from_monthly l) l.
Proof.
  unfold resort_from_monthly.
  destruct l as [|u l]; [done|].
  destruct t; try done. destruct tracks_from_monthly; [|done].
  destruct history as [[|e h]|]; try done.
  destruct (year_data (e :: h) year); [done|].
  apply sort_by_perm.
Qed.

Lemma monthlies_of_year ms year t m :
  m ∈ monthlies_of ms year t -> year_has_monthlies ms year = true.
Proof.
  unfold monthlies_of, year_has_monthlies. intros H.
  apply list_elem_of_omap in H as (e & He & H).
  destruct (bool_decide_reflect (me_year e = year /\ me_type e = t))
    as [[Hy _]|]; [|done].
  apply existsb_exists. exists e. split; [by apply list_elem_of_In|].
  by apply bool_decide_eq_true.
Qed.

(** *** January to October 2024, seen from November 2024 *)

Definition year_2024 : world :=
  world_of
    [("p01", playlist_of "AJFindsJan24" ["t:a"; "t:b"]);
     ("p02", playlist_of "AJFindsFeb24" ["t:b"; "t:c"]);
     ("p03", playlist_of "AJFindsMar24" ["t:d"]);
     ("p04", playlist_of "AJFindsApr24" ["t:e"]);
     ("p05", playlist_of "AJFindsMay24" ["t:f"]);
     ("p06", playlist_of "AJFindsJun24" ["t:g"]);
     ("p07", playlist_of "AJFindsJul24" ["t:h"]);
     ("p08", playlist_of "AJFindsAug24" ["t:i"; "t:a"]);
     ("p09", playlist_of "AJFindsSep24" ["t:j"]);
     ("p10", playlist_of "AJFindsOct24" ["t:k"])]%string.

(** The names of the playlists the service holds. *)
Definition playlist_names (w : world) : list (string * string) :=
  map (fun kv : string * playlist => (kv.1, pl_name kv.2))
      (map_to_list (remote w)).

(** The whole run: the playlists of January to August are merged into
    one yearly playlist and deleted; those of September and October
    stay. *)
Example consolidation_nov_2024 :
  let run :=
    consolidate_old_monthly_playlists runtime_excerpt default_config
      demo_client (fun _ => []) (fun _ => []) nov_2024 [] None 3 year_2024 in
  run.1 = Ok tt
  /\ playlist_names run.2
     = [("p10", "AJFindsOct24"); ("p09", "AJFindsSep24");
        ("0", "AJFinds24")]%string
  /\ live_tracks (remote run.2) "0"
     = list_to_set ["t:a"; "t:b"; "t:c"; "t:d"; "t:e"; "t:f"; "t:g"; "t:h";
                    "t:i"]%string.
Proof. cbn zeta. split; [|split]; vm_compute; reflexivity. Qed.

End Consolidation.

(* ===================================================================== *)
(** * Settings from the environment ([config_helpers.py], [config.py]) *)
(* ===================================================================== *)

Module Environment.
Import Py Config DescriptionText.
Local Open Scope string_scope.

(** [os.environ] *)
Definition environ := gmap string string.

(** [str(b)] for a [bool] *)
Definition str_of_bool (b : bool) : string := if b then "True" else "False".

(** [parse_bool_env(key, default)], on ASCII text *)
Definition parse_bool_env (env : environ) (key : string) (dflt : bool)
    : bool :=
  let value := str_strip (str_lower (default (str_of_bool dflt) (env !! key))) in
  bool_decide (value ∈ ["true"; "1"; "yes"; "on"]).

(** [parse_str_env(key, default)] *)
Definition parse_str_env (env : environ) (key : string) (dflt : string)
    : string :=
  str_strip (default dflt (env !! key)).

(** [get_env_or_none(key)] *)
Definition get_env_or_none (env : environ) (key : string) : option string :=
  match env !! key with
  | Some value => if nonempty value then Some (str_strip value) else None
  | None => None
  end.

(** [require_env(key)]; [None] when it raises [ValueError]. *)
Definition require_env (env : environ) (key : string) : option string :=
  match env !! key with
  | Some value =>
      if negb (nonempty value) || negb (nonempty (str_strip value)) then None
      else Some (str_strip value)
  | None => None
  end.

(** X26.  [require_env] answers with exactly the non-empty values
    [get_env_or_none] answers with: for a variable that is unset, empty
    or made of blanks it raises, while [get_env_or_none] answers a
    variable made of blanks with the empty string. *)
Theorem require_env_spec (env : environ) (key v : string) :
  require_env env key = Some v
  <-> get_env_or_none env key = Some v /\ v <> "".
Proof.
  unfold require_env, get_env_or_none.
  destruct (env !! key) as [raw|]; [|split; [done|by intros [? _]]].
  destruct (nonempty raw); cbn [negb orb];
    [|split; [done|by intros [? _]]].
  destruct (str_strip raw) as [|c s] eqn:E; cbn [nonempty negb].
  - split; [done|]. intros [[= <-] H]. done.
  - split; [intros [= <-]; by split|by intros [? _]].
Qed.

(** [reload_from_env()] ([config.py]), for the settings of [config]. *)
Definition reload_from_env (env : environ) : config :=
  let base_prefix := parse_str_env env "PLAYLIST_PREFIX" "Finds" in
  {| OWNER_NAME := parse_str_env env "PLAYLIST_OWNER_NAME" "AJ";
     BASE_PREFIX := base_prefix;
     ENABLE_MONTHLY := parse_bool_env env "PLAYLIST_ENABLE_MONTHLY" true;
     ENABLE_MOST_PLAYED :=
       parse_bool_env env "PLAYLIST_ENABLE_MOST_PLAYED" true;
     ENABLE_DISCOVERY := parse_bool_env env "PLAYLIST_ENABLE_DISCOVERY" true;
     PREFIX_MONTHLY := parse_str_env env "PLAYLIST_PREFIX_MONTHLY" base_prefix;
     PREFIX_YEARLY := parse_str_env env "PLAYLIST_PREFIX_YEARLY" base_prefix;
     PREFIX_MOST_PLAYED := parse_str_env env "PLAYLIST_PREFIX_MOST_PLAYED" "Top";
     PREFIX_DISCOVERY :=
       parse_str_env env "PLAYLIST_PREFIX_DISCOVERY" "Discovery";
     MONTHLY_NAME_TEMPLATE :=
       parse_str_env env "PLAYLIST_TEMPLATE_MONTHLY"
         "{owner}{prefix}{mon}{year}";
     YEARLY_NAME_TEMPLATE :=
       parse_str_env env "PLAYLIST_TEMPLATE_YEARLY" "{owner}{prefix}{year}";
     DATE_FORMAT := parse_str_env env "PLAYLIST_DATE_FORMAT" "short";
     SEPARATOR_MONTH := parse_str_env env "PLAYLIST_SEPARATOR_MONTH" "none";
     SEPARATOR_PREFIX := parse_str_env env "PLAYLIST_SEPARATOR_PREFIX" "none";
     CAPITALIZATION := parse_str_env env "PLAYLIST_CAPITALIZATION" "preserve";
     DESCRIPTION_TEMPLATE :=
       parse_str_env env "PLAYLIST_DESCRIPTION_TEMPLATE"
         "{description} from {period}" |}.

(** ** Options of a run ([sync_options.py]) *)

Inductive option_kind := KBool | KInt | KStr | KPath | KChoice.

(** The values an option takes. *)
Inductive value := VBool (b : bool) | VInt (n : Z) | VStr (s : string).

(** [SyncOption], without the texts shown to the user. *)
Record SyncOption := {
  key : string;
  env_key : option string;
  default_value : option value;
  kind : option_kind;
  cli_flag : option string;
  cli_negatable : bool;
}.

Definition opt (k : string) (e : option string) (d : option value)
    (kd : option_kind) (f : string) (neg : bool) : SyncOption :=
  {| key := k; env_key := e; default_value := d; kind := kd;
     cli_flag := Some f; cli_negatable := neg |}.

(** [SYNC_OPTIONS] *)
Definition SYNC_OPTIONS : list SyncOption :=
  [opt "skip_sync" None (Some (VBool false)) KBool "--skip-sync" false;
   opt "sync_only" None (Some (VBool false)) KBool "--sync-only" false;
   opt "force" None (Some (VBool false)) KBool "--force" false;
   opt "verbose" None (Some (VBool false)) KBool "--verbose" false;
   opt "all_months" None (Some (VBool false)) KBool "--all-months" false;
   opt "steps" None None KStr "--steps" false;
   opt "data_dir" (Some "SPOTIM8_DATA_DIR") None KPath "--data-dir" false;
   opt "owner_name" (Some "PLAYLIST_OWNER_NAME") (Some (VStr "AJ")) KStr
       "--owner-name" false;
   opt "base_prefix" (Some "PLAYLIST_PREFIX") (Some (VStr "Finds")) KStr
       "--prefix" false;
   opt "keep_monthly_months" (Some "KEEP_MONTHLY_MONTHS") (Some (VInt 3)) KInt
       "--keep-monthly-months" false;
   opt "enable_monthly" (Some "PLAYLIST_ENABLE_MONTHLY") (Some (VBool true))
       KBool "--enable-monthly" true;
   opt "enable_most_played" (Some "PLAYLIST_ENABLE_MOST_PLAYED")
       (Some (VBool true)) KBool "--enable-most-played" true;
   opt "enable_discovery" (Some "PLAYLIST_ENABLE_DISCOVERY")
       (Some (VBool true)) KBool "--enable-discovery" true;
   opt "prefix_monthly" (Some "PLAYLIST_PREFIX_MONTHLY") None KStr
       "--prefix-monthly" false;
   opt "prefix_yearly" (Some "PLAYLIST_PREFIX_YEARLY") None KStr
       "--prefix-yearly" false;
   opt "prefix_most_played" (Some "PLAYLIST_PREFIX_MOST_PLAYED")
       (Some (VStr "Top")) KStr "--prefix-most-played" false;
   opt "prefix_discovery" (Some "PLAYLIST_PREFIX_DISCOVERY")
       (Some (VStr "Discovery")) KStr "--prefix-discovery" false;
   opt "enable_health_check" (Some "ENABLE_HEALTH_CHECK")
       (Some (VBool false)) KBool "--enable-health-check" true;
   opt "enable_insights_report" (Some "ENABLE_INSIGHTS_REPORT")
       (Some (VBool false)) KBool "--enable-insights-report" true;
   opt "enable_mood_tags" (Some "ENABLE_MOOD_TAGS") (Some (VBool false))
       KBool "--enable-mood-tags" true;
   opt "mood_max_tags" (Some "MOOD_MAX_TAGS") (Some (VInt 5)) KInt
       "--mood-max-tags" false;
   opt "date_format" (Some "PLAYLIST_DATE_FORMAT") (Some (VStr "short"))
       KChoice "--date-format" false;
   opt "capitalization" (Some "PLAYLIST_CAPITALIZATION")
       (Some (VStr "preserve")) KChoice "--capitalization" false;
   opt "owned_only" (Some "SYNC_OWNED_ONLY") (Some (VBool true)) KBool
       "--owned-only" true;
   opt "include_liked_songs" (Some "SYNC_INCLUDE_LIKED_SONGS")
       (Some (VBool true)) KBool "--include-liked-songs" true].

(** Truth value of a value ([if val]) and [str(val)]. *)
Definition truthy (v : value) : bool :=
  match v with
  | VBool b => b
  | VInt n => negb (n =? 0)%Z
  | VStr s => nonempty s
  end.

Definition str_value (v : value) : string :=
  match v with
  | VBool b => str_of_bool b
  | VInt n => Calendar.str_int n
  | VStr s => s
  end.

Section WithFileSystem.

(** [str(Path(val).resolve())], which asks the file system. *)
Variable resolve : string -> string.

(** The string an option's value is stored as (the three branches of
    [apply_env_overrides_from_args]). *)
Definition env_text (o : SyncOption) (val : value) : string :=
  match kind o with
  | KBool => if truthy val then "true" else "false"
  | KPath => if truthy val then resolve (str_value val) else str_value val
  | _ => str_value val
  end.

(** [apply_env_overrides_from_args(args)]; [args] maps the attributes
    of the namespace that are not [None] to their values. *)
Definition apply_env_overrides_from_args (args : gmap string value)
    (env : environ) : environ :=
  fold_left
    (fun env o =>
       match env_key o, args !! key o with
       | Some k, Some val => <[k := env_text o val]> env
       | _, _ => env
       end)
    SYNC_OPTIONS env.

(** ** Properties *)

Definition set_from (args : gmap string value) (env : environ)
    (o : SyncOption) : environ :=
  match env_key o, args !! key o with
  | Some k, Some val => <[k := env_text o val]> env
  | _, _ => env
  end.

Lemma overrides_keep args opts k :
  forall env,
    (forall o, o ∈ opts -> env_key o = Some k -> args !! key o = None) ->
    fold_left (set_from args) opts env !! k = env !! k.
Proof.
  induction opts as [|o opts IH]; intros env H; [done|].
  cbn [fold_left]. rewrite IH by (intros o' Ho'; apply H; by right).
  unfold set_from. destruct (env_key o) as [k'|] eqn:Ek; [|done].
  destruct (args !! key o) as [val|] eqn:Ea; [|done].
  destruct (decide (k' = k)) as [->|Hne].
  - rewrite (H o) in Ea; [done|left|done].
  - apply lookup_insert_ne. done.
Qed.

Lemma overrides_set args opts k o val :
  forall env,
    NoDup (omap env_key opts) ->
    o ∈ opts -> env_key o = Some k -> args !! key o = Some val ->
    fold_left (set_from args) opts env !! k = Some (env_text o val).
Proof.
  induction opts as [|o' opts IH]; intros env Hnd Hin Hk Ha.
  - by apply elem_of_nil in Hin.
  - cbn [fold_left].
    apply elem_of_cons in Hin as [<-|Hin].
    + rewrite overrides_keep.
      * unfold set_from. rewrite Hk, Ha. apply lookup_insert_eq.
      * intros o2 Ho2 Hk2. exfalso. cbn [omap list_omap] in Hnd.
        rewrite Hk in Hnd. apply NoDup_cons in Hnd as [Hnd _]. apply Hnd.
        apply list_elem_of_omap. by exists o2.
    + apply IH; try done. cbn [omap list_omap] in Hnd.
      destruct (env_key o'); [by apply NoDup_cons in Hnd as [_ ?]|done].
Qed.

Lemma SYNC_OPTIONS_env_keys : NoDup (omap env_key SYNC_OPTIONS).
Proof. refine (bool_decide_unpack _ _). vm_compute. exact I. Qed.

(** X1.  An option given on the command line reads back from the
    environment as given, whatever the environment held before and
    whatever default the reader names: a switch as its truth value, a
    text as the text without the blanks around it. *)
Theorem cli_option_reads_back (args : gmap string value) (env : environ)
    (o : SyncOption) (k : string) (val : value) :
  o ∈ SYNC_OPTIONS -> env_key o = Some k -> args !! key o = Some val ->
  let env' := apply_env_overrides_from_args args env in
  env' !! k = Some (env_text o val)
  /\ (kind o = KBool -> forall dflt, parse_bool_env env' k dflt = truthy val)
  /\ (kind o = KStr \/ kind o = KChoice ->
      forall dflt, parse_str_env env' k dflt = str_strip (str_value val)).
Proof.
  intros Hin Hk Ha. cbn zeta.
  assert (apply_env_overrides_from_args args env !! k
          = Some (env_text o val)) as Hget.
  { apply overrides_set; [apply SYNC_OPTIONS_env_keys|done..]. }
  split; [done|]. split.
  - intros Hb dflt. unfold parse_bool_env. rewrite Hget.
    unfold env_text. rewrite Hb. by destruct (truthy val).
  - intros Hs dflt. unfold parse_str_env. rewrite Hget.
    unfold env_text. by destruct Hs as [-> | ->].
Qed.

(** ** The namespace of a run *)

(** [add_sync_arguments(parser)] followed by [parser.parse_args()]:
    every option with a flag is registered with [default=o.default],
    so the namespace holds, under the option's key, the value given on
    the command line or else the option's default.  [given] maps the
    keys of the options given to their values; the result maps the
    attributes that are not [None]. *)
Definition namespace_entry (given : gmap string value) (o : SyncOption)
    : option value :=
  match cli_flag o with
  | Some _ =>
      match given !! key o with
      | Some v => Some v
      | None => default_value o
      end
  | None => None
  end.

Definition parse_args (given : gmap string value) : gmap string value :=
  fold_left
    (fun ns o =>
       match namespace_entry given o with
       | Some v => <[key o := v]> ns
       | None => ns
       end)
    SYNC_OPTIONS ∅.

Lemma namespace_fold given opts o :
  forall ns : gmap string value,
    NoDup (map key opts) -> o ∈ opts ->
    fold_left
      (fun ns o =>
         match namespace_entry given o with
         | Some v => <[key o := v]> ns
         | None => ns
         end) opts ns !! key o
    = match namespace_entry given o with
      | Some v => Some v
      | None => ns !! key o
      end.
Proof.
  induction opts as [|o' opts IH]; intros ns Hnd Hin.
  - by apply elem_of_nil in Hin.
  - cbn [fold_left]. cbn [map] in Hnd. apply NoDup_cons in Hnd as [Hk Hnd].
    apply elem_of_cons in Hin as [->|Ho].
    2:{ rewrite IH by done.
        destruct (namespace_entry given o); [done|].
        destruct (namespace_entry given o'); [|done].
        apply lookup_insert_ne. intros Heq. apply Hk. rewrite Heq.
        apply list_elem_of_In, in_map, list_elem_of_In. done. }
    + assert (forall ns' : gmap string value,
                fold_left
                  (fun ns o =>
                     match namespace_entry given o with
                     | Some v => <[key o := v]> ns
                     | None => ns
                     end) opts ns' !! key o'
                = ns' !! key o') as Hkeep.
      { clear IH Hnd. induction opts as [|o2 opts IH2]; intros ns';
          [done|].
        cbn [fold_left]. rewrite IH2.
        - destruct (namespace_entry given o2); [|done].
          apply lookup_insert_ne. intros Heq. apply Hk. rewrite <- Heq.
          left.
        - intros Hin. apply Hk. by right. }
      rewrite Hkeep.
      destruct (namespace_entry given o'); [|done].
      apply lookup_insert_eq.
Qed.

Lemma SYNC_OPTIONS_keys : NoDup (map key SYNC_OPTIONS).
Proof. refine (bool_decide_unpack _ _). vm_compute. exact I. Qed.

Lemma SYNC_OPTIONS_flags o : o ∈ SYNC_OPTIONS -> is_Some (cli_flag o).
Proof.
  intros Ho. apply list_elem_of_In in Ho. cbn in Ho.
  repeat (destruct Ho as [<-|Ho]; [by eexists|]). destruct Ho.
Qed.

Lemma parse_args_lookup given o :
  o ∈ SYNC_OPTIONS ->
  parse_args given !! key o
  = match given !! key o with
    | Some v => Some v
    | None => default_value o
    end.
Proof.
  intros Ho. unfold parse_args.
  rewrite namespace_fold by (done || apply SYNC_OPTIONS_keys).
  unfold namespace_entry. destruct (SYNC_OPTIONS_flags o Ho) as [f ->].
  destruct (given !! key o); [done|]. by destruct (default_value o).
Qed.

(** X2.  On a run through [main], an option that is not given on the
    command line still reaches the environment: its variable is
    overwritten with the text of the option's default, whatever the
    environment held, and is left as it was only when the option has
    no default.  A variable that no option names is left as it was. *)
Theorem cli_defaults_reach_the_environment (given : gmap string value)
    (env : environ) :
  let env' := apply_env_overrides_from_args (parse_args given) env in
  (forall o k,
     o ∈ SYNC_OPTIONS -> env_key o = Some k -> given !! key o = None ->
     env' !! k = match default_value o with
                 | Some d => Some (env_text o d)
                 | None => env !! k
                 end)
  /\ (forall k,
        (forall o, o ∈ SYNC_OPTIONS -> env_key o <> Some k) ->
        env' !! k = env !! k).
Proof.
  cbn zeta. split.
  - intros o k Ho Hk Hgiven.
    pose proof (parse_args_lookup given o Ho) as Hns. rewrite Hgiven in Hns.
    destruct (default_value o) as [d|].
    + by apply (overrides_set _ _ _ o); [apply SYNC_OPTIONS_env_keys|..].
    + apply overrides_keep. intros o2 Ho2 Hk2.
      assert (o2 = o) as ->; [|done].
      pose proof SYNC_OPTIONS_env_keys as Hnd.
      clear -Ho Ho2 Hk Hk2 Hnd. revert Hnd Ho Ho2.
      generalize SYNC_OPTIONS. intros opts.
      induction opts as [|o' opts IH]; intros Hnd Ho Ho2;
        [by apply elem_of_nil in Ho|].
      cbn [omap list_omap] in Hnd.
      assert (forall x, x ∈ opts -> env_key x = Some k ->
                env_key o' = Some k -> False) as Hclash.
      { intros x Hx Hxk Hok. rewrite Hok in Hnd.
        apply NoDup_cons in Hnd as [Hnd _]. apply Hnd.
        apply list_elem_of_omap. by exists x. }
      apply elem_of_cons in Ho as [->|Ho], Ho2 as [->|Ho2]; [done| | |].
      * by destruct (Hclash o2).
      * by destruct (Hclash o).
      * apply IH; [|done..].
        destruct (env_key o'); [by apply NoDup_cons in Hnd as [_ ?]|done].
  - intros k Hk. apply overrides_keep. intros o Ho Hok. by destruct (Hk o).
Qed.

End WithFileSystem.

Lemma cli_option_reads_back_witness :
  let o := opt "enable_monthly" (Some "PLAYLIST_ENABLE_MONTHLY")
               (Some (VBool true)) KBool "--enable-monthly" true in
  let args : gmap string value := {["enable_monthly" := VBool false]} in
  let env : environ := {["PLAYLIST_ENABLE_MONTHLY" := "yes"]} in
  let env' := apply_env_overrides_from_args (fun p => p) args env in
  o ∈ SYNC_OPTIONS
  /\ args !! key o = Some (VBool false)
  /\ parse_bool_env env "PLAYLIST_ENABLE_MONTHLY" true = true
  /\ parse_bool_env env' "PLAYLIST_ENABLE_MONTHLY" true = false.
Proof.
  cbn zeta.
  assert (opt "enable_monthly" (Some "PLAYLIST_ENABLE_MONTHLY")
              (Some (VBool true)) KBool "--enable-monthly" true
            ∈ SYNC_OPTIONS) as Hin
    by (apply (list_elem_of_lookup_2 _ 10); reflexivity).
  split; [exact Hin|]. split; [reflexivity|].
  split; [vm_compute; reflexivity|].
  exact (proj1 (proj2 (cli_option_reads_back (fun p => p)
                         {["enable_monthly" := VBool false]}
                         {["PLAYLIST_ENABLE_MONTHLY" := "yes"]} _
                         "PLAYLIST_ENABLE_MONTHLY" (VBool false) Hin
                         eq_refl eq_refl))
           eq_refl true).
Defined.

(** A run with no option given, in an environment that names the
    owner, switches the monthly playlists off, sets a monthly prefix and
    holds a variable of its own: the owner and the switch are set back
    to the defaults of the options, the other two stay. *)
Example run_without_options :
  let env : environ :=
    {[ "PLAYLIST_OWNER_NAME" := "Sam"; "PLAYLIST_ENABLE_MONTHLY" := "false";
       "PLAYLIST_PREFIX_MONTHLY" := "Liked"; "HOME" := "/home/sam" ]} in
  let env' := apply_env_overrides_from_args (fun p => p) (parse_args ∅) env in
  env' !! "PLAYLIST_OWNER_NAME" = Some "AJ"
  /\ env' !! "PLAYLIST_ENABLE_MONTHLY" = Some "true"
  /\ env' !! "PLAYLIST_PREFIX_MONTHLY" = Some "Liked"
  /\ env' !! "HOME" = Some "/home/sam"
  /\ ENABLE_MONTHLY (reload_from_env env) = false
  /\ ENABLE_MONTHLY (reload_from_env env') = true.
Proof. vm_compute. repeat split; reflexivity. Qed.

(** The variables [reload_from_env] reads. *)
Definition config_variables : list string :=
  ["PLAYLIST_OWNER_NAME"; "PLAYLIST_PREFIX"; "PLAYLIST_ENABLE_MONTHLY";
   "PLAYLIST_ENABLE_MOST_PLAYED"; "PLAYLIST_ENABLE_DISCOVERY";
   "PLAYLIST_PREFIX_MONTHLY"; "PLAYLIST_PREFIX_YEARLY";
   "PLAYLIST_PREFIX_MOST_PLAYED"; "PLAYLIST_PREFIX_DISCOVERY";
   "PLAYLIST_TEMPLATE_MONTHLY"; "PLAYLIST_TEMPLATE_YEARLY";
   "PLAYLIST_DATE_FORMAT"; "PLAYLIST_SEPARATOR_MONTH";
   "PLAYLIST_SEPARATOR_PREFIX"; "PLAYLIST_CAPITALIZATION";
   "PLAYLIST_DESCRIPTION_TEMPLATE"].

(** X3.  With none of its variables set, [reload_from_env] gives the
    settings [config.py] ships with. *)
Theorem reload_from_env_defaults (env : environ) :
  (forall k, k ∈ config_variables -> env !! k = None) ->
  reload_from_env env = default_config.
Proof.
  intros H. unfold reload_from_env, parse_str_env, parse_bool_env.
  repeat match goal with
         | |- context [env !! ?k] =>
             rewrite (H k)
               by (refine (bool_decide_unpack _ _); vm_compute; exact I)
         end.
  vm_compute. reflexivity.
Qed.

Lemma reload_from_env_defaults_witness :
  reload_from_env {["HOME" := "/home/aj"]} = default_config.
Proof.
  apply reload_from_env_defaults. intros k Hk.
  apply lookup_singleton_ne. intros <-.
  revert Hk. refine (bool_decide_unpack _ _). vm_compute. exact I.
Defined.

End Environment.

(* ===================================================================== *)
(** * The steps of a run ([sync_options.py], [sync.py]) *)
(* ===================================================================== *)

Module SyncOptions.
Import Py DescriptionText Environment.

(** [SYNC_STEP_IDS] *)
Definition SYNC_STEP_IDS : list string :=
  ["sync"; "rename"; "delete_monthly_and_genre"; "consolidate";
   "update_current_year"; "descriptions"; "health_check";
   "insights_report"]%string.

(** [[s.strip().lower() for s in str(steps_str).split(",") if s.strip()]],
    on ASCII text. *)
Definition requested (steps_str : string) : list string :=
  map (fun s => str_lower (str_strip s))
      (List.filter (fun s => nonempty (str_strip s))
                   (str_split "," steps_str)).

(** [not steps_str or not str(steps_str).strip()] *)
Definition is_blank (steps_str : option string) : bool :=
  match steps_str with
  | None => true
  | Some s => negb (nonempty s) || negb (nonempty (str_strip s))
  end.

(** [parse_steps(steps_str)]; the result [None] means "run all". *)
Definition parse_steps (steps_str : option string) : option (list string) :=
  match steps_str with
  | None => None
  | Some s =>
      if is_blank steps_str then None
      else
        let valid :=
          List.filter (fun s' => bool_decide (s' ∈ requested s))
                      SYNC_STEP_IDS in
        match valid, requested s with
        | _ :: _, _ => Some valid
        | [], _ :: _ => Some []
        | [], [] => None
        end
  end.

(** [requested_unknown_steps(steps_str)] *)
Definition requested_unknown_steps (steps_str : option string)
    : list string :=
  match steps_str with
  | None => []
  | Some s =>
      if is_blank steps_str then []
      else List.filter (fun s' => negb (bool_decide (s' ∈ SYNC_STEP_IDS)))
                       (requested s)
  end.

(** The steps [main] runs ([sync.py], lines 262-279): those of
    [--steps] when given, else what [--skip-sync] and [--sync-only]
    leave, with the two reports when switched on. *)
Definition steps_to_run (env : environ) (steps_arg : option string)
    (skip_sync sync_only : bool) : list string :=
  match parse_steps steps_arg with
  | Some steps => steps
  | None =>
      (if skip_sync then [] else ["sync"%string])
      ++ (if sync_only then []
          else ["rename"; "delete_monthly_and_genre"; "consolidate";
                "update_current_year"; "descriptions"]%string
               ++ (if parse_bool_env env "ENABLE_HEALTH_CHECK" false
                   then ["health_check"%string] else [])
               ++ (if parse_bool_env env "ENABLE_INSIGHTS_REPORT" false
                   then ["insights_report"%string] else []))
  end.

(** ** Properties *)

Lemma filter_sublist {A} (f : A -> bool) (l : list A) :
  sublist (List.filter f l) l.
Proof.
  induction l as [|x l IH]; cbn; [constructor|].
  destruct (f x); by constructor.
Qed.

Lemma SYNC_STEP_IDS_NoDup : NoDup SYNC_STEP_IDS.
Proof. refine (bool_decide_unpack _ _). vm_compute. exact I. Qed.

Lemma parse_steps_spec (steps_str : string) (steps : list string) :
  parse_steps (Some steps_str) = Some steps ->
  steps = List.filter (fun s' => bool_decide (s' ∈ requested steps_str))
                      SYNC_STEP_IDS.
Proof.
  unfold parse_steps. destruct (is_blank (Some steps_str)); [done|].
  destruct (List.filter _ SYNC_STEP_IDS) as [|v vs] eqn:E; [|congruence].
  destruct (requested steps_str); congruence.
Qed.

Lemma valid_steps_elem steps_str s :
  s ∈ List.filter (fun s' => bool_decide (s' ∈ requested steps_str))
                  SYNC_STEP_IDS
  <-> s ∈ SYNC_STEP_IDS /\ s ∈ requested steps_str.
Proof.
  rewrite list_elem_of_In, filter_In, bool_decide_eq_true.
  by rewrite <- list_elem_of_In.
Qed.

(** X4.  Whatever the order, case and repetitions of the request, the
    steps [parse_steps] answers with are steps of [SYNC_STEP_IDS] in
    that order, each once, and each was asked for. *)
Theorem parse_steps_canonical (steps_str : string) (steps : list string) :
  parse_steps (Some steps_str) = Some steps ->
  sublist steps SYNC_STEP_IDS
  /\ NoDup steps
  /\ forall s, s ∈ steps <-> s ∈ SYNC_STEP_IDS /\ s ∈ requested steps_str.
Proof.
  intros H. apply parse_steps_spec in H as ->.
  split; [apply filter_sublist|]. split; [|apply valid_steps_elem].
  eapply sublist_NoDup; [apply SYNC_STEP_IDS_NoDup|apply filter_sublist].
Qed.

Lemma parse_steps_canonical_witness :
  parse_steps (Some " Descriptions , consolidate,consolidate,bogus"%string)
  = Some ["consolidate"; "descriptions"]%string
  /\ sublist ["consolidate"; "descriptions"]%string SYNC_STEP_IDS
  /\ NoDup ["consolidate"; "descriptions"]%string
  /\ forall s,
       s ∈ ["consolidate"; "descriptions"]%string
       <-> s ∈ SYNC_STEP_IDS
           /\ s ∈ requested " Descriptions , consolidate,consolidate,bogus".
Proof.
  assert (parse_steps
            (Some " Descriptions , consolidate,consolidate,bogus"%string)
          = Some ["consolidate"; "descriptions"]%string) as H
    by (vm_compute; reflexivity).
  split; [exact H|].
  exact (parse_steps_canonical _ _ H).
Defined.

(** X5.  A step that was asked for is either run or reported as
    unknown, never both. *)
Theorem requested_step_run_or_reported (steps_str s : string) :
  is_blank (Some steps_str) = false ->
  s ∈ requested steps_str ->
  let run := default [] (parse_steps (Some steps_str)) in
  let unknown := requested_unknown_steps (Some steps_str) in
  (s ∈ run /\ s ∉ unknown) \/ (s ∈ unknown /\ s ∉ run).
Proof.
  intros Hb Hs. cbn zeta.
  assert (default [] (parse_steps (Some steps_str))
          = List.filter (fun s' => bool_decide (s' ∈ requested steps_str))
                        SYNC_STEP_IDS) as ->.
  { destruct (parse_steps (Some steps_str)) as [l|] eqn:E.
    - by apply parse_steps_spec in E.
    - unfold parse_steps in E. rewrite Hb in E.
      destruct (List.filter _ SYNC_STEP_IDS) as [|v vs]; [done|].
      done. }
  unfold requested_unknown_steps. rewrite Hb.
  rewrite valid_steps_elem.
  assert (s ∈ List.filter
                (fun s' => negb (bool_decide (s' ∈ SYNC_STEP_IDS)))
                (requested steps_str)
          <-> s ∈ requested steps_str /\ s ∉ SYNC_STEP_IDS) as ->.
  { rewrite list_elem_of_In, filter_In, negb_true_iff, bool_decide_eq_false.
    by rewrite <- list_elem_of_In. }
  destruct (decide (s ∈ SYNC_STEP_IDS)); [left|right]; tauto.
Qed.

Lemma requested_step_run_or_reported_witness :
  let steps_str := "descriptions,Tidy"%string in
  is_blank (Some steps_str) = false
  /\ "tidy"%string ∈ requested steps_str
  /\ (("tidy"%string ∈ default [] (parse_steps (Some steps_str))
       /\ "tidy"%string ∉ requested_unknown_steps (Some steps_str))
      \/ ("tidy"%string ∈ requested_unknown_steps (Some steps_str)
          /\ "tidy"%string ∉ default [] (parse_steps (Some steps_str)))).
Proof.
  cbn zeta.
  assert (is_blank (Some "descriptions,Tidy"%string) = false) as H1
    by (vm_compute; reflexivity).
  assert ("tidy"%string ∈ requested "descriptions,Tidy") as H2
    by (refine (bool_decide_unpack _ _); vm_compute; exact I).
  split; [exact H1|]. split; [exact H2|].
  exact (requested_step_run_or_reported _ _ H1 H2).
Defined.

(** X6.  The steps of a run are steps of [SYNC_STEP_IDS] in that order,
    each at most once: whatever the flags, the cleanup of legacy
    playlists comes before the consolidation, and the consolidation
    before the update of the current year and the descriptions. *)
Theorem steps_to_run_ordered (env : environ) (steps_arg : option string)
    (skip_sync sync_only : bool) :
  sublist (steps_to_run env steps_arg skip_sync sync_only) SYNC_STEP_IDS.
Proof.
  unfold steps_to_run.
  destruct (parse_steps steps_arg) as [steps|] eqn:E.
  - destruct steps_arg as [s|]; [|done].
    apply parse_steps_spec in E as ->. apply filter_sublist.
  - destruct skip_sync, sync_only,
      (parse_bool_env env "ENABLE_HEALTH_CHECK" false),
      (parse_bool_env env "ENABLE_INSIGHTS_REPORT" false);
      cbn [app]; unfold SYNC_STEP_IDS; repeat constructor.
Qed.

End SyncOptions.

(* ===================================================================== *)
(** * Names made by one script and read by another *)
(* ===================================================================== *)

Module Naming.
Import Py Config Calendar Spotify DescriptionText Update Consolidation.

(** The months of the years 2000 to 2099, the years a two-digit year
    stands for. *)
Definition century_months : list (Z * Z) :=
  y ← seqZ 2000 100; m ← seqZ 1 12; [(y, m)].

Lemma century_months_elem y m :
  (2000 <= y <= 2099)%Z -> (1 <= m <= 12)%Z -> (y, m) ∈ century_months.
Proof.
  intros Hy Hm. unfold century_months.
  apply list_elem_of_bind. exists y. split; [|apply elem_of_seqZ; lia].
  apply list_elem_of_bind. exists m. split; [left|apply elem_of_seqZ; lia].
Qed.

Lemma forallb_elem {A} (f : A -> bool) (l : list A) (x : A) :
  forallb f l = true -> x ∈ l -> f x = true.
Proof.
  intros H Hx. rewrite forallb_forall in H. apply H.
  by apply list_elem_of_In.
Qed.

(** [strftime("%Y-%m")] of a month given by its numbers. *)
Definition month_text (ym : Z * Z) : string :=
  strftime_Ym {| dt_year := ym.1; dt_month := ym.2; dt_day := 1 |}.

Lemma strftime_Ym_month_text d :
  strftime_Ym d = month_text (dt_year d, dt_month d).
Proof. reflexivity. Qed.

Lemma monthly_name_parses_all :
  forallb (fun ym : Z * Z =>
             bool_decide
               (parse_monthly default_config
                  (monthly_name default_config (month_text ym))
                = Some (monthly, ym.1, pad2 ym.2)))
          century_months = true.
Proof. vm_compute. reflexivity. Qed.

(** The names the legacy cleanup protects in the last year it can
    protect with a two-digit year. *)
Definition century_yearly_names : list string :=
  yearly_names default_config 2098.

Lemma yearly_names_mono cfg (cy cy' : Z) x :
  (cy <= cy')%Z -> x ∈ yearly_names cfg cy -> x ∈ yearly_names cfg cy'.
Proof.
  intros Hle. unfold yearly_names.
  rewrite !list_elem_of_In, !in_flat_map.
  intros (y & Hy & Hx). exists y. split; [|done].
  apply list_elem_of_In. apply list_elem_of_In, elem_of_seqZ in Hy.
  apply elem_of_seqZ. lia.
Qed.

Lemma monthly_name_legacy_all :
  forallb (fun ym : Z * Z =>
             let name := monthly_name default_config (month_text ym) in
             startswith name (OWNER_NAME default_config)
             && negb (bool_decide (name ∈ century_yearly_names))
             && _is_automated_monthly_playlist name
                  (OWNER_NAME default_config)
                  [PREFIX_MONTHLY default_config;
                   PREFIX_MOST_PLAYED default_config;
                   PREFIX_DISCOVERY default_config]
                  (MONTH_NAMES.*2))
          century_months = true.
Proof. vm_compute. reflexivity. Qed.

Lemma monthly_name_line_all :
  forallb (fun ym : Z * Z =>
             bool_decide
               (get_base_description_line_for_playlist default_config
                  (monthly_name default_config (month_text ym))
                = Some ("Liked songs from "
                        +:+ default "" (dict_get (pad2 ym.2) MONTH_NAMES)
                        +:+ " " +:+ pad2 ym.1)))
          century_months = true.
Proof. vm_compute. reflexivity. Qed.

Lemma yearly_name_line_all :
  forallb (fun y : Z =>
             bool_decide
               (get_base_description_line_for_playlist default_config
                  (yearly_playlist_name default_config y monthly)
                = Some ("Liked songs from " +:+ str_int y))
             && bool_decide
                  (get_base_description_line_for_playlist default_config
                     (yearly_playlist_name default_config y most_played)
                   = None)
             && bool_decide
                  (get_base_description_line_for_playlist default_config
                     (yearly_playlist_name default_config y discovery)
                   = None))
          (seqZ 2000 100) = true.
Proof. vm_compute. reflexivity. Qed.

Lemma str_int_four_digits_all :
  forallb (fun y : Z => Nat.eqb (String.length (str_int y)) 4)
          (seqZ 1000 9000) = true.
Proof. vm_compute. reflexivity. Qed.

Lemma str_int_four_digits y :
  (1000 <= y <= 9999)%Z -> String.length (str_int y) = 4.
Proof.
  intros Hy. apply Nat.eqb_eq.
  apply (forallb_elem _ _ y str_int_four_digits_all).
  apply elem_of_seqZ. lia.
Qed.

Lemma yearly_playlist_name_protected cfg (cy y : Z) (t : playlist_type) :
  (2015 <= y <= cy + 1)%Z -> (y <= 9999)%Z ->
  yearly_playlist_name cfg y t ∈ yearly_names cfg cy.
Proof.
  intros Hy Hmax. unfold yearly_names.
  apply list_elem_of_In, in_flat_map. exists y. split.
  { apply list_elem_of_In, elem_of_seqZ. lia. }
  assert (Hshort : (if (2000 <=? y)%Z then str_drop 2 (str_int y)
                    else str_int y) = short_year (str_int y)).
  { unfold short_year. rewrite str_int_four_digits by lia.
    destruct (Z.leb_spec 2000 y); [done|lia]. }
  cbv zeta. rewrite Hshort.
  destruct t; cbn [yearly_playlist_name In]; auto.
Qed.

Definition archive_world : world :=
  world_of [("p01"%string,
             playlist_of "AJFinds24" ["spotify:track:a"%string]);
            ("p02"%string,
             playlist_of "AJFindsNov24" ["spotify:track:b"%string])].

(** X7.  With the default configuration, the name the monthly
    update gives the playlist of a month of the years 2000 to 2099 is
    read back by the consolidation as a playlist of the liked-songs type,
    of that year and that month number. *)
Theorem monthly_name_round_trip (d : datetime) :
  (2000 <= dt_year d <= 2099)%Z -> (1 <= dt_month d <= 12)%Z ->
  parse_monthly default_config (monthly_name default_config (strftime_Ym d))
  = Some (monthly, dt_year d, pad2 (dt_month d)).
Proof.
  intros Hy Hm. rewrite strftime_Ym_month_text.
  pose proof (forallb_elem _ _ _ monthly_name_parses_all
                (century_months_elem _ _ Hy Hm)) as H.
  by apply bool_decide_eq_true in H.
Qed.

Lemma monthly_name_round_trip_witness :
  parse_monthly default_config
    (monthly_name default_config (strftime_Ym nov_2024))
  = Some (monthly, 2024%Z, "11"%string).
Proof. apply (monthly_name_round_trip nov_2024); cbn; lia. Defined.

(** X8.  With the default configuration and a run in a year
    up to 2098, the cleanup of legacy playlists selects for deletion
    every listed playlist that carries the name the monthly update gives
    a month of the years 2000 to 2099. *)
Theorem monthly_names_are_legacy (now d : datetime) existing (pid : string) :
  (dt_year now <= 2098)%Z ->
  (2000 <= dt_year d <= 2099)%Z -> (1 <= dt_month d <= 12)%Z ->
  (monthly_name default_config (strftime_Ym d), pid) ∈ existing ->
  (monthly_name default_config (strftime_Ym d), pid)
    ∈ legacy_to_delete default_config (dt_year now) existing.
Proof.
  intros Hnow Hy Hm Hin. rewrite strftime_Ym_month_text in *.
  pose proof (forallb_elem _ _ _ monthly_name_legacy_all
                (century_months_elem _ _ Hy Hm)) as H.
  cbv zeta in H.
  apply andb_prop in H as [H Hauto]. apply andb_prop in H as [Hown Hny].
  unfold legacy_to_delete.
  apply list_elem_of_In, filter_In. split; [by apply list_elem_of_In|].
  cbn [fst]. rewrite Hown, Hauto. cbn [andb orb].
  rewrite andb_true_r. apply negb_true_iff, bool_decide_eq_false.
  apply negb_true_iff, bool_decide_eq_false in Hny.
  intros Hyn. apply Hny. by apply (yearly_names_mono _ (dt_year now)).
Qed.

Lemma monthly_names_are_legacy_witness :
  (monthly_name default_config (strftime_Ym nov_2024), "p02"%string)
    ∈ legacy_to_delete default_config 2024
        (current_listing archive_world).
Proof.
  apply (monthly_names_are_legacy nov_2024 nov_2024); [cbn; lia..|].
  refine (bool_decide_unpack _ _). vm_compute. exact I.
Defined.

(** X9.  Whatever the configuration, the cleanup of legacy
    playlists never asks to delete a playlist that is listed under the
    name the consolidation gives the yearly playlist of any type for a
    year from 2015 to the year after the run (and written with four
    digits). *)
Theorem yearly_archives_survive_legacy_cleanup cfg sp now w (y : Z)
    (t : playlist_type) (q : string) earlier r :
  (2015 <= y <= dt_year now + 1)%Z -> (y <= 9999)%Z ->
  (yearly_playlist_name cfg y t, q) ∈ current_listing w ->
  ~ deletes_during w
      (delete_automated_monthly_and_genre_playlists cfg sp now w).2
      earlier q r.
Proof.
  intros Hy Hmax Hin Hd.
  destruct (only_calls_deletes _ _ _ _ _ _
              (legacy_cleanup_calls cfg sp now w) Hd q eq_refl)
    as (name & Hname).
  unfold legacy_to_delete in Hname.
  apply list_elem_of_In, filter_In in Hname as [Hl Hf].
  apply list_elem_of_In in Hl. cbn [fst] in Hf.
  apply andb_prop in Hf as [Hf _]. apply andb_prop in Hf as [_ Hny].
  apply negb_true_iff, bool_decide_eq_false in Hny.
  pose proof (NoDup_snd_inj _ _ _ (current_listing_ids_NoDup w) Hl Hin
                eq_refl) as Heq.
  injection Heq as ->. apply Hny.
  by apply yearly_playlist_name_protected.
Qed.

Lemma yearly_archives_survive_legacy_cleanup_witness :
  ~ deletes_during archive_world
      (delete_automated_monthly_and_genre_playlists default_config
         demo_client nov_2024 archive_world).2
      [(ListPlaylists, remote archive_world);
       (GetPlaylistItems "p02"%string, remote archive_world)]
      "p01"%string (remote archive_world).
Proof.
  apply (yearly_archives_survive_legacy_cleanup default_config demo_client
           nov_2024 archive_world 2024 monthly); [cbn; lia..|].
  refine (bool_decide_unpack _ _). vm_compute. exact I.
Defined.

(** X10.  With the default configuration, the base description line
    read off the name of a monthly playlist made by the monthly update
    (years 2000 to 2099) is "Liked songs from", the month's abbreviation
    and the two-digit year. *)
Theorem monthly_name_base_line (d : datetime) :
  (2000 <= dt_year d <= 2099)%Z -> (1 <= dt_month d <= 12)%Z ->
  get_base_description_line_for_playlist default_config
    (monthly_name default_config (strftime_Ym d))
  = Some ("Liked songs from "
          +:+ default "" (dict_get (pad2 (dt_month d)) MONTH_NAMES)
          +:+ " " +:+ pad2 (dt_year d)).
Proof.
  intros Hy Hm. rewrite strftime_Ym_month_text.
  pose proof (forallb_elem _ _ _ monthly_name_line_all
                (century_months_elem _ _ Hy Hm)) as H.
  by apply bool_decide_eq_true in H.
Qed.

Lemma monthly_name_base_line_witness :
  get_base_description_line_for_playlist default_config
    (monthly_name default_config (strftime_Ym nov_2024))
  = Some "Liked songs from Nov 24"%string.
Proof. apply (monthly_name_base_line nov_2024); cbn; lia. Defined.

(** X11.  With the default configuration and a year from 2000 to
    2099, the yearly playlist of liked songs gets the base description
    line "Liked songs from" and the year in four digits, while the
    yearly most-played and discovery playlists get none. *)
Theorem yearly_name_base_line (y : Z) :
  (2000 <= y <= 2099)%Z ->
  get_base_description_line_for_playlist default_config
    (yearly_playlist_name default_config y monthly)
  = Some ("Liked songs from " +:+ str_int y)
  /\ get_base_description_line_for_playlist default_config
       (yearly_playlist_name default_config y most_played) = None
  /\ get_base_description_line_for_playlist default_config
       (yearly_playlist_name default_config y discovery) = None.
Proof.
  intros Hy.
  assert (y ∈ seqZ 2000 100) as Hin by (apply elem_of_seqZ; lia).
  pose proof (forallb_elem _ _ _ yearly_name_line_all Hin) as H.
  cbv beta in H.
  apply andb_prop in H as [H H3]. apply andb_prop in H as [H1 H2].
  apply bool_decide_eq_true in H1, H2, H3.
  split; [exact H1|split; [exact H2|exact H3]].
Qed.

Lemma yearly_name_base_line_witness :
  get_base_description_line_for_playlist default_config
    (yearly_playlist_name default_config 2024 monthly)
  = Some ("Liked songs from " +:+ str_int 2024)
  /\ get_base_description_line_for_playlist default_config
       (yearly_playlist_name default_config 2024 most_played) = None
  /\ get_base_description_line_for_playlist default_config
       (yearly_playlist_name default_config 2024 discovery) = None.
Proof. apply (yearly_name_base_line 2024). lia. Defined.

End Naming.

(* ===================================================================== *)
(** * What a description update touches, and what the cache remembers *)
(* ===================================================================== *)

Module DescriptionFrame.
Import Py Config Spotify DescriptionText Descriptions.
Local Open Scope string_scope.

(** The text derived for a playlist is within the service's limit (the
    hard truncation of lines 90-94). *)
Lemma derive_description_len rt cfg current name track_uris d :
  derive_description rt cfg current name track_uris = Some d ->
  (PyStr.len d <= MAX_LEN)%Z.
Proof.
  unfold derive_description.
  destruct (Sanitize.sanitize_description_for_api _ _ _ _) as [s|];
    [|discriminate].
  intros H. cbn [mbind option_bind] in H. injection H as <-.
  destruct (Z.ltb_spec MAX_LEN (PyStr.len s)); [|done].
  by apply PyStr.slice_to_len.
Qed.

(** The calls the update of playlist [pid] may make: reads of [pid], and
    changes of its description to a text within the limit. *)
Definition description_call_at (pid : string)
    (c : api_request * gmap string playlist) : Prop :=
  match c.1 with
  | GetPlaylist q | GetPlaylistItems q => q = pid
  | ChangeDetails q d => q = pid /\ (PyStr.len d <= MAX_LEN)%Z
  | _ => False
  end.

(** Every playlist but [pid] is as it was, and so are the backups and
    the cached listing. *)
Definition touches_only (pid : string) : relation world :=
  fun w w' =>
    (forall q, q <> pid -> remote w' !! q = remote w !! q)
    /\ backups w' = backups w
    /\ _playlist_cache w' = _playlist_cache w.

Global Instance touches_only_refl pid : Reflexive (touches_only pid).
Proof. by intros w. Qed.

Global Instance touches_only_trans pid : Transitive (touches_only pid).
Proof.
  intros w1 w2 w3 (H1 & B1 & C1) (H2 & B2 & C2).
  split; [|split; congruence]. intros q Hq. by rewrite H2, H1.
Qed.

Lemma touches_only_same pid w w' :
  remote w' = remote w -> backups w' = backups w ->
  _playlist_cache w' = _playlist_cache w -> touches_only pid w w'.
Proof. intros Hr Hb Hc. split; [|done]. intros q _. by rewrite Hr. Qed.

Lemma touches_only_insert pid pl w :
  touches_only pid w (set_remote <[pid := pl]> w).
Proof.
  split; [|done]. intros q Hq. cbn. by rewrite lookup_insert_ne.
Qed.

Section At.
Context (R : relation world) `{!Reflexive R, !Transitive R}.
Context (rt : runtime) (cfg : config) (sp : client) (pid : string).

Hypothesis R_read : forall w, R w (log_call (GetPlaylist pid) w).
Hypothesis R_items : forall w, R w (log_call (GetPlaylistItems pid) w).
Hypothesis R_tracks_cache : forall f w, R w (set_tracks_cache f w).
Hypothesis R_file : forall c w, R w (set_cache_file c w).
Hypothesis R_details :
  forall d w, (PyStr.len d <= MAX_LEN)%Z ->
    R w (log_call (ChangeDetails pid d) w).
Hypothesis R_describe :
  forall d w pl, (PyStr.len d <= MAX_LEN)%Z -> remote w !! pid = Some pl ->
    R w (set_remote
           <[pid := {| pl_name := pl_name pl; pl_description := d;
                       pl_snapshot_id := sp_new_snapshot sp pl;
                       pl_tracks := pl_tracks pl |}]> w).

Lemma steps_remember_snapshot_at snap :
  steps R (remember_snapshot rt pid snap).
Proof.
  unfold remember_snapshot, _load_snapshot_cache, json_setitem,
    _save_snapshot_cache.
  steps_go. apply R_file.
Qed.

Lemma steps_change_details_at d :
  (PyStr.len d <= MAX_LEN)%Z ->
  steps R (sp_user_playlist_change_details sp pid d).
Proof.
  intros Hd. apply steps_change_details; try tc_solve; intros.
  - by apply R_details.
  - by apply R_describe.
Qed.

Lemma steps_push_description_at user_id snap d :
  (PyStr.len d <= MAX_LEN)%Z ->
  steps R (push_description rt sp user_id pid snap d).
Proof.
  intros Hd. unfold push_description. steps_go;
    try (by apply steps_change_details_at);
    try apply steps_remember_snapshot_at.
  apply steps_change_details_at. by apply PyStr.slice_to_len.
Qed.

Lemma steps_refresh_description_at user_id pl track_uris :
  steps R (refresh_description rt cfg sp user_id pid pl track_uris).
Proof.
  unfold refresh_description.
  destruct track_uris as [|u us]; [apply steps_ret; tc_solve|].
  destruct (derive_description rt cfg (pl_description pl) (pl_name pl)
              (u :: us)) as [d|] eqn:Hd; [|apply steps_raise; tc_solve].
  apply derive_description_len in Hd.
  destruct (py_strip d); [apply steps_ret; tc_solve|].
  destruct (bool_decide _).
  - by apply steps_push_description_at.
  - steps_go. apply steps_remember_snapshot_at.
Qed.

Lemma steps_update_description_at user_id track_uris :
  steps R (_update_playlist_description_with_genres rt cfg sp user_id pid
             track_uris).
Proof.
  unfold _update_playlist_description_with_genres, marker_unchanged,
    resolve_track_uris, _load_snapshot_cache, json_get.
  steps_go;
    try (apply steps_sp_playlist; try tc_solve; auto);
    try (apply steps_get_playlist_tracks; try tc_solve; auto);
    apply steps_refresh_description_at.
Qed.

End At.

Lemma update_description_calls_at rt cfg sp user_id pid track_uris :
  steps (only_calls (description_call_at pid))
    (_update_playlist_description_with_genres rt cfg sp user_id pid
       track_uris).
Proof.
  apply steps_update_description_at; try tc_solve; intros;
    try (by apply only_calls_log); by apply only_calls_same.
Qed.

Lemma update_description_touches_only rt cfg sp user_id pid track_uris :
  steps (touches_only pid)
    (_update_playlist_description_with_genres rt cfg sp user_id pid
       track_uris).
Proof.
  apply steps_update_description_at; try tc_solve; intros;
    try (by apply touches_only_same); apply touches_only_insert.
Qed.

(** X12.  A description update of a playlist never raises.  It
    leaves the name and the tracks of every playlist as they were,
    creates and deletes nothing, leaves every other playlist, the
    backups and the cached listing untouched, and its only remote calls
    are reads of that playlist and changes of its description to a text
    of at most 300 code points. *)
Theorem description_update_frame (rt : runtime) (cfg : config) (sp : client)
    (user_id pid : string) (track_uris : option (list string)) (w : world) :
  let run := _update_playlist_description_with_genres rt cfg sp user_id pid
               track_uris w in
  (exists changed, run.1 = Ok changed)
  /\ same_content w run.2
  /\ touches_only pid w run.2
  /\ only_calls (description_call_at pid) w run.2.
Proof.
  cbn zeta. split; [apply update_description_total|].
  split; [apply update_description_content|].
  split; [apply update_description_touches_only|].
  apply update_description_calls_at.
Qed.

(** ** The cache of change markers *)

Lemma saved_file rt cache old :
  fold_left file_after (save_ops rt cache) old
  = Some (String.concat "" (json_iterencode rt cache)).
Proof.
  unfold save_ops. cbn [fold_left file_after].
  by rewrite fold_left_app, write_chunks_after.
Qed.

(** X13.  When the cache file reads as a dictionary and the
    interpreter's JSON codec reads back the dictionary it is asked to
    write, remembering a non-empty marker for a playlist stores it: the
    file then holds that marker for the playlist and the markers it held
    for the others, no playlist and no call log changes, and the
    incremental test for that playlist and marker answers True. *)
Theorem remember_snapshot_read_back (rt : runtime) (pid snap : string)
    (w : world) (d : list (string * json)) :
  snap <> "" ->
  (_load_snapshot_cache rt w).1 = Ok (JObject d) ->
  json_load rt
    (String.concat ""
       (json_iterencode rt (JObject (dict_set pid (JString snap) d))))
  = Some (JObject (dict_set pid (JString snap) d)) ->
  let run := remember_snapshot rt pid snap w in
  run.1 = Ok tt
  /\ remote run.2 = remote w
  /\ calls run.2 = calls w
  /\ cached_marker rt run.2 pid = Some (JString snap)
  /\ (forall q, q <> pid -> cached_marker rt run.2 q = cached_marker rt w q)
  /\ marker_unchanged rt pid snap run.2 = (Ok true, run.2).
Proof.
  intros Hne Hload Hcodec. cbn zeta.
  assert (nonempty snap = true) as Hsnap by (by destruct snap).
  assert (remember_snapshot rt pid snap w
          = (Ok tt,
             set_cache_file
               (Some (String.concat ""
                        (json_iterencode rt
                           (JObject (dict_set pid (JString snap) d))))) w))
    as ->.
  { unfold remember_snapshot. rewrite Hsnap, bind_run.
    rewrite _load_snapshot_cache_run in *. cbn [fst] in Hload.
    injection Hload as ->. cbn [json_setitem]. mrun.
    unfold _save_snapshot_cache, modify. by rewrite saved_file. }
  cbn [fst snd].
  assert (forall q,
            cached_marker rt
              (set_cache_file
                 (Some (String.concat ""
                          (json_iterencode rt
                             (JObject (dict_set pid (JString snap) d))))) w) q
            = dict_get q (dict_set pid (JString snap) d)) as Hmarker.
  { intros q. unfold cached_marker. rewrite _load_snapshot_cache_run.
    cbn [fst description_cache_file set_cache_file]. by rewrite Hcodec. }
  split; [done|]. split; [done|]. split; [done|].
  split; [by rewrite Hmarker, dict_get_set_eq|]. split.
  - intros q Hq. rewrite Hmarker, dict_get_set_ne by done.
    unfold cached_marker. by rewrite Hload.
  - rewrite marker_unchanged_run.
    cbn [description_cache_file set_cache_file]. rewrite Hcodec.
    cbn [default id]. rewrite Hsnap, dict_get_set_eq.
    cbn [json_eq_str andb].
    by rewrite String.eqb_refl.
Qed.

Lemma remember_snapshot_read_back_witness :
  let run := remember_snapshot runtime_excerpt "p2" "snapB" world_unchanged in
  run.1 = Ok tt
  /\ remote run.2 = remote world_unchanged
  /\ calls run.2 = calls world_unchanged
  /\ cached_marker runtime_excerpt run.2 "p2" = Some (JString "snapB")
  /\ (forall q, q <> "p2" ->
        cached_marker runtime_excerpt run.2 q
        = cached_marker runtime_excerpt world_unchanged q)
  /\ marker_unchanged runtime_excerpt "p2" "snapB" run.2 = (Ok true, run.2).
Proof.
  apply (remember_snapshot_read_back runtime_excerpt "p2" "snapB"
           world_unchanged [("p1", JString "snapA")]).
  - discriminate.
  - vm_compute. reflexivity.
  - vm_compute. reflexivity.
Defined.

(** A runtime whose JSON reader finds a list in every file. *)
Definition runtime_list_cache : runtime := {|
  category := Sanitize.category_excerpt;
  normalize_NFC := Sanitize.nfc_excerpt;
  json_load := fun _ => Some (JArray []);
  json_iterencode := json_iterencode_flat;
  str_format := fun _ _ => None;
  to_period_M := to_period_M_iso;
|}.

(** X14.  When the cache file parses as JSON that is not a
    dictionary, the update of a playlist with a non-empty change marker
    returns False after the read of the playlist, and changes nothing,
    whatever the description and the tracks are. *)
Theorem description_update_needs_dictionary_cache (rt : runtime)
    (cfg : config) (sp : client) (user_id pid : string)
    (track_uris : option (list string)) (w : world) (pl : playlist)
    (content : string) (j : json) :
  remote w !! pid = Some pl ->
  pl_snapshot_id pl <> "" ->
  description_cache_file w = Some content ->
  json_load rt content = Some j ->
  (forall d, j <> JObject d) ->
  _update_playlist_description_with_genres rt cfg sp user_id pid track_uris w
  = (Ok false, log_call (GetPlaylist pid) w).
Proof.
  intros Hpl Hne Hfile Hload Hj.
  unfold _update_playlist_description_with_genres, try_except.
  rewrite bind_run, sp_playlist_run, Hpl.
  rewrite bind_run, (marker_unchanged_run rt pid (pl_snapshot_id pl)).
  cbn [description_cache_file log_call]. rewrite Hfile, Hload.
  cbn [default id].
  assert (nonempty (pl_snapshot_id pl) = true) as ->
    by (by destruct (pl_snapshot_id pl)).
  destruct j; try done. by destruct (Hj d).
Qed.

Lemma description_update_needs_dictionary_cache_witness :
  let w := set_cache_file (Some "[]") (world_of [("p1", finds24)]) in
  _update_playlist_description_with_genres runtime_list_cache default_config
    demo_client "me" "p1" None w
  = (Ok false, log_call (GetPlaylist "p1") w).
Proof.
  intros w.
  apply (description_update_needs_dictionary_cache runtime_list_cache
           default_config demo_client "me" "p1" None w finds24 "[]"
           (JArray [])).
  - vm_compute. reflexivity.
  - discriminate.
  - reflexivity.
  - reflexivity.
  - discriminate.
Defined.

(** ** The update that goes through *)

Lemma change_details_run sp pid d w pl :
  remote w !! pid = Some pl ->
  sp_user_playlist_change_details sp pid d w
  = (Ok tt,
     set_remote
       <[pid := {| pl_name := pl_name pl; pl_description := d;
                   pl_snapshot_id := sp_new_snapshot sp pl;
                   pl_tracks := pl_tracks pl |}]>
       (log_call (ChangeDetails pid d) w)).
Proof.
  intros H. unfold sp_user_playlist_change_details. mrun.
  cbn [remote log_call]. rewrite H. by mrun.
Qed.

(** Remembering a marker never raises once the incremental test has
    gone through, and touches only the cache file. *)
Lemma remember_snapshot_after_test rt pid snap w w0 :
  description_cache_file w = description_cache_file w0 ->
  (marker_unchanged rt pid snap w0).1 = Ok false ->
  exists c, remember_snapshot rt pid snap w = (Ok tt, set_cache_file c w).
Proof.
  intros Hfile Hm. rewrite marker_unchanged_run in Hm.
  unfold remember_snapshot. destruct (nonempty snap) eqn:Hs.
  - rewrite bind_run, _load_snapshot_cache_run, Hfile.
    destruct (match description_cache_file w0 with
              | Some content => default (JObject []) (json_load rt content)
              | None => JObject []
              end) as [| | | | |d0]; try done.
    cbn [json_setitem]. mrun. unfold _save_snapshot_cache, modify.
    by eexists.
  - exists (description_cache_file w). by destruct w.
Qed.

(** X15.  When the playlist is live, the incremental test does
    not skip it, there are tracks, and the text derived for it is not
    blank, differs from the current description and encodes as UTF-8,
    the update returns True, the playlist then carries exactly that text
    as its description (name and tracks as before), every other
    playlist is as it was, and the change of details was sent. *)
Theorem description_update_pushes (rt : runtime) (cfg : config)
    (sp : client) (user_id pid : string) (track_uris : option (list string))
    (w : world) (pl : playlist) (d : list Z) :
  remote w !! pid = Some pl ->
  (marker_unchanged rt pid (pl_snapshot_id pl) w).1 = Ok false ->
  resolved_tracks w pid track_uris <> [] ->
  derive_description rt cfg (pl_description pl) (pl_name pl)
    (resolved_tracks w pid track_uris) = Some d ->
  py_strip d <> [] ->
  d <> pl_description pl ->
  PyStr.encode_utf8 d <> None ->
  let run := _update_playlist_description_with_genres rt cfg sp user_id pid
               track_uris w in
  run.1 = Ok true
  /\ remote run.2
     = <[pid := {| pl_name := pl_name pl; pl_description := d;
                   pl_snapshot_id := sp_new_snapshot sp pl;
                   pl_tracks := pl_tracks pl |}]> (remote w)
  /\ issued (ChangeDetails pid d) w run.2.
Proof.
  intros Hpl Hm Htracks Hderive Hblank Hdiff Henc. cbn zeta.
  unfold _update_playlist_description_with_genres, try_except.
  rewrite bind_run, sp_playlist_run, Hpl.
  set (w1 := log_call (GetPlaylist pid) w).
  assert (marker_unchanged rt pid (pl_snapshot_id pl) w1 = (Ok false, w1))
    as Hm1.
  { rewrite marker_unchanged_run in *.
    change (description_cache_file w1) with (description_cache_file w).
    destruct (match description_cache_file w with
              | Some content => default (JObject []) (json_load rt content)
              | None => JObject []
              end) as [| | | | |d0];
      try (destruct (nonempty (pl_snapshot_id pl)); done).
    cbn [fst] in Hm. by injection Hm as ->. }
  rewrite bind_run, Hm1. cbn iota. rewrite bind_run.
  destruct (resolve_track_uris_run sp pid track_uris w1)
    as (w2 & -> & Hw2).
  change (_playlist_tracks_cache w1) with (_playlist_tracks_cache w).
  change (remote w1) with (remote w).
  fold (resolved_tracks w pid track_uris).
  assert (remote w2 = remote w
          /\ description_cache_file w2 = description_cache_file w
          /\ exists pre, calls w2 = (calls w ++ pre)%list)
    as (Hr2 & Hf2 & pre & Hc2).
  { destruct Hw2 as [->| ->]; (split; [done|split; [done|]]).
    - by exists [(GetPlaylist pid, remote w)].
    - exists [(GetPlaylist pid, remote w); (GetPlaylistItems pid, remote w)].
      cbn. by rewrite <- app_assoc. }
  unfold refresh_description.
  destruct (resolved_tracks w pid track_uris) as [|u us] eqn:Eres; [done|].
  rewrite Hderive.
  destruct (py_strip d) as [|c0 rest] eqn:Estrip; [done|].
  rewrite bool_decide_eq_true_2 by done.
  unfold push_description, try_except.
  destruct (PyStr.encode_utf8 d) as [bs|]; [|done].
  rewrite !bind_run. mrun.
  rewrite (change_details_run sp pid d w2 pl) by (by rewrite Hr2).
  set (w3 := set_remote _ (log_call (ChangeDetails pid d) w2)).
  destruct (remember_snapshot_after_test rt pid (pl_snapshot_id pl) w3 w)
    as [c Hrem]; [by rewrite <- Hf2|done|].
  rewrite bind_run, Hrem. mrun. cbn [fst snd].
  split; [done|]. split.
  - cbn [remote set_cache_file set_remote log_call w3]. by rewrite Hr2.
  - exists (pre ++ [(ChangeDetails pid d, remote w2)])%list. split.
    + cbn [calls set_cache_file set_remote log_call w3].
      by rewrite Hc2, <- app_assoc.
    + rewrite fmap_app, elem_of_app. right. cbn. left.
Qed.

Definition stale_finds : playlist := {|
  pl_name := "AJFinds24";
  pl_description := [];
  pl_snapshot_id := "snapA";
  pl_tracks := ["spotify:track:a"];
|}.

Lemma description_update_pushes_witness :
  let w := world_of [("p1", stale_finds)] in
  let run := _update_playlist_description_with_genres runtime_excerpt
               default_config demo_client "me" "p1" None w in
  run.1 = Ok true
  /\ remote run.2
     = <["p1" := {| pl_name := "AJFinds24";
                    pl_description := py_of_string "Liked songs from 2024";
                    pl_snapshot_id := sp_new_snapshot demo_client stale_finds;
                    pl_tracks := ["spotify:track:a"] |}]> (remote w)
  /\ issued (ChangeDetails "p1" (py_of_string "Liked songs from 2024")) w
       run.2.
Proof.
  apply (description_update_pushes runtime_excerpt default_config demo_client
           "me" "p1" None (world_of [("p1", stale_finds)]) stale_finds
           (py_of_string "Liked songs from 2024")).
  - vm_compute. reflexivity.
  - vm_compute. reflexivity.
  - vm_compute. discriminate.
  - vm_compute. reflexivity.
  - vm_compute. discriminate.
  - vm_compute. discriminate.
  - vm_compute. discriminate.
Defined.

End DescriptionFrame.

(* ===================================================================== *)
(** * The encoding of a derived description *)
(* ===================================================================== *)

Module DescriptionEncoding.
Import PyStr Py Config Spotify DescriptionText Descriptions.
Local Open Scope Z_scope.

(** What the strict decoder answers with holds no surrogate. *)
Lemma decode_utf8_no_surrogate bs :
  forall s, decode_utf8 bs = Some s ->
    Forall (fun c => is_surrogate c = false) s.
Proof.
  induction bs as [bs IH] using (induction_ltof1 _ (@length Z)).
  unfold ltof in IH. intros s.
  destruct bs as [|b0 r0]; [intros [= <-]; constructor|].
  rewrite decode_utf8_cons.
  destruct ((0 <=? b0) && (b0 <? 128)) eqn:E1.
  { destruct (decode_utf8 r0) as [s0|] eqn:Er; [|done].
    cbn. intros [= <-]. constructor.
    - unfold is_surrogate. revert E1. bool_lia.
    - apply (IH r0); [cbn; lia|done]. }
  destruct ((194 <=? b0) && (b0 <=? 223)) eqn:E2.
  { destruct r0 as [|b1 r1]; [done|].
    destruct (is_cont b1) eqn:Ec; [|done].
    destruct (decode_utf8 r1) as [s0|] eqn:Er; [|done].
    cbn. intros [= <-]. constructor.
    - unfold is_surrogate, is_cont in *. revert E2 Ec. bool_lia.
    - apply (IH r1); [cbn; lia|done]. }
  destruct ((224 <=? b0) && (b0 <=? 239)) eqn:E3.
  { destruct r0 as [|b1 [|b2 r2]]; [done..|]. cbv zeta.
    destruct (is_cont b1 && is_cont b2
              && (2048 <=? (b0 - 224) * 4096 + (b1 - 128) * 64 + (b2 - 128))
              && negb (is_surrogate
                         ((b0 - 224) * 4096 + (b1 - 128) * 64 + (b2 - 128))))
      eqn:Ec; [|done].
    destruct (decode_utf8 r2) as [s0|] eqn:Er; [|done].
    cbn. intros [= <-]. constructor.
    - apply andb_true_iff in Ec as [_ Ec]. by apply negb_true_iff in Ec.
    - apply (IH r2); [cbn; lia|done]. }
  destruct ((240 <=? b0) && (b0 <=? 244)) eqn:E4; [|done].
  destruct r0 as [|b1 [|b2 [|b3 r3]]]; [done..|]. cbv zeta.
  destruct (is_cont b1 && is_cont b2 && is_cont b3
            && (65536 <=? (b0 - 240) * 262144 + (b1 - 128) * 4096
                          + (b2 - 128) * 64 + (b3 - 128))
            && ((b0 - 240) * 262144 + (b1 - 128) * 4096
                + (b2 - 128) * 64 + (b3 - 128) <=? 1114111))
    eqn:Ec; [|done].
  destruct (decode_utf8 r3) as [s0|] eqn:Er; [|done].
  cbn. intros [= <-]. constructor.
  - unfold is_surrogate. revert Ec. bool_lia.
  - apply (IH r3); [cbn; lia|done].
Qed.

(** X25.  The text the update derives for a playlist never holds a
    lone surrogate, so its strict UTF-8 encoding succeeds: the
    description update never takes the branch that repairs an encoding
    error (lines 115-129). *)
Theorem derived_description_encodes (rt : runtime) (cfg : config)
    (current : list Z) (name : string) (track_uris : list string)
    (d : list Z) :
  derive_description rt cfg current name track_uris = Some d ->
  Forall (fun c => is_surrogate c = false) d
  /\ encode_utf8 d = Some (encode_utf8_replace d).
Proof.
  intros H.
  assert (Forall (fun c => is_surrogate c = false) d) as Hd;
    [|split; [done|by apply encode_utf8_some]].
  unfold derive_description in H.
  destruct (Sanitize.sanitize_description_for_api _ _ _ _) as [s|] eqn:Es;
    [|discriminate].
  cbn [mbind option_bind] in H. injection H as <-.
  unfold Sanitize.sanitize_description_for_api in Es.
  apply decode_utf8_no_surrogate in Es.
  destruct (MAX_LEN <? len s); [|done].
  apply Forall_forall. intros c Hc. apply slice_to_sub in Hc.
  rewrite Forall_forall in Es. by apply Es.
Qed.

Lemma derived_description_encodes_witness :
  let d := py_of_string "Liked songs from 2024" in
  Forall (fun c => is_surrogate c = false) d
  /\ encode_utf8 d = Some (encode_utf8_replace d).
Proof.
  apply (derived_description_encodes runtime_excerpt default_config []
           "AJFinds24" ["spotify:track:a"%string]).
  vm_compute. reflexivity.
Defined.

End DescriptionEncoding.

(* ===================================================================== *)
(** * The updates only add *)
(* ===================================================================== *)

Module OnlyAdds.
Import Py Config Calendar Spotify DescriptionText Descriptions Reconcile.
Import Update Consolidation.

(** The service gives a new playlist an identifier no playlist has. *)
Definition fresh_ids (sp : client) : Prop :=
  forall r : gmap string playlist, r !! sp_new_id sp r = None.

Lemma demo_client_fresh_ids : fresh_ids demo_client.
Proof. intros r. apply not_elem_of_dom. cbn. apply is_fresh. Qed.

(** A request that is not a deletion. *)
Definition keeps_playlists (c : api_request * gmap string playlist) : Prop :=
  forall q, c.1 <> DeletePlaylist q.

Lemma grow_add_items pid pl uris snap d w :
  remote w !! pid = Some pl ->
  playlists_grow w
    (set_remote
       <[pid := {| pl_name := pl_name pl; pl_description := d;
                   pl_snapshot_id := snap;
                   pl_tracks := pl_tracks pl ++ uris |}]> w).
Proof.
  intros Hp q pl0 Hq. cbn [remote set_remote].
  destruct (decide (pid = q)) as [->|Hne].
  - rewrite lookup_insert_eq. eexists. split; [done|].
    assert (pl0 = pl) as -> by congruence. cbn. split; [done|].
    intros u Hu. apply elem_of_app. by left.
  - rewrite lookup_insert_ne by done. by exists pl0.
Qed.

Lemma grow_create sp pl w :
  fresh_ids sp ->
  playlists_grow w (set_remote <[sp_new_id sp (remote w) := pl]> w).
Proof.
  intros Hf q pl0 Hq. cbn [remote set_remote].
  destruct (decide (sp_new_id sp (remote w) = q)) as [<-|Hne].
  - rewrite Hf in Hq. discriminate.
  - rewrite lookup_insert_ne by done. by exists pl0.
Qed.

Lemma update_description_grow rt cfg sp user_id pid track_uris :
  steps playlists_grow
    (_update_playlist_description_with_genres rt cfg sp user_id pid
       track_uris).
Proof.
  eapply steps_mono; [|apply update_description_content].
  apply same_content_grow.
Qed.

Lemma update_description_keeps rt cfg sp user_id pid track_uris :
  steps (only_calls keeps_playlists)
    (_update_playlist_description_with_genres rt cfg sp user_id pid
       track_uris).
Proof.
  eapply steps_mono; [|apply update_description_calls].
  intros w w'. apply only_calls_mono. intros c Hc q Hq.
  unfold description_call in Hc. by rewrite Hq in Hc.
Qed.

(** Decompose a run and close the cases of a relation that additions
    keep. *)
Ltac grows Hf :=
  repeat first
    [ apply update_description_grow
    | progress steps_all ];
  intros;
  first [ by apply same_remote_grow
        | by apply grow_add_items
        | by apply (grow_create _ _ _ Hf) ].

Ltac no_deletions :=
  repeat first
    [ apply update_description_keeps
    | progress steps_all ];
  intros;
  first [ by (apply only_calls_log; intros ? ?)
        | by apply only_calls_same ].

Section Monthly.
Context (rt : runtime) (cfg : config) (sp : client).
Hypothesis Hfresh : fresh_ids sp.

Lemma update_monthly_playlists_grow now history_df playlist_tracks
    keep_last_n_months :
  steps playlists_grow
    (update_monthly_playlists rt cfg sp now history_df playlist_tracks
       keep_last_n_months).
Proof.
  unfold update_monthly_playlists, update_month, add_missing_tracks,
    formatted_description.
  grows Hfresh.
Qed.

Lemma update_monthly_playlists_keeps now history_df playlist_tracks
    keep_last_n_months :
  steps (only_calls keeps_playlists)
    (update_monthly_playlists rt cfg sp now history_df playlist_tracks
       keep_last_n_months).
Proof.
  unfold update_monthly_playlists, update_month, add_missing_tracks,
    formatted_description.
  no_deletions.
Qed.

End Monthly.

(** X16.  When the service gives new playlists unused
    identifiers, a run of the monthly update never raises, removes no
    playlist, renames none and takes no track out of any (tracks added by
    hand stay), and it asks for no deletion. *)
Theorem update_monthly_playlists_only_adds (rt : runtime) (cfg : config)
    (sp : client) (now : datetime) (history_df : option DataFrame)
    (playlist_tracks : parquet_file) (keep_last_n_months : Z) (w : world) :
  fresh_ids sp ->
  let run := update_monthly_playlists rt cfg sp now history_df
               playlist_tracks keep_last_n_months w in
  (exists month_to_tracks, run.1 = Ok month_to_tracks)
  /\ playlists_grow w run.2
  /\ only_calls keeps_playlists w run.2.
Proof.
  intros Hf. cbn zeta. split; [apply total_handle_errors|].
  split.
  - by apply update_monthly_playlists_grow.
  - apply update_monthly_playlists_keeps.
Qed.

Lemma update_monthly_playlists_only_adds_witness :
  let w := world_of [("p1"%string, october)] in
  let run := update_monthly_playlists runtime_excerpt default_config
               demo_client nov_2024 None (Parquet library_october) 3 w in
  (exists month_to_tracks, run.1 = Ok month_to_tracks)
  /\ playlists_grow w run.2
  /\ only_calls keeps_playlists w run.2.
Proof.
  apply (update_monthly_playlists_only_adds runtime_excerpt default_config
           demo_client nov_2024 None (Parquet library_october) 3).
  exact demo_client_fresh_ids.
Defined.

End OnlyAdds.

(* ===================================================================== *)
(** * The update of the current year's playlists *)
(* ===================================================================== *)

Module CurrentYear.
Import Py Config Calendar Spotify DescriptionText Descriptions Reconcile.
Import Update Consolidation OnlyAdds.

Section WithContext.
Context (rt : runtime) (cfg : config) (sp : client).

(** The track selectors over the year's streaming history (the missing
    history module), called with [month_str=None, limit=100], and the
    reader of the liked songs (the missing catalog module). *)
Variable get_most_played_tracks : list history_event -> list string.
Variable get_discovery_tracks : list history_event -> list string.
Variable get_liked_song_uris : M (list string).

(** Lines 293-302 (and 340-348, 367-375): add the tracks the playlist
    does not have, and drop the cached listing when there were any. *)
Definition add_new_tracks (pid : string) (uris : list string) : M unit :=
  to_add ← add_missing_valid_tracks sp pid uris;
  match to_add with
  | [] => ret tt
  | _ => _invalidate_playlist_cache
  end.

(** Lines 306-320 (and 350-357, 377-384): create the playlist, fill it
    and describe it. *)
Definition create_with_tracks (user_id name label : string)
    (current_year : Z) (t : playlist_type) (uris : list string) : M unit :=
  description ← formatted_description rt cfg label (str_int current_year) t;
  pid ← sp_user_playlist_create sp name description;
  let valid_uris := List.filter nonempty uris in
  for_each (_chunked valid_uris 50)
    (fun chunk =>
       match chunk with
       | [] => ret tt
       | _ => sp_playlist_add_items sp pid chunk
       end);;
  _update_playlist_description_with_genres rt cfg sp user_id pid (Some uris);;
  _invalidate_playlist_cache.

(** Lines 288-320: the year's playlist of liked songs. *)
Definition update_finds (existing : list (string * string))
    (user_id : string) (current_year : Z) : M unit :=
  let finds_name := format_yearly_playlist_name cfg (str_int current_year) in
  match dict_get finds_name existing with
  | Some pid =>
      liked_uris ← get_liked_song_uris;
      add_new_tracks pid liked_uris
  | None =>
      liked_uris ← get_liked_song_uris;
      create_with_tracks user_id finds_name "Liked songs" current_year
        monthly liked_uris
  end.

(** Lines 336-357 and 363-384: a playlist fed from the streaming
    history; nothing happens without tracks. *)
Definition update_from_history (existing : list (string * string))
    (user_id : string) (current_year : Z) (year_short : string)
    (t : playlist_type) (label : string) (uris : list string) : M unit :=
  let name :=
    format_playlist_name cfg (YEARLY_NAME_TEMPLATE cfg) None t
      (Some year_short) in
  match uris, dict_get name existing with
  | _ :: _, Some pid => add_new_tracks pid uris
  | _ :: _, None => create_with_tracks user_id name label current_year t uris
  | [], _ => ret tt
  end.

(** [update_current_year_playlists(sp)], run at [now] on the streaming
    history [history] ([None] when there is no table; the table is taken
    to have the columns the code reads).  Log lines are left out. *)
Definition update_current_year_playlists (now : datetime)
    (history : option (list history_event)) : M unit :=
  handle_errors tt
    (let current_year := dt_year now in
     let year_short := str_drop 2 (str_int current_year) in
     existing ← get_existing_playlists sp false;
     user_id ← get_user_info sp;
     (if ENABLE_MONTHLY cfg then update_finds existing user_id current_year
      else ret tt);;
     match history with
     | Some (e :: h) =>
         match year_data (e :: h) current_year with
         | [] => ret tt
         | year_df =>
             (if ENABLE_MOST_PLAYED cfg
              then update_from_history existing user_id current_year
                     year_short most_played "Most played"
                     (get_most_played_tracks year_df)
              else ret tt);;
             (if ENABLE_DISCOVERY cfg
              then update_from_history existing user_id current_year
                     year_short discovery "Discovery"
                     (get_discovery_tracks year_df)
              else ret tt)
         end
     | _ => ret tt
     end).

(** ** Properties *)

Hypothesis Hfresh : fresh_ids sp.

Lemma add_new_tracks_grow pid uris :
  steps playlists_grow (add_new_tracks pid uris).
Proof. unfold add_new_tracks, add_missing_valid_tracks. grows Hfresh. Qed.

Lemma add_new_tracks_keeps pid uris :
  steps (only_calls keeps_playlists) (add_new_tracks pid uris).
Proof. unfold add_new_tracks, add_missing_valid_tracks. no_deletions. Qed.

Lemma create_with_tracks_grow user_id name label current_year t uris :
  steps playlists_grow
    (create_with_tracks user_id name label current_year t uris).
Proof. unfold create_with_tracks, formatted_description. grows Hfresh. Qed.

Lemma create_with_tracks_keeps user_id name label current_year t uris :
  steps (only_calls keeps_playlists)
    (create_with_tracks user_id name label current_year t uris).
Proof. unfold create_with_tracks, formatted_description. no_deletions. Qed.

Lemma update_from_history_grow existing user_id current_year year_short t
    label uris :
  steps playlists_grow
    (update_from_history existing user_id current_year year_short t label
       uris).
Proof.
  unfold update_from_history.
  destruct uris; [apply steps_ret; tc_solve|].
  destruct (dict_get _ existing);
    [apply add_new_tracks_grow|apply create_with_tracks_grow].
Qed.

Lemma update_from_history_keeps existing user_id current_year year_short t
    label uris :
  steps (only_calls keeps_playlists)
    (update_from_history existing user_id current_year year_short t label
       uris).
Proof.
  unfold update_from_history.
  destruct uris; [apply steps_ret; tc_solve|].
  destruct (dict_get _ existing);
    [apply add_new_tracks_keeps|apply create_with_tracks_keeps].
Qed.

(** The part that reads the streaming history (lines 322-387). *)
Definition history_part (existing : list (string * string))
    (user_id : string) (current_year : Z)
    (history : option (list history_event)) : M unit :=
  match history with
  | Some (e :: h) =>
      match year_data (e :: h) current_year with
      | [] => ret tt
      | year_df =>
          (if ENABLE_MOST_PLAYED cfg
           then update_from_history existing user_id current_year
                  (str_drop 2 (str_int current_year)) most_played
                  "Most played" (get_most_played_tracks year_df)
           else ret tt);;
          (if ENABLE_DISCOVERY cfg
           then update_from_history existing user_id current_year
                  (str_drop 2 (str_int current_year)) discovery "Discovery"
                  (get_discovery_tracks year_df)
           else ret tt)
      end
  | _ => ret tt
  end.

Lemma history_part_grow existing user_id current_year history :
  steps playlists_grow (history_part existing user_id current_year history).
Proof.
  unfold history_part.
  repeat first [ apply update_from_history_grow | progress steps_go ].
Qed.

Lemma history_part_keeps existing user_id current_year history :
  steps (only_calls keeps_playlists)
    (history_part existing user_id current_year history).
Proof.
  unfold history_part.
  repeat first [ apply update_from_history_keeps | progress steps_go ].
Qed.

Lemma update_current_year_playlists_eq now history :
  update_current_year_playlists now history
  = handle_errors tt
      (existing ← get_existing_playlists sp false;
       user_id ← get_user_info sp;
       (if ENABLE_MONTHLY cfg
        then update_finds existing user_id (dt_year now)
        else ret tt);;
       history_part existing user_id (dt_year now) history).
Proof. reflexivity. Qed.

End WithContext.

(** The comprehension of line 295 drops empty values before anything
    else is done with the list. *)
Lemma add_missing_valid_tracks_filter sp pid D w :
  add_missing_valid_tracks sp pid D w
  = add_missing_valid_tracks sp pid (List.filter nonempty D) w.
Proof.
  unfold add_missing_valid_tracks. rewrite !bind_run.
  destruct (get_playlist_tracks sp pid false w) as [[already|e] w1]; [|done].
  assert (List.filter (fun u => nonempty u && bool_decide (u ∉ already))
            (List.filter nonempty D)
          = List.filter (fun u => nonempty u && bool_decide (u ∉ already)) D)
    as ->; [|done].
  induction D as [|u D IH]; [done|]. cbn [List.filter].
  destruct (nonempty u) eqn:E; cbn [List.filter andb]; rewrite ?E;
    cbn [andb]; by rewrite IH.
Qed.

Lemma filter_nonempty_Forall (D : list string) :
  Forall (fun u => u <> ""%string) (List.filter nonempty D).
Proof.
  apply Forall_forall. intros u Hu.
  apply list_elem_of_In, filter_In in Hu as [_ Hu]. by destruct u.
Qed.

Section CurrentYearAdds.
Context (rt : runtime) (cfg : config) (sp : client).
Context (get_most_played_tracks get_discovery_tracks :
           list history_event -> list string).
Context (get_liked_song_uris : M (list string)).
Hypothesis Hfresh : fresh_ids sp.

Lemma update_current_year_playlists_grow now history :
  steps playlists_grow get_liked_song_uris ->
  steps playlists_grow
    (update_current_year_playlists rt cfg sp get_most_played_tracks
       get_discovery_tracks get_liked_song_uris now history).
Proof.
  intros Hg. rewrite update_current_year_playlists_eq. unfold update_finds.
  repeat first
    [ apply Hg
    | apply history_part_grow
    | apply add_new_tracks_grow
    | apply create_with_tracks_grow
    | progress steps_all ];
    intros; first [ done | by apply same_remote_grow ].
Qed.

Lemma update_current_year_playlists_keeps now history :
  steps (only_calls keeps_playlists) get_liked_song_uris ->
  steps (only_calls keeps_playlists)
    (update_current_year_playlists rt cfg sp get_most_played_tracks
       get_discovery_tracks get_liked_song_uris now history).
Proof.
  intros Hk. rewrite update_current_year_playlists_eq. unfold update_finds.
  repeat first
    [ apply Hk
    | apply history_part_keeps
    | apply add_new_tracks_keeps
    | apply create_with_tracks_keeps
    | progress steps_all ];
    intros;
    first [ by (apply only_calls_log; intros ? ?)
          | by apply only_calls_same ].
Qed.

End CurrentYearAdds.

(** X17.  When the service gives new playlists unused identifiers
    and reading the liked songs loses no playlist or track and asks for
    no deletion, a run of the current-year update never raises, removes
    no playlist, renames none, takes no track out of any, and asks for
    no deletion. *)
Theorem update_current_year_playlists_only_adds (rt : runtime)
    (cfg : config) (sp : client)
    (get_most_played_tracks get_discovery_tracks :
       list history_event -> list string)
    (get_liked_song_uris : M (list string)) (now : datetime)
    (history : option (list history_event)) (w : world) :
  fresh_ids sp ->
  steps playlists_grow get_liked_song_uris ->
  steps (only_calls keeps_playlists) get_liked_song_uris ->
  let run := update_current_year_playlists rt cfg sp get_most_played_tracks
               get_discovery_tracks get_liked_song_uris now history w in
  (exists done, run.1 = Ok done)
  /\ playlists_grow w run.2
  /\ only_calls keeps_playlists w run.2.
Proof.
  intros Hf Hg Hk. cbn zeta. split; [apply total_handle_errors|split].
  - by apply update_current_year_playlists_grow.
  - by apply update_current_year_playlists_keeps.
Qed.

(** X18.  With the liked-songs type enabled, the year's playlist
    listed and live, and the liked songs read without a change of state:
    after the current-year update every non-empty liked URI is among the
    tracks of the year's playlist, unless the track cache already
    counted it as present.  The playlist is the one the consolidation
    fills for the year. *)
Theorem current_year_finds_receives_liked (rt : runtime) (cfg : config)
    (sp : client)
    (get_most_played_tracks get_discovery_tracks :
       list history_event -> list string)
    (get_liked_song_uris : M (list string)) (now : datetime)
    (history : option (list history_event)) (w : world) (pid : string)
    (pl : playlist) (liked_uris : list string) :
  fresh_ids sp ->
  ENABLE_MONTHLY cfg = true ->
  dict_get (yearly_playlist_name cfg (dt_year now) monthly)
    (listed_playlists w) = Some pid ->
  remote w !! pid = Some pl ->
  (forall w0, get_liked_song_uris w0 = (Ok liked_uris, w0)) ->
  let run := update_current_year_playlists rt cfg sp get_most_played_tracks
               get_discovery_tracks get_liked_song_uris now history w in
  forall u, u ∈ liked_uris -> u <> ""%string ->
    u ∈ seen_tracks w pid \/ u ∈ live_tracks (remote run.2) pid.
Proof.
  intros Hf Hen Hlisted Hpl Hliked run u Hu Hne.
  destruct (decide (u ∈ seen_tracks w pid)) as [Hseen|Hseen]; [by left|].
  right. subst run.
  rewrite update_current_year_playlists_eq, handle_errors_world.
  rewrite bind_run, get_existing_playlists_run.
  set (wa := match _playlist_cache w with
             | Some _ => w
             | None => set_playlist_cache (Some (listed_playlists w))
                         (log_call ListPlaylists w)
             end).
  assert (remote wa = remote w) as Hra
    by (unfold wa; by destruct (_playlist_cache w)).
  assert (_playlist_tracks_cache wa = _playlist_tracks_cache w) as Hca
    by (unfold wa; by destruct (_playlist_cache w)).
  unfold get_user_info. mrun.
  set (wb := log_call GetUser wa).
  rewrite Hen. unfold update_finds.
  cbn [yearly_playlist_name] in Hlisted. rewrite Hlisted.
  rewrite bind_run, Hliked. unfold add_new_tracks.
  rewrite bind_run, add_missing_valid_tracks_filter.
  assert (remote wb !! pid = Some pl) as Hplb by (cbn; by rewrite Hra).
  destruct (add_missing_valid_tracks_spec sp pid (List.filter nonempty liked_uris)
              wb pl Hplb (filter_nonempty_Forall _))
    as (Hok & _ & pl' & Hr & _ & Ht).
  destruct (add_missing_valid_tracks sp pid (List.filter nonempty liked_uris) wb)
    as [[to_add|e] wc] eqn:Erun; [|done].
  cbn [fst snd] in *.
  assert (u ∈ pl_tracks pl') as Hin.
  { rewrite Ht. apply elem_of_app. right. unfold difference.
    apply list_elem_of_In, filter_In. split.
    - apply filter_In. split; [by apply list_elem_of_In|by destruct u].
    - apply bool_decide_eq_true. unfold seen_tracks in *. cbn.
      by rewrite Hca, Hra. }
  assert (forall (rest : M unit) w1,
            playlists_grow wc w1 -> steps playlists_grow rest ->
            u ∈ live_tracks (remote (rest w1).2) pid) as Hrest.
  { intros rest w1 H1 H2.
    assert (playlists_grow wc (rest w1).2) as Hg
      by (etransitivity; [exact H1|apply H2]).
    destruct (Hg pid pl') as (pl'' & Hp'' & _ & Hsub).
    { rewrite Hr. apply lookup_insert_eq. }
    unfold live_tracks. rewrite Hp''. apply elem_of_list_to_set. auto. }
  assert (steps playlists_grow
            (history_part rt cfg sp get_most_played_tracks
               get_discovery_tracks (listed_playlists w) (sp_user_id sp)
               (dt_year now) history)) as Hhist
    by (by apply history_part_grow).
  destruct to_add as [|u0 to_add]; mrun.
  - by apply Hrest.
  - apply Hrest; [by apply same_remote_grow|done].
Qed.

Definition finds_2024 : playlist :=
  playlist_of "AJFinds24" ["spotify:track:a"%string].

Lemma update_current_year_playlists_only_adds_witness :
  let w := world_of [("p1"%string, finds_2024)] in
  let run := update_current_year_playlists runtime_excerpt default_config
               demo_client (fun _ => []) (fun _ => [])
               (ret ["spotify:track:a"; "spotify:track:b"]%string)
               nov_2024 None w in
  (exists done, run.1 = Ok done)
  /\ playlists_grow w run.2
  /\ only_calls keeps_playlists w run.2.
Proof.
  apply (update_current_year_playlists_only_adds runtime_excerpt
           default_config demo_client (fun _ => []) (fun _ => [])
           (ret ["spotify:track:a"; "spotify:track:b"]%string)
           nov_2024 None).
  - exact demo_client_fresh_ids.
  - intros w. reflexivity.
  - intros w. reflexivity.
Defined.

Lemma current_year_finds_receives_liked_witness :
  let w := world_of [("p1"%string, finds_2024)] in
  let run := update_current_year_playlists runtime_excerpt default_config
               demo_client (fun _ => []) (fun _ => [])
               (ret ["spotify:track:a"; "spotify:track:b"]%string)
               nov_2024 None w in
  "spotify:track:b"%string ∈ seen_tracks w "p1"
  \/ "spotify:track:b"%string ∈ live_tracks (remote run.2) "p1".
Proof.
  apply (current_year_finds_receives_liked runtime_excerpt default_config
           demo_client (fun _ => []) (fun _ => [])
           (ret ["spotify:track:a"; "spotify:track:b"]%string)
           nov_2024 None (world_of [("p1"%string, finds_2024)]) "p1"%string
           finds_2024 ["spotify:track:a"; "spotify:track:b"]%string).
  - exact demo_client_fresh_ids.
  - reflexivity.
  - vm_compute. reflexivity.
  - vm_compute. reflexivity.
  - intros w0. reflexivity.
  - right. left.
  - discriminate.
Defined.

End CurrentYear.

(* ===================================================================== *)
(** * What the cleanups remove *)
(* ===================================================================== *)

Module Cleanup.
Import Py Config Calendar Spotify DescriptionText Descriptions Reconcile.
Import Update Consolidation.

Lemma dict_set_elem {K V} `{EqDecision K} (k : K) (v : V) d x :
  x ∈ dict_set k v d -> x = (k, v) \/ x ∈ d.
Proof.
  induction d as [|[k0 v0] d IH]; cbn.
  - intros Hx. apply list_elem_of_singleton in Hx. by left.
  - destruct (decide (k = k0)) as [->|Hne]; rewrite !elem_of_cons.
    + tauto.
    + intros [?|Hx]; [tauto|]. destruct (IH Hx); tauto.
Qed.

(** Every entry of a fresh listing is a live playlist under its name. *)
Lemma current_listing_live w name q :
  (name, q) ∈ current_listing w ->
  exists pl, remote w !! q = Some pl /\ pl_name pl = name.
Proof.
  unfold current_listing.
  assert (forall (L : list (string * playlist)) (d : list (string * string)),
    (forall kv, kv ∈ L -> remote w !! kv.1 = Some kv.2) ->
    (forall n i, (n, i) ∈ d ->
       exists pl, remote w !! i = Some pl /\ pl_name pl = n) ->
    forall n i,
      (n, i) ∈ fold_left (fun d kv => dict_set (pl_name kv.2) kv.1 d) L d ->
      exists pl, remote w !! i = Some pl /\ pl_name pl = n) as Hfold.
  { induction L as [|kv L IH]; intros d HL Hd; [done|].
    cbn [fold_left]. apply IH.
    - intros kv' Hkv'. apply HL. by right.
    - intros n i Hin. apply dict_set_elem in Hin as [Heq|Hin]; [|by apply Hd].
      injection Heq as -> ->. exists kv.2. split; [|done]. apply HL. left. }
  apply Hfold.
  - intros [k v] Hkv. by apply elem_of_map_to_list in Hkv.
  - intros n i Hin. by apply elem_of_nil in Hin.
Qed.

Lemma NoDup_snd_filter {A B} (f : A * B -> bool) (l : list (A * B)) :
  NoDup l.*2 -> NoDup (List.filter f l).*2.
Proof.
  induction l as [|x l IH]; cbn; intros H; [constructor|].
  apply NoDup_cons in H as [H1 H2].
  destruct (f x); cbn; [|by apply IH].
  constructor; [|by apply IH].
  intros Hin. apply H1. apply list_elem_of_fmap in Hin as (y & -> & Hy).
  apply list_elem_of_fmap. exists y. split; [done|].
  apply list_elem_of_In. apply list_elem_of_In, filter_In in Hy. tauto.
Qed.

(** ** The cleanup of legacy playlists *)

(** The backup written for a playlist about to be deleted. *)
Definition backup_of (r : gmap string playlist) (ni : string * string)
    : backup :=
  {| bk_id := ni.2; bk_name := ni.1; bk_tracks := live_tracks r ni.2 |}.

(** One round of the loop of lines 531-541. *)
Definition delete_legacy (sp : client) (ni : string * string) : M unit :=
  try_except
    (r ← safe_delete_playlist sp ni.2 ni.1 true None;
     if (r.1 : bool) then _invalidate_playlist_cache else ret tt)
    (fun _ => ret tt).

Lemma delete_legacy_run sp ni w pl :
  remote w !! ni.2 = Some pl ->
  exists w',
    delete_legacy sp ni w = (Ok tt, w')
    /\ remote w' = delete ni.2 (remote w)
    /\ backups w' = backups w ++ [backup_of (remote w) ni].
Proof.
  intros Hpl. unfold delete_legacy, try_except, safe_delete_playlist.
  rewrite !bind_run, get_playlist_tracks_run. cbn match. mrun.
  unfold try_except, sp_current_user_unfollow_playlist. mrun.
  cbn [remote set_tracks_cache log_call add_backup]. rewrite Hpl. mrun.
  unfold _invalidate_playlist_cache. mrun.
  eexists. split; [reflexivity|]. done.
Qed.

Lemma delete_legacy_loop sp (l : list (string * string)) :
  forall w,
    NoDup l.*2 ->
    (forall ni, ni ∈ l -> is_Some (remote w !! ni.2)) ->
    exists w',
      for_each l (delete_legacy sp) w = (Ok tt, w')
      /\ (forall q, remote w' !! q
                    = if bool_decide (q ∈ l.*2) then None else remote w !! q)
      /\ backups w' = backups w ++ map (backup_of (remote w)) l.
Proof.
  induction l as [|ni l IH]; intros w Hnd Hlive.
  - exists w. split; [done|]. split; [done|]. by rewrite app_nil_r.
  - cbn [for_each]. rewrite bind_run.
    destruct (Hlive ni ltac:(left)) as [pl Hpl].
    destruct (delete_legacy_run sp ni w pl Hpl) as (w1 & -> & Hr1 & Hb1).
    cbn [fmap list_fmap] in Hnd. apply NoDup_cons in Hnd as [Hni Hnd].
    assert (forall x, x ∈ l -> x.2 <> ni.2) as Hother.
    { intros x Hx Heq. apply Hni. rewrite <- Heq.
      apply list_elem_of_fmap. by exists x. }
    destruct (IH w1 Hnd) as (w' & Hrun & Hr & Hb).
    { intros x Hx. rewrite Hr1, lookup_delete_ne by (symmetry; by apply Hother).
      apply Hlive. by right. }
    exists w'. split; [done|]. split.
    + intros q. rewrite Hr, Hr1. cbn [fmap list_fmap].
      destruct (decide (q = ni.2)) as [->|Hq].
      * rewrite lookup_delete_eq.
        rewrite (bool_decide_eq_true_2 (ni.2 ∈ ni.2 :: l.*2)) by left.
        by destruct (bool_decide _).
      * rewrite lookup_delete_ne by done.
        destruct (decide (q ∈ l.*2)) as [Hin|Hin].
        -- rewrite !bool_decide_eq_true_2; [done|by right|done].
        -- rewrite !bool_decide_eq_false_2; [done| |done].
           intros Hc. apply elem_of_cons in Hc as [?|?]; done.
    + rewrite Hb, Hb1, <- app_assoc. f_equal. cbn [map app]. f_equal.
      apply map_ext_in. intros x Hx. unfold backup_of, live_tracks.
      rewrite Hr1, lookup_delete_ne; [done|].
      symmetry. apply Hother. by apply list_elem_of_In.
Qed.

(** X19.  The cleanup of legacy playlists never raises.  It
    removes exactly the playlists the fresh listing gives under the
    names selected for deletion and leaves every other playlist as it
    was, and it adds one backup per removed playlist, holding the tracks
    the playlist had. *)
Theorem legacy_cleanup_effect (cfg : config) (sp : client) (now : datetime)
    (w : world) :
  let targets :=
    legacy_to_delete cfg (dt_year now) (current_listing w) in
  let run := delete_automated_monthly_and_genre_playlists cfg sp now w in
  run.1 = Ok tt
  /\ (forall q, remote run.2 !! q
                = if bool_decide (q ∈ targets.*2) then None
                  else remote w !! q)
  /\ backups run.2 = backups w ++ map (backup_of (remote w)) targets.
Proof.
  intros targets run.
  set (w1 := set_playlist_cache (Some (current_listing w))
               (log_call ListPlaylists w)).
  destruct (delete_legacy_loop sp targets w1) as (w' & Hrun & Hr & Hb).
  { apply NoDup_snd_filter, current_listing_ids_NoDup. }
  { intros [name q] Hin. unfold targets, legacy_to_delete in Hin.
    apply list_elem_of_In, filter_In in Hin as [Hin _].
    apply list_elem_of_In, current_listing_live in Hin as (pl & Hpl & _).
    by exists pl. }
  assert (run = (Ok tt, w')) as ->; [|done].
  subst run.
  change (delete_automated_monthly_and_genre_playlists cfg sp now w)
    with (handle_errors tt
            (existing ← get_existing_playlists sp true;
             for_each (legacy_to_delete cfg (dt_year now) existing)
               (delete_legacy sp)) w).
  unfold handle_errors, try_except.
  rewrite bind_run, get_existing_playlists_forced_run.
  fold w1. fold targets. by rewrite Hrun.
Qed.

(** [genre_slugs] (line 483) *)
Definition genre_slugs : list string :=
  ["HipHop"; "Hip Hop"; "Dance"; "Other"; "Am"]%string.

(** X27.  Whatever the configuration, the legacy cleanup puts on its
    deletion list every listed playlist whose name starts with the
    owner name, is not one of the protected yearly names, and holds one
    of the genre slugs ("HipHop", "Hip Hop", "Dance", "Other", "Am")
    anywhere after the owner name; a playlist made by hand is not told
    apart. *)
Theorem genre_named_playlists_are_legacy (cfg : config) (now : datetime)
    (existing : list (string * string)) (name pid slug : string) :
  name <> ""%string ->
  startswith name (OWNER_NAME cfg) = true ->
  name ∉ yearly_names cfg (dt_year now) ->
  slug ∈ genre_slugs ->
  str_contains (str_drop (String.length (OWNER_NAME cfg)) name) slug = true ->
  (name, pid) ∈ existing ->
  (name, pid) ∈ legacy_to_delete cfg (dt_year now) existing.
Proof.
  intros Hne Hown Hyearly Hslug Hcontains Hin.
  unfold legacy_to_delete.
  apply list_elem_of_In, filter_In. split; [by apply list_elem_of_In|].
  cbn [fst]. rewrite Hown, (bool_decide_eq_false_2 _ Hyearly).
  cbn [negb andb].
  assert (_is_automated_genre_playlist name (OWNER_NAME cfg) = true) as ->;
    [|apply orb_true_r].
  unfold _is_automated_genre_playlist. rewrite Hown.
  assert (nonempty name = true) as -> by (by destruct name).
  cbn [negb orb]. apply existsb_exists. exists slug.
  split; [by apply list_elem_of_In|done].
Qed.

Lemma genre_named_playlists_are_legacy_witness :
  ("AJ Amsterdam"%string, "p7"%string)
    ∈ legacy_to_delete default_config 2024
        [("AJFinds24"%string, "p1"%string);
         ("AJ Amsterdam"%string, "p7"%string)].
Proof.
  apply (genre_named_playlists_are_legacy default_config nov_2024 _
           "AJ Amsterdam" "p7" "Am").
  - discriminate.
  - reflexivity.
  - refine (bool_decide_unpack _ _). vm_compute. exact I.
  - refine (bool_decide_unpack _ _). vm_compute. exact I.
  - vm_compute. reflexivity.
  - right. left.
Defined.

(** ** The cleanup of duplicate playlists *)

(** Every track some playlist holds is still held by some playlist. *)
Definition tracks_survive : relation world :=
  fun w w' =>
    forall u pid, u ∈ live_tracks (remote w) pid ->
      exists pid', u ∈ live_tracks (remote w') pid'.

Global Instance tracks_survive_refl : Reflexive tracks_survive.
Proof. intros w u pid H. by exists pid. Qed.

Global Instance tracks_survive_trans : Transitive tracks_survive.
Proof.
  intros w1 w2 w3 H1 H2 u pid H.
  destruct (H1 _ _ H) as [pid' H']. by apply (H2 _ _ H').
Qed.

(** The playlists there are after the run are as they were before it:
    nothing is created or changed. *)
Definition only_removes : relation world :=
  fun w w' =>
    forall pid pl, remote w' !! pid = Some pl -> remote w !! pid = Some pl.

Global Instance only_removes_refl : Reflexive only_removes.
Proof. by intros w pid pl. Qed.

Global Instance only_removes_trans : Transitive only_removes.
Proof. intros w1 w2 w3 H1 H2 pid pl H. by apply H1, H2. Qed.

Lemma survive_same w w' : remote w' = remote w -> tracks_survive w w'.
Proof. intros H u pid Hu. exists pid. by rewrite H. Qed.

Lemma removes_same w w' : remote w' = remote w -> only_removes w w'.
Proof. intros H pid pl. by rewrite H. Qed.

Lemma removes_delete q w : only_removes w (set_remote (delete q) w).
Proof.
  intros pid pl. cbn [remote set_remote]. rewrite lookup_delete_Some. tauto.
Qed.

Lemma survive_delete q k w :
  k <> q -> live_tracks (remote w) q ⊆ live_tracks (remote w) k ->
  tracks_survive w (set_remote (delete q) w).
Proof.
  intros Hne Hsub u pid Hu. cbn [remote set_remote].
  destruct (decide (pid = q)) as [->|Hp].
  - exists k. unfold live_tracks in *. rewrite lookup_delete_ne by done.
    by apply Hsub.
  - exists pid. unfold live_tracks in *. by rewrite lookup_delete_ne.
Qed.

Lemma safe_delete_survive sp q name b k :
  k <> q ->
  steps tracks_survive (safe_delete_playlist sp q name b (Some k)).
Proof.
  intros Hne w. unfold safe_delete_playlist.
  rewrite bind_run, get_playlist_tracks_run. cbn match.
  destruct b; mrun;
    rewrite ?bind_run, ?get_playlist_tracks_run; cbn match; mrun;
    cbn [remote set_tracks_cache log_call add_backup].
  all: destruct (bool_decide _) eqn:E; cbn match;
    [|by apply survive_same].
  all: unfold try_except, sp_current_user_unfollow_playlist; mrun;
    cbn [remote set_tracks_cache log_call add_backup set_remote].
  all: destruct (remote w !! q) as [pl|] eqn:Hp; mrun; cbn [snd];
    [|by apply survive_same].
  all: apply bool_decide_eq_true in E.
  all: etransitivity; [|apply (survive_delete q k); [done|exact E]].
  all: by apply survive_same.
Qed.

Lemma safe_delete_removes sp q name b verify :
  steps only_removes (safe_delete_playlist sp q name b verify).
Proof.
  unfold safe_delete_playlist.
  steps_all; intros;
    first [ by apply removes_same | apply removes_delete ].
Qed.

Lemma delete_group_duplicates_survive sp s playlists :
  NoDup playlists.*2 ->
  steps tracks_survive (delete_group_duplicates sp s playlists).
Proof.
  intros Hids. unfold delete_group_duplicates.
  destruct (Nat.ltb 1 (length playlists) && bool_decide (s ≠ ∅));
    [|apply steps_ret; tc_solve].
  set (before := fun x y : string * string => String.leb x.1 y.1).
  pose proof (sort_by_perm before playlists) as Hperm.
  destruct (sort_by before playlists) as [|keep dups];
    [apply steps_ret; tc_solve|].
  assert (NoDup (keep :: dups).*2) as Hnd by (by rewrite Hperm).
  cbn [fmap list_fmap] in Hnd. apply NoDup_cons in Hnd as [Hkeep _].
  apply steps_for_each; [tc_solve..|]. intros dup Hdup.
  steps_go; try (by apply survive_same).
  - apply safe_delete_survive. intros Heq. apply Hkeep. rewrite Heq.
    apply list_elem_of_fmap. by exists dup.
  - apply steps_invalidate; [tc_solve..|]. intros. by apply survive_same.
Qed.

Lemma duplicates_after_listing_survive sp max_playlists existing seen w :
  NoDup existing.*2 ->
  (forall p, seen_tracks w p = seen p) ->
  tracks_survive w
    (match existing with
     | [] => ret tt
     | _ =>
         if Nat.ltb max_playlists (length existing) then ret tt
         else
           playlist_track_sets ← group_by_tracks sp existing;
           for_each playlist_track_sets
             (fun g => delete_group_duplicates sp g.1 g.2)
     end w).2.
Proof.
  intros Hids Hseen.
  assert (steps tracks_survive (group_by_tracks sp existing)) as H3.
  { unfold group_by_tracks. steps_all; intros; by apply survive_same. }
  specialize (H3 w).
  destruct (group_loop_run sp seen existing [] w Hseen) as (w3 & Hrun & _).
  pose proof (groups_of_filed seen existing) as [Hnd Hget].
  unfold group_by_tracks in *. unfold groups_of in *.
  destruct existing as [|ni0 rest]; [by mrun|].
  destruct (Nat.ltb max_playlists (length (ni0 :: rest))); [by mrun|].
  rewrite bind_run. rewrite Hrun in *. cbn [snd] in H3.
  etransitivity; [exact H3|].
  apply steps_for_each; [tc_solve..|].
  intros [s l] Hg. cbn [fst snd].
  pose proof (dict_elem_get s l _ Hnd Hg) as Hl. rewrite Hget in Hl.
  replace l with (members seen (ni0 :: rest) s)
    by (destruct (members seen (ni0 :: rest) s); congruence).
  apply delete_group_duplicates_survive. by apply NoDup_snd_filter.
Qed.

(** X20.  The cleanup of duplicate playlists creates and changes
    no playlist, and every track that some playlist held before the run
    is held by some playlist after it. *)
Theorem delete_duplicate_playlists_loses_no_track (sp : client)
    (max_playlists : nat) (w : world) :
  let w' := (delete_duplicate_playlists sp max_playlists w).2 in
  only_removes w w' /\ tracks_survive w w'.
Proof.
  cbn zeta. split.
  - assert (steps only_removes (delete_duplicate_playlists sp max_playlists))
      as H; [|apply H].
    unfold delete_duplicate_playlists, group_by_tracks,
      delete_group_duplicates.
    repeat first [ apply safe_delete_removes | progress steps_all ];
      intros; by apply removes_same.
  - unfold delete_duplicate_playlists.
    rewrite bind_run, get_existing_playlists_forced_run.
    set (w1 := set_playlist_cache _ (log_call ListPlaylists w)).
    unfold get_user_info. mrun.
    etransitivity; [apply (survive_same w (log_call GetUser w1)); done|].
    apply (duplicates_after_listing_survive sp max_playlists _
             (seen_tracks w));
      [apply current_listing_ids_NoDup|done].
Qed.

(** *** A name that ends in superscript digits

    [AJFindsJan] followed by the code points U+00B2 and U+00B3:
    [str.isdigit] accepts them, so the legacy cleanup takes the playlist
    for an automated one and removes it, while [int] rejects them and a
    consolidation run stops at the name, before any change. *)

Definition superscript_year : string :=
  ("AJFindsJan" +:+ String "178" (String "179" ""))%string.

Example legacy_cleanup_superscript_digits :
  let w := world_of [("p1"%string, playlist_of superscript_year ["t:a"%string])] in
  let cleanup :=
    delete_automated_monthly_and_genre_playlists default_config demo_client
      nov_2024 w in
  let consolidation :=
    consolidate_old_monthly_playlists runtime_excerpt default_config
      demo_client (fun _ => []) (fun _ => []) nov_2024 [] None 3 w in
  legacy_to_delete default_config 2024 (current_listing w)
  = [(superscript_year, "p1"%string)]
  /\ cleanup.1 = Ok tt
  /\ remote cleanup.2 !! "p1"%string = None
  /\ year_raises default_config superscript_year = true
  /\ consolidation.1 = Ok tt
  /\ fst <$> calls consolidation.2 = [ListPlaylists; GetUser].
Proof.
  cbn zeta.
  split; [vm_compute; reflexivity|].
  split; [vm_compute; reflexivity|].
  split; [vm_compute; reflexivity|].
  split; [vm_compute; reflexivity|].
  split; vm_compute; reflexivity.
Qed.

End Cleanup.

(* ===================================================================== *)
(** * What a consolidation run merges *)
(* ===================================================================== *)

Module Merging.
Import Py Config Calendar Spotify DescriptionText Descriptions Reconcile.
Import Update Consolidation OnlyAdds CurrentYear Cleanup.

(** ** Runs that delete only chosen playlists

    [evolves Del]: the playlists outside [Del] stay, keep their names and
    lose no track; and what the track cache holds for one of them is
    what it held before or a track set read in between. *)
Section Evolves.
Context (Del : string -> Prop).

Definition evolves : relation world :=
  fun w w' =>
    (forall q pl, ~ Del q -> remote w !! q = Some pl ->
       exists pl', remote w' !! q = Some pl'
                   /\ pl_name pl' = pl_name pl
                   /\ forall u, u ∈ pl_tracks pl -> u ∈ pl_tracks pl')
    /\ (forall q s, ~ Del q -> _playlist_tracks_cache w' !! q = Some s ->
          _playlist_tracks_cache w !! q = Some s
          \/ (live_tracks (remote w) q ⊆ s
              /\ s ⊆ live_tracks (remote w') q)).

Lemma evolves_live w w' q :
  evolves w w' -> ~ Del q ->
  live_tracks (remote w) q ⊆ live_tracks (remote w') q.
Proof.
  intros [Hg _] Hq u. unfold live_tracks.
  destruct (remote w !! q) as [pl|] eqn:E; [|by rewrite elem_of_empty].
  destruct (Hg q pl Hq E) as (pl' & -> & _ & Ht).
  rewrite !elem_of_list_to_set. apply Ht.
Qed.

Global Instance evolves_refl : Reflexive evolves.
Proof.
  intros w. split.
  - intros q pl _ H. by exists pl.
  - intros q s _ H. by left.
Qed.

Global Instance evolves_trans : Transitive evolves.
Proof.
  intros w1 w2 w3 H12 H23.
  pose proof (fun q => evolves_live w1 w2 q H12) as L12.
  pose proof (fun q => evolves_live w2 w3 q H23) as L23.
  destruct H12 as [G12 C12], H23 as [G23 C23]. split.
  - intros q pl Hq H.
    destruct (G12 q pl Hq H) as (pl2 & H2 & Hn2 & Ht2).
    destruct (G23 q pl2 Hq H2) as (pl3 & H3 & Hn3 & Ht3).
    exists pl3. split; [done|]. split; [congruence|auto].
  - intros q s Hq H.
    destruct (C23 q s Hq H) as [H2|[Ha Hb]].
    + destruct (C12 q s Hq H2) as [?|[Ha Hb]]; [by left|].
      right. split; [done|]. etransitivity; [exact Hb|by apply L23].
    + right. split; [|done]. etransitivity; [by apply L12|exact Ha].
Qed.

Lemma evolves_same w w' :
  remote w' = remote w ->
  _playlist_tracks_cache w' = _playlist_tracks_cache w ->
  evolves w w'.
Proof.
  intros Hr Hc. split.
  - intros q pl _ H. exists pl. by rewrite Hr.
  - intros q s _ H. left. by rewrite <- Hc.
Qed.

Lemma evolves_read pid w :
  evolves w
    (set_tracks_cache <[pid := live_tracks (remote w) pid]>
       (log_call (GetPlaylistItems pid) w)).
Proof.
  split.
  - intros q pl _ H. by exists pl.
  - intros q s _ H.
    cbn [_playlist_tracks_cache set_tracks_cache log_call remote] in *.
    destruct (decide (pid = q)) as [<-|Hne].
    + rewrite lookup_insert_eq in H. injection H as <-. by right.
    + rewrite lookup_insert_ne in H by done. by left.
Qed.

Lemma evolves_insert pid pl pl' w :
  remote w !! pid = Some pl ->
  pl_name pl' = pl_name pl ->
  (forall u, u ∈ pl_tracks pl -> u ∈ pl_tracks pl') ->
  evolves w (set_remote <[pid := pl']> w).
Proof.
  intros Hp Hn Ht. split.
  - intros q pl0 _ H. cbn [remote set_remote].
    destruct (decide (pid = q)) as [<-|Hne].
    + rewrite lookup_insert_eq. exists pl'.
      assert (pl0 = pl) as -> by congruence. done.
    + rewrite lookup_insert_ne by done. by exists pl0.
  - intros q s _ H. by left.
Qed.

Lemma evolves_create sp pl w :
  fresh_ids sp ->
  evolves w (set_remote <[sp_new_id sp (remote w) := pl]> w).
Proof.
  intros Hf. split.
  - intros q pl0 _ H. cbn [remote set_remote].
    destruct (decide (sp_new_id sp (remote w) = q)) as [<-|Hne].
    + rewrite Hf in H. discriminate.
    + rewrite lookup_insert_ne by done. by exists pl0.
  - intros q s _ H. by left.
Qed.

Lemma evolves_delete pid w : Del pid -> evolves w (set_remote (delete pid) w).
Proof.
  intros Hs. split.
  - intros q pl Hq H. cbn [remote set_remote].
    rewrite lookup_delete_ne by (intros ->; done). by exists pl.
  - intros q s _ H. by left.
Qed.

Lemma steps_evolves_tracks sp pid force :
  steps evolves (get_playlist_tracks sp pid force).
Proof.
  intros w. rewrite get_playlist_tracks_run.
  destruct (if force then None else _playlist_tracks_cache w !! pid);
    [reflexivity|apply evolves_read].
Qed.

Lemma steps_evolves_description rt cfg sp user_id pid track_uris :
  steps evolves
    (_update_playlist_description_with_genres rt cfg sp user_id pid
       track_uris).
Proof.
  assert (forall p snap, steps evolves (remember_snapshot rt p snap)) as Hrem.
  { intros p snap.
    apply steps_remember_snapshot; try tc_solve.
    intros c w. by apply evolves_same. }
  assert (forall p d, steps evolves (sp_user_playlist_change_details sp p d))
    as Hchange.
  { intros p d. apply steps_change_details; try tc_solve.
    - intros w. by apply evolves_same.
    - intros w pl Hpl. by eapply evolves_insert. }
  unfold _update_playlist_description_with_genres, marker_unchanged,
    resolve_track_uris, refresh_description, push_description,
    _load_snapshot_cache, json_get.
  steps_go;
    try (apply steps_sp_playlist; try tc_solve; intros;
         by apply evolves_same);
    try apply steps_evolves_tracks;
    try apply Hchange;
    try apply Hrem.
Qed.

Lemma steps_evolves_safe_delete sp q name backup verify :
  Del q -> steps evolves (safe_delete_playlist sp q name backup verify).
Proof.
  intros Hq. unfold safe_delete_playlist.
  steps_go;
    try apply steps_evolves_tracks;
    try (by apply evolves_same).
  all: apply steps_unfollow; try tc_solve; intros;
    [by apply evolves_same|by apply evolves_delete].
Qed.

Lemma steps_evolves_add_items sp pid uris :
  steps evolves (sp_playlist_add_items sp pid uris).
Proof.
  apply steps_add_items; try tc_solve.
  - intros w. by apply evolves_same.
  - intros w pl Hpl. eapply evolves_insert; [done|done|].
    intros u Hu. cbn. apply elem_of_app. by left.
Qed.

Lemma steps_evolves_create sp name d :
  fresh_ids sp -> steps evolves (sp_user_playlist_create sp name d).
Proof.
  intros Hf. apply steps_create; try tc_solve.
  - intros w. by apply evolves_same.
  - intros w snap. by apply evolves_create.
Qed.

End Evolves.

Lemma evolves_mono (Del Del' : string -> Prop) w w' :
  (forall q, Del q -> Del' q) -> evolves Del w w' -> evolves Del' w w'.
Proof.
  intros H [Hg Hc]. split.
  - intros q pl Hq. apply Hg. auto.
  - intros q s Hq. apply Hc. auto.
Qed.

(** Decompose a run down to the steps [evolves] has a lemma for. *)
Ltac evolving Hf :=
  repeat match goal with
    | |- steps _ (get_playlist_tracks _ _ _) => apply steps_evolves_tracks
    | |- steps _ (_update_playlist_description_with_genres _ _ _ _ _ _) =>
        apply steps_evolves_description
    | |- steps _ (sp_playlist_add_items _ _ _) =>
        apply steps_evolves_add_items
    | |- steps _ (sp_user_playlist_create _ _ _) =>
        apply (steps_evolves_create _ _ _ _ Hf)
    | |- steps _ (ret _) => apply steps_ret; tc_solve
    | |- steps _ (raise _) => apply steps_raise; tc_solve
    | |- steps _ (_ ≫= _) => apply steps_bind; try tc_solve; [|intros ?]
    | |- steps _ (for_each _ _) =>
        apply steps_for_each; try tc_solve; intros ? ?
    | |- steps _ (fold_each _ _ _) =>
        apply steps_fold_each; try tc_solve; intros ? ? ?
    | |- steps _ (match ?x with _ => _ end) => destruct x
    end.

(** ** Runs that leave the other playlists as they are

    [kept T]: a playlist outside [T] still has its name and its
    tracks. *)
Section Kept.
Context (T : string -> Prop).

Definition kept : relation world :=
  fun w w' =>
    forall q pl, ~ T q -> remote w !! q = Some pl ->
                 content_of <$> remote w' !! q = Some (content_of pl).

Global Instance kept_refl : Reflexive kept.
Proof. intros w q pl _ H. by rewrite H. Qed.

Global Instance kept_trans : Transitive kept.
Proof.
  intros w1 w2 w3 H12 H23 q pl Hq H.
  specialize (H12 q pl Hq H).
  destruct (remote w2 !! q) as [pl2|] eqn:E; [|done].
  rewrite (H23 q pl2 Hq E). exact H12.
Qed.

Lemma kept_same w w' : remote w' = remote w -> kept w w'.
Proof. intros Hr q pl _ H. by rewrite Hr, H. Qed.

Lemma kept_content w w' : same_content w w' -> kept w w'.
Proof. intros Hc q pl _ H. by rewrite Hc, H. Qed.

Lemma kept_delete pid w : T pid -> kept w (set_remote (delete pid) w).
Proof.
  intros Hp q pl Hq H. cbn [remote set_remote].
  rewrite lookup_delete_ne by (intros ->; done). by rewrite H.
Qed.

Lemma steps_kept_tracks sp pid force :
  steps kept (get_playlist_tracks sp pid force).
Proof.
  intros w. rewrite get_playlist_tracks_run.
  destruct (if force then None else _playlist_tracks_cache w !! pid);
    [reflexivity|by apply kept_same].
Qed.

Lemma steps_kept_safe_delete sp q name backup verify :
  T q -> steps kept (safe_delete_playlist sp q name backup verify).
Proof.
  intros Hq. unfold safe_delete_playlist.
  steps_go;
    try apply steps_kept_tracks;
    try (by apply kept_same).
  all: apply steps_unfollow; try tc_solve; intros;
    [by apply kept_same|by apply kept_delete].
Qed.

End Kept.

Lemma kept_mono (T T' : string -> Prop) w w' :
  (forall q, T q -> T' q) -> kept T w w' -> kept T' w w'.
Proof. intros H Hk q pl Hq. apply Hk. auto. Qed.

Lemma kept_live (T : string -> Prop) w w' q :
  kept T w w' -> ~ T q -> is_Some (remote w !! q) ->
  live_tracks (remote w') q = live_tracks (remote w) q.
Proof.
  intros Hk Hq [pl Hpl]. specialize (Hk q pl Hq Hpl). unfold live_tracks.
  rewrite Hpl. destruct (remote w' !! q) as [pl'|]; [|done].
  cbn in Hk. injection Hk as _ Ht. by rewrite Ht.
Qed.

(** ** One year and type *)

(** Every set the track cache holds is the live one. *)
Definition cache_current (w : world) : Prop :=
  forall p s,
    _playlist_tracks_cache w !! p = Some s -> s = live_tracks (remote w) p.

(** After a run from a world whose cache was current, a playlist the
    run could not delete is read with a track set between its tracks
    then and its tracks now. *)
Lemma evolves_seen (Del : string -> Prop) wb w q :
  cache_current wb -> evolves Del wb w -> ~ Del q ->
  live_tracks (remote wb) q ⊆ seen_tracks w q
  /\ seen_tracks w q ⊆ live_tracks (remote w) q.
Proof.
  intros Hc He Hq.
  pose proof (evolves_live Del wb w q He Hq) as Hl.
  unfold seen_tracks.
  destruct (_playlist_tracks_cache w !! q) as [s|] eqn:E; [|done].
  destruct He as [_ HC]. destruct (HC q s Hq E) as [H0|[Ha Hb]]; [|done].
  apply Hc in H0. by subst s.
Qed.

Lemma get_playlist_tracks_total sp pid force :
  total (get_playlist_tracks sp pid force).
Proof.
  intros w. rewrite get_playlist_tracks_run.
  destruct (if force then None else _playlist_tracks_cache w !! pid);
    by eexists.
Qed.

Section Runs.
Context (rt : runtime) (cfg : config) (sp : client).
Hypothesis Hfresh : fresh_ids sp.

Lemma delete_verified_monthlies_total pid monthlies :
  total (delete_verified_monthlies sp pid monthlies).
Proof.
  unfold delete_verified_monthlies.
  apply total_bind; [apply get_playlist_tracks_total|intros final].
  apply total_for_each. intros m. apply total_try_except.
  intros _. apply total_ret.
Qed.

Lemma delete_verified_monthlies_evolves (Del : string -> Prop) pid monthlies :
  (forall m, m ∈ monthlies -> Del m.2) ->
  steps (evolves Del) (delete_verified_monthlies sp pid monthlies).
Proof.
  intros HD. unfold delete_verified_monthlies.
  apply steps_bind; try tc_solve; [apply steps_evolves_tracks|intros final].
  apply steps_for_each; try tc_solve. intros m Hm.
  apply steps_try_except; try tc_solve;
    [|intros; apply steps_ret; tc_solve].
  apply steps_bind; try tc_solve; [apply steps_evolves_tracks|intros mt].
  destruct (bool_decide _); [apply steps_ret; tc_solve|].
  apply steps_bind; try tc_solve;
    [apply steps_evolves_safe_delete; auto|intros r].
  destruct r.1; [|apply steps_ret; tc_solve].
  apply steps_invalidate; try tc_solve. intros w c. by apply evolves_same.
Qed.

Lemma merge_into_yearly_evolves (Del : string -> Prop) existing ms ytt yth
    history user_id year t :
  steps (evolves Del)
    (merge_into_yearly rt cfg sp existing ms ytt yth history user_id year t).
Proof.
  unfold merge_into_yearly, gather_monthly_tracks, ensure_yearly,
    formatted_description, add_missing_valid_tracks.
  cbv zeta. evolving Hfresh.
Qed.

Lemma consolidate_year_type_evolves (Del : string -> Prop) existing ms ytt yth
    history user_id year t :
  (forall m, m ∈ monthlies_of ms year t -> Del m.2) ->
  steps (evolves Del)
    (consolidate_year_type rt cfg sp existing ms ytt yth history user_id
       year t).
Proof.
  intros HD. unfold consolidate_year_type.
  apply steps_bind; try tc_solve; [apply merge_into_yearly_evolves|].
  intros [pid|]; cbn beta iota; [|apply steps_ret; tc_solve].
  destruct (monthlies_of ms year t) eqn:E; [apply steps_ret; tc_solve|].
  apply delete_verified_monthlies_evolves. exact HD.
Qed.

Lemma delete_verified_monthlies_kept (T : string -> Prop) pid monthlies :
  (forall m, m ∈ monthlies -> T m.2) ->
  steps (kept T) (delete_verified_monthlies sp pid monthlies).
Proof.
  intros HD. unfold delete_verified_monthlies.
  apply steps_bind; try tc_solve; [apply steps_kept_tracks|intros final].
  apply steps_for_each; try tc_solve. intros m Hm.
  apply steps_try_except; try tc_solve;
    [|intros; apply steps_ret; tc_solve].
  apply steps_bind; try tc_solve; [apply steps_kept_tracks|intros mt].
  destruct (bool_decide _); [apply steps_ret; tc_solve|].
  apply steps_bind; try tc_solve;
    [apply steps_kept_safe_delete; auto|intros r].
  destruct r.1; [|apply steps_ret; tc_solve].
  apply steps_invalidate; try tc_solve. intros w c. by apply kept_same.
Qed.

(** The listed yearly playlist of a year and type, if any, is live
    under its name and is not read with tracks it does not have. *)
Definition yearly_ready (existing : list (string * string)) (year : Z)
    (t : playlist_type) (w : world) : Prop :=
  forall pid,
    dict_get (yearly_playlist_name cfg year t) existing = Some pid ->
    exists pl,
      remote w !! pid = Some pl
      /\ pl_name pl = yearly_playlist_name cfg year t
      /\ seen_tracks w pid ⊆ live_tracks (remote w) pid.

(** [q] is the listed yearly playlist of the year and type. *)
Definition listed_yearly (existing : list (string * string)) (year : Z)
    (t : playlist_type) (q : string) : Prop :=
  dict_get (yearly_playlist_name cfg year t) existing = Some q.

(** Playlist [pid] bears the yearly name at [w'] and holds the
    non-empty [tracks]; it is the listed yearly playlist, or one that
    did not exist at [w] and holds nothing else and nothing twice. *)
Definition holds_yearly (existing : list (string * string)) (year : Z)
    (t : playlist_type) (tracks : string -> Prop) (w w' : world)
    (pid : string) : Prop :=
  exists pl,
    remote w' !! pid = Some pl
    /\ pl_name pl = yearly_playlist_name cfg year t
    /\ (forall u, tracks u -> u <> ""%string -> u ∈ pl_tracks pl)
    /\ (listed_yearly existing year t pid
        \/ (remote w !! pid = None
            /\ NoDup (pl_tracks pl)
            /\ forall u, u ∈ pl_tracks pl -> tracks u /\ u <> ""%string)).

Lemma filter_nonempty_elem (u : string) l :
  u ∈ List.filter nonempty l <-> u ∈ l /\ u <> ""%string.
Proof.
  rewrite !list_elem_of_In, filter_In.
  destruct u; cbn; split; intros [? ?]; done.
Qed.

Lemma ensure_yearly_run existing ms user_id year t tracks w :
  (forall d p, is_Some (format_playlist_description rt cfg d p t)) ->
  yearly_ready existing year t w ->
  exists r w',
    ensure_yearly rt cfg sp existing ms user_id year t tracks w = (Ok r, w')
    /\ kept (listed_yearly existing year t) w w'
    /\ (year_has_monthlies ms year = true ->
        exists pid pl,
          r = Some pid
          /\ remote w' !! pid = Some pl
          /\ pl_name pl = yearly_playlist_name cfg year t
          /\ (forall u, u ∈ tracks -> u <> ""%string -> u ∈ pl_tracks pl)
          /\ (listed_yearly existing year t pid
              \/ (remote w !! pid = None
                  /\ pl_tracks pl = List.filter nonempty tracks))).
Proof.
  intros Hfmt Hready. unfold ensure_yearly, listed_yearly. cbv zeta.
  destruct (dict_get (yearly_playlist_name cfg year t) existing)
    as [pid|] eqn:Eget.
  - destruct (year_has_monthlies ms year); cbn [negb].
    2:{ exists None, w. split; [done|]. split; [reflexivity|discriminate]. }
    destruct (Hready pid Eget) as (pl & Hpl & Hname & Hcoh).
    rewrite bind_run, add_missing_valid_tracks_filter.
    destruct (add_missing_valid_tracks_spec sp pid
                (List.filter nonempty tracks) w pl Hpl
                (filter_nonempty_Forall tracks))
      as (Hok & _ & pl' & Hrem & Hname' & Htracks).
    destruct (add_missing_valid_tracks sp pid (List.filter nonempty tracks) w)
      as [r1 w1].
    cbn [fst snd] in *. subst r1. rewrite bind_run.
    destruct (update_description_total rt cfg sp user_id pid None w1)
      as [b Hb].
    pose proof (update_description_content rt cfg sp user_id pid None w1)
      as Hc.
    destruct (_update_playlist_description_with_genres rt cfg sp user_id pid
                None w1) as [r2 w2].
    cbn [fst snd] in *. subst r2. mrun.
    exists (Some pid), w2. split; [done|]. split.
    { intros q pl0 Hq H0. rewrite Hc, Hrem, lookup_insert_ne, H0; [done|].
      intros ->. by apply Hq. }
    intros _. specialize (Hc pid).
    rewrite Hrem, lookup_insert_eq in Hc. cbn in Hc.
    destruct (remote w2 !! pid) as [pl2|] eqn:E2; [|done].
    injection Hc as Hn2 Ht2.
    exists pid, pl2. split; [done|]. split; [done|]. split; [congruence|].
    split; [|by left].
    intros u Hu Hne. rewrite Ht2, Htracks. apply elem_of_app.
    destruct (decide (u ∈ seen_tracks w pid)) as [Hs|Hs].
    + left. apply Hcoh in Hs. unfold live_tracks in Hs. rewrite Hpl in Hs.
      by apply elem_of_list_to_set in Hs.
    + right. unfold difference.
      apply list_elem_of_In, filter_In. split.
      * apply list_elem_of_In. by apply filter_nonempty_elem.
      * by apply bool_decide_eq_true.
  - unfold formatted_description.
    destruct (Hfmt (yearly_description t) (str_int year)) as [text ->].
    rewrite bind_run. cbn [ret]. rewrite bind_run, create_run.
    set (d := py_of_string text).
    set (pid := sp_new_id sp (remote w)).
    set (pl0 := {| pl_name := yearly_playlist_name cfg year t;
                   pl_description := d; pl_snapshot_id := _;
                   pl_tracks := [] |}).
    set (w1 := set_remote <[pid := pl0]> (log_call (CreatePlaylist _ d) w)).
    set (valid := List.filter nonempty tracks).
    rewrite (for_each_ext _ _ (sp_playlist_add_items sp pid)).
    2:{ intros chunk Hc.
        pose proof (_chunked_bounds valid 50 ltac:(lia)) as Hb.
        rewrite Forall_forall in Hb. destruct (Hb _ Hc) as [Hne _].
        by destruct chunk. }
    rewrite bind_run.
    destruct (add_chunks_run sp pid (_chunked valid 50) w1 pl0)
      as (w2 & -> & pl & pl' & Hpl & Hrem & Hname & _ & Htracks & _).
    { unfold w1. cbn. apply lookup_insert_eq. }
    rewrite bind_run.
    destruct (update_description_total rt cfg sp user_id pid (Some valid) w2)
      as [b Hb].
    pose proof (update_description_content rt cfg sp user_id pid
                  (Some valid) w2) as Hc.
    destruct (_update_playlist_description_with_genres rt cfg sp user_id pid
                (Some valid) w2) as [r2 w3].
    cbn [fst snd] in *. subst r2. mrun.
    exists (Some pid), w3. split; [done|].
    assert (pl = pl0) as ->.
    { unfold w1 in Hpl. cbn in Hpl. rewrite lookup_insert_eq in Hpl.
      congruence. }
    split.
    { intros q pl1 _ H1.
      assert (q <> pid) as Hne.
      { intros Heq. rewrite Heq in H1. unfold pid in H1.
        by rewrite Hfresh in H1. }
      rewrite Hc, Hrem, lookup_insert_ne by done. unfold w1. cbn.
      rewrite lookup_insert_ne by done. by rewrite H1. }
    intros _. specialize (Hc pid).
    rewrite Hrem, lookup_insert_eq in Hc. cbn in Hc.
    destruct (remote w3 !! pid) as [pl3|] eqn:E3; [|done].
    injection Hc as Hn3 Ht3.
    assert (pl_tracks pl3 = valid) as Hexact.
    { rewrite Ht3, Htracks. cbn [pl_tracks pl0 app].
      by rewrite _chunked_concat by lia. }
    exists pid, pl3. split; [done|]. split; [done|].
    split; [by rewrite Hn3, Hname|].
    split; [|right; split; [apply Hfresh|exact Hexact]].
    intros u Hu Hne. rewrite Hexact. by apply filter_nonempty_elem.
Qed.

Lemma merge_into_yearly_run existing ms ytt yth history user_id year t w :
  (forall d p, is_Some (format_playlist_description rt cfg d p t)) ->
  yearly_ready existing year t w ->
  exists r w',
    merge_into_yearly rt cfg sp existing ms ytt yth history user_id year t w
    = (Ok r, w')
    /\ kept (listed_yearly existing year t) w w'
    /\ ((exists m u, m ∈ monthlies_of ms year t /\ u ∈ seen_tracks w m.2) ->
        exists pid,
          r = Some pid
          /\ holds_yearly existing year t
               (fun u => exists m,
                           m ∈ monthlies_of ms year t
                           /\ u ∈ seen_tracks w m.2)
               w w' pid).
Proof.
  intros Hfmt Hready. unfold merge_into_yearly. cbv zeta.
  rewrite bind_run. unfold gather_monthly_tracks.
  destruct (gather_loop_run sp (seen_tracks w) (monthlies_of ms year t) [] w)
    as (w1 & -> & Hseen & Hrem); [done|].
  fold (gathered (seen_tracks w) (monthlies_of ms year t)).
  destruct (gathered_spec (seen_tracks w) (monthlies_of ms year t))
    as [Hnd Hg].
  remember (gathered (seen_tracks w) (monthlies_of ms year t)) as g eqn:Eg.
  set (src := match g with
              | [] => fallback_tracks ytt yth year t
              | _ :: _ => g
              end).
  pose proof (resort_from_monthly_perm history year t
                match monthlies_of ms year t with
                | [] => false
                | _ :: _ => true
                end src) as Hperm.
  remember (resort_from_monthly history year t
              match monthlies_of ms year t with
              | [] => false
              | _ :: _ => true
              end src) as all eqn:Ea.
  assert (yearly_ready existing year t w1) as Hready1.
  { intros pid Hpid. destruct (Hready pid Hpid) as (pl & Hpl & Hn & Hs).
    exists pl. rewrite Hrem. split; [done|]. split; [done|].
    unfold seen_tracks in *. by rewrite Hseen. }
  assert (forall T, kept T w w1) as Hk1 by (intros T; by apply kept_same).
  destruct (ensure_yearly_run existing ms user_id year t all w1 Hfmt Hready1)
    as (r & w' & Hrun & Hk & Hres).
  destruct all as [|a all'] eqn:Eall.
  - exists None, w1. split; [done|]. split; [apply Hk1|].
    intros (m & u & Hm & Hu). exfalso.
    assert (u ∈ g) as Hug by (apply Hg; by exists m).
    assert (src = g) as Hsrc by (unfold src; destruct g;
                                 [by apply elem_of_nil in Hug|done]).
    rewrite Hsrc in Hperm. rewrite <- Hperm in Hug.
    by apply elem_of_nil in Hug.
  - rewrite <- Eall in *. exists r, w'. split; [done|].
    split; [by transitivity w1|].
    intros (m & u & Hm & Hu).
    destruct Hres as (pid & pl & -> & Hpl & Hn & Ht & Hor).
    { by eapply monthlies_of_year. }
    assert (u ∈ g) as Hug by (apply Hg; by exists m).
    assert (src = g) as Hsrc by (unfold src; destruct g;
                                 [by apply elem_of_nil in Hug|done]).
    rewrite Hsrc in Hperm.
    exists pid. split; [done|]. exists pl. split; [done|]. split; [done|].
    split.
    + intros u' (m' & Hm' & Hu') Hne. apply Ht; [|done].
      rewrite Hperm. apply Hg. by exists m'.
    + destruct Hor as [Hl|[Hnone Hexact]]; [by left|right].
      split; [by rewrite <- Hrem|]. rewrite Hexact. split.
      * apply NoDup_ListNoDup, List.NoDup_filter, NoDup_ListNoDup.
        by rewrite Hperm.
      * intros u' Hu'. apply filter_nonempty_elem in Hu' as [Hu' Hne].
        split; [|done]. rewrite Hperm in Hu'. by apply Hg.
Qed.

(** [q] is one of the year's monthly playlists of the type. *)
Definition monthly_id (ms : list monthly_entry) (year : Z) (t : playlist_type)
    (q : string) : Prop :=
  exists m, m ∈ monthlies_of ms year t /\ m.2 = q.

Lemma consolidate_year_type_run existing ms ytt yth history user_id year t w :
  (forall d p, is_Some (format_playlist_description rt cfg d p t)) ->
  yearly_ready existing year t w ->
  (forall pid, listed_yearly existing year t pid -> ~ monthly_id ms year t pid) ->
  (forall q, monthly_id ms year t q -> is_Some (remote w !! q)) ->
  exists w',
    consolidate_year_type rt cfg sp existing ms ytt yth history user_id
      year t w = (Ok tt, w')
    /\ kept (fun q => monthly_id ms year t q \/ listed_yearly existing year t q)
         w w'
    /\ ((exists m u, m ∈ monthlies_of ms year t /\ u ∈ seen_tracks w m.2) ->
        exists pid,
          holds_yearly existing year t
            (fun u => exists m,
                        m ∈ monthlies_of ms year t /\ u ∈ seen_tracks w m.2)
            w w' pid).
Proof.
  intros Hfmt Hready Hother Hlive. unfold consolidate_year_type.
  rewrite bind_run.
  destruct (merge_into_yearly_run existing ms ytt yth history user_id year t
              w Hfmt Hready) as (r & w1 & -> & Hk1 & Hres).
  assert (kept (fun q => monthly_id ms year t q
                         \/ listed_yearly existing year t q) w w1) as Hk1'.
  { eapply kept_mono; [|exact Hk1]. tauto. }
  destruct r as [pid|].
  2:{ exists w1. split; [done|]. split; [done|]. intros H.
      by destruct (Hres H) as (pid & ? & _). }
  destruct (monthlies_of ms year t) as [|m0 l] eqn:E.
  { exists w1. split; [done|]. split; [done|]. intros (m & u & Hm & _).
    by apply elem_of_nil in Hm. }
  rewrite <- E in *.
  destruct (delete_verified_monthlies_total pid (monthlies_of ms year t) w1)
    as [[] Hok].
  pose proof (delete_verified_monthlies_kept (monthly_id ms year t)
                pid (monthlies_of ms year t)) as Hk2.
  specialize (Hk2 ltac:(intros m Hm; by exists m) w1).
  destruct (delete_verified_monthlies sp pid (monthlies_of ms year t) w1)
    as [r2 w2].
  cbn [fst snd] in *. subst r2. exists w2. split; [done|]. split.
  { transitivity w1; [done|]. eapply kept_mono; [|exact Hk2]. tauto. }
  intros H. destruct (Hres H) as (pid' & [= <-] & pl & Hpl & Hn & Ht & Hor).
  exists pid.
  assert (~ monthly_id ms year t pid) as Hnm.
  { destruct Hor as [Hl|[Hnone _]]; [by apply Hother|].
    intros Hm. destruct (Hlive pid Hm) as [x Hx]. congruence. }
  specialize (Hk2 pid pl Hnm Hpl).
  destruct (remote w2 !! pid) as [pl2|] eqn:Epl2; [|done].
  cbn in Hk2. injection Hk2 as Hn2 Ht2.
  exists pl2. split; [done|]. split; [congruence|]. rewrite Ht2.
  split; [done|done].
Qed.

End Runs.

(** ** The loop over years and types *)

(** The pairs the two nested loops (lines 286, 290) go through, in
    order. *)
Definition year_types (years : list Z) (types : list (playlist_type * string))
    : list (Z * playlist_type) :=
  flat_map (fun year =>
              map (fun tp : playlist_type * string => (year, tp.1)) types)
           years.

Lemma for_each_app {A} (l1 l2 : list A) (body : A -> M unit) w :
  for_each (l1 ++ l2) body w = (for_each l1 body ;; for_each l2 body) w.
Proof.
  revert w. induction l1 as [|x l1 IH]; intros w; [done|].
  cbn [app for_each]. rewrite !bind_run.
  destruct (body x w) as [[[]|e] w1]; [|done]. by rewrite IH, bind_run.
Qed.

Lemma for_each_map {A B} (f : A -> B) (l : list A) (body : B -> M unit) w :
  for_each (map f l) body w = for_each l (fun x => body (f x)) w.
Proof.
  revert w. induction l as [|x l IH]; intros w; [done|].
  cbn [map for_each]. rewrite !bind_run.
  by destruct (body (f x) w) as [[[]|e] w1].
Qed.

Lemma for_each_year_types years types
    (body : Z -> playlist_type -> M unit) w :
  for_each years (fun year => for_each types (fun tp => body year tp.1)) w
  = for_each (year_types years types) (fun g => body g.1 g.2) w.
Proof.
  revert w. induction years as [|year years IH]; intros w; [done|].
  cbn [year_types flat_map for_each].
  rewrite for_each_app, !bind_run, for_each_map. cbn [fst snd].
  destruct (for_each types _ w) as [[[]|e] w1]; [|done]. apply IH.
Qed.

Lemma year_types_elem years types year t :
  (year, t) ∈ year_types years types <-> year ∈ years /\ t ∈ types.*1.
Proof.
  unfold year_types.
  rewrite list_elem_of_In, in_flat_map. split.
  - intros (y & Hy & Hin). apply in_map_iff in Hin as (tp & [= <- <-] & Htp).
    split; [by apply list_elem_of_In|].
    apply list_elem_of_fmap. exists tp. split; [done|].
    by apply list_elem_of_In.
  - intros [Hy Ht]. apply list_elem_of_fmap in Ht as (tp & -> & Htp).
    exists year. split; [by apply list_elem_of_In|].
    apply in_map_iff. exists tp. split; [done|]. by apply list_elem_of_In.
Qed.

Lemma year_types_NoDup years types :
  NoDup years -> NoDup types.*1 -> NoDup (year_types years types).
Proof.
  intros Hy Ht. induction Hy as [|year years Hnotin Hy IH]; [constructor|].
  cbn [year_types flat_map]. apply NoDup_app. split; [|split; [|exact IH]].
  - clear -Ht. induction types as [|tp types IHt]; [constructor|].
    cbn in *. apply NoDup_cons in Ht as [Hn Ht].
    constructor; [|by apply IHt].
    intros Hin. apply list_elem_of_In, in_map_iff in Hin as (tp' & [= E] & H').
    apply Hn. apply list_elem_of_fmap. exists tp'. split; [done|].
    by apply list_elem_of_In.
  - intros [y t] Hin Hin'.
    apply list_elem_of_In, in_map_iff in Hin as (tp & [= <- <-] & _).
    apply (year_types_elem years types) in Hin' as [Hin' _]. done.
Qed.

Section Loop.
Context (rt : runtime) (cfg : config) (sp : client).
Context (cutoff : string) (existing : list (string * string)).
Context (ytt : list (Z * list string)).
Context (yth : list (Z * list (playlist_type * list string))).
Context (history : option (list history_event)) (user_id : string).
Context (wb : world).
Hypothesis Hfresh : fresh_ids sp.
Hypothesis Hfmt :
  forall d p t, is_Some (format_playlist_description rt cfg d p t).
Hypothesis Hlive :
  forall n i, (n, i) ∈ existing ->
              exists pl, remote wb !! i = Some pl /\ pl_name pl = n.
Hypothesis Hids : NoDup existing.*2.
Hypothesis Hcache : cache_current wb.

Local Notation "'ms'" := (select_monthly cfg cutoff existing).

(** The playlists the rounds for [gs] may delete. *)
Definition pending (gs : list (Z * playlist_type)) (q : string) : Prop :=
  exists g, g ∈ gs /\ monthly_id ms g.1 g.2 q.

(** The listed yearly playlists of [gs]. *)
Definition listed (gs : list (Z * playlist_type)) (q : string) : Prop :=
  exists g, g ∈ gs /\ listed_yearly cfg existing g.1 g.2 q.

Lemma pending_mono gs gs' q :
  (forall g, g ∈ gs -> g ∈ gs') -> pending gs q -> pending gs' q.
Proof. intros H (g & Hg & Hm). exists g. auto. Qed.

Lemma listed_mono gs gs' q :
  (forall g, g ∈ gs -> g ∈ gs') -> listed gs q -> listed gs' q.
Proof. intros H (g & Hg & Hm). exists g. auto. Qed.

Lemma monthlies_listed year t m :
  m ∈ monthlies_of ms year t -> m ∈ existing.
Proof.
  destruct m as [name pid]. intros Hm.
  apply monthlies_of_elem, select_monthly_elem in Hm. tauto.
Qed.

Lemma monthlies_group year t year' t' m :
  m ∈ monthlies_of ms year t -> m ∈ monthlies_of ms year' t' ->
  (year, t) = (year', t').
Proof.
  destruct m as [name pid]. intros Hm Hm'.
  apply monthlies_of_elem, select_monthly_elem in Hm as (_ & mn & Hp & _).
  apply monthlies_of_elem, select_monthly_elem in Hm' as (_ & mn' & Hp' & _).
  congruence.
Qed.

Lemma monthly_id_group g g' q :
  monthly_id ms g.1 g.2 q -> monthly_id ms g'.1 g'.2 q -> g = g'.
Proof.
  intros (m & Hm & <-) (m' & Hm' & Heq).
  assert (m' = m) as ->.
  { apply (NoDup_snd_inj existing); [done| | |done];
      by eapply monthlies_listed. }
  destruct g, g'. by eapply monthlies_group.
Qed.

Lemma monthly_id_live year t q :
  monthly_id ms year t q -> is_Some (remote wb !! q).
Proof.
  intros ([n i] & Hm & <-).
  destruct (Hlive n i (monthlies_listed _ _ _ Hm)) as (pl & Hpl & _).
  by exists pl.
Qed.

(** What the rounds for [gs] leave of the year and type [g]: one
    playlist under the yearly name with the non-empty tracks of the
    monthly playlists; when none was listed, with nothing else and
    nothing twice. *)
Definition merged (g : Z * playlist_type) (w' : world) : Prop :=
  exists pid pl,
    remote w' !! pid = Some pl
    /\ pl_name pl = yearly_playlist_name cfg g.1 g.2
    /\ (forall m u,
          m ∈ monthlies_of ms g.1 g.2 ->
          u ∈ live_tracks (remote wb) m.2 ->
          u <> ""%string -> u ∈ pl_tracks pl)
    /\ (dict_get (yearly_playlist_name cfg g.1 g.2) existing = None ->
        NoDup (pl_tracks pl)
        /\ forall u,
             u ∈ pl_tracks pl ->
             u <> ""%string
             /\ exists m, m ∈ monthlies_of ms g.1 g.2
                          /\ u ∈ live_tracks (remote wb) m.2).

Lemma groups_run (gs : list (Z * playlist_type)) :
  NoDup gs ->
  (forall g pid year t,
     g ∈ gs -> listed_yearly cfg existing g.1 g.2 pid ->
     ~ monthly_id ms year t pid) ->
  forall (Del Tch : string -> Prop) w,
    evolves Del wb w ->
    kept Tch wb w ->
    (forall q, pending gs q -> ~ Del q /\ ~ Tch q) ->
    (forall q, listed gs q -> ~ Del q) ->
    exists w',
      for_each gs
        (fun g => consolidate_year_type rt cfg sp existing ms ytt yth history
                    user_id g.1 g.2) w
      = (Ok tt, w')
      /\ evolves (pending gs) w w'
      /\ kept (fun q => pending gs q \/ listed gs q) w w'
      /\ forall g,
           g ∈ gs ->
           (exists m u, m ∈ monthlies_of ms g.1 g.2
                        /\ u ∈ live_tracks (remote wb) m.2) ->
           merged g w'.
Proof.
  induction gs as [|g gs IH]; intros Hnd Hy Del Tch w Hev Hkept Hpend Hlisted.
  { exists w. split; [done|]. split; [reflexivity|]. split; [reflexivity|].
    intros g Hg. by apply elem_of_nil in Hg. }
  apply NoDup_cons in Hnd as [Hg_notin Hnd].
  cbn [for_each]. rewrite bind_run.
  assert (forall g' q, g' ∈ g :: gs -> monthly_id ms g'.1 g'.2 q ->
            ~ Del q /\ ~ Tch q /\ is_Some (remote w !! q)
            /\ seen_tracks w q = live_tracks (remote wb) q) as Hmon.
  { intros g' q Hg' Hm.
    destruct (Hpend q) as [HnD HnT]; [by exists g'|].
    split; [done|]. split; [done|].
    destruct (monthly_id_live _ _ _ Hm) as [pl Hpl].
    destruct (proj1 Hev q pl HnD Hpl) as (pl' & Hpl' & _).
    split; [by rewrite Hpl'|].
    destruct (evolves_seen Del wb w q Hcache Hev HnD) as [Ha Hb].
    rewrite (kept_live Tch wb w q Hkept HnT) in Hb by (by exists pl).
    apply set_eq. intros u. split; [apply Hb|apply Ha]. }
  assert (forall g' q, g' ∈ g :: gs -> listed_yearly cfg existing g'.1 g'.2 q ->
            exists pl, remote w !! q = Some pl
                       /\ pl_name pl = yearly_playlist_name cfg g'.1 g'.2
                       /\ seen_tracks w q ⊆ live_tracks (remote w) q) as Hyl.
  { intros g' q Hg' Hq.
    destruct (Hlive _ _ (dict_get_elem _ _ _ Hq)) as (pl & Hpl & Hn).
    assert (~ Del q) as HnD by (apply Hlisted; by exists g').
    destruct (proj1 Hev q pl HnD Hpl) as (pl' & Hpl' & Hn' & _).
    exists pl'. split; [done|]. split; [congruence|].
    by eapply evolves_seen. }
  destruct (consolidate_year_type_run rt cfg sp Hfresh existing ms ytt yth
              history user_id g.1 g.2 w (fun d p => Hfmt d p g.2))
    as (w1 & Hrun1 & Hk1 & Hres).
  { intros pid Hpid. apply (Hyl g pid); [left|done]. }
  { intros pid Hpid. apply (Hy g pid g.1 g.2); [left|done]. }
  { intros q Hq. apply (Hmon g q); [left|done]. }
  pose proof (consolidate_year_type_evolves rt cfg sp Hfresh (pending [g])
                existing ms ytt yth history user_id g.1 g.2) as Hev1.
  specialize (Hev1 ltac:(intros m Hm; exists g;
                         split; [apply list_elem_of_singleton; done|];
                         by exists m) w).
  rewrite Hrun1 in *. cbn [snd] in Hev1.
  assert (forall q, pending gs q -> ~ pending [g] q) as Hdisj.
  { intros q (g' & Hg' & Hm') (g0 & Hg0 & Hm0).
    apply list_elem_of_singleton in Hg0 as ->.
    by rewrite (monthly_id_group g g' q Hm0 Hm') in Hg_notin. }
  destruct (IH Hnd) with (Del := fun q => Del q \/ pending [g] q)
    (Tch := fun q => Tch q \/ monthly_id ms g.1 g.2 q
                     \/ listed_yearly cfg existing g.1 g.2 q) (w := w1)
    as (w' & Hrun & Hev' & Hk' & Hres').
  { intros g' pid year t Hg'. apply Hy. by right. }
  { transitivity w.
    - eapply evolves_mono; [|exact Hev]. tauto.
    - eapply evolves_mono; [|exact Hev1]. tauto. }
  { transitivity w.
    - eapply kept_mono; [|exact Hkept]. tauto.
    - eapply kept_mono; [|exact Hk1]. tauto. }
  { intros q Hq.
    destruct (Hpend q) as [HnD HnT].
    { eapply pending_mono; [|exact Hq]. intros; by right. }
    split.
    - intros [HD|Hg]; [done|]. by apply (Hdisj q).
    - intros [HT|[Hm|Hl]]; [done| |].
      + apply (Hdisj q Hq). exists g. split; [|done].
        by apply list_elem_of_singleton.
      + destruct Hq as (g' & _ & Hq).
        by apply (Hy g q g'.1 g'.2); [left|..]. }
  { intros q (g' & Hg' & Hq) [HD|(g0 & Hg0 & Hm0)].
    - apply (Hlisted q); [|done]. exists g'. split; [by right|done].
    - by apply (Hy g' q g0.1 g0.2); [right|..]. }
  exists w'. split; [exact Hrun|]. split; [|split].
  { transitivity w1.
    - eapply evolves_mono; [|exact Hev1]. intros q.
      apply pending_mono. intros g0 ->%list_elem_of_singleton. left.
    - eapply evolves_mono; [|exact Hev']. intros q.
      apply pending_mono. intros; by right. }
  { transitivity w1.
    - eapply kept_mono; [|exact Hk1]. intros q [Hm|Hl]; [left|right];
        exists g; (split; [left|done]).
    - eapply kept_mono; [|exact Hk']. intros q [Hm|Hl]; [left|right].
      + eapply pending_mono; [|exact Hm]. intros; by right.
      + eapply listed_mono; [|exact Hl]. intros; by right. }
  intros g0 Hg0 Hprem. apply elem_of_cons in Hg0 as [->|Hg0].
  2:{ by apply Hres'. }
  assert (forall m, m ∈ monthlies_of ms g.1 g.2 ->
            seen_tracks w m.2 = live_tracks (remote wb) m.2) as Hseen.
  { intros m Hm. apply (Hmon g m.2); [left|by exists m]. }
  destruct Hres as (pid & pl & Hpl & Hn & Ht & Hor).
  { destruct Hprem as (m & u & Hm & Hu). exists m, u.
    split; [done|]. by rewrite Hseen. }
  assert (~ pending gs pid) as Hnp.
  { intros (g' & Hg' & Hm'). destruct Hor as [Hl|[Hnone _]].
    - by apply (Hy g pid g'.1 g'.2); [left|..].
    - destruct (Hmon g' pid ltac:(by right) Hm') as (_ & _ & [x Hx] & _).
      congruence. }
  destruct Hor as [Hl|(Hnone & Hndp & Hsub)].
  - destruct (proj1 Hev' pid pl Hnp Hpl) as (pl' & Hpl' & Hn' & Ht').
    exists pid, pl'. split; [done|]. split; [congruence|]. split.
    + intros m u Hm Hu Hne. apply Ht', Ht; [|done]. exists m.
      split; [done|]. by rewrite Hseen.
    + intros Hnone. unfold listed_yearly in Hl. congruence.
  - assert (~ listed gs pid) as Hnl.
    { intros (g' & Hg' & Hl).
      destruct (Hyl g' pid ltac:(by right) Hl) as (x & Hx & _). congruence. }
    specialize (Hk' pid pl ltac:(tauto) Hpl).
    destruct (remote w' !! pid) as [pl'|] eqn:Epl'; [|done].
    cbn in Hk'. injection Hk' as Hn' Ht'.
    exists pid, pl'. split; [done|]. split; [congruence|]. rewrite Ht'.
    split.
    + intros m u Hm Hu Hne. apply Ht; [|done]. exists m.
      split; [done|]. by rewrite Hseen.
    + intros _. split; [done|]. intros u Hu.
      destruct (Hsub u Hu) as [(m & Hm & Hum) Hne]. split; [done|].
      exists m. split; [done|]. by rewrite <- Hseen.
Qed.

End Loop.

(** ** The whole run *)

Lemma playlist_types_NoDup cfg : NoDup (playlist_types cfg).*1.
Proof.
  unfold playlist_types.
  destruct (ENABLE_MONTHLY cfg), (ENABLE_MOST_PLAYED cfg),
    (ENABLE_DISCOVERY cfg); cbn;
    refine (bool_decide_unpack _ _); vm_compute; exact I.
Qed.

Lemma parse_monthly_type cfg name t year month_num :
  parse_monthly cfg name = Some (t, year, month_num) ->
  t ∈ (playlist_types cfg).*1.
Proof.
  unfold parse_monthly. intros H.
  destruct (match_type cfg (playlist_types cfg) name) as [[t' pattern]|]
    eqn:Ht; [|done].
  cbn in H.
  destruct (match_month name pattern) as [[mn remaining]|]; [|done].
  cbn in H. destruct (isdigit remaining); [|done].
  destruct (int_of_isdigit remaining); [|done]. cbn in H.
  injection H as <- _ _.
  apply head_omap_elem in Ht as (tp & Hin & Hf). cbv zeta in Hf.
  destruct (startswith name (OWNER_NAME cfg +:+ tp.2)); [|done].
  injection Hf as <- _. apply list_elem_of_fmap. by exists tp.
Qed.

Lemma years_to_consolidate_NoDup cfg existing ms ytt yth :
  NoDup (years_to_consolidate cfg existing ms ytt yth).
Proof.
  unfold years_to_consolidate, sorted_years.
  apply NoDup_ListNoDup, List.NoDup_filter, NoDup_ListNoDup.
  rewrite sort_by_perm. apply NoDup_remove_dups.
Qed.

Lemma years_to_consolidate_monthly cfg existing ms ytt yth e :
  e ∈ ms -> me_year e ∈ years_to_consolidate cfg existing ms ytt yth.
Proof.
  intros He. unfold years_to_consolidate.
  apply list_elem_of_In, filter_In. split.
  - apply list_elem_of_In. unfold sorted_years.
    apply sort_by_elem, elem_of_remove_dups, elem_of_app. left.
    apply list_elem_of_fmap. by exists e.
  - unfold needs_consolidation.
    assert (year_has_monthlies ms (me_year e) = true) as ->; [|done].
    apply existsb_exists. exists e. split; [by apply list_elem_of_In|].
    by apply bool_decide_eq_true.
Qed.




(** *** A five-digit year and a three-digit year

    The cutoff is compared as text: ["10000-01" <= "2024-08"], so the
    playlist of January 10000 is merged and deleted in November 2024,
    and ["999-12" <= "2024-08"] fails, so that of December 999 stays. *)

Definition year_10000 : world :=
  world_of
    [("p1", playlist_of "AJFindsJan10000" ["t:a"]);
     ("p2", playlist_of "AJFindsDec999" ["t:b"])]%string.


End Merging.

(* ===================================================================== *)
(** * The generic description helper *)
(* ===================================================================== *)

Module GenericSanitize.
Import PyStr Sanitize.
Local Open Scope Z_scope.

(** [DESCRIPTION_TRUNCATE_MARGIN] ([config.py], line 138) *)
Definition DESCRIPTION_TRUNCATE_MARGIN : Z := 10.

(** [sanitize_description(description, max_length)]; the argument is
    [None] for Python's [None]. *)
Definition sanitize_description (description : option (list Z))
    (max_length : Z) : list Z :=
  match description with
  | None => []
  | Some description =>
      let description :=
        List.filter (fun c => negb (in_control_class c)) description in
      if max_length <? len description then
        if bool_decide (NL ∈ description) then
          match split_on NL description with
          | line0 :: lines_tl =>
              if len line0 <=? max_length - DESCRIPTION_TRUNCATE_MARGIN then
                let remaining := max_length - len line0 - 5 in
                if 0 <? remaining then
                  line0 ++ [NL] ++ slice_to remaining (join NL lines_tl)
                  ++ ELLIPSIS
                else slice_to (max_length - 3) line0 ++ ELLIPSIS
              else slice_to (max_length - 3) description ++ ELLIPSIS
          | [] => slice_to (max_length - 3) description ++ ELLIPSIS
          end
        else slice_to (max_length - 3) description ++ ELLIPSIS
      else description
  end.

Example sanitize_description_short :
  sanitize_description (Some [72; 7; 105]) 300 = [72; 105].
Proof. vm_compute. reflexivity. Qed.

Lemma len_ellipsis : len ELLIPSIS = 3.
Proof. reflexivity. Qed.

Lemma cut_len k t : 3 <= k -> len (slice_to (k - 3) t ++ ELLIPSIS) <= k.
Proof.
  intros Hk. rewrite len_app, len_ellipsis.
  pose proof (slice_to_len (k - 3) t). lia.
Qed.

Lemma cut_elem k t c : c ∈ slice_to k t ++ ELLIPSIS -> c ∈ t \/ c = 46.
Proof.
  intros H. apply elem_of_app in H as [H|H].
  - left. eapply slice_to_sub, H.
  - right. unfold ELLIPSIS in H.
    repeat (apply elem_of_cons in H as [H|H]; [done|]).
    by apply elem_of_nil in H.
Qed.

Lemma sanitize_description_elem d m c :
  c ∈ sanitize_description (Some d) m ->
  c ∈ List.filter (fun c => negb (in_control_class c)) d \/ c = 46 \/ c = NL.
Proof.
  unfold sanitize_description.
  set (t := List.filter (fun c => negb (in_control_class c)) d).
  assert (forall k, c ∈ slice_to k t ++ ELLIPSIS -> c ∈ t \/ c = 46 \/ c = NL)
    as Hcut.
  { intros k H. destruct (cut_elem _ _ _ H); tauto. }
  destruct (m <? len t); [|tauto].
  destruct (bool_decide (NL ∈ t)); [|apply Hcut].
  destruct (split_on NL t) as [|line0 tl] eqn:E; [apply Hcut|].
  assert (forall l x, l ∈ line0 :: tl -> x ∈ l -> x ∈ t) as Hparts.
  { intros l x Hl Hx. eapply (split_on_elem NL t l); [by rewrite E|done]. }
  destruct (len line0 <=? m - DESCRIPTION_TRUNCATE_MARGIN); [|apply Hcut].
  destruct (0 <? m - len line0 - 5).
  - intros H. apply elem_of_app in H as [H|H].
    { left. apply (Hparts line0); [left|done]. }
    apply elem_of_app in H as [H|H].
    { apply list_elem_of_singleton in H. tauto. }
    destruct (cut_elem _ _ _ H) as [H'|H']; [|tauto].
    destruct (join_elem _ _ _ H') as [->|(l & Hl & Hc)]; [tauto|].
    left. apply (Hparts l); [by right|done].
  - intros H. destruct (cut_elem _ _ _ H) as [H'|H']; [|tauto].
    left. apply (Hparts line0); [left|done].
Qed.

(** X21.  For a limit of at least 3, the generic sanitiser returns
    a text of at most [max_length] code points; its result has none of
    the control characters it strips (U+0000..U+0008, U+000B, U+000C,
    U+000E..U+001F, U+007F); and a text within the limit is returned
    with only those characters removed. *)
Theorem sanitize_description_bounded (d : list Z) (max_length : Z) :
  3 <= max_length ->
  let out := sanitize_description (Some d) max_length in
  len out <= max_length
  /\ Forall (fun c => in_control_class c = false) out
  /\ (len d <= max_length ->
      out = List.filter (fun c => negb (in_control_class c)) d).
Proof.
  intros Hm. cbn zeta. split; [|split].
  - unfold sanitize_description.
    set (t := List.filter (fun c => negb (in_control_class c)) d).
    destruct (Z.ltb_spec max_length (len t)); [|done].
    destruct (bool_decide (NL ∈ t)); [|by apply cut_len].
    destruct (split_on NL t) as [|line0 tl]; [by apply cut_len|].
    unfold DESCRIPTION_TRUNCATE_MARGIN.
    destruct (Z.leb_spec (len line0) (max_length - 10)); [|by apply cut_len].
    destruct (Z.ltb_spec 0 (max_length - len line0 - 5)); [|by apply cut_len].
    rewrite !len_app, len_ellipsis.
    pose proof (slice_to_len (max_length - len line0 - 5) (join NL tl)).
    change (len [NL]) with 1. lia.
  - apply Forall_forall. intros c Hc.
    apply sanitize_description_elem in Hc as [Hc|[->| ->]]; [|done..].
    apply list_elem_of_In, filter_In in Hc as [_ Hc].
    by apply negb_true_iff in Hc.
  - intros Hlen. unfold sanitize_description.
    set (t := List.filter (fun c => negb (in_control_class c)) d).
    assert (len t <= len d) as Hle.
    { unfold len, t. pose proof (filter_length_le
        (fun c => negb (in_control_class c)) d). lia. }
    by destruct (Z.ltb_spec max_length (len t)); [lia|].
Qed.

Lemma sanitize_description_bounded_witness :
  let out := sanitize_description (Some (repeat 97 40 ++ [10] ++ repeat 98 40))
               50 in
  len out <= 50
  /\ Forall (fun c => in_control_class c = false) out
  /\ (len (repeat 97 40 ++ [10] ++ repeat 98 40) <= 50 ->
      out = List.filter (fun c => negb (in_control_class c))
              (repeat 97 40 ++ [10] ++ repeat 98 40)).
Proof.
  apply (sanitize_description_bounded
           (repeat 97 40 ++ [10] ++ repeat 98 40) 50).
  lia.
Defined.

End GenericSanitize.

(* ===================================================================== *)
(** * Stripping bracketed segments *)
(* ===================================================================== *)

Module StripParentheses.
Import PyStr DescriptionText.
Local Open Scope Z_scope.

(** No [open] is followed, anywhere later, by a [close]. *)
Fixpoint unmatched (open close : Z) (s : list Z) : Prop :=
  match s with
  | [] => True
  | x :: s' => (x = open -> close ∉ s') /\ unmatched open close s'
  end.

(** [s'] is [s] with characters taken out and spaces put in. *)
Inductive thinned : list Z -> list Z -> Prop :=
| thinned_nil : thinned [] []
| thinned_keep x s s' : thinned s s' -> thinned (x :: s) (x :: s')
| thinned_drop x s s' : thinned s s' -> thinned (x :: s) s'
| thinned_space s s' : thinned s s' -> thinned s (32 :: s').

(** A run of non-blank characters. *)
Definition solid (l : list Z) : Prop :=
  Forall (fun c => py_isspace c = false) l.

Definition word (l : list Z) : Prop := l <> [] /\ solid l.

(** [" ".join(s.split())] *)
Definition normalise (s : list Z) : list Z := join 32 (py_split_ws s).

(** ** Thinning *)

Lemma thinned_refl s : thinned s s.
Proof. induction s; by constructor. Qed.

Lemma thinned_to_nil s : thinned s [].
Proof. induction s; by constructor. Qed.

Lemma thinned_app_drop pre s s' : thinned s s' -> thinned (pre ++ s) s'.
Proof. intros H. induction pre; [done|]. by apply thinned_drop. Qed.

Lemma thinned_app_keep pre s s' : thinned s s' -> thinned (pre ++ s) (pre ++ s').
Proof. intros H. induction pre; [done|]. by apply thinned_keep. Qed.

Lemma thinned_elem s s' e : thinned s s' -> e ∈ s' -> e ∈ s \/ e = 32.
Proof.
  induction 1 as [|x s s' H IH|x s s' H IH|s s' H IH]; intros He.
  - by left.
  - apply elem_of_cons in He as [->|He]; [left; left|].
    destruct (IH He); [left; by right|by right].
  - destruct (IH He); [left; by right|by right].
  - apply elem_of_cons in He as [->|He]; [by right|auto].
Qed.

Lemma thinned_unmatched open close s s' :
  open <> 32 -> close <> 32 ->
  thinned s s' -> unmatched open close s -> unmatched open close s'.
Proof.
  intros Ho Hc. induction 1 as [|x s s' H IH|x s s' H IH|s s' H IH];
    cbn [unmatched]; intros Hu.
  - done.
  - destruct Hu as [Hx Hu]. split; [|auto].
    intros -> Hin. destruct (thinned_elem _ _ _ H Hin); [by apply Hx|done].
  - destruct Hu as [_ Hu]. auto.
  - split; [done|auto].
Qed.

(** ** The substitution *)

Lemma lstrip_suffix s : exists pre, s = pre ++ lstrip s.
Proof.
  induction s as [|c s [pre IH]]; [by exists []|]. cbn [lstrip].
  destruct (py_isspace c); [|by exists []].
  exists (c :: pre). cbn. by rewrite <- IH.
Qed.

Lemma after_first_suffix close s r :
  after_first close s = Some r -> exists pre, s = pre ++ r.
Proof.
  induction s as [|c s IH]; [done|]. cbn [after_first].
  destruct (c =? close).
  - intros [= <-]. by exists [c].
  - intros H. destruct (IH H) as [pre ->]. by exists (c :: pre).
Qed.

Lemma after_first_None close s : after_first close s = None <-> close ∉ s.
Proof.
  induction s as [|c s IH]; cbn [after_first].
  - split; [intros _; apply not_elem_of_nil|done].
  - rewrite not_elem_of_cons. destruct (Z.eqb_spec c close) as [->|Hne].
    + split; [done|]. intros [H _]. done.
    + rewrite IH. split; [intros H; split; [congruence|done]|tauto].
Qed.

Lemma match_bracketed_suffix open close s rest :
  match_bracketed open close s = Some rest ->
  exists pre, s = pre ++ rest /\ pre <> [].
Proof.
  unfold match_bracketed. destruct (lstrip_suffix s) as [p1 Hs].
  destruct (lstrip s) as [|c s1]; [done|].
  destruct (c =? open); [|done].
  destruct (after_first close s1) as [r|] eqn:E; [|done].
  cbn. intros [= <-].
  destruct (after_first_suffix _ _ _ E) as [p2 ->].
  destruct (lstrip_suffix r) as [p3 Hr].
  exists (p1 ++ c :: p2 ++ p3). split.
  - rewrite Hs. rewrite <- app_assoc. f_equal. cbn [app]. f_equal.
    rewrite <- app_assoc. f_equal. exact Hr.
  - by destruct p1.
Qed.

Lemma sub_bracketed_thinned fuel open close s :
  thinned s (sub_bracketed_fuel fuel open close s).
Proof.
  revert s. induction fuel as [|fuel IH]; intros s; cbn [sub_bracketed_fuel].
  - apply thinned_refl.
  - destruct s as [|c s']; [constructor|].
    destruct (match_bracketed open close (c :: s')) as [rest|] eqn:E.
    + apply match_bracketed_suffix in E as (pre & -> & _).
      apply thinned_space, thinned_app_drop, IH.
    + apply thinned_keep, IH.
Qed.

Lemma sub_bracketed_unmatched fuel open close s :
  py_isspace open = false -> open <> 32 -> close <> 32 ->
  (length s <= fuel)%nat ->
  unmatched open close (sub_bracketed_fuel fuel open close s).
Proof.
  intros Hsp Ho Hc. revert s.
  induction fuel as [|fuel IH]; intros s Hlen; cbn [sub_bracketed_fuel].
  - by destruct s; [|cbn in Hlen; lia].
  - destruct s as [|c s']; [done|].
    destruct (match_bracketed open close (c :: s')) as [rest|] eqn:E.
    + cbn [unmatched]. split; [done|]. apply IH.
      apply match_bracketed_suffix in E as (pre & E & Hpre).
      apply (f_equal length) in E. rewrite length_app in E. cbn in *.
      destruct pre; [done|]. cbn in E. lia.
    + cbn [unmatched]. split; [|apply IH; cbn in Hlen; lia].
      intros -> Hin.
      unfold match_bracketed in E. cbn [lstrip] in E. rewrite Hsp in E.
      rewrite Z.eqb_refl in E.
      destruct (after_first close s') eqn:Ea; [done|].
      apply after_first_None in Ea.
      destruct (thinned_elem _ _ _
                  (sub_bracketed_thinned fuel open close s') Hin); done.
Qed.

Lemma unmatched_tail open close pre s :
  unmatched open close (pre ++ s) -> unmatched open close s.
Proof. induction pre; cbn [app unmatched]; [done|]. intros [_ H]. auto. Qed.

Lemma sub_bracketed_id fuel open close s :
  unmatched open close s -> sub_bracketed_fuel fuel open close s = s.
Proof.
  revert s. induction fuel as [|fuel IH]; intros s Hu; [done|].
  cbn [sub_bracketed_fuel]. destruct s as [|c s']; [done|].
  assert (match_bracketed open close (c :: s') = None) as ->.
  { unfold match_bracketed.
    destruct (lstrip_suffix (c :: s')) as [pre Hs].
    destruct (lstrip (c :: s')) as [|x s1]; [done|].
    rewrite Hs in Hu. apply unmatched_tail in Hu as [Hx _].
    destruct (Z.eqb_spec x open) as [->|]; [|done].
    by rewrite (proj2 (after_first_None close s1) (Hx eq_refl)). }
  f_equal. apply IH. by destruct Hu.
Qed.

(** ** Words *)

Lemma split_ws_words cur s :
  solid cur -> Forall word (py_split_ws_from cur s).
Proof.
  revert cur. induction s as [|c s IH]; intros cur Hcur;
    cbn [py_split_ws_from].
  - destruct cur as [|x cur]; [constructor|].
    constructor; [|constructor]. split.
    + intros H. apply (f_equal (@length Z)) in H.
      rewrite length_rev in H. done.
    + apply Forall_forall. intros y Hy. unfold solid in Hcur.
      rewrite Forall_forall in Hcur. apply Hcur.
      by apply list_elem_of_In, in_rev, list_elem_of_In.
  - destruct (py_isspace c) eqn:E.
    + destruct cur as [|x cur]; [apply IH; constructor|].
      constructor; [|apply IH; constructor]. split.
      * intros H. apply (f_equal (@length Z)) in H.
        rewrite length_rev in H. done.
      * apply Forall_forall. intros y Hy. unfold solid in Hcur.
        rewrite Forall_forall in Hcur. apply Hcur.
        by apply list_elem_of_In, in_rev, list_elem_of_In.
    + apply IH. by constructor.
Qed.

Lemma split_ws_from_solid w cur rest :
  solid w ->
  py_split_ws_from cur (w ++ rest) = py_split_ws_from (rev w ++ cur) rest.
Proof.
  revert cur. induction w as [|x w IH]; intros cur Hw; [done|].
  apply Forall_cons in Hw as [Hx Hw].
  cbn [app py_split_ws_from]. rewrite Hx, IH by done.
  cbn [rev]. by rewrite <- app_assoc.
Qed.

Lemma split_ws_join ws :
  Forall word ws -> py_split_ws (join 32 ws) = ws.
Proof.
  unfold py_split_ws.
  induction ws as [|l ls IH]; intros Hws; [done|].
  apply Forall_cons in Hws as [[Hne Hl] Hls].
  assert (rev l <> []) as Hrev.
  { intros H. apply (f_equal (@length Z)) in H. rewrite length_rev in H.
    by destruct l. }
  destruct ls as [|l' ls'].
  - cbn [join]. rewrite <- (app_nil_r l) at 1.
    rewrite split_ws_from_solid by done. rewrite app_nil_r.
    cbn [py_split_ws_from]. destruct (rev l) eqn:E; [done|].
    by rewrite <- E, rev_involutive.
  - change (join 32 (l :: l' :: ls')) with (l ++ 32 :: join 32 (l' :: ls')).
    rewrite split_ws_from_solid by done. rewrite app_nil_r.
    cbn [py_split_ws_from]. change (py_isspace 32) with true. cbn iota.
    destruct (rev l) eqn:E; [done|].
    rewrite <- E, rev_involutive. f_equal. by apply IH.
Qed.

Lemma join_words_head ws :
  Forall word ws -> ws <> [] ->
  exists x s, join 32 ws = x :: s /\ py_isspace x = false.
Proof.
  intros Hws Hne. destruct ws as [|l ls]; [done|].
  apply Forall_cons in Hws as [[Hl Hs] _].
  destruct l as [|x l]; [done|]. apply Forall_cons in Hs as [Hx _].
  destruct ls; cbn [join app]; eauto.
Qed.

Lemma join_words_last ws :
  Forall word ws -> ws <> [] ->
  exists s z, join 32 ws = s ++ [z] /\ py_isspace z = false.
Proof.
  induction ws as [|l ls IH]; intros Hws Hne; [done|].
  apply Forall_cons in Hws as [[Hl Hs] Hls].
  destruct ls as [|l' ls'].
  - cbn [join]. destruct (exists_last Hl) as (s & z & ->).
    exists s, z. split; [done|].
    apply Forall_app in Hs as [_ Hz]. by apply Forall_cons in Hz as [? _].
  - destruct (IH Hls ltac:(done)) as (s & z & E & Hz).
    change (join 32 (l :: l' :: ls')) with (l ++ 32 :: join 32 (l' :: ls')).
    rewrite E. exists (l ++ 32 :: s), z. split; [|done].
    by rewrite <- app_assoc.
Qed.

Lemma strip_join_words ws :
  Forall word ws -> py_strip (join 32 ws) = join 32 ws.
Proof.
  intros Hws. destruct ws as [|l ls]; [done|].
  destruct (join_words_head (l :: ls) Hws ltac:(done)) as (x & s & E & Hx).
  destruct (join_words_last (l :: ls) Hws ltac:(done)) as (s' & z & E' & Hz).
  unfold py_strip. rewrite E. cbn [lstrip]. rewrite Hx, <- E, E'.
  rewrite rev_unit. cbn [lstrip]. rewrite Hz.
  by rewrite <- (rev_unit s' z), rev_involutive.
Qed.

Lemma normalise_thinned s : thinned s (normalise s).
Proof.
  unfold normalise, py_split_ws.
  assert (forall cur, thinned (rev cur ++ s)
                        (join 32 (py_split_ws_from cur s))) as H;
    [|apply (H [])].
  induction s as [|c s IH]; intros cur; cbn [py_split_ws_from].
  - rewrite app_nil_r. destruct cur; [constructor|]. apply thinned_refl.
  - destruct (py_isspace c).
    + destruct cur as [|x cur].
      * apply thinned_drop, (IH []).
      * specialize (IH []). cbn [rev app] in IH.
        destruct (py_split_ws_from [] s) as [|l' ls'] eqn:E.
        -- cbn [join]. rewrite <- (app_nil_r (rev (x :: cur))) at 2.
           apply thinned_app_keep, thinned_to_nil.
        -- change (join 32 (rev (x :: cur) :: l' :: ls'))
             with (rev (x :: cur) ++ 32 :: join 32 (l' :: ls')).
           apply thinned_app_keep, thinned_drop, thinned_space, IH.
    + specialize (IH (c :: cur)). cbn [rev] in IH.
      by rewrite <- app_assoc in IH.
Qed.

Lemma strip_normalise s : py_strip (normalise s) = normalise s.
Proof. apply strip_join_words, split_ws_words. constructor. Qed.

Lemma normalise_idempotent s : normalise (normalise s) = normalise s.
Proof.
  unfold normalise at 1 3. f_equal. apply split_ws_join, split_ws_words.
  constructor.
Qed.

Lemma _strip_parentheses_eq text :
  _strip_parentheses text
  = normalise (sub_bracketed 91 93 (sub_bracketed 40 41 text)).
Proof.
  unfold _strip_parentheses. destruct text as [|c text]; [done|].
  apply strip_normalise.
Qed.

Lemma strip_parentheses_fixed (text : list Z) :
  let out := _strip_parentheses text in
  _strip_parentheses out = out
  /\ unmatched 40 41 out
  /\ unmatched 91 93 out
  /\ normalise out = out.
Proof.
  cbn zeta. rewrite (_strip_parentheses_eq text).
  set (s1 := sub_bracketed 40 41 text).
  set (s2 := sub_bracketed 91 93 s1).
  assert (unmatched 40 41 (normalise s2)) as Hp.
  { apply (thinned_unmatched 40 41 s2); [done..|apply normalise_thinned|].
    apply (thinned_unmatched 40 41 s1);
      [done..|apply sub_bracketed_thinned|].
    by apply sub_bracketed_unmatched. }
  assert (unmatched 91 93 (normalise s2)) as Hb.
  { apply (thinned_unmatched 91 93 s2); [done..|apply normalise_thinned|].
    by apply sub_bracketed_unmatched. }
  split; [|split; [done|split; [done|apply normalise_idempotent]]].
  rewrite _strip_parentheses_eq. unfold sub_bracketed.
  rewrite (sub_bracketed_id _ 40 41 (normalise s2)) by done.
  rewrite (sub_bracketed_id _ 91 93 (normalise s2)) by done.
  apply normalise_idempotent.
Qed.

(** X22.  Stripping bracketed segments is idempotent: in its result no
    "(" is followed later by a ")", no "[" by a "]", and the words are
    separated by single spaces with none at either end, so a second
    pass returns the text as it is.  The second application in the
    description update (line 84, on the result of
    [build_simple_description]) therefore changes nothing. *)
Theorem strip_parentheses_idempotent (text : list Z) :
  let out := _strip_parentheses text in
  _strip_parentheses out = out
  /\ unmatched 40 41 out
  /\ unmatched 91 93 out
  /\ normalise out = out
  /\ forall track_uris,
       _strip_parentheses (build_simple_description text track_uris)
       = build_simple_description text track_uris.
Proof.
  cbn zeta. destruct (strip_parentheses_fixed text) as (H1 & H2 & H3 & H4).
  split; [done|]. split; [done|]. split; [done|]. split; [done|].
  intros track_uris. unfold build_simple_description.
  destruct text as [|c text]; [done|].
  apply (strip_parentheses_fixed (py_strip (c :: text))).
Qed.

End StripParentheses.

(* ===================================================================== *)
(** * The step loop of a run ([sync.py]) *)
(* ===================================================================== *)

Module Pipeline.
Import Py Config Calendar Spotify DescriptionText Descriptions Reconcile.
Import Update Consolidation SyncOptions OnlyAdds CurrentYear.

Section StepLoop.
Context (rt : runtime) (cfg : config) (sp : client).

(** The steps whose code is not in the repository's sources read here:
    the library sync of the missing client library, the renaming of the
    missing catalog module, and the bodies of the two reports. *)
Variable sync_full_library : bool -> M bool.
Variable rename_playlists_with_old_prefixes : M unit.
Variable health_check_report : M unit.
Variable insights_report : M unit.

Variable get_most_played_tracks : list history_event -> list string.
Variable get_discovery_tracks : list history_event -> list string.
Variable get_liked_song_uris : M (list string).

(** What a run reads from the clock and the data directory: the time,
    the liked-songs rows, the streaming history, and the ids of the
    owned rows of [playlists.parquet] ([None] when the file is missing;
    an empty id for a row without one). *)
Record run_data := {
  rd_now : datetime;
  rd_liked : list liked_row;
  rd_history : option (list history_event);
  rd_owned : option (list string);
}.

(** The "descriptions" step (lines 309-333). *)
Definition descriptions_step (user_id : string)
    (owned : option (list string)) : M unit :=
  try_except
    (match owned with
     | None => ret tt
     | Some rows =>
         for_each rows
           (fun pid =>
              if nonempty pid
              then _update_playlist_description_with_genres rt cfg sp
                     user_id pid None;;
                   ret tt
              else ret tt)
     end)
    (fun _ => ret tt).

(** One round of the loop over [steps_to_run] (lines 283-377). *)
Definition run_step (force : bool) (data : run_data) (user_id : string)
    (step_id : string) : M unit :=
  if String.eqb step_id "sync" then sync_full_library force;; ret tt
  else if String.eqb step_id "rename"
  then rename_playlists_with_old_prefixes
  else if String.eqb step_id "delete_monthly_and_genre"
  then delete_automated_monthly_and_genre_playlists cfg sp (rd_now data)
  else if String.eqb step_id "consolidate"
  then consolidate_old_monthly_playlists rt cfg sp get_most_played_tracks
         get_discovery_tracks (rd_now data) (rd_liked data)
         (rd_history data) 0
  else if String.eqb step_id "update_current_year"
  then update_current_year_playlists rt cfg sp get_most_played_tracks
         get_discovery_tracks get_liked_song_uris (rd_now data)
         (rd_history data)
  else if String.eqb step_id "descriptions"
  then descriptions_step user_id (rd_owned data)
  else if String.eqb step_id "health_check"
  then try_except health_check_report (fun _ => ret tt)
  else if String.eqb step_id "insights_report"
  then try_except insights_report (fun _ => ret tt)
  else ret tt.

(** The loop and its [try] (lines 262-390); the result is [success]. *)
Definition run_steps (force : bool) (data : run_data) (user_id : string)
    (steps : list string) : M bool :=
  try_except
    (for_each steps (run_step force data user_id);; ret true)
    (fun _ => ret false).

(** ** Properties *)

Lemma descriptions_step_content user_id owned :
  steps same_content (descriptions_step user_id owned).
Proof.
  unfold descriptions_step.
  repeat first [ apply update_description_content | progress steps_all ].
Qed.

Lemma descriptions_step_calls user_id owned :
  steps (only_calls description_call) (descriptions_step user_id owned).
Proof.
  unfold descriptions_step.
  repeat first [ apply update_description_calls | progress steps_all ].
Qed.

Lemma descriptions_step_total user_id owned :
  total (descriptions_step user_id owned).
Proof. apply total_try_except. intros _. apply total_ret. Qed.

(** A step that is "descriptions" or is not a step at all. *)
Definition describes_or_unknown (step_id : string) : Prop :=
  step_id = "descriptions"%string \/ step_id ∉ SYNC_STEP_IDS.

(** A step that only adds: "update_current_year", "descriptions", or
    not a step at all. *)
Definition adds_or_unknown (step_id : string) : Prop :=
  step_id = "update_current_year"%string
  \/ step_id = "descriptions"%string \/ step_id ∉ SYNC_STEP_IDS.

Ltac step_cases step_id H :=
  unfold run_step;
  repeat
    match goal with
    | |- context [String.eqb step_id ?x] =>
        destruct (String.eqb_spec step_id x) as [->|?];
        [try (exfalso; unfold describes_or_unknown, adds_or_unknown in H;
              repeat (destruct H as [H|H]; try discriminate H);
              apply H; unfold SYNC_STEP_IDS;
              repeat first [ by left | right ])|]
    end.

Lemma run_step_describes force data user_id step_id :
  describes_or_unknown step_id ->
  steps same_content (run_step force data user_id step_id)
  /\ steps (only_calls description_call)
       (run_step force data user_id step_id)
  /\ total (run_step force data user_id step_id).
Proof.
  intros H. step_cases step_id H.
  - split; [apply descriptions_step_content|].
    split; [apply descriptions_step_calls|apply descriptions_step_total].
  - split; [apply steps_ret; tc_solve|].
    split; [apply steps_ret; tc_solve|apply total_ret].
Qed.

Hypothesis Hfresh : fresh_ids sp.
Hypothesis Hliked_grow : steps playlists_grow get_liked_song_uris.
Hypothesis Hliked_keeps :
  steps (only_calls keeps_playlists) get_liked_song_uris.

Lemma run_step_adds force data user_id step_id :
  adds_or_unknown step_id ->
  steps playlists_grow (run_step force data user_id step_id)
  /\ steps (only_calls keeps_playlists)
       (run_step force data user_id step_id)
  /\ total (run_step force data user_id step_id).
Proof.
  intros H. step_cases step_id H.
  - split; [by apply update_current_year_playlists_grow|].
    split; [by apply update_current_year_playlists_keeps|].
    apply total_handle_errors.
  - split.
    { eapply steps_mono; [|apply descriptions_step_content].
      apply same_content_grow. }
    split; [|apply descriptions_step_total].
    eapply steps_mono; [|apply descriptions_step_calls].
    intros w w'. apply only_calls_mono. intros c Hc q Hq.
    unfold description_call in Hc. by rewrite Hq in Hc.
  - split; [apply steps_ret; tc_solve|].
    split; [apply steps_ret; tc_solve|apply total_ret].
Qed.

End StepLoop.

Lemma total_for_each_in {A} (l : list A) (body : A -> M unit) :
  (forall x, x ∈ l -> total (body x)) -> total (for_each l body).
Proof.
  induction l as [|x l IH]; intros Hb; cbn; [apply total_ret|].
  apply total_bind; [apply Hb; left|].
  intros _. apply IH. intros y Hy. apply Hb. by right.
Qed.

(** A loop whose rounds never raise and keep [R] succeeds and keeps
    [R]. *)
Lemma run_steps_spec (R : relation world) `{!Reflexive R, !Transitive R}
    (body : string -> M unit) (steps_to_run : list string) (w : world) :
  (forall s, s ∈ steps_to_run -> steps R (body s) /\ total (body s)) ->
  let run :=
    try_except (for_each steps_to_run body;; ret true)
      (fun _ => ret false) w in
  run.1 = Ok true /\ R w run.2.
Proof.
  intros Hbody. cbn zeta.
  assert (total (for_each steps_to_run body)) as Ht.
  { apply total_for_each_in. intros s Hs. by apply Hbody. }
  assert (steps R (for_each steps_to_run body)) as Hs.
  { apply steps_for_each; [tc_solve..|]. intros s Hs. by apply Hbody. }
  unfold try_except. rewrite bind_run.
  destruct (Ht w) as [[] Hok]. specialize (Hs w).
  destruct (for_each steps_to_run body w) as [[[]|e] w']; [|done].
  done.
Qed.

(** X23.  A run whose steps are all "descriptions" or unknown
    names succeeds, leaves the name and the tracks of every playlist as
    they were, creates and deletes nothing, and sends the service only
    reads and changes of descriptions; this whatever the owned rows,
    the library sync, the rename step and the reports would do. *)
Theorem descriptions_run_changes_descriptions_only (rt : runtime)
    (cfg : config) (sp : client) (sync_full_library : bool -> M bool)
    (rename_playlists_with_old_prefixes health_check_report
       insights_report : M unit)
    (get_most_played_tracks get_discovery_tracks :
       list history_event -> list string)
    (get_liked_song_uris : M (list string)) (force : bool)
    (data : run_data) (user_id : string) (steps_to_run : list string)
    (w : world) :
  Forall describes_or_unknown steps_to_run ->
  let run := run_steps rt cfg sp sync_full_library
               rename_playlists_with_old_prefixes health_check_report
               insights_report get_most_played_tracks get_discovery_tracks
               get_liked_song_uris force data user_id steps_to_run w in
  run.1 = Ok true
  /\ same_content w run.2
  /\ only_calls description_call w run.2.
Proof.
  intros Hsteps. rewrite Forall_forall in Hsteps. cbn zeta.
  unfold run_steps.
  split; [|split].
  - apply (run_steps_spec same_content). intros s Hs.
    destruct (run_step_describes rt cfg sp sync_full_library
                rename_playlists_with_old_prefixes health_check_report
                insights_report get_most_played_tracks get_discovery_tracks
                get_liked_song_uris force data user_id s (Hsteps s Hs))
      as (? & ? & ?).
    done.
  - apply (run_steps_spec same_content). intros s Hs.
    destruct (run_step_describes rt cfg sp sync_full_library
                rename_playlists_with_old_prefixes health_check_report
                insights_report get_most_played_tracks get_discovery_tracks
                get_liked_song_uris force data user_id s (Hsteps s Hs))
      as (? & ? & ?).
    done.
  - apply (run_steps_spec (only_calls description_call)). intros s Hs.
    destruct (run_step_describes rt cfg sp sync_full_library
                rename_playlists_with_old_prefixes health_check_report
                insights_report get_most_played_tracks get_discovery_tracks
                get_liked_song_uris force data user_id s (Hsteps s Hs))
      as (? & ? & ?).
    done.
Qed.

Lemma descriptions_run_changes_descriptions_only_witness :
  let data := {| rd_now := nov_2024; rd_liked := []; rd_history := None;
                 rd_owned := Some ["p1"%string] |} in
  let w := world_of [("p1"%string, finds_2024)] in
  let run := run_steps runtime_excerpt default_config demo_client
               (fun _ => ret true) (ret tt) (ret tt) (ret tt)
               (fun _ => []) (fun _ => []) (ret [])
               false data "me" ["descriptions"; "no_such_step"]%string w in
  run.1 = Ok true
  /\ same_content w run.2
  /\ only_calls description_call w run.2.
Proof.
  apply (descriptions_run_changes_descriptions_only runtime_excerpt
           default_config demo_client (fun _ => ret true) (ret tt) (ret tt)
           (ret tt) (fun _ => []) (fun _ => []) (ret []) false).
  apply Forall_cons. split; [by left|].
  apply Forall_cons. split; [|by apply Forall_nil].
  right. refine (bool_decide_unpack _ _). vm_compute. exact I.
Defined.

(** X24.  When the service gives new playlists unused identifiers
    and reading the liked songs loses nothing and asks for no deletion,
    a run whose steps are all "update_current_year", "descriptions" or
    unknown names succeeds, removes no playlist, renames none, takes no
    track out of any, and asks for no deletion. *)
Theorem adding_run_only_adds (rt : runtime) (cfg : config) (sp : client)
    (sync_full_library : bool -> M bool)
    (rename_playlists_with_old_prefixes health_check_report
       insights_report : M unit)
    (get_most_played_tracks get_discovery_tracks :
       list history_event -> list string)
    (get_liked_song_uris : M (list string)) (force : bool)
    (data : run_data) (user_id : string) (steps_to_run : list string)
    (w : world) :
  fresh_ids sp ->
  steps playlists_grow get_liked_song_uris ->
  steps (only_calls keeps_playlists) get_liked_song_uris ->
  Forall adds_or_unknown steps_to_run ->
  let run := run_steps rt cfg sp sync_full_library
               rename_playlists_with_old_prefixes health_check_report
               insights_report get_most_played_tracks get_discovery_tracks
               get_liked_song_uris force data user_id steps_to_run w in
  run.1 = Ok true
  /\ playlists_grow w run.2
  /\ only_calls keeps_playlists w run.2.
Proof.
  intros Hf Hg Hk Hsteps. rewrite Forall_forall in Hsteps. cbn zeta.
  unfold run_steps.
  split; [|split].
  - apply (run_steps_spec playlists_grow). intros s Hs.
    destruct (run_step_adds rt cfg sp sync_full_library
                rename_playlists_with_old_prefixes health_check_report
                insights_report get_most_played_tracks get_discovery_tracks
                get_liked_song_uris Hf Hg Hk force data user_id s
                (Hsteps s Hs)) as (? & ? & ?).
    done.
  - apply (run_steps_spec playlists_grow). intros s Hs.
    destruct (run_step_adds rt cfg sp sync_full_library
                rename_playlists_with_old_prefixes health_check_report
                insights_report get_most_played_tracks get_discovery_tracks
                get_liked_song_uris Hf Hg Hk force data user_id s
                (Hsteps s Hs)) as (? & ? & ?).
    done.
  - apply (run_steps_spec (only_calls keeps_playlists)). intros s Hs.
    destruct (run_step_adds rt cfg sp sync_full_library
                rename_playlists_with_old_prefixes health_check_report
                insights_report get_most_played_tracks get_discovery_tracks
                get_liked_song_uris Hf Hg Hk force data user_id s
                (Hsteps s Hs)) as (? & ? & ?).
    done.
Qed.

Lemma adding_run_only_adds_witness :
  let data := {| rd_now := nov_2024; rd_liked := []; rd_history := None;
                 rd_owned := Some ["p1"%string] |} in
  let w := world_of [("p1"%string, finds_2024)] in
  let run := run_steps runtime_excerpt default_config demo_client
               (fun _ => ret true) (ret tt) (ret tt) (ret tt)
               (fun _ => []) (fun _ => [])
               (ret ["spotify:track:b"%string])
               false data "me"
               ["update_current_year"; "descriptions"]%string w in
  run.1 = Ok true
  /\ playlists_grow w run.2
  /\ only_calls keeps_playlists w run.2.
Proof.
  apply (adding_run_only_adds runtime_excerpt default_config demo_client
           (fun _ => ret true) (ret tt) (ret tt) (ret tt)
           (fun _ => []) (fun _ => []) (ret ["spotify:track:b"%string])
           false).
  - exact demo_client_fresh_ids.
  - intros w. reflexivity.
  - intros w. reflexivity.
  - apply Forall_cons. split; [by left|].
    apply Forall_cons. split; [by right; left|by apply Forall_nil].
Defined.

End Pipeline.
